(** * justjshtml: a shallow embedding of the parsing engine

  The development follows the TypeScript sources: JavaScript strings are
  sequences of UTF-16 code units ([list Z]), byte arrays are [list Z],
  the mutable node tree is an arena of node records addressed by index,
  and every stateful routine threads its state explicitly. *)

From Stdlib Require Import ZArith List String Ascii Bool Lia
  FunctionalExtensionality.
From stdpp Require Import base tactics option list.

Import ListNotations.
Local Open Scope Z_scope.
Local Open Scope list_scope.

(** ** JavaScript strings *)

Module JS.

(** A JavaScript string: its UTF-16 code units. *)
Abbreviation jsstring := (list Z).

(** An ASCII literal of the source, as code units. *)
Definition lit (s : string) : jsstring :=
  List.map (fun a => Z.of_N (N_of_ascii a)) (list_ascii_of_string s).

Fixpoint str_eqb (a b : jsstring) : bool :=
  match a, b with
  | [], [] => true
  | x :: a', y :: b' => (x =? y) && str_eqb a' b'
  | _, _ => false
  end.

(** [set.has(name)] for a [Set] of strings written out in the source. *)
Definition str_in (a : jsstring) (l : list jsstring) : bool :=
  existsb (str_eqb a) l.

(** [s.slice(a, b)] for [0 <= a], [0 <= b]. *)
Definition slice (s : jsstring) (a b : nat) : jsstring :=
  firstn (b - a) (skipn a s).

(** [s.slice(a)]. *)
Definition sliceFrom (s : jsstring) (a : nat) : jsstring := skipn a s.

(** [s.indexOf(c, i)] for a one-unit needle; [None] is [-1]. *)
Fixpoint indexOfFrom (c : Z) (s : jsstring) (i : nat) : option nat :=
  match s with
  | [] => None
  | x :: s' =>
      match i with
      | O => if x =? c then Some O
             else option_map S (indexOfFrom c s' O)
      | S i' => option_map S (indexOfFrom c s' i')
      end
  end.

(** [s.includes(c)] for a one-unit needle. *)
Definition includes (c : Z) (s : jsstring) : bool := existsb (Z.eqb c) s.

(** [parts.join("")]. *)
Definition join (parts : list jsstring) : jsstring := List.concat parts.

(** [parts.join(separator)]. *)
Fixpoint joinWith (separator : jsstring) (parts : list jsstring)
  : jsstring :=
  match parts with
  | [] => []
  | [p] => p
  | p :: parts' => p ++ separator ++ joinWith separator parts'
  end.

(** [String.fromCodePoint(cp)]; [None] is the [RangeError] raised outside
    [0 .. 0x10FFFF]. *)
Definition fromCodePoint (cp : Z) : option jsstring :=
  if (cp <? 0) || (0x10FFFF <? cp) then None
  else if cp <? 0x10000 then Some [cp]
  else Some [0xD800 + Z.shiftr (cp - 0x10000) 10;
             0xDC00 + Z.land (cp - 0x10000) 0x3FF].

(** WhiteSpace and LineTerminator code units, as [String.prototype.trim]
    and [parseInt] strip them. *)
Definition isStrWhiteSpace (c : Z) : bool :=
  (c =? 0x09) || (c =? 0x0A) || (c =? 0x0B) || (c =? 0x0C) || (c =? 0x0D)
  || (c =? 0x20) || (c =? 0xA0) || (c =? 0x1680)
  || ((0x2000 <=? c) && (c <=? 0x200A))
  || (c =? 0x2028) || (c =? 0x2029) || (c =? 0x202F) || (c =? 0x205F)
  || (c =? 0x3000) || (c =? 0xFEFF).

Fixpoint dropWhile (p : Z -> bool) (s : jsstring) : jsstring :=
  match s with
  | [] => []
  | x :: s' => if p x then dropWhile p s' else s
  end.

(** [s.trim()]. *)
Definition trim (s : jsstring) : jsstring :=
  rev (dropWhile isStrWhiteSpace (rev (dropWhile isStrWhiteSpace s))).

(** The value of a digit character in some radix up to 36. *)
Definition digitValue (c : Z) : option Z :=
  if (0x30 <=? c) && (c <=? 0x39) then Some (c - 0x30)
  else if (0x61 <=? c) && (c <=? 0x7A) then Some (c - 0x61 + 10)
  else if (0x41 <=? c) && (c <=? 0x5A) then Some (c - 0x41 + 10)
  else None.

Definition radixDigit (base c : Z) : option Z :=
  match digitValue c with
  | Some d => if d <? base then Some d else None
  | None => None
  end.

(** The longest prefix of radix digits, as a number; [None] (NaN) when
    that prefix is empty. *)
Fixpoint parseDigits (base acc : Z) (seen : bool) (s : jsstring)
  : option Z :=
  match s with
  | [] => if seen then Some acc else None
  | c :: s' =>
      match radixDigit base c with
      | Some d => parseDigits base (acc * base + d) true s'
      | None => if seen then Some acc else None
      end
  end.

Definition stripHexPrefix (s : jsstring) : jsstring :=
  match s with
  | 0x30 :: x :: r => if (x =? 0x78) || (x =? 0x58) then r else s
  | _ => s
  end.

(** [Number.parseInt(text, base)] for [base] 10 or 16; [None] is NaN.
    The result is kept as the exact integer: the double JavaScript
    returns is that integer below 2^53 and is at least 2^53 above it, so
    every comparison made on it by the callers is unchanged. *)
Definition parseInt (text : jsstring) (base : Z) : option Z :=
  let s := dropWhile isStrWhiteSpace text in
  let '(sign, s) :=
    match s with
    | 0x2D :: r => (-1, r)
    | 0x2B :: r => (1, r)
    | _ => (1, s)
    end in
  let s := if base =? 16 then stripHexPrefix s else s in
  option_map (Z.mul sign) (parseDigits base 0 false s).

Definition isAsciiAlpha (c : Z) : bool :=
  ((0x41 <=? c) && (c <=? 0x5A)) || ((0x61 <=? c) && (c <=? 0x7A)).

Definition isAsciiDigit (c : Z) : bool := (0x30 <=? c) && (c <=? 0x39).

Definition isAsciiAlphanumeric (c : Z) : bool :=
  isAsciiAlpha c || isAsciiDigit c.

Definition asciiLower (c : Z) : Z :=
  if (0x41 <=? c) && (c <=? 0x5A) then c + 0x20 else c.

(** What a routine that may throw returns: its value or the exception it
    raises. Two more outcomes belong to the model and to no behaviour of
    the source: [OutOfFuel], when the bound given to a loop was too small,
    and [Unmodelled], when the run reaches a handler of the source that
    this development does not embed. *)
Inductive result (A : Type) : Type :=
| Ok (a : A)
| Raise (msg : string)
| OutOfFuel
| Unmodelled (what : string).

Arguments Ok {A} a.
Arguments Raise {A} msg.
Arguments OutOfFuel {A}.
Arguments Unmodelled {A} what.

#[global] Instance result_ret : MRet result := fun A a => Ok a.
#[global] Instance result_bind : MBind result := fun A B f m =>
  match m with
  | Ok a => f a
  | Raise msg => Raise msg
  | OutOfFuel => OutOfFuel
  | Unmodelled what => Unmodelled what
  end.

(** [s.toLowerCase()] on code units: the ASCII capitals, the Kelvin sign
    (whose lower case is [k]) and the dotted capital I (two units). Every
    other unit that JavaScript changes becomes a unit outside ASCII; it is
    kept as it is, which no comparison with an ASCII label can see. *)
Definition toLowerCase (s : jsstring) : jsstring :=
  List.concat
    (List.map (fun c =>
                 if (0x41 <=? c) && (c <=? 0x5A) then [c + 0x20]
                 else if c =? 0x212A then [0x6B]
                 else if c =? 0x130 then [0x69; 0x307]
                 else [c]) s).

(** A non-empty string is truthy. *)
Definition truthy (s : jsstring) : bool :=
  match s with [] => false | _ => true end.

(** [s[j]]. *)
Definition charAt (s : jsstring) (j : nat) : option Z := s !! j.

(** The number of leading units of [s] that satisfy [p]. *)
Fixpoint spanLen (p : Z -> bool) (s : jsstring) : nat :=
  match s with
  | [] => O
  | x :: s' => if p x then S (spanLen p s') else O
  end.

(** [while (j < s.length && p(s[j])) j += 1], as the final [j]. *)
Definition scanWhile (p : Z -> bool) (s : jsstring) (j : nat) : nat :=
  (j + spanLen p (skipn j s))%nat.

(** [j < s.length && s[j] === c]. *)
Definition charIs (s : jsstring) (j : nat) (c : Z) : bool :=
  match charAt s j with
  | Some x => x =? c
  | None => false
  end.

End JS.

Import JS.

(** ** Character references (entities.ts) *)

Module Entities.

(** Named character references that HTML allows to be parsed in legacy
    contexts. *)
Definition LEGACY_ENTITIES : list jsstring :=
  List.map lit
    ["gt"; "lt"; "amp"; "quot"; "nbsp"; "AMP"; "QUOT"; "GT"; "LT"; "COPY";
     "REG"; "AElig"; "Aacute"; "Acirc"; "Agrave"; "Aring"; "Atilde"; "Auml";
     "Ccedil"; "ETH"; "Eacute"; "Ecirc"; "Egrave"; "Euml"; "Iacute"; "Icirc";
     "Igrave"; "Iuml"; "Ntilde"; "Oacute"; "Ocirc"; "Ograve"; "Oslash";
     "Otilde"; "Ouml"; "THORN"; "Uacute"; "Ucirc"; "Ugrave"; "Uuml";
     "Yacute"; "aacute"; "acirc"; "acute"; "aelig"; "agrave"; "aring";
     "atilde"; "auml"; "brvbar"; "ccedil"; "cedil"; "cent"; "copy";
     "curren"; "deg"; "divide"; "eacute"; "ecirc"; "egrave"; "eth"; "euml";
     "frac12"; "frac14"; "frac34"; "iacute"; "icirc"; "iexcl"; "igrave";
     "iquest"; "iuml"; "laquo"; "macr"; "micro"; "middot"; "not"; "ntilde";
     "oacute"; "ocirc"; "ograve"; "ordf"; "ordm"; "oslash"; "otilde";
     "ouml"; "para"; "plusmn"; "pound"; "raquo"; "reg"; "sect"; "shy";
     "sup1"; "sup2"; "sup3"; "szlig"; "thorn"; "times"; "uacute"; "ucirc";
     "ugrave"; "uml"; "uuml"; "yacute"; "yen"; "yuml"]%string.

(** HTML5 numeric character reference replacements. *)
Definition NUMERIC_REPLACEMENTS : list (Z * jsstring) :=
  [ (0x00, [0xFFFD]); (0x80, [0x20AC]); (0x82, [0x201A]); (0x83, [0x0192]);
    (0x84, [0x201E]); (0x85, [0x2026]); (0x86, [0x2020]); (0x87, [0x2021]);
    (0x88, [0x02C6]); (0x89, [0x2030]); (0x8a, [0x0160]); (0x8b, [0x2039]);
    (0x8c, [0x0152]); (0x8e, [0x017D]); (0x91, [0x2018]); (0x92, [0x2019]);
    (0x93, [0x201C]); (0x94, [0x201D]); (0x95, [0x2022]); (0x96, [0x2013]);
    (0x97, [0x2014]); (0x98, [0x02DC]); (0x99, [0x2122]); (0x9a, [0x0161]);
    (0x9b, [0x203A]); (0x9c, [0x0153]); (0x9e, [0x017E]); (0x9f, [0x0178]) ].

(** [map.get(k)] on a [Map<number, string>] written as its entry list. *)
Fixpoint mapGet (k : Z) (m : list (Z * jsstring)) : option jsstring :=
  match m with
  | [] => None
  | (k', v) :: m' => if k' =? k then Some v else mapGet k m'
  end.

(** [decodeNumericEntity(text, isHex)]; [None] is the [RangeError] that
    [String.fromCodePoint] raises on NaN or a negative number. *)
Definition decodeNumericEntity (text : jsstring) (isHex : bool)
  : option jsstring :=
  let base := if isHex then 16 else 10 in
  match parseInt text base with
  | None => None
  | Some codepoint =>
      match mapGet codepoint NUMERIC_REPLACEMENTS with
      | Some replacement => Some replacement
      | None =>
          if 0x10ffff <? codepoint then Some [0xFFFD]
          else if (0xd800 <=? codepoint) && (codepoint <=? 0xdfff)
          then Some [0xFFFD]
          else fromCodePoint codepoint
      end
  end.

Definition isHexDigitChar (c : Z) : bool :=
  includes c (lit "0123456789abcdefABCDEF").

(** The body of a numeric character reference as [decodeEntitiesInText]
    cuts it out: a non-empty run of digits of the base. *)
Definition referenceBody (isHex : bool) (text : jsstring) : bool :=
  truthy text
  && forallb (if isHex then isHexDigitChar else isAsciiDigit) text.

(** The windows-1252 index of the Encoding standard on the bytes
    0x80..0x9F; the five bytes it assigns to C1 controls map to
    themselves. *)
Definition windows1252 (b : Z) : Z :=
  nth (Z.to_nat (b - 0x80))
    [0x20AC; 0x0081; 0x201A; 0x0192; 0x201E; 0x2026; 0x2020; 0x2021;
     0x02C6; 0x2030; 0x0160; 0x2039; 0x0152; 0x008D; 0x017D; 0x008F;
     0x0090; 0x2018; 0x2019; 0x201C; 0x201D; 0x2022; 0x2013; 0x2014;
     0x02DC; 0x2122; 0x0161; 0x203A; 0x0153; 0x009D; 0x017E; 0x0178]
    b.

(** A code point as a JavaScript string: one unit, or a surrogate pair
    above the basic plane. *)
Definition codePointString (cp : Z) : jsstring :=
  if cp <? 0x10000 then [cp]
  else [0xD800 + Z.shiftr (cp - 0x10000) 10;
        0xDC00 + Z.land (cp - 0x10000) 0x3FF].

Section DecodeEntities.

(** The static table [NAMED_ENTITIES] of entities-data.ts, through its
    lookup [entities.get(name)]; [entities.has(name)] is whether the lookup
    is defined. *)
Variable NAMED_ENTITIES : jsstring -> option jsstring.

Definition entitiesHas (name : jsstring) : bool :=
  match NAMED_ENTITIES name with Some _ => true | None => false end.

Definition entitiesGet (name : jsstring) : jsstring :=
  match NAMED_ENTITIES name with Some v => v | None => [] end.

(** The loop [for (let k = entityName.length; k > 0; k -= 1)] that looks
    for the longest legacy prefix; [k] counts down. *)
Fixpoint bestPrefix (entityName : jsstring) (k : nat)
  : option (jsstring * nat) :=
  match k with
  | O => None
  | S k' =>
      let prefix := slice entityName 0 k in
      if str_in prefix LEGACY_ENTITIES && entitiesHas prefix
      then Some (entitiesGet prefix, k)
      else bestPrefix entityName k'
  end.

(** [if (bestMatch)]: a match was found and is a non-empty string. *)
Definition bestMatchFound (m : option (jsstring * nat))
  : option (jsstring * nat) :=
  match m with
  | Some (v, k) => if truthy v then Some (v, k) else None
  | None => None
  end.

(** One turn of the main loop from the position [i] of an ampersand: the
    chunk pushed onto [result] and the next value of [i]. *)
Definition decodeAt (text : jsstring) (inAttribute : bool) (i : nat)
  : result (jsstring * nat) :=
  let length := List.length text in
  let j := S i in
  if charIs text j 0x23 then
    (* Numeric entity *)
    let j := S j in
    let isHex := charIs text j 0x78 || charIs text j 0x58 in
    let j := if isHex then S j else j in
    let digitStart := j in
    let j := if isHex then scanWhile isHexDigitChar text j
             else scanWhile isAsciiDigit text j in
    let hasSemicolon := charIs text j 0x3B in
    let digitText := slice text digitStart j in
    let next := if hasSemicolon then S j else j in
    if truthy digitText then
      match decodeNumericEntity digitText isHex with
      | Some r => Ok (r, next)
      | None => Raise "RangeError: Invalid code point"
      end
    else Ok (slice text i next, next)
  else
    (* Named entity (ASCII letters/digits). *)
    let j := scanWhile (fun c => isAsciiAlpha c || isAsciiDigit c) text j in
    let entityName := slice text (S i) j in
    let hasSemicolon := charIs text j 0x3B in
    if negb (truthy entityName) then Ok (lit "&", S i)
    else if hasSemicolon && entitiesHas entityName
    then Ok (entitiesGet entityName, S j)
    else
      let first :=
        if hasSemicolon && negb inAttribute
        then bestMatchFound (bestPrefix entityName (List.length entityName))
        else None in
      match first with
      | Some (bestMatch, bestMatchLen) =>
          Ok (bestMatch, (i + 1 + bestMatchLen)%nat)
      | None =>
          if str_in entityName LEGACY_ENTITIES && entitiesHas entityName
          then
            let suppressed :=
              match charAt text j with
              | Some nextChar =>
                  inAttribute
                  && (isAsciiAlphanumeric nextChar || (nextChar =? 0x3D))
              | None => false
              end in
            if suppressed then Ok (lit "&", S i)
            else Ok (entitiesGet entityName, j)
          else
            match bestMatchFound
                    (bestPrefix entityName (List.length entityName)) with
            | Some (bestMatch, bestMatchLen) =>
                if inAttribute then Ok (lit "&", S i)
                else Ok (bestMatch, (i + 1 + bestMatchLen)%nat)
            | None =>
                if hasSemicolon then Ok (slice text i (S j), S j)
                else Ok (lit "&", S i)
            end
      end.

(** The [while (i < length)] loop; every turn moves [i] forward, so
    [length] turns are enough. *)
Fixpoint decodeLoop (fuel : nat) (text : jsstring) (inAttribute : bool)
  (i : nat) (acc : list jsstring) : result (list jsstring) :=
  if (List.length text <=? i)%nat then Ok acc
  else
    match fuel with
    | O => OutOfFuel
    | S fuel' =>
        match indexOfFrom 0x26 text i with
        | None => Ok (acc ++ [sliceFrom text i])
        | Some nextAmp =>
            let acc :=
              if (i <? nextAmp)%nat then acc ++ [slice text i nextAmp]
              else acc in
            '(chunk, i') ← decodeAt text inAttribute nextAmp;
            decodeLoop fuel' text inAttribute i' (acc ++ [chunk])
        end
    end.

(** [decodeEntitiesInText(text, inAttribute)]. *)
Definition decodeEntitiesInText (text : jsstring) (inAttribute : bool)
  : result jsstring :=
  parts ← decodeLoop (List.length text) text inAttribute O [];
  mret (join parts).

End DecodeEntities.

End Entities.

(** ** Encoding resolution (encoding.ts) *)

Module Encoding.

(** Byte arrays ([Uint8Array]) are lists of numbers in [0, 255]. *)
Abbreviation bytes := (list Z).

(** An encoding label as the callers pass it: a string or a byte array. *)
Inductive label : Type :=
| LabelString (s : jsstring)
| LabelBytes (b : bytes).

Record SniffResult : Type :=
  { encoding : jsstring; bomLength : nat }.

Definition ASCII_WHITESPACE (b : Z) : bool :=
  (b =? 0x09) || (b =? 0x0a) || (b =? 0x0c) || (b =? 0x0d) || (b =? 0x20).

Definition BYTES_DASH_DASH_GT : bytes := [0x2d; 0x2d; 0x3e].
Definition BYTES_META : bytes := [0x6d; 0x65; 0x74; 0x61].
Definition BYTES_CHARSET : bytes := [0x63; 0x68; 0x61; 0x72; 0x73; 0x65; 0x74].
Definition BYTES_HTTP_EQUIV : bytes :=
  [0x68; 0x74; 0x74; 0x70; 0x2d; 0x65; 0x71; 0x75; 0x69; 0x76].
Definition BYTES_CONTENT : bytes := [0x63; 0x6f; 0x6e; 0x74; 0x65; 0x6e; 0x74].
Definition BYTES_CONTENT_TYPE : bytes :=
  [0x63; 0x6f; 0x6e; 0x74; 0x65; 0x6e; 0x74; 0x2d; 0x74; 0x79; 0x70; 0x65].

Definition asciiLowerByte (b : Z) : Z :=
  if (0x41 <=? b) && (b <=? 0x5a) then Z.lor b 0x20 else b.

Definition isAsciiAlphaByte (b : Z) : bool :=
  let c := asciiLowerByte b in (0x61 <=? c) && (c <=? 0x7a).

(** [data[i] === b]; an index past the end reads [undefined]. *)
Definition byteIs (data : bytes) (i : nat) (b : Z) : bool :=
  match data !! i with
  | Some x => x =? b
  | None => false
  end.

Definition skipAsciiWhitespace (data : bytes) (i : nat) : nat :=
  scanWhile ASCII_WHITESPACE data i.

(** [stripAsciiWhitespace(value)] on a defined value. *)
Definition stripAsciiWhitespace (value : bytes) : bytes :=
  rev (dropWhile ASCII_WHITESPACE (rev (dropWhile ASCII_WHITESPACE value))).

Definition asciiDecodeIgnore (b : bytes) : jsstring :=
  List.filter (fun x => x <=? 0x7f) b.

(** [indexOfByte(data, byte, start)]; [None] is [-1]. *)
Definition indexOfByte (data : bytes) (byte : Z) (start : nat)
  : option nat :=
  indexOfFrom byte data start.

Fixpoint prefixEq (pattern data : bytes) : bool :=
  match pattern, data with
  | [], _ => true
  | p :: pattern', d :: data' => (d =? p) && prefixEq pattern' data'
  | _ :: _, [] => false
  end.

(** The search of [indexOfSubarray] from the suffix [data] that starts at
    index [i] of the array. *)
Fixpoint searchSubarray (pattern data : bytes) (i : nat) : option nat :=
  if prefixEq pattern data then Some i
  else
    match data with
    | [] => None
    | _ :: data' => searchSubarray pattern data' (S i)
    end.

(** [indexOfSubarray(data, pattern, start)]; [None] is [-1]. *)
Definition indexOfSubarray (data pattern : bytes) (start : nat)
  : option nat :=
  if (List.length data <? start)%nat then None
  else searchSubarray pattern (skipn start data) start.

Definition bytesEqualLower (data : bytes) (start end_ : nat)
  (asciiLowerPattern : bytes) : bool :=
  let len := (end_ - start)%nat in
  if negb (len =? List.length asciiLowerPattern)%nat then false
  else str_eqb (List.map asciiLowerByte (firstn len (skipn start data)))
               asciiLowerPattern.

Definition bytesEqualIgnoreAsciiCase (data asciiLowerPattern : bytes)
  : bool :=
  if negb (List.length data =? List.length asciiLowerPattern)%nat then false
  else str_eqb (List.map asciiLowerByte data) asciiLowerPattern.

(** The [switch] of [normalizeEncodingLabel]: its cases in order. *)
Definition labelCases : list (list string * string) :=
  [ (["utf-7"; "utf7"; "x-utf-7"], "windows-1252");
    (["utf-8"; "utf8"], "utf-8");
    (["iso-8859-1"; "iso8859-1"; "latin1"; "latin-1"; "l1"; "cp819";
      "ibm819"], "windows-1252");
    (["windows-1252"; "windows1252"; "cp1252"; "x-cp1252"], "windows-1252");
    (["iso-8859-2"; "iso8859-2"; "latin2"; "latin-2"], "iso-8859-2");
    (["euc-jp"; "eucjp"], "euc-jp");
    (["utf-16"; "utf16"], "utf-16");
    (["utf-16le"; "utf16le"], "utf-16le");
    (["utf-16be"; "utf16be"], "utf-16be") ]%string.

Fixpoint switchLabel (s : jsstring) (cases : list (list string * string))
  : option jsstring :=
  match cases with
  | [] => None
  | (names, enc) :: cases' =>
      if str_in s (List.map lit names) then Some (lit enc)
      else switchLabel s cases'
  end.

(** [normalizeEncodingLabel(label)]: [undefined] and the empty string are
    falsy, a byte array never is. *)
Definition normalizeEncodingLabel (l : option label) : option jsstring :=
  match l with
  | None => None
  | Some (LabelString []) => None
  | Some (LabelString s) => switchLabel (toLowerCase (trim s)) labelCases
  | Some (LabelBytes b) =>
      switchLabel (toLowerCase (trim (asciiDecodeIgnore b))) labelCases
  end.

Definition normalizeMetaDeclaredEncoding (l : label) : option jsstring :=
  match normalizeEncodingLabel (Some l) with
  | None => None
  | Some enc =>
      if str_in enc (List.map lit ["utf-16"; "utf-16le"; "utf-16be";
                                   "utf-32"; "utf-32le"; "utf-32b"]%string)
      then Some (lit "utf-8")
      else Some enc
  end.

(** [sniffBOM(data)]: the encoding of a byte-order mark and its length. *)
Definition sniffBOM (data : bytes) : option jsstring * nat :=
  if (3 <=? List.length data)%nat && byteIs data 0 0xef && byteIs data 1 0xbb
     && byteIs data 2 0xbf
  then (Some (lit "utf-8"), 3%nat)
  else if (2 <=? List.length data)%nat && byteIs data 0 0xff
          && byteIs data 1 0xfe
  then (Some (lit "utf-16le"), 2%nat)
  else if (2 <=? List.length data)%nat && byteIs data 0 0xfe
          && byteIs data 1 0xff
  then (Some (lit "utf-16be"), 2%nat)
  else (None, 0%nat).

(** [extractCharsetFromContent(contentBytes)]. *)
Definition extractCharsetFromContent (contentBytes : option bytes)
  : option bytes :=
  match contentBytes with
  | None | Some [] => None
  | Some contentBytes =>
      let normalized :=
        List.map (fun ch => if ASCII_WHITESPACE ch then 0x20
                            else asciiLowerByte ch) contentBytes in
      match indexOfSubarray normalized BYTES_CHARSET 0 with
      | None => None
      | Some idx =>
          let n := List.length normalized in
          let i := (idx + List.length BYTES_CHARSET)%nat in
          let i := scanWhile ASCII_WHITESPACE normalized i in
          if (n <=? i)%nat || negb (byteIs normalized i 0x3d) then None
          else
            let i := S i in
            let i := scanWhile ASCII_WHITESPACE normalized i in
            if (n <=? i)%nat then None
            else
              let quote :=
                if byteIs normalized i 0x22 || byteIs normalized i 0x27
                then normalized !! i else None in
              let i := match quote with Some _ => S i | None => i end in
              let start := i in
              let i :=
                match quote with
                | Some q => scanWhile (fun ch => negb (ch =? q)) normalized i
                | None =>
                    scanWhile
                      (fun ch => negb (ASCII_WHITESPACE ch || (ch =? 0x3b)))
                      normalized i
                end in
              match quote with
              | Some q =>
                  if (n <=? i)%nat || negb (byteIs normalized i q) then None
                  else Some (slice normalized start i)
              | None => Some (slice normalized start i)
              end
      end
  end.

Definition maxNonComment : Z := 1024.
Definition maxTotalScan : Z := 65536.

(** The loop that skips the rest of a tag, quotes honoured, from the
    suffix [rest] of the data that starts at index [k]; it returns the
    final [k] and [nonComment]. *)
Fixpoint skipTag (rest : bytes) (k nonComment : nat) (quote : option Z)
  : nat * nat :=
  match rest with
  | [] => (k, nonComment)
  | ch :: rest' =>
      if (Z.of_nat k <? maxTotalScan) && (Z.of_nat nonComment <? maxNonComment) then
        match quote with
        | None =>
            if (ch =? 0x22) || (ch =? 0x27)
            then skipTag rest' (S k) (S nonComment) (Some ch)
            else if ch =? 0x3e then (S k, S nonComment)
            else skipTag rest' (S k) (S nonComment) None
        | Some q =>
            if ch =? q then skipTag rest' (S k) (S nonComment) None
            else skipTag rest' (S k) (S nonComment) (Some q)
        end
      else (k, nonComment)
  end.

(** The attributes of a [meta] tag seen so far. *)
Record MetaAttrs : Type :=
  { charset : option bytes; httpEquiv : option bytes;
    content : option bytes }.

(** How the attribute loop ends: at index [k] with [sawGt], or on a quote
    that is never closed (where the source also moves [i] and
    [nonComment] by one and forgets the attributes). *)
Inductive attrsOutcome : Type :=
| AttrsDone (k : nat) (sawGt : bool) (a : MetaAttrs)
| AttrsUnclosedQuote.

Definition attrNameStop (c : Z) : bool :=
  ASCII_WHITESPACE c || (c =? 0x3d) || (c =? 0x3e) || (c =? 0x2f)
  || (c =? 0x3c).

Definition unquotedValueStop (c : Z) : bool :=
  ASCII_WHITESPACE c || (c =? 0x3e) || (c =? 0x3c).

Definition assignAttr (data : bytes) (attrStart attrEnd : nat)
  (value : option bytes) (a : MetaAttrs) : MetaAttrs :=
  if bytesEqualLower data attrStart attrEnd BYTES_CHARSET
  then {| charset := option_map stripAsciiWhitespace value;
          httpEquiv := httpEquiv a; content := content a |}
  else if bytesEqualLower data attrStart attrEnd BYTES_HTTP_EQUIV
  then {| charset := charset a; httpEquiv := value; content := content a |}
  else if bytesEqualLower data attrStart attrEnd BYTES_CONTENT
  then {| charset := charset a; httpEquiv := httpEquiv a; content := value |}
  else a.

(** The loop [while (k < n && k < maxTotalScan)] over the attributes. *)
Fixpoint parseAttrs (fuel : nat) (data : bytes) (k : nat) (a : MetaAttrs)
  : result attrsOutcome :=
  let n := List.length data in
  if (k <? n)%nat && (Z.of_nat k <? maxTotalScan) then
    match fuel with
    | O => OutOfFuel
    | S fuel' =>
        if byteIs data k 0x3e then Ok (AttrsDone (S k) true a)
        else if byteIs data k 0x3c then Ok (AttrsDone k false a)
        else if match data !! k with
                | Some ch => ASCII_WHITESPACE ch || (ch =? 0x2f)
                | None => false
                end
        then parseAttrs fuel' data (S k) a
        else
          let attrStart := k in
          let k := scanWhile (fun c => negb (attrNameStop c)) data k in
          let attrEnd := k in
          let k := skipAsciiWhitespace data k in
          if byteIs data k 0x3d then
            let k := S k in
            let k := skipAsciiWhitespace data k in
            if (n <=? k)%nat then Ok (AttrsDone k false a)
            else if byteIs data k 0x22 || byteIs data k 0x27 then
              match data !! k with
              | Some quote =>
                  let k := S k in
                  let valStart := k in
                  match indexOfByte data quote k with
                  | None => Ok AttrsUnclosedQuote
                  | Some endQuote =>
                      parseAttrs fuel' data (S endQuote)
                        (assignAttr data attrStart attrEnd
                           (Some (slice data valStart endQuote)) a)
                  end
              | None => Ok (AttrsDone k false a)
              end
            else
              let valStart := k in
              let k := scanWhile (fun c => negb (unquotedValueStop c)) data k in
              parseAttrs fuel' data k
                (assignAttr data attrStart attrEnd
                   (Some (slice data valStart k)) a)
          else
            parseAttrs fuel' data k (assignAttr data attrStart attrEnd None a)
    end
  else Ok (AttrsDone k false a).

(** What one turn of the main loop of the prescan does. *)
Inductive stepOutcome : Type :=
| Return (r : option jsstring)
| Continue (i nonComment : nat).

Definition prescanStep (data : bytes) (i nonComment : nat)
  : result stepOutcome :=
  let n := List.length data in
  if negb (byteIs data i 0x3c) then Ok (Continue (S i) (S nonComment))
  else if (i + 3 <? n)%nat && byteIs data (i + 1) 0x21
          && byteIs data (i + 2) 0x2d && byteIs data (i + 3) 0x2d
  then
    (* Comment <!-- ... --> *)
    match indexOfSubarray data BYTES_DASH_DASH_GT (i + 4) with
    | None => Ok (Return None)
    | Some end_ => Ok (Continue (end_ + 3) nonComment)
    end
  else
    let j := S i in
    if byteIs data j 0x2f then
      (* End tag: skip it. *)
      let '(k, nonComment) := skipTag (skipn i data) i nonComment None in
      Ok (Continue k nonComment)
    else if (n <=? j)%nat
            || negb (match data !! j with
                     | Some b => isAsciiAlphaByte b
                     | None => false
                     end)
    then Ok (Continue (S i) (S nonComment))
    else
      let nameStart := j in
      let j := scanWhile isAsciiAlphaByte data j in
      if negb (bytesEqualLower data nameStart j BYTES_META) then
        let '(k, nonComment) := skipTag (skipn i data) i nonComment None in
        Ok (Continue k nonComment)
      else
        o ← parseAttrs (S n) data j
              {| charset := None; httpEquiv := None; content := None |};
        match o with
        | AttrsUnclosedQuote => Ok (Continue (S (S i)) (S (S nonComment)))
        | AttrsDone k false _ => Ok (Continue (S i) (S nonComment))
        | AttrsDone k true a =>
            let byCharset :=
              match charset a with
              | Some ((_ :: _) as cs) =>
                  normalizeMetaDeclaredEncoding (LabelBytes cs)
              | _ => None
              end in
            match byCharset with
            | Some enc => Ok (Return (Some enc))
            | None =>
                let byContent :=
                  match httpEquiv a, content a with
                  | Some he, Some ct =>
                      if bytesEqualIgnoreAsciiCase he BYTES_CONTENT_TYPE then
                        match extractCharsetFromContent (Some ct) with
                        | Some extracted =>
                            normalizeMetaDeclaredEncoding
                              (LabelBytes extracted)
                        | None => None
                        end
                      else None
                  | _, _ => None
                  end in
                match byContent with
                | Some enc => Ok (Return (Some enc))
                | None => Ok (Continue k (nonComment + (k - i))%nat)
                end
            end
        end.

(** The main loop of [preScanForMetaCharset]; every turn moves [i]
    forward. *)
Fixpoint prescanLoop (fuel : nat) (data : bytes) (i nonComment : nat)
  : result (option jsstring) :=
  if (i <? List.length data)%nat && (Z.of_nat i <? maxTotalScan)
     && (Z.of_nat nonComment <? maxNonComment)
  then
    match fuel with
    | O => OutOfFuel
    | S fuel' =>
        o ← prescanStep data i nonComment;
        match o with
        | Return r => Ok r
        | Continue i' nonComment' => prescanLoop fuel' data i' nonComment'
        end
    end
  else Ok None.

Definition preScanForMetaCharset (data : bytes) : result (option jsstring) :=
  prescanLoop (List.length data) data O O.

(** [sniffHTMLEncoding(data, transportEncoding)]. *)
Definition sniffHTMLEncoding (data : bytes) (transportEncoding : option label)
  : result SniffResult :=
  match normalizeEncodingLabel transportEncoding with
  | Some transport => Ok {| encoding := transport; bomLength := 0 |}
  | None =>
      match sniffBOM data with
      | (Some bomEnc, bomLength) =>
          Ok {| encoding := bomEnc; bomLength := bomLength |}
      | (None, _) =>
          metaEnc ← preScanForMetaCharset data;
          match metaEnc with
          | Some metaEnc => Ok {| encoding := metaEnc; bomLength := 0 |}
          | None => Ok {| encoding := lit "windows-1252"; bomLength := 0 |}
          end
      end
  end.

(** Whether [data] starts with the bytes [mark]. *)
Definition startsWithBytes (mark data : bytes) : bool := prefixEq mark data.

Definition SUPPORTED_DECODE_HTML_ENCODINGS : list jsstring :=
  List.map lit ["utf-8"; "windows-1252"; "iso-8859-2"; "euc-jp"; "utf-16";
                "utf-16le"; "utf-16be"]%string.

End Encoding.

(** ** The node model (node.ts, tokens.ts) *)

Module Dom.

(** Nodes are JavaScript objects compared by identity: a node is the index
    of its record in the store, and [new Node] appends a record. *)
Abbreviation NodeId := nat.

Record Doctype : Type :=
  mkDoctype
    { doctypeName : option jsstring;
      publicId : option jsstring;
      systemId : option jsstring;
      forceQuirks : bool }.

(** The [data] field: absent, a string, or a doctype record. *)
Inductive NodeData : Type :=
| NoData
| StringData (s : jsstring)
| DoctypeData (d : Doctype).

(** [Map<string, string | null>]: the entries in insertion order, keys
    unique. *)
Abbreviation AttrMap := (list (jsstring * option jsstring)).

Record Node : Type :=
  mkNode
    { name : jsstring;
      data : NodeData;
      namespace : option jsstring;
      attrs : AttrMap;
      childNodes : list NodeId;
      parentNode : option NodeId;
      templateContent : option NodeId }.

Abbreviation Store := (list Node).

Definition attrsHas (k : jsstring) (m : AttrMap) : bool :=
  existsb (fun e => str_eqb (fst e) k) m.

Fixpoint attrsGet (k : jsstring) (m : AttrMap) : option (option jsstring) :=
  match m with
  | [] => None
  | (k', v) :: m' => if str_eqb k' k then Some v else attrsGet k m'
  end.

(** [map.set(k, v)]: an existing key keeps its place. *)
Fixpoint attrsSet (k : jsstring) (v : option jsstring) (m : AttrMap)
  : AttrMap :=
  match m with
  | [] => [(k, v)]
  | (k', v') :: m' =>
      if str_eqb k' k then (k', v) :: m' else (k', v') :: attrsSet k v m'
  end.

Definition setChildNodes (l : list NodeId) (n : Node) : Node :=
  mkNode (name n) (data n) (namespace n) (attrs n) l (parentNode n)
         (templateContent n).

Definition setParentNode (p : option NodeId) (n : Node) : Node :=
  mkNode (name n) (data n) (namespace n) (attrs n) (childNodes n) p
         (templateContent n).

Definition setData (d : NodeData) (n : Node) : Node :=
  mkNode (name n) d (namespace n) (attrs n) (childNodes n) (parentNode n)
         (templateContent n).

Definition setAttrs (a : AttrMap) (n : Node) : Node :=
  mkNode (name n) (data n) (namespace n) a (childNodes n) (parentNode n)
         (templateContent n).

Definition setTemplateContent (t : option NodeId) (n : Node) : Node :=
  mkNode (name n) (data n) (namespace n) (attrs n) (childNodes n)
         (parentNode n) t.

Definition HTML : option jsstring := Some (lit "html").

(** [new Node(name, data, namespace, attrs)]: the constructor also creates
    the content fragment of an HTML [template]. The fragment, like every
    node built without a namespace argument, gets the default namespace
    ["html"]. *)
Definition newNode (name : jsstring) (data : NodeData)
  (namespace : option jsstring) (attrs : AttrMap) (s : Store)
  : NodeId * Store :=
  let id := List.length s in
  if str_eqb name (lit "template")
     && match namespace with
        | Some ns => str_eqb ns (lit "html")
        | None => false
        end
  then
    (id, s ++ [mkNode name data namespace attrs [] None (Some (S id));
               mkNode (lit "#document-fragment") NoData HTML [] [] None
                      None])
  else (id, s ++ [mkNode name data namespace attrs [] None None]).

(** [this.childNodes.indexOf(node)]; [None] is [-1]. *)
Fixpoint indexOfNode (node : NodeId) (l : list NodeId) : option nat :=
  match l with
  | [] => None
  | x :: l' => if (x =? node)%nat then Some O
               else option_map S (indexOfNode node l')
  end.

Definition childrenOf (s : Store) (id : NodeId) : list NodeId :=
  match s !! id with
  | Some n => childNodes n
  | None => []
  end.

Definition appendChild (this node : NodeId) (s : Store) : Store :=
  let s := alter (fun n => setChildNodes (childNodes n ++ [node]) n) this s in
  alter (setParentNode (Some this)) node s.

Definition removeChild (this node : NodeId) (s : Store) : result Store :=
  match indexOfNode node (childrenOf s this) with
  | None => Raise "Node is not a child of this node"
  | Some i =>
      let s := alter (fun n => setChildNodes (delete i (childNodes n)) n)
                     this s in
      Ok (alter (setParentNode None) node s)
  end.

Definition insertBefore (this node : NodeId) (referenceNode : option NodeId)
  (s : Store) : result Store :=
  match referenceNode with
  | None => Ok (appendChild this node s)
  | Some ref =>
      match indexOfNode ref (childrenOf s this) with
      | None => Raise "Reference node is not a child of this node"
      | Some i =>
          let s :=
            alter (fun n =>
                     setChildNodes
                       (take i (childNodes n) ++ node :: drop i (childNodes n))
                       n) this s in
          Ok (alter (setParentNode (Some this)) node s)
      end
  end.

(** [replaceChild] returns the old node, which the caller already holds;
    the model returns the store. *)
Definition replaceChild (this newNode oldNode : NodeId) (s : Store)
  : result Store :=
  match indexOfNode oldNode (childrenOf s this) with
  | None => Raise "Old node is not a child of this node"
  | Some i =>
      let s := alter (fun n => setChildNodes (<[i:=newNode]> (childNodes n)) n)
                     this s in
      let s := alter (setParentNode None) oldNode s in
      Ok (alter (setParentNode (Some this)) newNode s)
  end.

Definition hasChildNodes (s : Store) (id : NodeId) : bool :=
  match childrenOf s id with [] => false | _ => true end.

(** [cloneNode(deep)]: the recursion follows the tree, so [fuel] bounds
    its height. The clone is returned with the new store. *)
Fixpoint cloneNode (fuel : nat) (deep : bool) (this : NodeId) (s : Store)
  : result (NodeId * Store) :=
  match fuel with
  | O => OutOfFuel
  | S fuel' =>
      match s !! this with
      | None => Raise "no such node"
      | Some n =>
          let '(clone, s) := newNode (name n) (data n) (namespace n)
                                     (attrs n) s in
          s ← match templateContent n with
              | Some t =>
                  '(tc, s) ← cloneNode fuel' deep t s;
                  mret (alter (setTemplateContent (Some tc)) clone s)
              | None => mret s
              end;
          s ← (if deep then
                 foldl (fun acc child =>
                          s ← acc;
                          '(c, s) ← cloneNode fuel' true child s;
                          mret (appendChild clone c s))
                       (mret s) (childNodes n)
               else mret s);
          mret (clone, s)
      end
  end.

(** [isElementNode(node)]: the name neither starts with [#] nor is
    [!doctype]. *)
Definition isElementNode (n : Node) : bool :=
  negb (match name n with 0x23 :: _ => true | _ => false end)
  && negb (str_eqb (name n) (lit "!doctype")).

Definition isElement (s : Store) (id : NodeId) : bool :=
  match s !! id with
  | Some n => isElementNode n
  | None => false
  end.

(** The getter [children]: the element nodes of the child list. *)
Definition children (s : Store) (id : NodeId) : list NodeId :=
  List.filter (isElement s) (childrenOf s id).

(** The loop of the getter [previousSibling] over the child list of the
    parent, with the last element node seen so far. *)
Fixpoint previousSiblingScan (s : Store) (this : NodeId)
  (l : list NodeId) (prev : option NodeId) : option NodeId :=
  match l with
  | [] => None
  | child :: l' =>
      if (child =? this)%nat then prev
      else previousSiblingScan s this l'
             (if isElement s child then Some child else prev)
  end.

(** The getter [previousSibling]; [None] is [undefined]. *)
Definition previousSibling (s : Store) (this : NodeId) : option NodeId :=
  match s !! this with
  | Some n =>
      match parentNode n with
      | Some parent => previousSiblingScan s this (childrenOf s parent) None
      | None => None
      end
  | None => None
  end.

(** The private getter [dataString]. *)
Definition dataString (n : Node) : jsstring :=
  match data n with
  | StringData d => d
  | _ => []
  end.

(** The getter [text]. *)
Definition text (n : Node) : jsstring :=
  if str_eqb (name n) (lit "#text") then dataString n else [].

(** The function [walk] of [toText], as the parts it pushes; the
    recursion follows the tree, so [fuel] bounds its height. *)
Fixpoint textParts (fuel : nat) (strip : bool) (s : Store) (node : NodeId)
  : result (list jsstring) :=
  match fuel with
  | O => OutOfFuel
  | S fuel' =>
      match s !! node with
      | None => Raise "no such node"
      | Some n =>
          if str_eqb (name n) (lit "#text") then
            let data := dataString n in
            let data := if strip then trim data else data in
            mret (if truthy data then [data] else [])
          else
            below ← foldl (fun acc child =>
                             parts ← acc;
                             more ← textParts fuel' strip s child;
                             mret (parts ++ more))
                          (mret []) (childNodes n);
            inTemplate ← match templateContent n with
                         | Some t => textParts fuel' strip s t
                         | None => mret []
                         end;
            mret (below ++ inTemplate)
      end
  end.

(** [toText({ separator, strip })]; the defaults are [" "] and [true]. *)
Definition toText (fuel : nat) (separator : jsstring) (strip : bool)
  (s : Store) (node : NodeId) : result jsstring :=
  parts ← textParts fuel strip s node;
  mret (joinWith separator parts).

(** The property of the parent link: every child points back to the node
    whose child list holds it. *)
Definition parentsAgree (s : Store) : Prop :=
  forall n nd m,
    s !! n = Some nd -> m ∈ childNodes nd ->
    exists md, s !! m = Some md /\ parentNode md = Some n.

(** No child list holds a node twice. *)
Definition childrenOnce (s : Store) : Prop :=
  forall n nd, s !! n = Some nd -> NoDup (childNodes nd).

(** The node occurs in no child list. *)
Definition detached (s : Store) (m : NodeId) : Prop :=
  forall n nd, s !! n = Some nd -> m ∉ childNodes nd.

Definition wellLinked (s : Store) : Prop :=
  parentsAgree s /\ childrenOnce s.

(** The tree under a node, read off the store: the identity of each node
    with its name, payload, namespace and attributes, its children and its
    template content. The recursion follows the tree, so [fuel] bounds its
    height; a tree higher than that, or with a dangling child, is
    [None]. *)
#[warnings="-register-all"] Inductive Tree : Type :=
| TreeNode (id : NodeId) (name : jsstring) (data : NodeData)
           (namespace : option jsstring) (attrs : AttrMap)
           (children : list Tree) (template : option Tree).

Fixpoint subtree (fuel : nat) (s : Store) (id : NodeId) : option Tree :=
  match fuel with
  | O => None
  | S fuel' =>
      n ← s !! id;
      children ← mapM (subtree fuel' s) (childNodes n);
      template ← match templateContent n with
                 | Some t => Some <$> subtree fuel' s t
                 | None => Some None
                 end;
      Some (TreeNode id (name n) (data n) (namespace n) (attrs n) children
                     template)
  end.

(** The nodes of a tree. *)
Fixpoint idsOf (t : Tree) : list NodeId :=
  match t with
  | TreeNode id _ _ _ _ children template =>
      id :: List.concat (List.map idsOf children)
         ++ match template with Some t' => idsOf t' | None => [] end
  end.

(** The node at the root of a tree. *)
Definition rootOf (t : Tree) : NodeId :=
  match t with TreeNode id _ _ _ _ _ _ => id end.

(** The test of the constructor of [Node] for creating the content
    fragment: an HTML [template]. *)
Definition isTemplateElement (name : jsstring) (namespace : option jsstring)
  : bool :=
  str_eqb name (lit "template")
  && match namespace with
     | Some ns => str_eqb ns (lit "html")
     | None => false
     end.

(** Every HTML [template] element of the tree has its content fragment,
    as the constructor leaves it. *)
Fixpoint templatesComplete (t : Tree) : bool :=
  match t with
  | TreeNode _ name _ namespace _ children template =>
      (negb (isTemplateElement name namespace)
       || match template with Some _ => true | None => false end)
      && forallb templatesComplete children
      && match template with
         | Some t' => templatesComplete t'
         | None => true
         end
  end.

(** A tree without the identities of its nodes: two trees of the same
    shape are deep copies of one another. *)
#[warnings="-register-all"] Inductive Shape : Type :=
| ShapeNode (name : jsstring) (data : NodeData)
            (namespace : option jsstring) (attrs : AttrMap)
            (children : list Shape) (template : option Shape).

Fixpoint shapeOf (t : Tree) : Shape :=
  match t with
  | TreeNode _ name data namespace attrs children template =>
      ShapeNode name data namespace attrs (List.map shapeOf children)
                (match template with
                 | Some t' => Some (shapeOf t')
                 | None => None
                 end)
  end.

(** The name and the payload of a node of the store. *)
Definition describe (s : Store) (id : NodeId)
  : option (jsstring * NodeData) :=
  option_map (fun n => (name n, data n)) (s !! id).

Definition isTextNode (s : Store) (id : NodeId) : bool :=
  match s !! id with
  | Some n => str_eqb (name n) (lit "#text")
  | None => false
  end.

(** Two consecutive nodes of the list are both [#text] nodes. *)
Fixpoint adjacentTextNodes (s : Store) (children : list NodeId) : bool :=
  match children with
  | c1 :: ((c2 :: _) as rest) =>
      (isTextNode s c1 && isTextNode s c2) || adjacentTextNodes s rest
  | _ => false
  end.

End Dom.

(** ** Tokens (tokens.ts) *)

Module Tokens.

Import Dom.

Inductive TagKind : Type := Start | End_.

Record TagToken : Type :=
  mkTagToken
    { kind : TagKind;
      tagName : jsstring;
      tagAttrs : AttrMap;
      selfClosing : bool }.

Definition createTagToken (kind : TagKind) (name : jsstring)
  (attrs : AttrMap) (selfClosing : bool) : TagToken :=
  mkTagToken kind name attrs selfClosing.

Inductive Token : Type :=
| Tag (t : TagToken)
| Character (data : jsstring)
| Comment (data : jsstring)
| DoctypeToken (doctype : Doctype)
| EOF.

Inductive TokenSinkResult : Type := Continue | Plaintext.

Definition tagKind_eqb (a b : TagKind) : bool :=
  match a, b with
  | Start, Start | End_, End_ => true
  | _, _ => false
  end.

(** The interface [TokenizerSink] over a sink whose state has type [S]:
    the two callbacks, which may change the sink, and the read-only view
    [openElements], given as the namespaces of the nodes on the stack (the
    only field the tokenizer reads); a sink without the property returns
    [None]. [processToken] may return [undefined] ([None]). *)
Record TokenizerSink (S : Type) : Type :=
  mkSink
    { processToken : Token -> S -> result (option TokenSinkResult * S);
      processCharacters : jsstring -> S -> result S;
      openElements : S -> option (list (option jsstring)) }.

Arguments processToken {S}.
Arguments processCharacters {S}.
Arguments openElements {S}.

(** The keys of an attribute map are distinct. *)
Definition uniqueNames (m : AttrMap) : Prop := NoDup (List.map fst m).

(** A tag token has distinct attribute names; the other tokens carry no
    attributes. *)
Definition tokenUnique (t : Token) : Prop :=
  match t with
  | Tag t => uniqueNames (tagAttrs t)
  | _ => True
  end.

End Tokens.

(** ** The tokenizer (tokenizer.ts) *)

Module Tokenizer.

Import Dom Tokens.

(** The parse errors of the tokenizer. *)
Inductive ErrorCode : Type :=
| AbruptClosingOfEmptyComment
| AbruptDoctypePublicIdentifier
| AbruptDoctypeSystemIdentifier
| CdataInHtmlContent
| DuplicateAttribute
| EndTagWithAttributes
| EofBeforeTagName
| EofInCdata
| EofInComment
| EofInDoctype
| EofInDoctypeName
| EofInDoctypePublicIdentifier
| EofInDoctypeSystemIdentifier
| EofInTag
| ExpectedDoctypeNameButGotRightBracket
| IncorrectlyClosedComment
| IncorrectlyOpenedComment
| InvalidFirstCharacterOfTagName
| MissingAttributeValue
| MissingDoctypePublicIdentifier
| MissingDoctypeSystemIdentifier
| MissingEndTagName
| MissingQuoteBeforeDoctypePublicIdentifier
| MissingQuoteBeforeDoctypeSystemIdentifier
| MissingWhitespaceAfterDoctypeName
| MissingWhitespaceAfterDoctypePublicIdentifier
| MissingWhitespaceBeforeDoctypeName
| MissingWhitespaceBeforeDoctypePublicIdentifier
| MissingWhitespaceBetweenAttributes
| MissingWhitespaceBetweenDoctypePublicAndSystemIdentifiers
| UnexpectedCharacterAfterDoctypePublicIdentifier
| UnexpectedCharacterAfterDoctypePublicKeyword
| UnexpectedCharacterAfterDoctypeSystemIdentifier
| UnexpectedCharacterAfterDoctypeSystemKeyword
| UnexpectedCharacterAfterSolidusInTag
| UnexpectedEqualsSignBeforeAttributeName
| UnexpectedNullCharacter
| UnexpectedQuestionMarkInsteadOfTagName.

(** The states of the tokenizer, in the order of the source's enum. *)
Inductive State : Type :=
| Data
| TagOpen
| EndTagOpen
| TagName
| BeforeAttributeName
| AttributeName
| AfterAttributeName
| BeforeAttributeValue
| AttributeValueDouble
| AttributeValueSingle
| AttributeValueUnquoted
| AfterAttributeValueQuoted
| SelfClosingStartTag
| MarkupDeclarationOpen
| CommentStart
| CommentStartDash
| Comment
| CommentEndDash
| CommentEnd
| CommentEndBang
| BogusComment
| Doctype
| BeforeDoctypeName
| DoctypeName
| AfterDoctypeName
| BogusDoctype
| AfterDoctypePublicKeyword
| AfterDoctypeSystemKeyword
| BeforeDoctypePublicIdentifier
| DoctypePublicIdentifierDoubleQuoted
| DoctypePublicIdentifierSingleQuoted
| AfterDoctypePublicIdentifier
| BetweenDoctypePublicAndSystemIdentifiers
| BeforeDoctypeSystemIdentifier
| DoctypeSystemIdentifierDoubleQuoted
| DoctypeSystemIdentifierSingleQuoted
| AfterDoctypeSystemIdentifier
| CDATASection
| CDATASectionBracket
| CDATASectionEnd
| RCDATA
| RCDATALessThanSign
| RCDATAEndTagOpen
| RCDATAEndTagName
| RawText
| RawTextLessThanSign
| RawTextEndTagOpen
| RawTextEndTagName
| PlainText
| ScriptDataEscaped
| ScriptDataEscapedDash
| ScriptDataEscapedDashDash
| ScriptDataEscapedLessThanSign
| ScriptDataEscapedEndTagOpen
| ScriptDataEscapedEndTagName
| ScriptDataDoubleEscapeStart
| ScriptDataDoubleEscaped
| ScriptDataDoubleEscapedDash
| ScriptDataDoubleEscapedDashDash
| ScriptDataDoubleEscapedLessThanSign
| ScriptDataDoubleEscapeEnd.

(** The numeric value of a state of the [const enum]. *)
Definition stateIndex (s : State) : nat :=
  match s with
  | Data => 0
  | TagOpen => 1
  | EndTagOpen => 2
  | TagName => 3
  | BeforeAttributeName => 4
  | AttributeName => 5
  | AfterAttributeName => 6
  | BeforeAttributeValue => 7
  | AttributeValueDouble => 8
  | AttributeValueSingle => 9
  | AttributeValueUnquoted => 10
  | AfterAttributeValueQuoted => 11
  | SelfClosingStartTag => 12
  | MarkupDeclarationOpen => 13
  | CommentStart => 14
  | CommentStartDash => 15
  | Comment => 16
  | CommentEndDash => 17
  | CommentEnd => 18
  | CommentEndBang => 19
  | BogusComment => 20
  | Doctype => 21
  | BeforeDoctypeName => 22
  | DoctypeName => 23
  | AfterDoctypeName => 24
  | BogusDoctype => 25
  | AfterDoctypePublicKeyword => 26
  | AfterDoctypeSystemKeyword => 27
  | BeforeDoctypePublicIdentifier => 28
  | DoctypePublicIdentifierDoubleQuoted => 29
  | DoctypePublicIdentifierSingleQuoted => 30
  | AfterDoctypePublicIdentifier => 31
  | BetweenDoctypePublicAndSystemIdentifiers => 32
  | BeforeDoctypeSystemIdentifier => 33
  | DoctypeSystemIdentifierDoubleQuoted => 34
  | DoctypeSystemIdentifierSingleQuoted => 35
  | AfterDoctypeSystemIdentifier => 36
  | CDATASection => 37
  | CDATASectionBracket => 38
  | CDATASectionEnd => 39
  | RCDATA => 40
  | RCDATALessThanSign => 41
  | RCDATAEndTagOpen => 42
  | RCDATAEndTagName => 43
  | RawText => 44
  | RawTextLessThanSign => 45
  | RawTextEndTagOpen => 46
  | RawTextEndTagName => 47
  | PlainText => 48
  | ScriptDataEscaped => 49
  | ScriptDataEscapedDash => 50
  | ScriptDataEscapedDashDash => 51
  | ScriptDataEscapedLessThanSign => 52
  | ScriptDataEscapedEndTagOpen => 53
  | ScriptDataEscapedEndTagName => 54
  | ScriptDataDoubleEscapeStart => 55
  | ScriptDataDoubleEscaped => 56
  | ScriptDataDoubleEscapedDash => 57
  | ScriptDataDoubleEscapedDashDash => 58
  | ScriptDataDoubleEscapedLessThanSign => 59
  | ScriptDataDoubleEscapeEnd => 60
  end.


Record TokenizerOpts : Type :=
  mkOpts
    { initialState : option State;
      initialRawTextTag : option jsstring;
      discardBom : bool;
      xmlCoercion : bool }.

Definition defaultOpts : TokenizerOpts := mkOpts None None false false.

Record TokenizerError : Type :=
  mkError { code : ErrorCode; offset : nat }.

(** The variables of the [createTokenizer] closure. The buffers that the
    source keeps as arrays of one-unit strings and joins are strings here;
    [length] is the length of [buffer]. *)
Record Tokenizer : Type :=
  mkTokenizer
    { opts : TokenizerOpts;
      errors : list TokenizerError;
      state : State;
      buffer : jsstring;
      pos : nat;
      reconsume : bool;
      currentChar : option Z;
      ignoreLF : bool;
      textBuffer : list jsstring;
      currentTagName : jsstring;
      currentTagAttrs : AttrMap;
      currentAttrName : jsstring;
      currentAttrValue : jsstring;
      currentAttrValueHasAmp : bool;
      currentTagSelfClosing : bool;
      currentTagKind : TagKind;
      currentComment : jsstring;
      currentDoctypeName : jsstring;
      currentDoctypePublic : option jsstring;
      currentDoctypeSystem : option jsstring;
      currentDoctypeForceQuirks : bool;
      lastStartTagName : option jsstring;
      rawTextTagName : option jsstring;
      tempBuffer : jsstring;
      originalTagName : jsstring;
      tagToken : TagToken }.

Definition set_errors (v : list TokenizerError) (k : Tokenizer) : Tokenizer :=
  mkTokenizer (opts k) v (state k) (buffer k) (pos k) (reconsume k)
    (currentChar k) (ignoreLF k) (textBuffer k) (currentTagName k)
    (currentTagAttrs k) (currentAttrName k) (currentAttrValue k)
    (currentAttrValueHasAmp k) (currentTagSelfClosing k) (currentTagKind k)
    (currentComment k) (currentDoctypeName k) (currentDoctypePublic k)
    (currentDoctypeSystem k) (currentDoctypeForceQuirks k)
    (lastStartTagName k) (rawTextTagName k) (tempBuffer k)
    (originalTagName k) (tagToken k).

Definition set_state (v : State) (k : Tokenizer) : Tokenizer :=
  mkTokenizer (opts k) (errors k) v (buffer k) (pos k) (reconsume k)
    (currentChar k) (ignoreLF k) (textBuffer k) (currentTagName k)
    (currentTagAttrs k) (currentAttrName k) (currentAttrValue k)
    (currentAttrValueHasAmp k) (currentTagSelfClosing k) (currentTagKind k)
    (currentComment k) (currentDoctypeName k) (currentDoctypePublic k)
    (currentDoctypeSystem k) (currentDoctypeForceQuirks k)
    (lastStartTagName k) (rawTextTagName k) (tempBuffer k)
    (originalTagName k) (tagToken k).

Definition set_pos (v : nat) (k : Tokenizer) : Tokenizer :=
  mkTokenizer (opts k) (errors k) (state k) (buffer k) v (reconsume k)
    (currentChar k) (ignoreLF k) (textBuffer k) (currentTagName k)
    (currentTagAttrs k) (currentAttrName k) (currentAttrValue k)
    (currentAttrValueHasAmp k) (currentTagSelfClosing k) (currentTagKind k)
    (currentComment k) (currentDoctypeName k) (currentDoctypePublic k)
    (currentDoctypeSystem k) (currentDoctypeForceQuirks k)
    (lastStartTagName k) (rawTextTagName k) (tempBuffer k)
    (originalTagName k) (tagToken k).

Definition set_reconsume (v : bool) (k : Tokenizer) : Tokenizer :=
  mkTokenizer (opts k) (errors k) (state k) (buffer k) (pos k) v
    (currentChar k) (ignoreLF k) (textBuffer k) (currentTagName k)
    (currentTagAttrs k) (currentAttrName k) (currentAttrValue k)
    (currentAttrValueHasAmp k) (currentTagSelfClosing k) (currentTagKind k)
    (currentComment k) (currentDoctypeName k) (currentDoctypePublic k)
    (currentDoctypeSystem k) (currentDoctypeForceQuirks k)
    (lastStartTagName k) (rawTextTagName k) (tempBuffer k)
    (originalTagName k) (tagToken k).

Definition set_currentChar (v : option Z) (k : Tokenizer) : Tokenizer :=
  mkTokenizer (opts k) (errors k) (state k) (buffer k) (pos k) (reconsume k)
    v (ignoreLF k) (textBuffer k) (currentTagName k) (currentTagAttrs k)
    (currentAttrName k) (currentAttrValue k) (currentAttrValueHasAmp k)
    (currentTagSelfClosing k) (currentTagKind k) (currentComment k)
    (currentDoctypeName k) (currentDoctypePublic k) (currentDoctypeSystem k)
    (currentDoctypeForceQuirks k) (lastStartTagName k) (rawTextTagName k)
    (tempBuffer k) (originalTagName k) (tagToken k).

Definition set_ignoreLF (v : bool) (k : Tokenizer) : Tokenizer :=
  mkTokenizer (opts k) (errors k) (state k) (buffer k) (pos k) (reconsume k)
    (currentChar k) v (textBuffer k) (currentTagName k) (currentTagAttrs k)
    (currentAttrName k) (currentAttrValue k) (currentAttrValueHasAmp k)
    (currentTagSelfClosing k) (currentTagKind k) (currentComment k)
    (currentDoctypeName k) (currentDoctypePublic k) (currentDoctypeSystem k)
    (currentDoctypeForceQuirks k) (lastStartTagName k) (rawTextTagName k)
    (tempBuffer k) (originalTagName k) (tagToken k).

Definition set_textBuffer (v : list jsstring) (k : Tokenizer) : Tokenizer :=
  mkTokenizer (opts k) (errors k) (state k) (buffer k) (pos k) (reconsume k)
    (currentChar k) (ignoreLF k) v (currentTagName k) (currentTagAttrs k)
    (currentAttrName k) (currentAttrValue k) (currentAttrValueHasAmp k)
    (currentTagSelfClosing k) (currentTagKind k) (currentComment k)
    (currentDoctypeName k) (currentDoctypePublic k) (currentDoctypeSystem k)
    (currentDoctypeForceQuirks k) (lastStartTagName k) (rawTextTagName k)
    (tempBuffer k) (originalTagName k) (tagToken k).

Definition set_currentTagName (v : jsstring) (k : Tokenizer) : Tokenizer :=
  mkTokenizer (opts k) (errors k) (state k) (buffer k) (pos k) (reconsume k)
    (currentChar k) (ignoreLF k) (textBuffer k) v (currentTagAttrs k)
    (currentAttrName k) (currentAttrValue k) (currentAttrValueHasAmp k)
    (currentTagSelfClosing k) (currentTagKind k) (currentComment k)
    (currentDoctypeName k) (currentDoctypePublic k) (currentDoctypeSystem k)
    (currentDoctypeForceQuirks k) (lastStartTagName k) (rawTextTagName k)
    (tempBuffer k) (originalTagName k) (tagToken k).

Definition set_currentTagAttrs (v : AttrMap) (k : Tokenizer) : Tokenizer :=
  mkTokenizer (opts k) (errors k) (state k) (buffer k) (pos k) (reconsume k)
    (currentChar k) (ignoreLF k) (textBuffer k) (currentTagName k) v
    (currentAttrName k) (currentAttrValue k) (currentAttrValueHasAmp k)
    (currentTagSelfClosing k) (currentTagKind k) (currentComment k)
    (currentDoctypeName k) (currentDoctypePublic k) (currentDoctypeSystem k)
    (currentDoctypeForceQuirks k) (lastStartTagName k) (rawTextTagName k)
    (tempBuffer k) (originalTagName k) (tagToken k).

Definition set_currentAttrName (v : jsstring) (k : Tokenizer) : Tokenizer :=
  mkTokenizer (opts k) (errors k) (state k) (buffer k) (pos k) (reconsume k)
    (currentChar k) (ignoreLF k) (textBuffer k) (currentTagName k)
    (currentTagAttrs k) v (currentAttrValue k) (currentAttrValueHasAmp k)
    (currentTagSelfClosing k) (currentTagKind k) (currentComment k)
    (currentDoctypeName k) (currentDoctypePublic k) (currentDoctypeSystem k)
    (currentDoctypeForceQuirks k) (lastStartTagName k) (rawTextTagName k)
    (tempBuffer k) (originalTagName k) (tagToken k).

Definition set_currentAttrValue (v : jsstring) (k : Tokenizer) : Tokenizer :=
  mkTokenizer (opts k) (errors k) (state k) (buffer k) (pos k) (reconsume k)
    (currentChar k) (ignoreLF k) (textBuffer k) (currentTagName k)
    (currentTagAttrs k) (currentAttrName k) v (currentAttrValueHasAmp k)
    (currentTagSelfClosing k) (currentTagKind k) (currentComment k)
    (currentDoctypeName k) (currentDoctypePublic k) (currentDoctypeSystem k)
    (currentDoctypeForceQuirks k) (lastStartTagName k) (rawTextTagName k)
    (tempBuffer k) (originalTagName k) (tagToken k).

Definition set_currentAttrValueHasAmp (v : bool) (k : Tokenizer) : Tokenizer :=
  mkTokenizer (opts k) (errors k) (state k) (buffer k) (pos k) (reconsume k)
    (currentChar k) (ignoreLF k) (textBuffer k) (currentTagName k)
    (currentTagAttrs k) (currentAttrName k) (currentAttrValue k) v
    (currentTagSelfClosing k) (currentTagKind k) (currentComment k)
    (currentDoctypeName k) (currentDoctypePublic k) (currentDoctypeSystem k)
    (currentDoctypeForceQuirks k) (lastStartTagName k) (rawTextTagName k)
    (tempBuffer k) (originalTagName k) (tagToken k).

Definition set_currentTagSelfClosing (v : bool) (k : Tokenizer) : Tokenizer :=
  mkTokenizer (opts k) (errors k) (state k) (buffer k) (pos k) (reconsume k)
    (currentChar k) (ignoreLF k) (textBuffer k) (currentTagName k)
    (currentTagAttrs k) (currentAttrName k) (currentAttrValue k)
    (currentAttrValueHasAmp k) v (currentTagKind k) (currentComment k)
    (currentDoctypeName k) (currentDoctypePublic k) (currentDoctypeSystem k)
    (currentDoctypeForceQuirks k) (lastStartTagName k) (rawTextTagName k)
    (tempBuffer k) (originalTagName k) (tagToken k).

Definition set_currentTagKind (v : TagKind) (k : Tokenizer) : Tokenizer :=
  mkTokenizer (opts k) (errors k) (state k) (buffer k) (pos k) (reconsume k)
    (currentChar k) (ignoreLF k) (textBuffer k) (currentTagName k)
    (currentTagAttrs k) (currentAttrName k) (currentAttrValue k)
    (currentAttrValueHasAmp k) (currentTagSelfClosing k) v
    (currentComment k) (currentDoctypeName k) (currentDoctypePublic k)
    (currentDoctypeSystem k) (currentDoctypeForceQuirks k)
    (lastStartTagName k) (rawTextTagName k) (tempBuffer k)
    (originalTagName k) (tagToken k).

Definition set_currentComment (v : jsstring) (k : Tokenizer) : Tokenizer :=
  mkTokenizer (opts k) (errors k) (state k) (buffer k) (pos k) (reconsume k)
    (currentChar k) (ignoreLF k) (textBuffer k) (currentTagName k)
    (currentTagAttrs k) (currentAttrName k) (currentAttrValue k)
    (currentAttrValueHasAmp k) (currentTagSelfClosing k) (currentTagKind k)
    v (currentDoctypeName k) (currentDoctypePublic k)
    (currentDoctypeSystem k) (currentDoctypeForceQuirks k)
    (lastStartTagName k) (rawTextTagName k) (tempBuffer k)
    (originalTagName k) (tagToken k).

Definition set_lastStartTagName (v : option jsstring) (k : Tokenizer) : Tokenizer :=
  mkTokenizer (opts k) (errors k) (state k) (buffer k) (pos k) (reconsume k)
    (currentChar k) (ignoreLF k) (textBuffer k) (currentTagName k)
    (currentTagAttrs k) (currentAttrName k) (currentAttrValue k)
    (currentAttrValueHasAmp k) (currentTagSelfClosing k) (currentTagKind k)
    (currentComment k) (currentDoctypeName k) (currentDoctypePublic k)
    (currentDoctypeSystem k) (currentDoctypeForceQuirks k) v
    (rawTextTagName k) (tempBuffer k) (originalTagName k) (tagToken k).

Definition set_rawTextTagName (v : option jsstring) (k : Tokenizer) : Tokenizer :=
  mkTokenizer (opts k) (errors k) (state k) (buffer k) (pos k) (reconsume k)
    (currentChar k) (ignoreLF k) (textBuffer k) (currentTagName k)
    (currentTagAttrs k) (currentAttrName k) (currentAttrValue k)
    (currentAttrValueHasAmp k) (currentTagSelfClosing k) (currentTagKind k)
    (currentComment k) (currentDoctypeName k) (currentDoctypePublic k)
    (currentDoctypeSystem k) (currentDoctypeForceQuirks k)
    (lastStartTagName k) v (tempBuffer k) (originalTagName k) (tagToken k).

Definition set_tagToken (v : TagToken) (k : Tokenizer) : Tokenizer :=
  mkTokenizer (opts k) (errors k) (state k) (buffer k) (pos k) (reconsume k)
    (currentChar k) (ignoreLF k) (textBuffer k) (currentTagName k)
    (currentTagAttrs k) (currentAttrName k) (currentAttrValue k)
    (currentAttrValueHasAmp k) (currentTagSelfClosing k) (currentTagKind k)
    (currentComment k) (currentDoctypeName k) (currentDoctypePublic k)
    (currentDoctypeSystem k) (currentDoctypeForceQuirks k)
    (lastStartTagName k) (rawTextTagName k) (tempBuffer k)
    (originalTagName k) v.

Definition isWhitespace (c : option Z) : bool :=
  match c with
  | Some c =>
      (c =? 0x09) || (c =? 0x0A) || (c =? 0x0C) || (c =? 0x20) || (c =? 0x0D)
  | None => false
  end.

Definition replacement : jsstring := [0xFFFD].

(** The code points of a string with the units of each, as [for ... of]
    walks them: a high surrogate followed by a low one is one code point. *)
Fixpoint codePoints (s : jsstring) : list (Z * jsstring) :=
  match s with
  | [] => []
  | hi :: s' =>
      match s' with
      | lo :: s'' =>
          if (0xD800 <=? hi) && (hi <=? 0xDBFF)
             && (0xDC00 <=? lo) && (lo <=? 0xDFFF)
          then ((hi - 0xD800) * 0x400 + (lo - 0xDC00) + 0x10000, [hi; lo])
                 :: codePoints s''
          else (hi, [hi]) :: codePoints s'
      | [] => [(hi, [hi])]
      end
  end.

Definition coerceTextForXML (text : jsstring) : jsstring :=
  List.concat
    (List.map
       (fun '(cp, ch) =>
          if cp =? 0x0c then lit " "
          else if (0xfdd0 <=? cp) && (cp <=? 0xfdef) then replacement
          else
            let low16 := Z.land cp 0xffff in
            if (low16 =? 0xfffe) || (low16 =? 0xffff) then replacement
            else ch)
       (codePoints text)).

(** [text.includes("--")]. *)
Fixpoint includesDashDash (s : jsstring) : bool :=
  match s with
  | c :: s' =>
      match s' with
      | d :: _ => ((c =? 0x2D) && (d =? 0x2D)) || includesDashDash s'
      | [] => false
      end
  | [] => false
  end.

(** [text.replaceAll("--", "- -")]: the occurrences from the left, none
    overlapping the one before. *)
Fixpoint replaceDashDash (s : jsstring) : jsstring :=
  match s with
  | c :: s' =>
      match s' with
      | d :: r =>
          if (c =? 0x2D) && (d =? 0x2D) then lit "- -" ++ replaceDashDash r
          else c :: replaceDashDash s'
      | [] => [c]
      end
  | [] => []
  end.

Definition coerceCommentForXML (text : jsstring) : jsstring :=
  if negb (truthy text) then text
  else if negb (includesDashDash text) then text
  else replaceDashDash text.

Definition RCDATA_ELEMENTS : list jsstring :=
  List.map lit ["title"; "textarea"]%string.

Definition RAW_TEXT_SWITCH_TAGS : list jsstring :=
  List.map lit ["script"; "style"; "xmp"; "iframe"; "noembed"; "noframes";
                "textarea"; "title"]%string.

(** The closure variables as [createTokenizer] leaves them, before
    [initialize]. *)
Definition createTokenizer (o : TokenizerOpts) : Tokenizer :=
  mkTokenizer o [] Data [] O false None false [] [] [] [] [] false false
    Start [] [] None None false None None [] []
    (createTagToken Start [] [] false).

Definition initialize (input : jsstring) (k : Tokenizer) : Tokenizer :=
  let input :=
    match input with
    | 0xFEFF :: rest => if discardBom (opts k) then rest else input
    | _ => input
    end in
  mkTokenizer (opts k) [] 
    (match initialState (opts k) with Some s => s | None => Data end)
    input O false None false [] [] [] [] [] false false Start [] [] None
    None false None (initialRawTextTag (opts k)) [] [] (tagToken k).

(** The loop of [getChar] that drops a line feed after a carriage return,
    on the suffix [rest] of [buffer] that starts at [pos]. *)
Fixpoint getCharFrom (rest : jsstring) (pos : nat) (ignoreLF : bool)
  : option Z * nat * bool :=
  match rest with
  | [] => (None, pos, ignoreLF)
  | c :: rest' =>
      if c =? 0x0D then (Some 0x0A, S pos, true)
      else if (c =? 0x0A) && ignoreLF then getCharFrom rest' (S pos) false
      else (Some c, S pos, false)
  end.

(** [getChar()]: the character, or [None] for [null] at the end. *)
Definition getChar (k : Tokenizer) : option Z * Tokenizer :=
  if reconsume k then (currentChar k, set_reconsume false k)
  else
    let '(c, pos', lf) := getCharFrom (skipn (pos k) (buffer k)) (pos k)
                                      (ignoreLF k) in
    (c, set_currentChar c (set_ignoreLF lf (set_pos pos' k))).

Definition reconsumeCurrent (k : Tokenizer) : Tokenizer :=
  set_reconsume true k.

Definition appendText (s : jsstring) (k : Tokenizer) : Tokenizer :=
  match s with
  | [] => k
  | _ => set_textBuffer (textBuffer k ++ [s]) k
  end.

Definition emitError (c : ErrorCode) (k : Tokenizer) : Tokenizer :=
  set_errors (errors k ++ [mkError c (Nat.max 0 (pos k - 1))]) k.

Definition startNewAttribute (k : Tokenizer) : Tokenizer :=
  set_currentAttrValueHasAmp false
    (set_currentAttrValue [] (set_currentAttrName [] k)).

Section WithSink.

(** The entity table of entities-data.ts (see [Entities]) and the sink the
    tokenizer was created with. *)
Variable NAMED_ENTITIES : jsstring -> option jsstring.
Context {Sk : Type} (sink : TokenizerSink Sk).

(** What a state handler returns: the "done" flag of [step], the closure
    variables and the sink. *)
Definition stepResult : Type := result (bool * Tokenizer * Sk).

Definition flushText (k : Tokenizer) (ss : Sk) : result (Tokenizer * Sk) :=
  match textBuffer k with
  | [] => Ok (k, ss)
  | _ =>
      let data := join (textBuffer k) in
      let k := set_textBuffer [] k in
      let st := stateIndex (state k) in
      let inCDATA :=
        (stateIndex CDATASection <=? st)%nat
        && (st <=? stateIndex CDATASectionEnd)%nat in
      data ← (if negb inCDATA && (st <? stateIndex RawText)%nat
                 && (st <? stateIndex PlainText)%nat && includes 0x26 data
              then Entities.decodeEntitiesInText NAMED_ENTITIES data false
              else Ok data);
      let data := if xmlCoercion (opts k) then coerceTextForXML data
                  else data in
      ss ← processCharacters sink data ss;
      Ok (k, ss)
  end.

Definition emitToken (token : Token) (ss : Sk) : result Sk :=
  '(_, ss) ← processToken sink token ss; Ok ss.

Definition finishAttribute (k : Tokenizer) : result Tokenizer :=
  match currentAttrName k with
  | [] => Ok k
  | name =>
      let k := set_currentAttrName [] k in
      if attrsHas name (currentTagAttrs k) then
        let k := emitError DuplicateAttribute k in
        Ok (set_currentAttrValueHasAmp false (set_currentAttrValue [] k))
      else
        let value := currentAttrValue k in
        let k := set_currentAttrValue [] k in
        value ← (if currentAttrValueHasAmp k
                 then Entities.decodeEntitiesInText NAMED_ENTITIES value true
                 else Ok value);
        let k := set_currentAttrValueHasAmp false k in
        Ok (set_currentTagAttrs
              (attrsSet name (Some value) (currentTagAttrs k)) k)
  end.

(** The namespace test of [emitCurrentTag]: there is no current node, or
    its namespace is ["html"]. *)
Definition currentNodeIsHTML (ss : Sk) : bool :=
  let stack := match openElements sink ss with Some l => l | None => [] end in
  match last stack with
  | None => true
  | Some namespace =>
      match namespace with
      | Some ns => str_eqb ns (lit "html")
      | None => false
      end
  end.

Definition emitCurrentTag (k : Tokenizer) (ss : Sk)
  : result (bool * Tokenizer * Sk) :=
  let name := currentTagName k in
  let attrs := currentTagAttrs k in
  let k := set_tagToken (createTagToken (currentTagKind k) name attrs
                                        (currentTagSelfClosing k)) k in
  let '(switchedToRawText, k) :=
    match currentTagKind k with
    | Start =>
        let k := set_lastStartTagName (Some name) k in
        let needsRawTextCheck :=
          str_in name RAW_TEXT_SWITCH_TAGS || str_eqb name (lit "plaintext") in
        if needsRawTextCheck && currentNodeIsHTML ss then
          if str_in name RCDATA_ELEMENTS
          then (true, set_rawTextTagName (Some name) (set_state RCDATA k))
          else if str_in name RAW_TEXT_SWITCH_TAGS
          then (true, set_rawTextTagName (Some name) (set_state RawText k))
          else (true, set_state PlainText k)
        else (false, k)
    | End_ => (false, k)
    end in
  '(sinkResult, ss) ← processToken sink (Tag (tagToken k)) ss;
  let '(switchedToRawText, k) :=
    match sinkResult with
    | Some Plaintext => (true, set_state PlainText k)
    | _ => (switchedToRawText, k)
    end in
  let k := set_currentTagName [] k in
  let k := set_currentTagAttrs [] k in
  let k := set_currentAttrName [] k in
  let k := set_currentAttrValue [] k in
  let k := set_currentAttrValueHasAmp false k in
  let k := set_currentTagSelfClosing false k in
  let k := set_currentTagKind Start k in
  Ok (switchedToRawText, k, ss).

(** [emitToken(eofToken()); return true]. *)
Definition emitEOF (k : Tokenizer) (ss : Sk) : stepResult :=
  ss ← emitToken EOF ss; Ok (true, k, ss).

(** [flushText(); emitToken(eofToken()); return true]. *)
Definition flushAndEOF (k : Tokenizer) (ss : Sk) : stepResult :=
  '(k, ss) ← flushText k ss; emitEOF k ss.

(** [if (!emitCurrentTag()) state = State.Data; return false]. *)
Definition emitTagThenData (k : Tokenizer) (ss : Sk) : stepResult :=
  '(switched, k, ss) ← emitCurrentTag k ss;
  Ok (false, if switched : bool then k else set_state Data k, ss).

Definition stateData (k : Tokenizer) (ss : Sk) : stepResult :=
  let '(c, k) := getChar k in
  match c with
  | None => flushAndEOF k ss
  | Some c =>
      if c =? 0x3C then
        '(k, ss) ← flushText k ss; Ok (false, set_state TagOpen k, ss)
      else Ok (false, appendText [c] k, ss)
  end.

Definition statePlaintext (k : Tokenizer) (ss : Sk) : stepResult :=
  let '(c, k) := getChar k in
  match c with
  | None => flushAndEOF k ss
  | Some c =>
      if c =? 0 then
        Ok (false, appendText replacement
                     (emitError UnexpectedNullCharacter k), ss)
      else Ok (false, appendText [c] k, ss)
  end.

Definition stateTagOpen (k : Tokenizer) (ss : Sk) : stepResult :=
  let '(c, k) := getChar k in
  match c with
  | None => flushAndEOF (appendText (lit "<") k) ss
  | Some c =>
      if c =? 0x21 then Ok (false, set_state MarkupDeclarationOpen k, ss)
      else if c =? 0x2F then Ok (false, set_state EndTagOpen k, ss)
      else if c =? 0x3F then
        let k := emitError UnexpectedQuestionMarkInsteadOfTagName k in
        let k := set_currentComment [] k in
        Ok (false, set_state BogusComment (reconsumeCurrent k), ss)
      else if isAsciiAlpha c then
        let k := set_currentTagKind Start k in
        let k := set_currentTagName [asciiLower c] k in
        let k := set_currentTagAttrs [] k in
        let k := set_currentTagSelfClosing false k in
        Ok (false, set_state TagName k, ss)
      else
        let k := emitError InvalidFirstCharacterOfTagName k in
        let k := appendText (lit "<") k in
        Ok (false, set_state Data (reconsumeCurrent k), ss)
  end.

Definition stateEndTagOpen (k : Tokenizer) (ss : Sk) : stepResult :=
  let '(c, k) := getChar k in
  match c with
  | None =>
      flushAndEOF (appendText (lit "</") (emitError EofBeforeTagName k)) ss
  | Some c =>
      if c =? 0x3E then
        Ok (false, set_state Data (emitError MissingEndTagName k), ss)
      else if isAsciiAlpha c then
        let k := set_currentTagKind End_ k in
        let k := set_currentTagName [asciiLower c] k in
        let k := set_currentTagAttrs [] k in
        let k := set_currentTagSelfClosing false k in
        Ok (false, set_state TagName k, ss)
      else
        let k := emitError InvalidFirstCharacterOfTagName k in
        let k := set_currentComment [] k in
        Ok (false, set_state BogusComment (reconsumeCurrent k), ss)
  end.

Definition stateTagName (k : Tokenizer) (ss : Sk) : stepResult :=
  let '(c, k) := getChar k in
  match c with
  | None => emitEOF (emitError EofInTag k) ss
  | Some c =>
      if isWhitespace (Some c) then
        let k := match currentTagKind k with
                 | End_ => emitError EndTagWithAttributes k
                 | Start => k
                 end in
        Ok (false, set_state BeforeAttributeName k, ss)
      else if c =? 0x2F then Ok (false, set_state SelfClosingStartTag k, ss)
      else if c =? 0x3E then emitTagThenData k ss
      else if c =? 0 then
        let k := emitError UnexpectedNullCharacter k in
        Ok (false, set_currentTagName (currentTagName k ++ [0xFFFD]) k, ss)
      else
        Ok (false, set_currentTagName (currentTagName k ++ [asciiLower c]) k,
            ss)
  end.

Definition stateBeforeAttributeName (k : Tokenizer) (ss : Sk) : stepResult :=
  let '(c, k) := getChar k in
  match c with
  | None => flushAndEOF (emitError EofInTag k) ss
  | Some c =>
      if isWhitespace (Some c) then Ok (false, k, ss)
      else if c =? 0x2F then Ok (false, set_state SelfClosingStartTag k, ss)
      else if c =? 0x3E then emitTagThenData k ss
      else if c =? 0x3D then
        let k := emitError UnexpectedEqualsSignBeforeAttributeName k in
        let k := startNewAttribute k in
        let k := set_currentAttrName (currentAttrName k ++ lit "=") k in
        Ok (false, set_state AttributeName k, ss)
      else
        let k := startNewAttribute k in
        Ok (false, set_state AttributeName (reconsumeCurrent k), ss)
  end.

Definition stateAttributeName (k : Tokenizer) (ss : Sk) : stepResult :=
  let '(c, k) := getChar k in
  match c with
  | None => flushAndEOF (emitError EofInTag k) ss
  | Some c =>
      if isWhitespace (Some c) then
        k ← finishAttribute k; Ok (false, set_state AfterAttributeName k, ss)
      else if c =? 0x2F then
        k ← finishAttribute k; Ok (false, set_state SelfClosingStartTag k, ss)
      else if c =? 0x3D then Ok (false, set_state BeforeAttributeValue k, ss)
      else if c =? 0x3E then
        k ← finishAttribute k; emitTagThenData k ss
      else if c =? 0 then
        let k := emitError UnexpectedNullCharacter k in
        Ok (false, set_currentAttrName (currentAttrName k ++ [0xFFFD]) k, ss)
      else
        Ok (false,
            set_currentAttrName (currentAttrName k ++ [asciiLower c]) k, ss)
  end.

Definition stateAfterAttributeName (k : Tokenizer) (ss : Sk) : stepResult :=
  let '(c, k) := getChar k in
  match c with
  | None => flushAndEOF (emitError EofInTag k) ss
  | Some c =>
      if isWhitespace (Some c) then Ok (false, k, ss)
      else if c =? 0x2F then Ok (false, set_state SelfClosingStartTag k, ss)
      else if c =? 0x3D then Ok (false, set_state BeforeAttributeValue k, ss)
      else if c =? 0x3E then emitTagThenData k ss
      else
        let k := startNewAttribute k in
        Ok (false, set_state AttributeName (reconsumeCurrent k), ss)
  end.

Definition stateBeforeAttributeValue (k : Tokenizer) (ss : Sk) : stepResult :=
  let '(c, k) := getChar k in
  match c with
  | None => flushAndEOF (emitError EofInTag k) ss
  | Some c =>
      if isWhitespace (Some c) then Ok (false, k, ss)
      else if c =? 0x22 then Ok (false, set_state AttributeValueDouble k, ss)
      else if c =? 0x27 then Ok (false, set_state AttributeValueSingle k, ss)
      else if c =? 0x3E then
        k ← finishAttribute (emitError MissingAttributeValue k);
        emitTagThenData k ss
      else
        Ok (false, set_state AttributeValueUnquoted (reconsumeCurrent k), ss)
  end.

(** The two quoted attribute-value states differ in their quote only. *)
Definition stateAttributeValueQuoted (quote : Z) (k : Tokenizer) (ss : Sk)
  : stepResult :=
  let '(c, k) := getChar k in
  match c with
  | None => flushAndEOF (emitError EofInTag k) ss
  | Some c =>
      if c =? quote then
        k ← finishAttribute k;
        Ok (false, set_state AfterAttributeValueQuoted k, ss)
      else if c =? 0x26 then
        let k := set_currentAttrValueHasAmp true k in
        Ok (false, set_currentAttrValue (currentAttrValue k ++ [c]) k, ss)
      else if c =? 0 then
        let k := emitError UnexpectedNullCharacter k in
        Ok (false, set_currentAttrValue (currentAttrValue k ++ [0xFFFD]) k,
            ss)
      else Ok (false, set_currentAttrValue (currentAttrValue k ++ [c]) k, ss)
  end.

Definition stateAttributeValueDouble : Tokenizer -> Sk -> stepResult :=
  stateAttributeValueQuoted 0x22.

Definition stateAttributeValueSingle : Tokenizer -> Sk -> stepResult :=
  stateAttributeValueQuoted 0x27.

Definition stateAttributeValueUnquoted (k : Tokenizer) (ss : Sk)
  : stepResult :=
  let '(c, k) := getChar k in
  match c with
  | None => flushAndEOF (emitError EofInTag k) ss
  | Some c =>
      if isWhitespace (Some c) then
        k ← finishAttribute k;
        Ok (false, set_state BeforeAttributeName k, ss)
      else if c =? 0x26 then
        let k := set_currentAttrValueHasAmp true k in
        Ok (false, set_currentAttrValue (currentAttrValue k ++ [c]) k, ss)
      else if c =? 0x3E then
        k ← finishAttribute k; emitTagThenData k ss
      else if c =? 0 then
        let k := emitError UnexpectedNullCharacter k in
        Ok (false, set_currentAttrValue (currentAttrValue k ++ [0xFFFD]) k,
            ss)
      else Ok (false, set_currentAttrValue (currentAttrValue k ++ [c]) k, ss)
  end.

Definition stateAfterAttributeValueQuoted (k : Tokenizer) (ss : Sk)
  : stepResult :=
  let '(c, k) := getChar k in
  match c with
  | None => flushAndEOF (emitError EofInTag k) ss
  | Some c =>
      if isWhitespace (Some c) then
        Ok (false, set_state BeforeAttributeName k, ss)
      else if c =? 0x2F then Ok (false, set_state SelfClosingStartTag k, ss)
      else if c =? 0x3E then emitTagThenData k ss
      else
        let k := emitError MissingWhitespaceBetweenAttributes k in
        Ok (false, set_state BeforeAttributeName (reconsumeCurrent k), ss)
  end.

Definition stateSelfClosingStartTag (k : Tokenizer) (ss : Sk) : stepResult :=
  let '(c, k) := getChar k in
  match c with
  | None => flushAndEOF (emitError EofInTag k) ss
  | Some c =>
      if c =? 0x3E then emitTagThenData (set_currentTagSelfClosing true k) ss
      else
        let k := emitError UnexpectedCharacterAfterSolidusInTag k in
        Ok (false, set_state BeforeAttributeName (reconsumeCurrent k), ss)
  end.

(** [step()]: one state handler. The handlers of the tag states, of the
    data state and of PLAINTEXT are embedded; the comment, doctype, CDATA,
    RCDATA, raw-text and script-data handlers are not. *)
Definition step (k : Tokenizer) (ss : Sk) : stepResult :=
  match state k with
  | Data => stateData k ss
  | TagOpen => stateTagOpen k ss
  | EndTagOpen => stateEndTagOpen k ss
  | TagName => stateTagName k ss
  | BeforeAttributeName => stateBeforeAttributeName k ss
  | AttributeName => stateAttributeName k ss
  | AfterAttributeName => stateAfterAttributeName k ss
  | BeforeAttributeValue => stateBeforeAttributeValue k ss
  | AttributeValueDouble => stateAttributeValueDouble k ss
  | AttributeValueSingle => stateAttributeValueSingle k ss
  | AttributeValueUnquoted => stateAttributeValueUnquoted k ss
  | AfterAttributeValueQuoted => stateAfterAttributeValueQuoted k ss
  | SelfClosingStartTag => stateSelfClosingStartTag k ss
  | PlainText => statePlaintext k ss
  | _ => Unmodelled "tokenizer state"
  end.

(** The loop [while (true) { if (step()) break; }] of [run]. *)
Fixpoint runLoop (fuel : nat) (k : Tokenizer) (ss : Sk)
  : result (Tokenizer * Sk) :=
  match fuel with
  | O => OutOfFuel
  | S fuel' =>
      '(done, k, ss) ← step k ss;
      if done : bool then Ok (k, ss) else runLoop fuel' k ss
  end.

Definition run (fuel : nat) (html : jsstring) (k : Tokenizer) (ss : Sk)
  : result (Tokenizer * Sk) :=
  runLoop fuel (initialize html k) ss.

(** The state after the first [n] turns of the loop of [run]. *)
Fixpoint runSteps (n : nat) (k : Tokenizer) (ss : Sk)
  : result (Tokenizer * Sk) :=
  match n with
  | O => Ok (k, ss)
  | S n' => '(_, k, ss) ← step k ss; runSteps n' k ss
  end.

End WithSink.

End Tokenizer.

(** ** The stream adapter (stream.ts) *)

Module Stream.

Import Dom Tokens Tokenizer.

Inductive StreamEvent : Type :=
| EvStart (name : jsstring) (attrs : AttrMap)
| EvEnd (name : jsstring)
| EvComment (data : jsstring)
| EvDoctype (name publicId systemId : option jsstring)
| EvText (data : jsstring).

(** The index a property key stands for, when it is a canonical array
    index: an object lists such keys first, in ascending order. *)
Definition arrayIndex (k : jsstring) : option Z :=
  match k with
  | [] => None
  | c :: r =>
      if forallb isAsciiDigit k
         && (negb (c =? 0x30) || match r with [] => true | _ => false end)
      then
        match parseDigits 10 0 false k with
        | Some v => if v <? 2 ^ 32 - 1 then Some v else None
        | None => None
        end
      else None
  end.

Fixpoint insertByIndex (e : Z * (jsstring * option jsstring))
  (l : list (Z * (jsstring * option jsstring)))
  : list (Z * (jsstring * option jsstring)) :=
  match l with
  | [] => [e]
  | x :: l' => if fst e <? fst x then e :: l else x :: insertByIndex e l'
  end.

(** [Object.fromEntries(attrs)], as the entries of the object in property
    order. *)
Definition fromEntries (m : AttrMap) : AttrMap :=
  let indexed :=
    List.fold_left
      (fun acc e =>
         match arrayIndex (fst e) with
         | Some i => insertByIndex (i, e) acc
         | None => acc
         end) m [] in
  List.map snd indexed
  ++ List.filter (fun e => match arrayIndex (fst e) with
                           | Some _ => false
                           | None => true
                           end) m.

(** The class [StreamSink]: its only field is the list of events. *)
Record StreamSink : Type := mkStreamSink { events : list StreamEvent }.

Definition sinkProcessToken (token : Token) (sink : StreamSink)
  : result (option TokenSinkResult * StreamSink) :=
  match token with
  | Tag t =>
      match kind t with
      | Start =>
          Ok (Some Continue,
              mkStreamSink
                (events sink
                 ++ [EvStart (tagName t) (fromEntries (tagAttrs t))]))
      | End_ =>
          Ok (Some Continue,
              mkStreamSink (events sink ++ [EvEnd (tagName t)]))
      end
  | Tokens.Comment d =>
      Ok (Some Continue, mkStreamSink (events sink ++ [EvComment d]))
  | DoctypeToken dt =>
      Ok (Some Continue,
          mkStreamSink
            (events sink
             ++ [EvDoctype (doctypeName dt) (publicId dt) (systemId dt)]))
  | _ => Ok (Some Continue, sink)
  end.

Definition sinkProcessCharacters (data : jsstring) (sink : StreamSink)
  : result StreamSink :=
  Ok (mkStreamSink (events sink ++ [EvText data])).

(** The sink as a [TokenizerSink]: the class has no [openElements]. *)
Definition streamSink : TokenizerSink StreamSink :=
  mkSink StreamSink sinkProcessToken sinkProcessCharacters (fun _ => None).

(** The [for] loop over [sink.events] of one turn, with the events it
    yields; [textBuffer] is [None] for [undefined]. *)
Fixpoint yieldEvents (evs : list StreamEvent) (textBuffer : option jsstring)
  : list StreamEvent :=
  match evs with
  | [] =>
      match textBuffer with
      | Some t => [EvText t]
      | None => []
      end
  | EvText data :: evs' =>
      yieldEvents evs'
        (Some (match textBuffer with Some t => t | None => [] end ++ data))
  | e :: evs' =>
      match textBuffer with
      | Some t => [EvText t]
      | None => []
      end ++ e :: yieldEvents evs' None
  end.

Section Stream.

Variable NAMED_ENTITIES : jsstring -> option jsstring.

(** The generator's [while (true)] loop, with the events yielded so
    far. *)
Fixpoint streamLoop (fuel : nat) (k : Tokenizer) (sink : StreamSink)
  (yielded : list StreamEvent) : result (list StreamEvent) :=
  match fuel with
  | O => OutOfFuel
  | S fuel' =>
      '(isEof, k, sink) ← step NAMED_ENTITIES streamSink k sink;
      let yielded := yielded ++ yieldEvents (events sink) None in
      let sink := mkStreamSink [] in
      if isEof : bool then Ok yielded
      else streamLoop fuel' k sink yielded
  end.

(** [stream(html, { tokenizerOpts })] on a string: the events the
    generator yields until it returns. (Byte input is first decoded by
    the platform's [TextDecoder], which is outside this development.) *)
Definition stream (fuel : nat) (html : jsstring)
  (tokenizerOpts : TokenizerOpts) : result (list StreamEvent) :=
  let sink := mkStreamSink [] in
  let tokenizer := initialize html (createTokenizer tokenizerOpts) in
  streamLoop fuel tokenizer sink [].

End Stream.

Definition isText (e : StreamEvent) : bool :=
  match e with EvText _ => true | _ => false end.

(** Two consecutive events of the list are both text events. *)
Fixpoint adjacentText (evs : list StreamEvent) : bool :=
  match evs with
  | e1 :: ((e2 :: _) as rest) => (isText e1 && isText e2) || adjacentText rest
  | _ => false
  end.

End Stream.

(** ** Selectors (selector.ts) *)

Module Selector.

(** [matchesNth(index, a, b)]: whether [index] is of the form [a n + b].
    The remainder [%] of JavaScript has the sign of the dividend. *)
Definition matchesNth (index a b : Z) : bool :=
  if a =? 0 then index =? b
  else
    let diff := index - b in
    if 0 <? a then (0 <=? diff) && (Z.rem diff a =? 0)
    else (diff <=? 0) && (Z.rem diff a =? 0).

End Selector.

(** ** Tree construction (treebuilder.ts, treebuilder_utils.ts) *)

Module TreeBuilder.

Import Dom Tokens.

(** The insertion modes (treebuilder_utils.ts). *)
Inductive InsertionMode : Type :=
| INITIAL
| BEFORE_HTML
| BEFORE_HEAD
| IN_HEAD
| IN_HEAD_NOSCRIPT
| AFTER_HEAD
| TEXT
| IN_BODY
| AFTER_BODY
| AFTER_AFTER_BODY
| IN_TABLE
| IN_TABLE_TEXT
| IN_CAPTION
| IN_COLUMN_GROUP
| IN_TABLE_BODY
| IN_ROW
| IN_CELL
| IN_FRAMESET
| AFTER_FRAMESET
| AFTER_AFTER_FRAMESET
| IN_SELECT
| IN_TEMPLATE.

(** The parse errors of the tree builder. *)
Inductive ErrorCode : Type :=
| AdoptionAgency13
| EndTagTooEarly
| ExpectedClosingTagButGotEof
| ExpectedDoctypeButGotChars
| ExpectedDoctypeButGotEndTag
| ExpectedDoctypeButGotEof
| ExpectedDoctypeButGotStartTag
| ExpectedNamedClosingTagButGotEof
| FosterParentingCharacter
| ImageStartTag
| InvalidCodepoint
| InvalidCodepointBeforeHead
| InvalidCodepointInBody
| InvalidCodepointInForeignContent
| InvalidCodepointInSelect
| InvalidCodepointInTableText
| NonVoidHtmlElementStartTagWithTrailingSolidus
| UnexpectedCellInTableBody
| UnexpectedCharactersInColumnGroup
| UnexpectedCharactersInTemplateColumnGroup
| UnexpectedDoctype
| UnexpectedEndTag
| UnexpectedEndTagAfterHead
| UnexpectedEndTagBeforeHead
| UnexpectedEndTagBeforeHtml
| UnexpectedEndTagImpliesTableVoodoo
| UnexpectedEndTagInForeignContent
| UnexpectedEndTagInFragmentContext
| UnexpectedFormInTable
| UnexpectedHiddenInputAfterHead
| UnexpectedHiddenInputInTable
| UnexpectedHtmlElementInForeignContent
| UnexpectedNullCharacter
| UnexpectedStartTag
| UnexpectedStartTagIgnored
| UnexpectedStartTagImpliesEndTag
| UnexpectedStartTagImpliesTableVoodoo
| UnexpectedStartTagInCellFragment
| UnexpectedStartTagInColumnGroup
| UnexpectedStartTagInTemplateColumnGroup
| UnexpectedStartTagInTemplateTableContext
| UnexpectedTokenAfterAfterBody
| UnexpectedTokenAfterAfterFrameset
| UnexpectedTokenAfterBody
| UnexpectedTokenAfterFrameset
| UnexpectedTokenInFrameset
| UnknownDoctype.


Inductive QuirksMode : Type := Quirks | LimitedQuirks | NoQuirks.

(** Modelled from the spec: context.ts is not among the sources. A
    fragment context is the pair [{ tagName, namespace? }] of the
    specification's external interface, the namespace absent or one of
    ["html"], ["svg"], ["math"]. *)
Record FragmentContext : Type :=
  mkFragmentContext
    { ctxTagName : jsstring; ctxNamespace : option jsstring }.

Record ParseError : Type :=
  mkParseError { code : ErrorCode; errorTagName : option jsstring }.

(** An entry of the list of active formatting elements. *)
Record Formatting : Type :=
  mkFormatting
    { fmtName : jsstring; fmtAttrs : AttrMap; fmtNode : NodeId;
      signature : jsstring }.

Inductive FormattingEntry : Type :=
| FORMAT_MARKER
| Entry (f : Formatting).

(** What a mode handler returns: [undefined], or the instruction
    [[REPROCESS, insertionMode, token, forceHtml]]. *)
Inductive ModeResult : Type :=
| Done
| Reprocess (insertionMode : InsertionMode) (token : Token)
            (forceHtml : bool).

(** Modelled from the spec: constants.ts is not among the sources. The
    record holds the constants that the embedded part of treebuilder.ts
    reads, sets as their membership test and maps as their lookup;
    [HTML_INTEGRATION_POINT ns name] is
    [HTML_INTEGRATION_POINT_SET.has(integrationPointKey(ns, name))], and
    likewise for the MathML text integration points. *)
Record Constants : Type :=
  mkConstants
    { TABLE_FOSTER_TARGETS : jsstring -> bool;
      TABLE_ALLOWED_CHILDREN : jsstring -> bool;
      IMPLIED_END_TAGS : jsstring -> bool;
      SPECIAL_ELEMENTS : jsstring -> bool;
      FORMATTING_ELEMENTS : jsstring -> bool;
      DEFAULT_SCOPE_TERMINATORS : jsstring -> bool;
      BUTTON_SCOPE_TERMINATORS : jsstring -> bool;
      TABLE_SCOPE_TERMINATORS : jsstring -> bool;
      FOREIGN_BREAKOUT_ELEMENTS : jsstring -> bool;
      HTML_INTEGRATION_POINT : jsstring -> jsstring -> bool;
      MATHML_TEXT_INTEGRATION_POINT : jsstring -> jsstring -> bool;
      SVG_TAG_NAME_ADJUSTMENTS : jsstring -> option jsstring;
      MATHML_ATTRIBUTE_ADJUSTMENTS : jsstring -> option jsstring;
      SVG_ATTRIBUTE_ADJUSTMENTS : jsstring -> option jsstring;
      FOREIGN_ATTRIBUTE_ADJUSTMENTS
        : jsstring -> option (option jsstring * jsstring);
      QUIRKY_PUBLIC_MATCHES : list jsstring;
      QUIRKY_SYSTEM_MATCHES : list jsstring;
      QUIRKY_PUBLIC_PREFIXES : list jsstring;
      LIMITED_QUIRKY_PUBLIC_PREFIXES : list jsstring;
      HTML4_PUBLIC_PREFIXES : list jsstring;
      HEADING_ELEMENTS : jsstring -> bool;
      LIST_ITEM_SCOPE_TERMINATORS : jsstring -> bool;
      DEFINITION_SCOPE_TERMINATORS : jsstring -> bool }.

(** [TreeBuilderState], with the store of all nodes created so far in
    [nodes] (the fields that hold nodes hold their indices); the field
    [tokenizer], which the tree builder never reads, is left out. *)
Record TreeBuilderState : Type :=
  mkState
    { nodes : Store;
      fragmentContext : option FragmentContext;
      iframeSrcdoc : bool;
      collectErrors : bool;
      errors : list ParseError;
      fragmentContextElement : option NodeId;
      document : NodeId;
      mode : InsertionMode;
      originalMode : option InsertionMode;
      tableTextOriginalMode : option InsertionMode;
      openElements : list NodeId;
      headElement : option NodeId;
      formElement : option NodeId;
      framesetOk : bool;
      quirksMode : QuirksMode;
      ignoreLF : bool;
      activeFormatting : list FormattingEntry;
      insertFromTable : bool;
      pendingTableText : list jsstring;
      templateModes : list InsertionMode;
      tokenizerStateOverride : option TokenSinkResult }.

Definition set_nodes (v : Store) (st : TreeBuilderState)
  : TreeBuilderState :=
  mkState v (fragmentContext st) (iframeSrcdoc st) (collectErrors st)
    (errors st) (fragmentContextElement st) (document st) (mode st)
    (originalMode st) (tableTextOriginalMode st) (openElements st)
    (headElement st) (formElement st) (framesetOk st) (quirksMode st)
    (ignoreLF st) (activeFormatting st) (insertFromTable st)
    (pendingTableText st) (templateModes st) (tokenizerStateOverride st).

Definition set_errors (v : list ParseError) (st : TreeBuilderState)
  : TreeBuilderState :=
  mkState (nodes st) (fragmentContext st) (iframeSrcdoc st)
    (collectErrors st) v (fragmentContextElement st) (document st) (mode st)
    (originalMode st) (tableTextOriginalMode st) (openElements st)
    (headElement st) (formElement st) (framesetOk st) (quirksMode st)
    (ignoreLF st) (activeFormatting st) (insertFromTable st)
    (pendingTableText st) (templateModes st) (tokenizerStateOverride st).

Definition set_fragmentContextElement (v : option NodeId) (st : TreeBuilderState)
  : TreeBuilderState :=
  mkState (nodes st) (fragmentContext st) (iframeSrcdoc st)
    (collectErrors st) (errors st) v (document st) (mode st)
    (originalMode st) (tableTextOriginalMode st) (openElements st)
    (headElement st) (formElement st) (framesetOk st) (quirksMode st)
    (ignoreLF st) (activeFormatting st) (insertFromTable st)
    (pendingTableText st) (templateModes st) (tokenizerStateOverride st).

Definition set_mode (v : InsertionMode) (st : TreeBuilderState)
  : TreeBuilderState :=
  mkState (nodes st) (fragmentContext st) (iframeSrcdoc st)
    (collectErrors st) (errors st) (fragmentContextElement st) (document st)
    v (originalMode st) (tableTextOriginalMode st) (openElements st)
    (headElement st) (formElement st) (framesetOk st) (quirksMode st)
    (ignoreLF st) (activeFormatting st) (insertFromTable st)
    (pendingTableText st) (templateModes st) (tokenizerStateOverride st).

Definition set_originalMode (v : option InsertionMode) (st : TreeBuilderState)
  : TreeBuilderState :=
  mkState (nodes st) (fragmentContext st) (iframeSrcdoc st)
    (collectErrors st) (errors st) (fragmentContextElement st) (document st)
    (mode st) v (tableTextOriginalMode st) (openElements st)
    (headElement st) (formElement st) (framesetOk st) (quirksMode st)
    (ignoreLF st) (activeFormatting st) (insertFromTable st)
    (pendingTableText st) (templateModes st) (tokenizerStateOverride st).

Definition set_openElements (v : list NodeId) (st : TreeBuilderState)
  : TreeBuilderState :=
  mkState (nodes st) (fragmentContext st) (iframeSrcdoc st)
    (collectErrors st) (errors st) (fragmentContextElement st) (document st)
    (mode st) (originalMode st) (tableTextOriginalMode st) v
    (headElement st) (formElement st) (framesetOk st) (quirksMode st)
    (ignoreLF st) (activeFormatting st) (insertFromTable st)
    (pendingTableText st) (templateModes st) (tokenizerStateOverride st).

Definition set_headElement (v : option NodeId) (st : TreeBuilderState)
  : TreeBuilderState :=
  mkState (nodes st) (fragmentContext st) (iframeSrcdoc st)
    (collectErrors st) (errors st) (fragmentContextElement st) (document st)
    (mode st) (originalMode st) (tableTextOriginalMode st) (openElements st)
    v (formElement st) (framesetOk st) (quirksMode st) (ignoreLF st)
    (activeFormatting st) (insertFromTable st) (pendingTableText st)
    (templateModes st) (tokenizerStateOverride st).

Definition set_framesetOk (v : bool) (st : TreeBuilderState)
  : TreeBuilderState :=
  mkState (nodes st) (fragmentContext st) (iframeSrcdoc st)
    (collectErrors st) (errors st) (fragmentContextElement st) (document st)
    (mode st) (originalMode st) (tableTextOriginalMode st) (openElements st)
    (headElement st) (formElement st) v (quirksMode st) (ignoreLF st)
    (activeFormatting st) (insertFromTable st) (pendingTableText st)
    (templateModes st) (tokenizerStateOverride st).

Definition set_quirksMode (v : QuirksMode) (st : TreeBuilderState)
  : TreeBuilderState :=
  mkState (nodes st) (fragmentContext st) (iframeSrcdoc st)
    (collectErrors st) (errors st) (fragmentContextElement st) (document st)
    (mode st) (originalMode st) (tableTextOriginalMode st) (openElements st)
    (headElement st) (formElement st) (framesetOk st) v (ignoreLF st)
    (activeFormatting st) (insertFromTable st) (pendingTableText st)
    (templateModes st) (tokenizerStateOverride st).

Definition set_ignoreLF (v : bool) (st : TreeBuilderState)
  : TreeBuilderState :=
  mkState (nodes st) (fragmentContext st) (iframeSrcdoc st)
    (collectErrors st) (errors st) (fragmentContextElement st) (document st)
    (mode st) (originalMode st) (tableTextOriginalMode st) (openElements st)
    (headElement st) (formElement st) (framesetOk st) (quirksMode st) v
    (activeFormatting st) (insertFromTable st) (pendingTableText st)
    (templateModes st) (tokenizerStateOverride st).

Definition set_activeFormatting (v : list FormattingEntry) (st : TreeBuilderState)
  : TreeBuilderState :=
  mkState (nodes st) (fragmentContext st) (iframeSrcdoc st)
    (collectErrors st) (errors st) (fragmentContextElement st) (document st)
    (mode st) (originalMode st) (tableTextOriginalMode st) (openElements st)
    (headElement st) (formElement st) (framesetOk st) (quirksMode st)
    (ignoreLF st) v (insertFromTable st) (pendingTableText st)
    (templateModes st) (tokenizerStateOverride st).

Definition set_insertFromTable (v : bool) (st : TreeBuilderState)
  : TreeBuilderState :=
  mkState (nodes st) (fragmentContext st) (iframeSrcdoc st)
    (collectErrors st) (errors st) (fragmentContextElement st) (document st)
    (mode st) (originalMode st) (tableTextOriginalMode st) (openElements st)
    (headElement st) (formElement st) (framesetOk st) (quirksMode st)
    (ignoreLF st) (activeFormatting st) v (pendingTableText st)
    (templateModes st) (tokenizerStateOverride st).

Definition set_templateModes (v : list InsertionMode) (st : TreeBuilderState)
  : TreeBuilderState :=
  mkState (nodes st) (fragmentContext st) (iframeSrcdoc st)
    (collectErrors st) (errors st) (fragmentContextElement st) (document st)
    (mode st) (originalMode st) (tableTextOriginalMode st) (openElements st)
    (headElement st) (formElement st) (framesetOk st) (quirksMode st)
    (ignoreLF st) (activeFormatting st) (insertFromTable st)
    (pendingTableText st) v (tokenizerStateOverride st).

Definition set_tokenizerStateOverride (v : option TokenSinkResult) (st : TreeBuilderState)
  : TreeBuilderState :=
  mkState (nodes st) (fragmentContext st) (iframeSrcdoc st)
    (collectErrors st) (errors st) (fragmentContextElement st) (document st)
    (mode st) (originalMode st) (tableTextOriginalMode st) (openElements st)
    (headElement st) (formElement st) (framesetOk st) (quirksMode st)
    (ignoreLF st) (activeFormatting st) (insertFromTable st)
    (pendingTableText st) (templateModes st) v.

Definition set_formElement (v : option NodeId) (st : TreeBuilderState)
  : TreeBuilderState :=
  mkState (nodes st) (fragmentContext st) (iframeSrcdoc st) (collectErrors st)
    (errors st) (fragmentContextElement st) (document st) (mode st)
    (originalMode st) (tableTextOriginalMode st) (openElements st)
    (headElement st) v (framesetOk st) (quirksMode st)
    (ignoreLF st) (activeFormatting st) (insertFromTable st)
    (pendingTableText st) (templateModes st) (tokenizerStateOverride st).

(** The node tree of the state is well linked. *)
Definition linked (st : TreeBuilderState) : Prop := wellLinked (nodes st).

Definition BEFORE_HEAD_IMPLIED_END_TAGS : list jsstring :=
  List.map lit ["body"; "br"; "head"; "html"]%string.
Definition FRAGMENT_TABLE_SECTION_TAGS : list jsstring :=
  List.map lit ["tbody"; "tfoot"; "thead"]%string.
Definition FRAGMENT_CELL_TAGS : list jsstring :=
  List.map lit ["td"; "th"]%string.

Definition EOF_ALLOWED_UNCLOSED : list jsstring :=
  List.map lit ["dd"; "dt"; "li"; "optgroup"; "option"; "p"; "rb"; "rp";
                "rt"; "rtc"; "tbody"; "td"; "tfoot"; "th"; "thead"; "tr";
                "body"; "html"]%string.

(** [isAllWhitespace(text)]. *)
Definition isAllWhitespace (text : jsstring) : bool :=
  forallb (fun ch => (ch =? 0x09) || (ch =? 0x0A) || (ch =? 0x0C)
                     || (ch =? 0x0D) || (ch =? 0x20)) text.

(** [node.name] and [node.namespace] of a node of the store. *)
Definition nameOf (st : TreeBuilderState) (id : NodeId) : jsstring :=
  match nodes st !! id with Some n => name n | None => [] end.

Definition namespaceOf (st : TreeBuilderState) (id : NodeId)
  : option jsstring :=
  match nodes st !! id with Some n => namespace n | None => None end.

(** [ns == null || ns === "html"]. *)
Definition nsIsHTMLOrNull (ns : option jsstring) : bool :=
  match ns with
  | None => true
  | Some ns => str_eqb ns (lit "html")
  end.

(** [ns === "html"]. *)
Definition nsIs (ns : option jsstring) (s : string) : bool :=
  match ns with
  | None => false
  | Some ns => str_eqb ns (lit s)
  end.

Definition isTemplateNode (st : TreeBuilderState) (node : NodeId) : bool :=
  match nodes st !! node with
  | Some n =>
      str_eqb (name n) (lit "template")
      && match templateContent n with Some _ => true | None => false end
  | None => false
  end.

Definition templateContentOf (st : TreeBuilderState) (node : NodeId)
  : option NodeId :=
  match nodes st !! node with
  | Some n => templateContent n
  | None => None
  end.

Definition parseError (c : ErrorCode) (tagName : option jsstring)
  (st : TreeBuilderState) : TreeBuilderState :=
  if collectErrors st then set_errors (errors st ++ [mkParseError c tagName]) st
  else st.

Definition setQuirksMode (m : QuirksMode) (st : TreeBuilderState)
  : TreeBuilderState :=
  set_quirksMode m st.

(** [new Node(...)] in the store of the state. *)
Definition createNode (name : jsstring) (data : NodeData)
  (namespace : option jsstring) (attrs : AttrMap) (st : TreeBuilderState)
  : NodeId * TreeBuilderState :=
  let '(id, s) := newNode name data namespace attrs (nodes st) in
  (id, set_nodes s st).

Section Builder.

Variable K : Constants.

Definition nameIs (st : TreeBuilderState) (id : NodeId) (s : string) : bool :=
  str_eqb (nameOf st id) (lit s).

(** [state.openElements.at(-1)]. *)
Definition currentNode (st : TreeBuilderState) : option NodeId :=
  last (openElements st).

(** [state.openElements.pop()], for its effect. *)
Definition popCurrent (st : TreeBuilderState) : TreeBuilderState :=
  set_openElements (removelast (openElements st)) st.

Definition pushOpen (node : NodeId) (st : TreeBuilderState)
  : TreeBuilderState :=
  set_openElements (openElements st ++ [node]) st.

Definition currentNodeOrHTML (st : TreeBuilderState) : option NodeId :=
  match currentNode st with
  | Some n => Some n
  | None =>
      let children := childrenOf (nodes st) (document st) in
      match List.find (fun child => nameIs st child "html") children with
      | Some child => Some child
      | None => head children
      end
  end.

(** The non-null assertion [x!] on a value that is then dereferenced: an
    absent value raises a [TypeError]. *)
Definition assertDefined {A : Type} (x : option A) : result A :=
  match x with
  | Some a => Ok a
  | None => Raise "TypeError: undefined is not an object"
  end.

Definition createRoot (attrs : AttrMap) (st : TreeBuilderState)
  : NodeId * TreeBuilderState :=
  let '(node, st) := createNode (lit "html") NoData HTML attrs st in
  let st := set_nodes (appendChild (document st) node (nodes st)) st in
  (node, pushOpen node st).

(** The first node with the name, from the top of the stack down. *)
Definition findLastOnStack (st : TreeBuilderState) (name : jsstring)
  : option NodeId :=
  List.find (fun node => str_eqb (nameOf st node) name)
            (rev (openElements st)).

(** [array.indexOf(node)] as a number, [-1] when absent. *)
Definition indexOfZ (node : NodeId) (l : list NodeId) : Z :=
  match indexOfNode node l with
  | Some i => Z.of_nat i
  | None => -1
  end.

Definition shouldFosterParenting (st : TreeBuilderState) (target : NodeId)
  (forTag : option jsstring) (isText : bool) : bool :=
  if negb (insertFromTable st) then false
  else if negb (TABLE_FOSTER_TARGETS K (nameOf st target)) then false
  else if isText then true
  else
    match forTag with
    | Some t => if truthy t && TABLE_ALLOWED_CHILDREN K t then false else true
    | None => true
    end.

(** [insertNodeAt(parent, index, node)]: a negative index reads
    [undefined], like an index past the end. *)
Definition insertNodeAt (parent : NodeId) (index : Z) (node : NodeId)
  (st : TreeBuilderState) : result TreeBuilderState :=
  let children := childrenOf (nodes st) parent in
  let ref :=
    if (0 <=? index) && (index <? Z.of_nat (List.length children))
    then children !! Z.to_nat index
    else None in
  s ← insertBefore parent node ref (nodes st);
  Ok (set_nodes s st).

(** [appropriateInsertionLocation(state, overrideTarget, fosterParenting)]:
    the parent and the position in its child list. *)
Definition appropriateInsertionLocation (st : TreeBuilderState)
  (overrideTarget : option NodeId) (fosterParenting : bool)
  : result (NodeId * Z) :=
  target ← assertDefined (match overrideTarget with
                          | Some t => Some t
                          | None => currentNodeOrHTML st
                          end);
  let atEnd (n : NodeId) : NodeId * Z :=
    (n, Z.of_nat (List.length (childrenOf (nodes st) n))) in
  if fosterParenting && TABLE_FOSTER_TARGETS K (nameOf st target) then
    let lastTemplate := findLastOnStack st (lit "template") in
    let lastTable := findLastOnStack st (lit "table") in
    let useTemplate :=
      match lastTemplate, lastTable with
      | Some tpl, None => true
      | Some tpl, Some tbl =>
          indexOfZ tbl (openElements st) <? indexOfZ tpl (openElements st)
      | None, _ => false
      end in
    if useTemplate then
      content ← assertDefined
                  (match lastTemplate with
                   | Some tpl => templateContentOf st tpl
                   | None => None
                   end);
      Ok (atEnd content)
    else
      match lastTable with
      | None => Ok (atEnd target)
      | Some tbl =>
          match match nodes st !! tbl with
                | Some n => parentNode n
                | None => None
                end with
          | None => Ok (atEnd target)
          | Some parent =>
              Ok (parent, indexOfZ tbl (childrenOf (nodes st) parent))
          end
      end
  else if isTemplateNode st target then
    content ← assertDefined (templateContentOf st target);
    Ok (atEnd content)
  else Ok (atEnd target).

(** [insertElement(state, tag, push, namespace)]. *)
Definition insertElement (tag : TagToken) (push : bool)
  (namespace : option jsstring) (st : TreeBuilderState)
  : result (NodeId * TreeBuilderState) :=
  let '(node, st) := createNode (tagName tag) NoData namespace (tagAttrs tag)
                                st in
  if negb (insertFromTable st) then
    target ← assertDefined (currentNodeOrHTML st);
    parent ← (if isTemplateNode st target
              then assertDefined (templateContentOf st target)
              else Ok target);
    let st := set_nodes (appendChild parent node (nodes st)) st in
    Ok (node, if push then pushOpen node st else st)
  else
    target ← assertDefined (currentNodeOrHTML st);
    let foster := shouldFosterParenting st target (Some (tagName tag)) false in
    '(parent, position) ← appropriateInsertionLocation st None foster;
    st ← insertNodeAt parent position node st;
    Ok (node, if push then pushOpen node st else st).

Definition insertPhantom (name : jsstring) (st : TreeBuilderState)
  : result (NodeId * TreeBuilderState) :=
  insertElement (createTagToken Start name [] false) true HTML st.

Definition insertBodyIfMissing (st : TreeBuilderState)
  : result TreeBuilderState :=
  htmlNode ← assertDefined (findLastOnStack st (lit "html"));
  let '(node, st) := createNode (lit "body") NoData HTML [] st in
  let st := set_nodes (appendChild htmlNode node (nodes st)) st in
  Ok (pushOpen node st).

Definition appendCommentToDocument (text : jsstring) (st : TreeBuilderState)
  : TreeBuilderState :=
  let '(node, st) := createNode (lit "#comment") (StringData text) HTML [] st
  in
  set_nodes (appendChild (document st) node (nodes st)) st.

Definition appendComment (text : jsstring) (parent : option NodeId)
  (st : TreeBuilderState) : result TreeBuilderState :=
  target ← assertDefined (match parent with
                          | Some p => Some p
                          | None => currentNodeOrHTML st
                          end);
  target ← (if isTemplateNode st target
            then assertDefined (templateContentOf st target)
            else Ok target);
  let '(node, st) := createNode (lit "#comment") (StringData text) HTML [] st
  in
  Ok (set_nodes (appendChild target node (nodes st)) st).

(** [node.data = (node.data as string) + text]: a payload that is not a
    string is converted by the [+]; only text nodes reach this point. *)
Definition appendData (text : jsstring) (n : Node) : Node :=
  match data n with
  | StringData d => setData (StringData (d ++ text)) n
  | _ => setData (StringData text) n
  end.

Definition addMissingAttributes (node : NodeId) (attrs : AttrMap)
  (st : TreeBuilderState) : TreeBuilderState :=
  set_nodes
    (alter (fun n =>
              setAttrs
                (List.fold_left
                   (fun existing e =>
                      if attrsHas (fst e) existing then existing
                      else attrsSet (fst e) (snd e) existing)
                   attrs (Dom.attrs n)) n)
           node (nodes st)) st.

Definition cloneAttributes (attrs : AttrMap) : AttrMap := attrs.

Definition nodeInList (node : NodeId) (l : list NodeId) : bool :=
  existsb (Nat.eqb node) l.

(** The first loop of [reconstructActiveFormattingElements], which walks
    down from [index]: the index from which entries are reconstructed. *)
Fixpoint reconstructStart (st : TreeBuilderState)
  (below : list FormattingEntry) : nat :=
  match below with
  | [] => O
  | entry :: below' =>
      match entry with
      | FORMAT_MARKER => List.length below
      | Entry f =>
          if nodeInList (fmtNode f) (openElements st) then List.length below
          else reconstructStart st below'
      end
  end.

(** The second loop, over the entries from [index] on. *)
Fixpoint reconstructFrom (entries : list FormattingEntry) (index : nat)
  (st : TreeBuilderState) : result TreeBuilderState :=
  match entries with
  | [] => Ok st
  | FORMAT_MARKER :: entries' => reconstructFrom entries' (S index) st
  | Entry f :: entries' =>
      let tag := createTagToken Start (fmtName f)
                                (cloneAttributes (fmtAttrs f)) false in
      '(newNode, st) ← insertElement tag true HTML st;
      let entry' :=
        Entry (mkFormatting (fmtName f) (fmtAttrs f) newNode (signature f)) in
      let st := set_activeFormatting
                  (<[index := entry']> (activeFormatting st)) st in
      reconstructFrom entries' (S index) st
  end.

(** Reconstructs active formatting elements before inserting phrasing
    content. *)
Definition reconstructActiveFormattingElements (st : TreeBuilderState)
  : result TreeBuilderState :=
  match last (activeFormatting st) with
  | None => Ok st
  | Some FORMAT_MARKER => Ok st
  | Some (Entry lastEntry) =>
      if nodeInList (fmtNode lastEntry) (openElements st) then Ok st
      else
        let index :=
          reconstructStart st
            (rev (removelast (activeFormatting st))) in
        reconstructFrom (drop index (activeFormatting st)) index st
  end.

Definition appendText (text : jsstring) (st : TreeBuilderState)
  : result TreeBuilderState :=
  match text with
  | [] => Ok st
  | _ =>
      let '(text, st) :=
        if TreeBuilder.ignoreLF st then
          (match text with
           | 0x0A :: rest => rest
           | _ => text
           end, set_ignoreLF false st)
        else (text, st) in
      match text with
      | [] => Ok st
      | _ =>
          match currentNode st with
          | None => Ok st
          | Some target =>
              if negb (TABLE_FOSTER_TARGETS K (nameOf st target))
                 && negb (isTemplateNode st target)
              then
                let children := childrenOf (nodes st) target in
                match last children with
                | Some lastChild =>
                    if nameIs st lastChild "#text" then
                      Ok (set_nodes
                            (alter (appendData text) lastChild (nodes st)) st)
                    else
                      let '(node, st) :=
                        createNode (lit "#text") (StringData text) HTML [] st
                      in
                      Ok (set_nodes (appendChild target node (nodes st)) st)
                | None =>
                    let '(node, st) :=
                      createNode (lit "#text") (StringData text) HTML [] st in
                    Ok (set_nodes (appendChild target node (nodes st)) st)
                end
              else
                adjustedTarget ← assertDefined (currentNodeOrHTML st);
                let foster := shouldFosterParenting st adjustedTarget None true
                in
                st ← (if foster then reconstructActiveFormattingElements st
                      else Ok st);
                '(parent, position) ←
                  appropriateInsertionLocation st None foster;
                let previous :=
                  if 0 <? position
                  then childrenOf (nodes st) parent !! Z.to_nat (position - 1)
                  else None in
                match previous with
                | Some node =>
                    if nameIs st node "#text" then
                      Ok (set_nodes
                            (alter (appendData text) node (nodes st)) st)
                    else
                      let '(node, st) :=
                        createNode (lit "#text") (StringData text) HTML [] st
                      in
                      insertNodeAt parent position node st
                | None =>
                    let '(node, st) :=
                      createNode (lit "#text") (StringData text) HTML [] st in
                    insertNodeAt parent position node st
                end
          end
      end
  end.

Definition nodeAttributeValue (st : TreeBuilderState) (node : NodeId)
  (name : jsstring) : option jsstring :=
  let target := toLowerCase name in
  match nodes st !! node with
  | Some n =>
      match List.find (fun e => str_eqb (toLowerCase (fst e)) target)
                      (Dom.attrs n) with
      | Some (_, Some v) => Some v
      | Some (_, None) => Some []
      | None => None
      end
  | None => None
  end.

Definition isHTMLIntegrationPoint (st : TreeBuilderState) (node : NodeId)
  : bool :=
  if nsIs (namespaceOf st node) "math" && nameIs st node "annotation-xml"
  then
    match nodeAttributeValue st node (lit "encoding") with
    | Some encoding =>
        truthy encoding
        && (let encLower := toLowerCase encoding in
            str_eqb encLower (lit "text/html")
            || str_eqb encLower (lit "application/xhtml+xml"))
    | None => false
    end
  else
    HTML_INTEGRATION_POINT K
      (match namespaceOf st node with Some ns => ns | None => lit "null" end)
      (nameOf st node).

Definition isMathMLTextIntegrationPoint (st : TreeBuilderState)
  (node : NodeId) : bool :=
  if negb (nsIs (namespaceOf st node) "math") then false
  else MATHML_TEXT_INTEGRATION_POINT K (lit "math") (nameOf st node).

(** The loop of [hasElementInScope], on the stack from its top. *)
Fixpoint scopeScan (st : TreeBuilderState) (target : jsstring)
  (terms : jsstring -> bool) (checkIntegrationPoints : bool)
  (stack : list NodeId) : bool :=
  match stack with
  | [] => false
  | node :: stack' =>
      if str_eqb (nameOf st node) target then true
      else if nsIsHTMLOrNull (namespaceOf st node) then
        if terms (nameOf st node) then false
        else scopeScan st target terms checkIntegrationPoints stack'
      else if checkIntegrationPoints
              && (isHTMLIntegrationPoint st node
                  || isMathMLTextIntegrationPoint st node)
      then false
      else scopeScan st target terms checkIntegrationPoints stack'
  end.

Definition hasElementInScope (st : TreeBuilderState) (target : jsstring)
  (terminators : option (jsstring -> bool)) (checkIntegrationPoints : bool)
  : bool :=
  let terms := match terminators with
               | Some t => t
               | None => DEFAULT_SCOPE_TERMINATORS K
               end in
  scopeScan st target terms checkIntegrationPoints (rev (openElements st)).

Definition hasElementInButtonScope (st : TreeBuilderState)
  (target : jsstring) : bool :=
  hasElementInScope st target (Some (BUTTON_SCOPE_TERMINATORS K)) true.

Definition inScope (st : TreeBuilderState) (name : jsstring) : bool :=
  hasElementInScope st name (Some (DEFAULT_SCOPE_TERMINATORS K)) true.

Definition hasInTableScope (st : TreeBuilderState) (name : jsstring) : bool :=
  hasElementInScope st name (Some (TABLE_SCOPE_TERMINATORS K)) false.

(** The stack after popping nodes until one satisfies [stop], that one
    included; the whole stack is popped when none does. [stack] is the
    stack from its top. *)
Fixpoint popUntil (stop : NodeId -> bool) (stack : list NodeId)
  : list NodeId :=
  match stack with
  | [] => []
  | node :: stack' => if stop node then stack' else popUntil stop stack'
  end.

Definition popUntilInclusive (name : jsstring) (st : TreeBuilderState)
  : TreeBuilderState :=
  set_openElements
    (rev (popUntil (fun node => str_eqb (nameOf st node) name)
                   (rev (openElements st)))) st.

Definition popUntilAnyInclusive (names : jsstring -> bool)
  (st : TreeBuilderState) : TreeBuilderState :=
  set_openElements
    (rev (popUntil (fun node => names (nameOf st node))
                   (rev (openElements st)))) st.

(** The stack, from its top, after the loop of [generateImpliedEndTags]. *)
Fixpoint impliedEndTags (st : TreeBuilderState) (exclude : option jsstring)
  (stack : list NodeId) : list NodeId :=
  match stack with
  | [] => []
  | node :: stack' =>
      if IMPLIED_END_TAGS K (nameOf st node)
         && negb (match exclude with
                  | Some e => str_eqb (nameOf st node) e
                  | None => false
                  end)
      then impliedEndTags st exclude stack'
      else stack
  end.

Definition generateImpliedEndTags (exclude : option jsstring)
  (st : TreeBuilderState) : TreeBuilderState :=
  set_openElements
    (rev (impliedEndTags st exclude (rev (openElements st)))) st.

Definition unexpectedEndTag (name : jsstring) : TreeBuilderState -> TreeBuilderState :=
  parseError UnexpectedEndTag (Some name).
Definition unexpectedStartTag (name : jsstring) : TreeBuilderState -> TreeBuilderState :=
  parseError UnexpectedStartTag (Some name).
Definition unexpectedStartTagIgnored (name : jsstring) : TreeBuilderState -> TreeBuilderState :=
  parseError UnexpectedStartTagIgnored (Some name).
Definition invalidCodepoint : TreeBuilderState -> TreeBuilderState :=
  parseError InvalidCodepoint None.
Definition endTagTooEarly (name : option jsstring) : TreeBuilderState -> TreeBuilderState :=
  parseError EndTagTooEarly name.

Definition closePElement (st : TreeBuilderState) : bool * TreeBuilderState :=
  if hasElementInButtonScope st (lit "p") then
    let st := generateImpliedEndTags (Some (lit "p")) st in
    let st :=
      match currentNode st with
      | Some node => if negb (nameIs st node "p")
                     then endTagTooEarly (Some (lit "p")) st else st
      | None => st
      end in
    (true, popUntilInclusive (lit "p") st)
  else (false, st).

Definition isSpecialElement (st : TreeBuilderState) (node : NodeId) : bool :=
  if negb (nsIsHTMLOrNull (namespaceOf st node)) then false
  else SPECIAL_ELEMENTS K (nameOf st node).

(** The loop of [anyOtherEndTag]: [above] counts the nodes above [node]
    on the stack, [stack] is the stack from [node] down. *)
Fixpoint anyOtherEndTagScan (name : jsstring) (above : nat)
  (stack : list NodeId) (st : TreeBuilderState) : TreeBuilderState :=
  match stack with
  | [] => st
  | node :: stack' =>
      if str_eqb (nameOf st node) name then
        let st := if negb (above =? 0)%nat then endTagTooEarly None st
                  else st in
        set_openElements (rev stack') st
      else if isSpecialElement st node then unexpectedEndTag name st
      else anyOtherEndTagScan name (S above) stack' st
  end.

Definition anyOtherEndTag (name : jsstring) (st : TreeBuilderState)
  : TreeBuilderState :=
  anyOtherEndTagScan name O (rev (openElements st)) st.

(** The list of active formatting elements, from its end, after entries
    are popped up to a marker, the marker included. *)
Fixpoint clearToMarker (entries : list FormattingEntry)
  : list FormattingEntry :=
  match entries with
  | [] => []
  | FORMAT_MARKER :: entries' => entries'
  | Entry _ :: entries' => clearToMarker entries'
  end.

Definition clearActiveFormattingUpToMarker (st : TreeBuilderState)
  : TreeBuilderState :=
  set_activeFormatting (rev (clearToMarker (rev (activeFormatting st)))) st.

Definition pushFormattingMarker (st : TreeBuilderState) : TreeBuilderState :=
  set_activeFormatting (activeFormatting st ++ [FORMAT_MARKER]) st.

(** The loop of [resetInsertionMode] over the stack from its top. *)
Fixpoint resetModeScan (st : TreeBuilderState) (stack : list NodeId)
  : InsertionMode :=
  match stack with
  | [] => IN_BODY
  | node :: stack' =>
      let name := nameOf st node in
      let named (s : string) := str_eqb name (lit s) in
      if named "select"%string then IN_SELECT
      else if named "td"%string || named "th"%string then IN_CELL
      else if named "tr"%string then IN_ROW
      else if named "tbody"%string || named "tfoot"%string || named "thead"%string then IN_TABLE_BODY
      else if named "caption"%string then IN_CAPTION
      else if named "table"%string then IN_TABLE
      else
        match last (templateModes st) with
        | Some m =>
            if named "template"%string then m
            else if named "head"%string then IN_HEAD
            else if named "html"%string then IN_BODY
            else resetModeScan st stack'
        | None =>
            if named "head"%string then IN_HEAD
            else if named "html"%string then IN_BODY
            else resetModeScan st stack'
        end
  end.

Definition resetInsertionMode (st : TreeBuilderState) : TreeBuilderState :=
  set_mode (resetModeScan st (rev (openElements st))) st.

(** The property [unsupported] marks a handler of treebuilder.ts that this
    development does not embed. *)
Definition unsupported {A : Type} (what : string) : result A :=
  Unmodelled what.

Definition strOf (x : option jsstring) : jsstring :=
  match x with Some v => v | None => [] end.

(** The keys [[name, publicId, systemId].join("\u0000")] of the doctypes
    that raise no parse error. *)
Definition acceptable : list jsstring :=
  List.map (fun '(n, p, y) => lit n ++ [0] ++ lit p ++ [0] ++ lit y)
    [ ("html", "", "");
      ("html", "", "about:legacy-compat");
      ("html", "-//W3C//DTD HTML 4.0//EN", "");
      ("html", "-//W3C//DTD HTML 4.0//EN",
       "http://www.w3.org/TR/REC-html40/strict.dtd");
      ("html", "-//W3C//DTD HTML 4.01//EN", "");
      ("html", "-//W3C//DTD HTML 4.01//EN",
       "http://www.w3.org/TR/html4/strict.dtd");
      ("html", "-//W3C//DTD XHTML 1.0 Strict//EN",
       "http://www.w3.org/TR/xhtml1/DTD/xhtml1-strict.dtd");
      ("html", "-//W3C//DTD XHTML 1.1//EN",
       "http://www.w3.org/TR/xhtml11/DTD/xhtml11.dtd") ]%string.

Fixpoint startsWith (prefix s : jsstring) : bool :=
  match prefix, s with
  | [], _ => true
  | p :: prefix', c :: s' => (c =? p) && startsWith prefix' s'
  | _ :: _, [] => false
  end.

Definition containsPrefix (prefixes : list jsstring) (needle : jsstring)
  : bool :=
  existsb (fun prefix => startsWith prefix needle) prefixes.

Definition doctypeErrorAndQuirks (doctype : Doctype) (iframeSrcdoc : bool)
  : bool * QuirksMode :=
  let name := option_map toLowerCase (doctypeName doctype) in
  let key := strOf name ++ [0] ++ strOf (publicId doctype) ++ [0]
             ++ strOf (systemId doctype) in
  let error := negb (str_in key acceptable) in
  let publicLower := option_map toLowerCase (publicId doctype) in
  let systemLower := option_map toLowerCase (systemId doctype) in
  let has (x : option jsstring) (p : jsstring -> bool) : bool :=
    match x with
    | Some v => truthy v && p v
    | None => false
    end in
  let quirksMode :=
    if forceQuirks doctype then Quirks
    else if iframeSrcdoc then NoQuirks
    else if negb (match name with
                  | Some n => str_eqb n (lit "html")
                  | None => false
                  end) then Quirks
    else if has publicLower (fun v => str_in v (QUIRKY_PUBLIC_MATCHES K))
    then Quirks
    else if has systemLower (fun v => str_in v (QUIRKY_SYSTEM_MATCHES K))
    then Quirks
    else if has publicLower (containsPrefix (QUIRKY_PUBLIC_PREFIXES K))
    then Quirks
    else if has publicLower
              (containsPrefix (LIMITED_QUIRKY_PUBLIC_PREFIXES K))
    then LimitedQuirks
    else if has publicLower (containsPrefix (HTML4_PUBLIC_PREFIXES K))
    then match systemLower with
         | None => Quirks
         | Some _ => LimitedQuirks
         end
    else NoQuirks in
  (error, quirksMode).

(** Handles a doctype token and sets document quirks mode. *)
Definition handleDoctype (doctype : Doctype) (st : TreeBuilderState)
  : TreeBuilderState :=
  match mode st with
  | INITIAL =>
      let '(error, quirksMode) :=
        doctypeErrorAndQuirks doctype (iframeSrcdoc st) in
      let '(node, st) :=
        createNode (lit "!doctype") (DoctypeData doctype) HTML [] st in
      let st := set_nodes (appendChild (document st) node (nodes st)) st in
      let st := if error then parseError UnknownDoctype None st else st in
      set_mode BEFORE_HTML (setQuirksMode quirksMode st)
  | _ => parseError UnexpectedDoctype None st
  end.

(** [data.replaceAll(c, "")]. *)
Definition removeAll (c : Z) (data : jsstring) : jsstring :=
  List.filter (fun x => negb (x =? c)) data.

Definition tagIs (t : TagToken) (k : TagKind) (s : string) : bool :=
  tagKind_eqb (kind t) k && str_eqb (tagName t) (lit s).

(** [INITIAL] insertion mode. *)
Definition modeInitial (token : Token) (st : TreeBuilderState)
  : result (ModeResult * TreeBuilderState) :=
  match token with
  | Character data =>
      if isAllWhitespace data then Ok (Done, st)
      else
        let st := parseError ExpectedDoctypeButGotChars None st in
        Ok (Reprocess BEFORE_HTML token false, setQuirksMode Quirks st)
  | Comment data => Ok (Done, appendCommentToDocument data st)
  | EOF =>
      let st := parseError ExpectedDoctypeButGotEof None st in
      let st := setQuirksMode Quirks st in
      Ok (Reprocess BEFORE_HTML token false, set_mode BEFORE_HTML st)
  | Tag t =>
      let st :=
        parseError (match kind t with
                    | Start => ExpectedDoctypeButGotStartTag
                    | End_ => ExpectedDoctypeButGotEndTag
                    end) (Some (tagName t)) st in
      Ok (Reprocess BEFORE_HTML token false, setQuirksMode Quirks st)
  | DoctypeToken _ =>
      Ok (Reprocess BEFORE_HTML token false, setQuirksMode Quirks st)
  end.

(** The common end of [modeBeforeHtml]. *)
Definition createRootThenBeforeHead (token : Token) (st : TreeBuilderState)
  : result (ModeResult * TreeBuilderState) :=
  let '(_, st) := createRoot [] st in
  Ok (Reprocess BEFORE_HEAD token false, set_mode BEFORE_HEAD st).

(** [BEFORE_HTML] insertion mode. *)
Definition modeBeforeHtml (token : Token) (st : TreeBuilderState)
  : result (ModeResult * TreeBuilderState) :=
  match token with
  | Character data =>
      if isAllWhitespace data then Ok (Done, st)
      else
        let stripped := dropWhile (fun c => (c =? 0x09) || (c =? 0x0A)
                                            || (c =? 0x0C) || (c =? 0x0D)
                                            || (c =? 0x20)) data in
        createRootThenBeforeHead (Character stripped) st
  | Comment data => Ok (Done, appendCommentToDocument data st)
  | Tag t =>
      if tagIs t Start "html" then
        let '(_, st) := createRoot (tagAttrs t) st in
        Ok (Done, set_mode BEFORE_HEAD st)
      else if tagKind_eqb (kind t) End_
              && str_in (tagName t) BEFORE_HEAD_IMPLIED_END_TAGS
      then createRootThenBeforeHead token st
      else if tagKind_eqb (kind t) End_ then
        Ok (Done, parseError UnexpectedEndTagBeforeHtml (Some (tagName t)) st)
      else createRootThenBeforeHead token st
  | EOF => createRootThenBeforeHead token st
  | DoctypeToken _ => createRootThenBeforeHead token st
  end.

(** The common end of [modeBeforeHead]. *)
Definition phantomHeadThenInHead (token : Token) (st : TreeBuilderState)
  : result (ModeResult * TreeBuilderState) :=
  '(head, st) ← insertPhantom (lit "head") st;
  let st := set_headElement (Some head) st in
  Ok (Reprocess IN_HEAD token false, set_mode IN_HEAD st).

(** [BEFORE_HEAD] insertion mode. *)
Definition modeBeforeHead (token : Token) (st : TreeBuilderState)
  : result (ModeResult * TreeBuilderState) :=
  match token with
  | Character data =>
      let hasNul := includes 0 data in
      let st := if hasNul then parseError InvalidCodepointBeforeHead None st
                else st in
      let data := if hasNul then removeAll 0 data else data in
      if hasNul && negb (truthy data) then Ok (Done, st)
      else if isAllWhitespace data then Ok (Done, st)
      else phantomHeadThenInHead (Character data) st
  | Comment data => st ← appendComment data None st; Ok (Done, st)
  | Tag t =>
      match kind t with
      | Start =>
          if str_eqb (tagName t) (lit "html") then
            html ← assertDefined (head (openElements st));
            Ok (Done, addMissingAttributes html (tagAttrs t) st)
          else if str_eqb (tagName t) (lit "head") then
            '(head, st) ← insertElement t true HTML st;
            let st := set_headElement (Some head) st in
            Ok (Done, set_mode IN_HEAD st)
          else phantomHeadThenInHead token st
      | End_ =>
          if str_in (tagName t) BEFORE_HEAD_IMPLIED_END_TAGS
          then phantomHeadThenInHead token st
          else Ok (Done, parseError UnexpectedEndTagBeforeHead
                           (Some (tagName t)) st)
      end
  | EOF => phantomHeadThenInHead token st
  | DoctypeToken _ => phantomHeadThenInHead token st
  end.

(** The common end of [modeInHead]. *)
Definition popThenAfterHead (token : Token) (st : TreeBuilderState)
  : result (ModeResult * TreeBuilderState) :=
  Ok (Reprocess AFTER_HEAD token false, set_mode AFTER_HEAD (popCurrent st)).

(** [IN_HEAD] insertion mode. *)
Definition modeInHead (token : Token) (st : TreeBuilderState)
  : result (ModeResult * TreeBuilderState) :=
  match token with
  | Character data =>
      if isAllWhitespace data then st ← appendText data st; Ok (Done, st)
      else
        let i := spanLen (fun c => includes c (lit (String "009" (String "010"
                   (String "012" (String "013" " ")))))) data in
        let leadingWs := firstn i data in
        let remaining := skipn i data in
        st ← (if truthy leadingWs
                 && match currentNode st with
                    | Some n => hasChildNodes (nodes st) n
                    | None => false
                    end
              then appendText leadingWs st else Ok st);
        popThenAfterHead (Character remaining) st
  | Comment data => st ← appendComment data None st; Ok (Done, st)
  | Tag t =>
      let name := tagName t in
      let named (l : list string) := str_in name (List.map lit l) in
      match kind t with
      | Start =>
          if named ["html"%string] then popThenAfterHead token st
          else if named ["base"; "basefont"; "bgsound"; "link"; "meta"]%string
          then '(_, st) ← insertElement t false HTML st; Ok (Done, st)
          else if named ["template"%string] then
            '(_, st) ← insertElement t true HTML st;
            let st := pushFormattingMarker st in
            let st := set_framesetOk false st in
            let st := set_mode IN_TEMPLATE st in
            Ok (Done, set_templateModes (templateModes st ++ [IN_TEMPLATE]) st)
          else if named ["noframes"; "script"; "style"; "title"]%string then
            '(_, st) ← insertElement t true HTML st;
            let st := set_originalMode (Some (mode st)) st in
            Ok (Done, set_mode TEXT st)
          else if named ["noscript"%string] then
            '(_, st) ← insertElement t true HTML st;
            Ok (Done, set_mode IN_HEAD_NOSCRIPT st)
          else popThenAfterHead token st
      | End_ =>
          if named ["template"%string] then
            if existsb (fun node => nameIs st node "template") (openElements st)
            then
              let st := generateImpliedEndTags None st in
              let st := popUntilInclusive (lit "template") st in
              let st := clearActiveFormattingUpToMarker st in
              let st := set_templateModes (removelast (templateModes st)) st in
              Ok (Done, resetInsertionMode st)
            else Ok (Done, st)
          else if named ["head"%string] then
            Ok (Done, set_mode AFTER_HEAD (popCurrent st))
          else popThenAfterHead token st
      end
  | EOF => popThenAfterHead token st
  | DoctypeToken _ => popThenAfterHead token st
  end.

Definition done (st : TreeBuilderState)
  : result (ModeResult * TreeBuilderState) :=
  Ok (Done, st).

(** [reprocessInstruction(mode, token, forceHtml)]. *)
Definition reprocess (m : InsertionMode) (token : Token) (forceHtml : bool)
  (st : TreeBuilderState) : result (ModeResult * TreeBuilderState) :=
  Ok (Reprocess m token forceHtml, st).

(** The value of the first attribute named [type], lower-cased; [None]
    when there is none or its value is [null]. *)
Definition inputTypeOf (attrs : AttrMap) : option jsstring :=
  match List.find (fun e => str_eqb (fst e) (lit "type")) attrs with
  | Some (_, Some value) => Some (toLowerCase value)
  | _ => None
  end.

Definition isHidden (inputType : option jsstring) : bool :=
  match inputType with
  | Some v => str_eqb v (lit "hidden")
  | None => false
  end.

(** [l.splice(l.indexOf(node), 1)] when the node is in the list. *)
Fixpoint removeFirst (node : NodeId) (l : list NodeId) : list NodeId :=
  match l with
  | [] => []
  | x :: l' => if (x =? node)%nat then l' else x :: removeFirst node l'
  end.

(** The handlers of start tags in body mode. *)
Definition handleBodyStartHtml (token : TagToken) (st : TreeBuilderState)
  : result (ModeResult * TreeBuilderState) :=
  match templateModes st with
  | _ :: _ => done (unexpectedStartTag (tagName token) st)
  | [] =>
      match openElements st with
      | html :: _ => done (addMissingAttributes html (tagAttrs token) st)
      | [] => done st
      end
  end.

Definition handleBodyStartBody (token : TagToken) (st : TreeBuilderState)
  : result (ModeResult * TreeBuilderState) :=
  match templateModes st with
  | _ :: _ => done (unexpectedStartTag (tagName token) st)
  | [] =>
      match openElements st with
      | _ :: body :: _ =>
          let st := unexpectedStartTag (tagName token) st in
          let st := if nameIs st body "body"
                    then addMissingAttributes body (tagAttrs token) st
                    else st in
          done (set_framesetOk false st)
      | _ => done (set_framesetOk false st)
      end
  end.

Definition handleBodyStartHead (token : TagToken) (st : TreeBuilderState)
  : result (ModeResult * TreeBuilderState) :=
  done (unexpectedStartTag (tagName token) st).

Definition handleBodyStartInHead (token : TagToken) (st : TreeBuilderState)
  : result (ModeResult * TreeBuilderState) :=
  modeInHead (Tag token) st.

Definition handleBodyStartBlockWithP (token : TagToken)
  (st : TreeBuilderState) : result (ModeResult * TreeBuilderState) :=
  let '(_, st) := closePElement st in
  '(_, st) ← insertElement token true HTML st;
  done st.

Definition handleBodyStartHeading (token : TagToken) (st : TreeBuilderState)
  : result (ModeResult * TreeBuilderState) :=
  let '(_, st) := closePElement st in
  let st :=
    match currentNode st with
    | Some node =>
        if HEADING_ELEMENTS K (nameOf st node)
        then popCurrent (unexpectedStartTag (tagName token) st)
        else st
    | None => st
    end in
  '(_, st) ← insertElement token true HTML st;
  done (set_framesetOk false st).

Definition handleBodyStartPreListing (token : TagToken)
  (st : TreeBuilderState) : result (ModeResult * TreeBuilderState) :=
  let '(_, st) := closePElement st in
  '(_, st) ← insertElement token true HTML st;
  done (set_framesetOk false (set_ignoreLF true st)).

Definition handleBodyStartForm (token : TagToken) (st : TreeBuilderState)
  : result (ModeResult * TreeBuilderState) :=
  match formElement st with
  | Some _ => done (unexpectedStartTag (tagName token) st)
  | None =>
      let '(_, st) := closePElement st in
      '(node, st) ← insertElement token true HTML st;
      done (set_framesetOk false (set_formElement (Some node) st))
  end.

(** The stack, from its top, after [closeElementByName]: [None] when no
    node has the name and the stack stays as it is. *)
Fixpoint closeByName (st : TreeBuilderState) (name : jsstring)
  (stack : list NodeId) : option (list NodeId) :=
  match stack with
  | [] => None
  | node :: stack' =>
      if str_eqb (nameOf st node) name then Some stack'
      else closeByName st name stack'
  end.

Definition closeElementByName (name : jsstring) (st : TreeBuilderState)
  : TreeBuilderState :=
  match closeByName st name (rev (openElements st)) with
  | Some stack => set_openElements (rev stack) st
  | None => st
  end.

Definition handleBodyStartButton (token : TagToken) (st : TreeBuilderState)
  : result (ModeResult * TreeBuilderState) :=
  let st :=
    if inScope st (lit "button") then
      closeElementByName (lit "button")
        (parseError UnexpectedStartTagImpliesEndTag (Some (tagName token)) st)
    else st in
  '(_, st) ← insertElement token true HTML st;
  done (set_framesetOk false st).

Definition handleBodyStartParagraph (token : TagToken)
  (st : TreeBuilderState) : result (ModeResult * TreeBuilderState) :=
  let '(_, st) := closePElement st in
  '(_, st) ← insertElement token true HTML st;
  done st.

(** [SVG_TAG_NAME_ADJUSTMENTS.get(lowered) || name]. *)
Definition adjustSVGTagName (name : jsstring) : jsstring :=
  let lowered := toLowerCase name in
  match SVG_TAG_NAME_ADJUSTMENTS K lowered with
  | Some adjusted => if truthy adjusted then adjusted else name
  | None => name
  end.

(** Applies namespace-specific attribute name adjustments for foreign
    elements. *)
Definition prepareForeignAttributes (namespace : option jsstring)
  (attrs : AttrMap) : AttrMap :=
  List.fold_left
    (fun adjusted e =>
       let name := fst e in
       let lowerName := toLowerCase name in
       let '(name, lowerName) :=
         match (if nsIs namespace "math"
                then MATHML_ATTRIBUTE_ADJUSTMENTS K lowerName
                else None),
               (if nsIs namespace "svg"
                then SVG_ATTRIBUTE_ADJUSTMENTS K lowerName
                else None) with
         | Some n, _ => (n, toLowerCase n)
         | None, Some n => (n, toLowerCase n)
         | None, None => (name, lowerName)
         end in
       let name :=
         match FOREIGN_ATTRIBUTE_ADJUSTMENTS K lowerName with
         | Some (prefix, local) =>
             match prefix with
             | Some pr => if truthy pr then pr ++ lit ":" ++ local else local
             | None => local
             end
         | None => name
         end in
       attrsSet name (snd e) adjusted)
    attrs [].

Definition handleBodyStartMath (token : TagToken) (st : TreeBuilderState)
  : result (ModeResult * TreeBuilderState) :=
  st ← reconstructActiveFormattingElements st;
  let attrs := prepareForeignAttributes (Some (lit "math")) (tagAttrs token) in
  let newTag := createTagToken Start (tagName token) attrs
                               (selfClosing token) in
  '(_, st) ← insertElement newTag (negb (selfClosing token))
                           (Some (lit "math")) st;
  done st.

Definition handleBodyStartSvg (token : TagToken) (st : TreeBuilderState)
  : result (ModeResult * TreeBuilderState) :=
  st ← reconstructActiveFormattingElements st;
  let adjustedName := adjustSVGTagName (tagName token) in
  let attrs := prepareForeignAttributes (Some (lit "svg")) (tagAttrs token) in
  let newTag := createTagToken Start adjustedName attrs (selfClosing token) in
  '(_, st) ← insertElement newTag (negb (selfClosing token))
                           (Some (lit "svg")) st;
  done st.

Definition hasInListItemScope (st : TreeBuilderState) (name : jsstring)
  : bool :=
  hasElementInScope st name (Some (LIST_ITEM_SCOPE_TERMINATORS K)) true.

Definition hasInDefinitionScope (st : TreeBuilderState) (name : jsstring)
  : bool :=
  hasElementInScope st name (Some (DEFINITION_SCOPE_TERMINATORS K)) true.

Definition nameIn (names : list string) (name : jsstring) : bool :=
  str_in name (List.map lit names).

Definition handleBodyStartLi (token : TagToken) (st : TreeBuilderState)
  : result (ModeResult * TreeBuilderState) :=
  let st := set_framesetOk false st in
  let '(_, st) := closePElement st in
  let st := if hasInListItemScope st (lit "li")
            then popUntilAnyInclusive (nameIn ["li"%string]) st else st in
  '(_, st) ← insertElement token true HTML st;
  done st.

Definition handleBodyStartDdDt (token : TagToken) (st : TreeBuilderState)
  : result (ModeResult * TreeBuilderState) :=
  let st := set_framesetOk false st in
  let '(_, st) := closePElement st in
  let close (s : string) (st : TreeBuilderState) :=
    if hasInDefinitionScope st (lit s)
    then popUntilAnyInclusive (nameIn [s]) st else st in
  let st :=
    if str_eqb (tagName token) (lit "dd")
    then close "dt"%string (close "dd"%string st)
    else close "dd"%string (close "dt"%string st) in
  '(_, st) ← insertElement token true HTML st;
  done st.

Definition handleBodyStartAppletLike (token : TagToken)
  (st : TreeBuilderState) : result (ModeResult * TreeBuilderState) :=
  st ← reconstructActiveFormattingElements st;
  '(_, st) ← insertElement token true HTML st;
  done (set_framesetOk false (pushFormattingMarker st)).

Definition handleBodyStartBr (token : TagToken) (st : TreeBuilderState)
  : result (ModeResult * TreeBuilderState) :=
  st ← reconstructActiveFormattingElements st;
  '(_, st) ← insertElement token false HTML st;
  done (set_framesetOk false st).

Definition handleBodyStartHr (token : TagToken) (st : TreeBuilderState)
  : result (ModeResult * TreeBuilderState) :=
  let '(_, st) := closePElement st in
  '(_, st) ← insertElement token false HTML st;
  done (set_framesetOk false st).

(** The index of the first node named [body] on the stack. *)
Fixpoint findBodyIndex (st : TreeBuilderState) (stack : list NodeId)
  (i : nat) : option nat :=
  match stack with
  | [] => None
  | node :: stack' =>
      if nameIs st node "body" then Some i else findBodyIndex st stack' (S i)
  end.

Definition handleBodyStartFrameset (token : TagToken) (st : TreeBuilderState)
  : result (ModeResult * TreeBuilderState) :=
  if negb (framesetOk st) then
    done (unexpectedStartTagIgnored (tagName token) st)
  else
    match findBodyIndex st (openElements st) O with
    | None => done (unexpectedStartTagIgnored (tagName token) st)
    | Some bodyIndex =>
        st ← match openElements st !! bodyIndex with
             | Some bodyElem =>
                 match match nodes st !! bodyElem with
                       | Some n => parentNode n
                       | None => None
                       end with
                 | Some parent =>
                     s ← removeChild parent bodyElem (nodes st);
                     Ok (set_nodes s st)
                 | None => Ok st
                 end
             | None => Ok st
             end;
        let st := set_openElements (take bodyIndex (openElements st)) st in
        '(_, st) ← insertElement token true HTML st;
        done (set_mode IN_FRAMESET st)
    end.

Definition handleBodyStartStructureIgnored (token : TagToken)
  (st : TreeBuilderState) : result (ModeResult * TreeBuilderState) :=
  done (unexpectedStartTagIgnored (tagName token) st).

Definition handleBodyStartColOrFrame (token : TagToken)
  (st : TreeBuilderState) : result (ModeResult * TreeBuilderState) :=
  match fragmentContext st with
  | None => done (unexpectedStartTagIgnored (tagName token) st)
  | Some _ => '(_, st) ← insertElement token false HTML st; done st
  end.

Definition handleBodyStartImage (token : TagToken) (st : TreeBuilderState)
  : result (ModeResult * TreeBuilderState) :=
  let st := parseError ImageStartTag (Some (tagName token)) st in
  let imgToken := createTagToken Start (lit "img") (tagAttrs token)
                                 (selfClosing token) in
  st ← reconstructActiveFormattingElements st;
  '(_, st) ← insertElement imgToken false HTML st;
  done (set_framesetOk false st).

Definition handleBodyStartVoidWithFormatting (token : TagToken)
  (st : TreeBuilderState) : result (ModeResult * TreeBuilderState) :=
  st ← reconstructActiveFormattingElements st;
  '(_, st) ← insertElement token false HTML st;
  done (set_framesetOk false st).

Definition handleBodyStartSimpleVoid (token : TagToken)
  (st : TreeBuilderState) : result (ModeResult * TreeBuilderState) :=
  '(_, st) ← insertElement token false HTML st;
  done st.

Definition handleBodyStartInput (token : TagToken) (st : TreeBuilderState)
  : result (ModeResult * TreeBuilderState) :=
  let inputType := inputTypeOf (tagAttrs token) in
  '(_, st) ← insertElement token false HTML st;
  done (if negb (isHidden inputType) then set_framesetOk false st else st).

Definition handleBodyStartTable (token : TagToken) (st : TreeBuilderState)
  : result (ModeResult * TreeBuilderState) :=
  let st := match quirksMode st with
            | Quirks => st
            | _ => snd (closePElement st)
            end in
  '(_, st) ← insertElement token true HTML st;
  done (set_mode IN_TABLE (set_framesetOk false st)).

Definition handleBodyStartPlaintextXmp (token : TagToken)
  (st : TreeBuilderState) : result (ModeResult * TreeBuilderState) :=
  let '(_, st) := closePElement st in
  '(_, st) ← insertElement token true HTML st;
  let st := set_framesetOk false st in
  if str_eqb (tagName token) (lit "plaintext")
  then done (set_tokenizerStateOverride (Some Plaintext) st)
  else done (set_mode TEXT (set_originalMode (Some (mode st)) st)).

Definition handleBodyStartTextarea (token : TagToken) (st : TreeBuilderState)
  : result (ModeResult * TreeBuilderState) :=
  '(_, st) ← insertElement token true HTML st;
  done (set_framesetOk false (set_ignoreLF true st)).

Definition handleBodyStartSelect (token : TagToken) (st : TreeBuilderState)
  : result (ModeResult * TreeBuilderState) :=
  st ← reconstructActiveFormattingElements st;
  '(_, st) ← insertElement token true HTML st;
  done (resetInsertionMode (set_framesetOk false st)).

Definition popOpenElementIf (name : jsstring) (st : TreeBuilderState)
  : bool * TreeBuilderState :=
  match currentNode st with
  | Some node => if str_eqb (nameOf st node) name then (true, popCurrent st)
                 else (false, st)
  | None => (false, st)
  end.

Definition handleBodyStartOption (token : TagToken) (st : TreeBuilderState)
  : result (ModeResult * TreeBuilderState) :=
  let '(_, st) := popOpenElementIf (lit "option") st in
  st ← reconstructActiveFormattingElements st;
  '(_, st) ← insertElement token true HTML st;
  done st.

Definition handleBodyStartOptgroup (token : TagToken) (st : TreeBuilderState)
  : result (ModeResult * TreeBuilderState) :=
  let '(_, st) := popOpenElementIf (lit "option") st in
  st ← reconstructActiveFormattingElements st;
  '(_, st) ← insertElement token true HTML st;
  done st.

Definition handleBodyStartRpRt (token : TagToken) (st : TreeBuilderState)
  : result (ModeResult * TreeBuilderState) :=
  let st := generateImpliedEndTags (Some (lit "rtc")) st in
  '(_, st) ← insertElement token true HTML st;
  done st.

Definition handleBodyStartRbRtc (token : TagToken) (st : TreeBuilderState)
  : result (ModeResult * TreeBuilderState) :=
  let st :=
    match currentNode st with
    | Some node =>
        if nameIn ["rb"; "rp"; "rt"; "rtc"]%string (nameOf st node)
        then generateImpliedEndTags None st else st
    | None => st
    end in
  '(_, st) ← insertElement token true HTML st;
  done st.

Definition handleBodyStartTableParseError (token : TagToken)
  (st : TreeBuilderState) : result (ModeResult * TreeBuilderState) :=
  done (unexpectedStartTag (tagName token) st).

Definition handleBodyStartDefault (token : TagToken) (st : TreeBuilderState)
  : result (ModeResult * TreeBuilderState) :=
  st ← reconstructActiveFormattingElements st;
  '(_, st) ← insertElement token true HTML st;
  let st := if selfClosing token
            then parseError NonVoidHtmlElementStartTagWithTrailingSolidus
                            (Some (tagName token)) st
            else st in
  done (set_framesetOk false st).

(** The handlers [handleBodyStartA] and [handleBodyStartFormatting] run
    the adoption agency algorithm, which is not embedded. *)
Definition handleBodyStartA (token : TagToken) (st : TreeBuilderState)
  : result (ModeResult * TreeBuilderState) :=
  unsupported "handleBodyStartA".

Definition handleBodyStartFormatting (token : TagToken)
  (st : TreeBuilderState) : result (ModeResult * TreeBuilderState) :=
  unsupported "handleBodyStartFormatting".

Definition BodyHandler : Type :=
  TagToken -> TreeBuilderState -> result (ModeResult * TreeBuilderState).

(** The map [BODY_START_HANDLERS], its keys grouped by handler. *)
Definition BODY_START_HANDLERS : list (list string * BodyHandler) :=
  [ (["a"], handleBodyStartA);
    (["address"; "article"; "aside"; "blockquote"; "center"; "details";
      "dialog"; "dir"; "div"; "dl"; "fieldset"; "figcaption"; "figure";
      "footer"; "header"; "hgroup"; "main"; "menu"; "nav"; "ol"; "search";
      "section"; "summary"; "ul"], handleBodyStartBlockWithP);
    (["applet"; "marquee"; "object"], handleBodyStartAppletLike);
    (["area"; "embed"; "img"; "keygen"; "wbr"],
     handleBodyStartVoidWithFormatting);
    (["b"; "big"; "code"; "em"; "font"; "i"; "nobr"; "s"; "small"; "strike";
      "strong"; "tt"; "u"], handleBodyStartFormatting);
    (["base"; "basefont"; "bgsound"; "link"; "meta"; "noframes"; "script";
      "style"; "template"; "title"], handleBodyStartInHead);
    (["body"], handleBodyStartBody);
    (["br"], handleBodyStartBr);
    (["button"], handleBodyStartButton);
    (["caption"], handleBodyStartTableParseError);
    (["col"; "frame"], handleBodyStartColOrFrame);
    (["colgroup"; "tbody"; "td"; "tfoot"; "th"; "thead"; "tr"],
     handleBodyStartStructureIgnored);
    (["dd"; "dt"], handleBodyStartDdDt);
    (["form"], handleBodyStartForm);
    (["frameset"], handleBodyStartFrameset);
    (["h1"; "h2"; "h3"; "h4"; "h5"; "h6"], handleBodyStartHeading);
    (["head"], handleBodyStartHead);
    (["hr"], handleBodyStartHr);
    (["html"], handleBodyStartHtml);
    (["image"], handleBodyStartImage);
    (["input"], handleBodyStartInput);
    (["li"], handleBodyStartLi);
    (["listing"; "pre"], handleBodyStartPreListing);
    (["math"], handleBodyStartMath);
    (["optgroup"], handleBodyStartOptgroup);
    (["option"], handleBodyStartOption);
    (["p"], handleBodyStartParagraph);
    (["param"; "source"; "track"], handleBodyStartSimpleVoid);
    (["plaintext"; "xmp"], handleBodyStartPlaintextXmp);
    (["rb"; "rtc"], handleBodyStartRbRtc);
    (["rp"; "rt"], handleBodyStartRpRt);
    (["select"], handleBodyStartSelect);
    (["svg"], handleBodyStartSvg);
    (["table"], handleBodyStartTable);
    (["textarea"], handleBodyStartTextarea) ]%string.

(** [map.get(name)] on a map given with grouped keys. *)
Definition handlerFor (handlers : list (list string * BodyHandler))
  (name : jsstring) : option BodyHandler :=
  option_map snd (List.find (fun e => nameIn (fst e) name) handlers).

(** The handlers of end tags in body mode. *)
Definition handleBodyEndBody (token : TagToken) (st : TreeBuilderState)
  : result (ModeResult * TreeBuilderState) :=
  done (if inScope st (lit "body") then set_mode AFTER_BODY st else st).

Definition handleBodyEndHtml (token : TagToken) (st : TreeBuilderState)
  : result (ModeResult * TreeBuilderState) :=
  if inScope st (lit "body") then reprocess AFTER_BODY (Tag token) false st
  else done st.

Definition handleBodyEndP (token : TagToken) (st : TreeBuilderState)
  : result (ModeResult * TreeBuilderState) :=
  let '(closed, st) := closePElement st in
  if closed then done st
  else
    let st := unexpectedEndTag (tagName token) st in
    let phantom := createTagToken Start (lit "p") [] false in
    '(_, st) ← insertElement phantom true HTML st;
    done (snd (closePElement st)).

Definition handleBodyEndLi (token : TagToken) (st : TreeBuilderState)
  : result (ModeResult * TreeBuilderState) :=
  if negb (hasInListItemScope st (lit "li"))
  then done (unexpectedEndTag (tagName token) st)
  else done (popUntilAnyInclusive (nameIn ["li"%string]) st).

Definition handleBodyEndDdDt (token : TagToken) (st : TreeBuilderState)
  : result (ModeResult * TreeBuilderState) :=
  let name := tagName token in
  if negb (hasInDefinitionScope st name)
  then done (unexpectedEndTag name st)
  else done (popUntilAnyInclusive (nameIn ["dd"; "dt"]%string) st).

(** [removeFromOpenElements(state, node)]. *)
Definition removeFromOpenElements (node : NodeId) (st : TreeBuilderState)
  : bool * TreeBuilderState :=
  if nodeInList node (openElements st)
  then (true, set_openElements (removeFirst node (openElements st)) st)
  else (false, st).

Definition handleBodyEndForm (token : TagToken) (st : TreeBuilderState)
  : result (ModeResult * TreeBuilderState) :=
  match formElement st with
  | None => done (unexpectedEndTag (tagName token) st)
  | Some form =>
      let '(removed, st) := removeFromOpenElements form st in
      let st := set_formElement None st in
      done (if negb removed then unexpectedEndTag (tagName token) st else st)
  end.

Definition handleBodyEndAppletLike (token : TagToken)
  (st : TreeBuilderState) : result (ModeResult * TreeBuilderState) :=
  let name := tagName token in
  if negb (inScope st name) then done (unexpectedEndTag name st)
  else done (clearActiveFormattingUpToMarker (popUntilInclusive name st)).

(** The loop of [hasAnyInScope], on the stack from its top. *)
Fixpoint anyInScopeScan (st : TreeBuilderState) (names : jsstring -> bool)
  (stack : list NodeId) : bool :=
  match stack with
  | [] => false
  | node :: stack' =>
      if names (nameOf st node) then true
      else if nsIsHTMLOrNull (namespaceOf st node)
              && DEFAULT_SCOPE_TERMINATORS K (nameOf st node)
      then false
      else anyInScopeScan st names stack'
  end.

Definition hasAnyInScope (st : TreeBuilderState) (names : jsstring -> bool)
  : bool :=
  anyInScopeScan st names (rev (openElements st)).

Definition handleBodyEndHeading (token : TagToken) (st : TreeBuilderState)
  : result (ModeResult * TreeBuilderState) :=
  let name := tagName token in
  if negb (hasAnyInScope st (HEADING_ELEMENTS K))
  then done (unexpectedEndTag name st)
  else
    let st := generateImpliedEndTags None st in
    let st :=
      match currentNode st with
      | Some node => if negb (str_eqb (nameOf st node) name)
                     then endTagTooEarly (Some name) st else st
      | None => st
      end in
    done (popUntilAnyInclusive (HEADING_ELEMENTS K) st).

Definition handleBodyEndBlock (token : TagToken) (st : TreeBuilderState)
  : result (ModeResult * TreeBuilderState) :=
  let name := tagName token in
  if negb (inScope st name) then done (unexpectedEndTag name st)
  else
    let st := generateImpliedEndTags None st in
    let st :=
      match currentNode st with
      | Some node => if negb (str_eqb (nameOf st node) name)
                     then endTagTooEarly (Some name) st else st
      | None => st
      end in
    done (popUntilAnyInclusive (str_eqb name) st).

Definition handleBodyEndTemplate (token : TagToken) (st : TreeBuilderState)
  : result (ModeResult * TreeBuilderState) :=
  if negb (existsb (fun node => nameIs st node "template") (openElements st))
  then done st
  else
    let st := generateImpliedEndTags None st in
    let st := popUntilInclusive (lit "template") st in
    let st := clearActiveFormattingUpToMarker st in
    let st := set_templateModes (removelast (templateModes st)) st in
    done (resetInsertionMode st).

(** The map [BODY_END_HANDLERS], its keys grouped by handler. *)
Definition BODY_END_HANDLERS : list (list string * BodyHandler) :=
  [ (["address"; "article"; "aside"; "blockquote"; "button"; "center";
      "details"; "dialog"; "dir"; "div"; "dl"; "fieldset"; "figcaption";
      "figure"; "footer"; "header"; "hgroup"; "listing"; "main"; "menu";
      "nav"; "ol"; "pre"; "search"; "section"; "summary"; "table"; "ul"],
     handleBodyEndBlock);
    (["applet"; "marquee"; "object"], handleBodyEndAppletLike);
    (["body"], handleBodyEndBody);
    (["dd"; "dt"], handleBodyEndDdDt);
    (["form"], handleBodyEndForm);
    (["h1"; "h2"; "h3"; "h4"; "h5"; "h6"], handleBodyEndHeading);
    (["html"], handleBodyEndHtml);
    (["li"], handleBodyEndLi);
    (["p"], handleBodyEndP);
    (["template"], handleBodyEndTemplate) ]%string.

(** Handles start/end tag dispatch while in body mode. The end tag [br] is
    handed to [modeInBody] as a start tag, which dispatches it to
    [handleBodyStartBr]; the adoption agency algorithm, which the end tags
    of formatting elements run, is not embedded. *)
Definition handleTagInBody (token : TagToken) (st : TreeBuilderState)
  : result (ModeResult * TreeBuilderState) :=
  match kind token with
  | Start =>
      match handlerFor BODY_START_HANDLERS (tagName token) with
      | Some handler => handler token st
      | None => handleBodyStartDefault token st
      end
  | End_ =>
      let name := tagName token in
      if str_eqb name (lit "br") then
        let st := unexpectedEndTag name st in
        let brTag := createTagToken Start (lit "br") [] false in
        handleBodyStartBr brTag st
      else if FORMATTING_ELEMENTS K name
      then unsupported "runAdoptionAgencyAlgorithm"
      else
        match handlerFor BODY_END_HANDLERS name with
        | Some handler => handler token st
        | None => done (anyOtherEndTag name st)
        end
  end.

Definition handleCharactersInBody (data : jsstring) (st : TreeBuilderState)
  : result (ModeResult * TreeBuilderState) :=
  let hasNul := includes 0 data in
  let st := if hasNul then invalidCodepoint st else st in
  let data := if hasNul then removeAll 0 data else data in
  if isAllWhitespace data then
    st ← reconstructActiveFormattingElements st;
    st ← appendText data st;
    done st
  else
    st ← reconstructActiveFormattingElements st;
    let st := set_framesetOk false st in
    st ← appendText data st;
    done st.

Definition handleCommentInBody (data : jsstring) (st : TreeBuilderState)
  : result (ModeResult * TreeBuilderState) :=
  st ← appendComment data None st;
  done st.

(** The EOF case of [modeInTemplate], which [handleEofInBody] calls. *)
Definition eofInTemplate (token : Token) (st : TreeBuilderState)
  : result (ModeResult * TreeBuilderState) :=
  if negb (existsb (fun node => nameIs st node "template") (openElements st))
  then done st
  else
    let st := parseError ExpectedClosingTagButGotEof
                         (Some (lit "template")) st in
    let st := popUntilInclusive (lit "template") st in
    let st := clearActiveFormattingUpToMarker st in
    let st := set_templateModes (removelast (templateModes st)) st in
    let st := resetInsertionMode st in
    reprocess (mode st) token false st.

(** EOF handling for body mode. *)
Definition handleEofInBody (token : Token) (st : TreeBuilderState)
  : result (ModeResult * TreeBuilderState) :=
  match templateModes st with
  | _ :: _ => eofInTemplate token st
  | [] =>
      let st :=
        match List.find (fun node => negb (str_in (nameOf st node)
                                                  EOF_ALLOWED_UNCLOSED))
                        (openElements st) with
        | Some node =>
            parseError ExpectedClosingTagButGotEof (Some (nameOf st node)) st
        | None => st
        end in
      reprocess AFTER_BODY token false (set_mode AFTER_BODY st)
  end.

(** [IN_BODY] insertion mode (primary tree-construction mode). *)
Definition modeInBody (token : Token) (st : TreeBuilderState)
  : result (ModeResult * TreeBuilderState) :=
  match token with
  | Character data => handleCharactersInBody data st
  | Comment data => handleCommentInBody data st
  | Tag t => handleTagInBody t st
  | EOF => handleEofInBody token st
  | DoctypeToken _ => done st
  end.

(** [IN_HEAD_NOSCRIPT] insertion mode. *)
Definition modeInHeadNoscript (token : Token) (st : TreeBuilderState)
  : result (ModeResult * TreeBuilderState) :=
  match token with
  | Character data =>
      if isAllWhitespace data then modeInHead token st
      else
        let st := unexpectedStartTag (lit "text") st in
        reprocess IN_HEAD token false (set_mode IN_HEAD (popCurrent st))
  | Comment _ => modeInHead token st
  | Tag t =>
      let name := tagName t in
      match kind t with
      | Start =>
          if nameIn ["html"%string] name then modeInBody token st
          else if nameIn ["basefont"; "bgsound"; "link"; "meta"; "noframes";
                          "style"]%string name
          then modeInHead token st
          else if nameIn ["head"; "noscript"]%string name
          then done (unexpectedStartTag name st)
          else
            let st := unexpectedStartTag name st in
            reprocess IN_HEAD token false (set_mode IN_HEAD (popCurrent st))
      | End_ =>
          if nameIn ["noscript"%string] name
          then done (set_mode IN_HEAD (popCurrent st))
          else if nameIn ["br"%string] name then
            let st := unexpectedEndTag name st in
            reprocess IN_HEAD token false (set_mode IN_HEAD (popCurrent st))
          else done (unexpectedEndTag name st)
      end
  | EOF =>
      let st := parseError ExpectedClosingTagButGotEof
                           (Some (lit "noscript")) st in
      reprocess IN_HEAD token false (set_mode IN_HEAD (popCurrent st))
  | DoctypeToken _ => done st
  end.

(** The common end of [modeAfterHead]. *)
Definition bodyThenInBody (token : Token) (st : TreeBuilderState)
  : result (ModeResult * TreeBuilderState) :=
  st ← insertBodyIfMissing st;
  reprocess IN_BODY token false st.

(** [AFTER_HEAD] insertion mode. *)
Definition modeAfterHead (token : Token) (st : TreeBuilderState)
  : result (ModeResult * TreeBuilderState) :=
  match token with
  | Character data =>
      let '(data, st) :=
        if includes 0 data
        then (removeAll 0 data, parseError InvalidCodepointInBody None st)
        else (data, st) in
      let '(data, st) :=
        if includes 0x0C data
        then (removeAll 0x0C data, parseError InvalidCodepointInBody None st)
        else (data, st) in
      if negb (truthy data) || isAllWhitespace data then
        if truthy data then st ← appendText data st; done st
        else done st
      else bodyThenInBody (Character data) st
  | Comment data => st ← appendComment data None st; done st
  | Tag t =>
      let name := tagName t in
      match kind t with
      | Start =>
          if nameIn ["html"%string] name then bodyThenInBody token st
          else if nameIn ["body"%string] name then
            '(_, st) ← insertElement t true HTML st;
            done (set_framesetOk false (set_mode IN_BODY st))
          else if nameIn ["frameset"%string] name then
            '(_, st) ← insertElement t true HTML st;
            done (set_mode IN_FRAMESET st)
          else if nameIn ["input"%string] name then
            if isHidden (inputTypeOf (tagAttrs t))
            then done (parseError UnexpectedHiddenInputAfterHead None st)
            else bodyThenInBody token st
          else if nameIn ["base"; "basefont"; "bgsound"; "link"; "meta";
                          "noscript"; "script"; "style"; "title"]%string name
          then
            head ← assertDefined (headElement st);
            let st := pushOpen head st in
            '(r, st) ← modeInHead token st;
            Ok (r, set_openElements (removeFirst head (openElements st)) st)
          else if nameIn ["template"%string] name then
            head ← assertDefined (headElement st);
            reprocess IN_HEAD token false (set_mode IN_HEAD (pushOpen head st))
          else bodyThenInBody token st
      | End_ =>
          if nameIn ["template"%string] name then modeInHead token st
          else if nameIn ["body"; "html"; "br"]%string name
          then bodyThenInBody token st
          else done (parseError UnexpectedEndTagAfterHead (Some name) st)
      end
  | EOF =>
      st ← insertBodyIfMissing st;
      reprocess IN_BODY token false (set_mode IN_BODY st)
  | DoctypeToken _ => bodyThenInBody token st
  end.

(** [state.originalMode || InsertionMode.IN_BODY]: the mode [INITIAL] is
    the number [0], which [||] replaces too. *)
Definition originalModeOrInBody (st : TreeBuilderState) : InsertionMode :=
  match originalMode st with
  | Some INITIAL => IN_BODY
  | Some m => m
  | None => IN_BODY
  end.

(** [TEXT] insertion mode for raw text / RCDATA elements. *)
Definition modeText (token : Token) (st : TreeBuilderState)
  : result (ModeResult * TreeBuilderState) :=
  match token with
  | Character data => st ← appendText data st; done st
  | EOF =>
      let tagName := option_map (nameOf st) (currentNode st) in
      let st := parseError ExpectedNamedClosingTagButGotEof tagName st in
      let st := popCurrent st in
      let st := set_mode (originalModeOrInBody st) st in
      reprocess (mode st) token false st
  | _ =>
      let st := popCurrent st in
      done (set_mode (originalModeOrInBody st) st)
  end.

(** The common end of [modeAfterBody] and [modeAfterAfterBody]. *)
Definition errorThenInBody (c : ErrorCode) (token : Token)
  (st : TreeBuilderState) : result (ModeResult * TreeBuilderState) :=
  let st := parseError c None st in
  reprocess IN_BODY token false (set_mode IN_BODY st).

(** [AFTER_BODY] insertion mode. *)
Definition modeAfterBody (token : Token) (st : TreeBuilderState)
  : result (ModeResult * TreeBuilderState) :=
  match token with
  | Character data =>
      if isAllWhitespace data then modeInBody token st
      else errorThenInBody UnexpectedTokenAfterBody token st
  | Comment data =>
      st ← appendComment data (head (openElements st)) st;
      done st
  | Tag t =>
      if tagIs t Start "html" then modeInBody token st
      else if tagIs t End_ "html" then done (set_mode AFTER_AFTER_BODY st)
      else errorThenInBody UnexpectedTokenAfterBody token st
  | EOF => done st
  | DoctypeToken _ => errorThenInBody UnexpectedTokenAfterBody token st
  end.

(** [AFTER_AFTER_BODY] insertion mode. *)
Definition modeAfterAfterBody (token : Token) (st : TreeBuilderState)
  : result (ModeResult * TreeBuilderState) :=
  match token with
  | Comment data =>
      match fragmentContext st with
      | Some _ =>
          match findLastOnStack st (lit "html") with
          | Some html => st ← appendComment data (Some html) st; done st
          | None => done (appendCommentToDocument data st)
          end
      | None => done (appendCommentToDocument data st)
      end
  | Character data =>
      if isAllWhitespace data then modeInBody token st
      else errorThenInBody UnexpectedTokenAfterAfterBody token st
  | Tag t =>
      if tagIs t Start "html" then modeInBody token st
      else errorThenInBody UnexpectedTokenAfterAfterBody token st
  | EOF => done st
  | DoctypeToken _ => errorThenInBody UnexpectedTokenAfterAfterBody token st
  end.

(** [a < b] on strings, by UTF-16 code units, as the default comparison
    of [Array.prototype.sort] orders them. *)
Fixpoint strLt (a b : jsstring) : bool :=
  match a, b with
  | _, [] => false
  | [], _ :: _ => true
  | x :: a', y :: b' => (x <? y) || ((x =? y) && strLt a' b')
  end.

Fixpoint insertSorted (k : jsstring) (l : list jsstring) : list jsstring :=
  match l with
  | [] => [k]
  | x :: l' => if strLt k x then k :: l else x :: insertSorted k l'
  end.

Definition sortKeys (keys : list jsstring) : list jsstring :=
  List.fold_left (fun acc k => insertSorted k acc) keys [].

Definition attrsSignature (attrs : AttrMap) : jsstring :=
  List.concat
    (List.map (fun key =>
                 let value := match attrsGet key attrs with
                              | Some (Some v) => v
                              | _ => []
                              end in
                 key ++ [0] ++ value ++ [1])
              (sortKeys (List.map fst attrs))).

Definition appendActiveFormattingEntry (name : jsstring) (attrs : AttrMap)
  (node : NodeId) (st : TreeBuilderState) : TreeBuilderState :=
  let entryAttrs := cloneAttributes attrs in
  set_activeFormatting
    (activeFormatting st
     ++ [Entry (mkFormatting name entryAttrs node
                             (attrsSignature entryAttrs))]) st.

(** The loop of [findActiveFormattingIndex] over the entries from the
    last; [n] is the number of entries not yet visited. *)
Fixpoint formattingIndexScan (name : jsstring)
  (entries : list FormattingEntry) (n : nat) : option nat :=
  match entries, n with
  | Entry f :: entries', S n' =>
      if str_eqb (fmtName f) name then Some n'
      else formattingIndexScan name entries' n'
  | _, _ => None
  end.

Definition findActiveFormattingIndex (st : TreeBuilderState)
  (name : jsstring) : option nat :=
  formattingIndexScan name (rev (activeFormatting st))
                      (List.length (activeFormatting st)).

Definition SELECT_END_TAG_TABLE_ELEMENTS : list string :=
  ["caption"; "col"; "colgroup"; "tbody"; "td"; "tfoot"; "th"; "thead"; "tr";
   "table"]%string.
Definition SELECT_ALLOWED_ELEMENTS : list string :=
  ["p"; "div"; "span"; "button"; "datalist"; "selectedcontent"]%string.
Definition SELECT_HEAD_TAGS : list string :=
  ["base"; "basefont"; "bgsound"; "link"; "meta"; "noframes"; "script";
   "style"; "template"; "title"]%string.

(** The common handling of a tag that closes the [select]. *)
Definition closeSelect (st : TreeBuilderState) : TreeBuilderState :=
  resetInsertionMode (popUntilAnyInclusive (nameIn ["select"%string]) st).

(** The index of the first node named [select] on the stack. *)
Fixpoint firstSelectIndex (st : TreeBuilderState) (stack : list NodeId)
  (i : nat) : option nat :=
  match stack with
  | [] => None
  | node :: stack' =>
      if nameIs st node "select" then Some i
      else firstSelectIndex st stack' (S i)
  end.

(** The index of the last node with the name on the stack. *)
Fixpoint lastNamedIndex (st : TreeBuilderState) (name : jsstring)
  (stack : list NodeId) (i : nat) (found : option nat) : option nat :=
  match stack with
  | [] => found
  | node :: stack' =>
      lastNamedIndex st name stack' (S i)
        (if str_eqb (nameOf st node) name then Some i else found)
  end.

(** [IN_SELECT] insertion mode; the end tags of formatting elements run
    the adoption agency algorithm, which is not embedded. *)
Definition modeInSelect (token : Token) (st : TreeBuilderState)
  : result (ModeResult * TreeBuilderState) :=
  match token with
  | Character data =>
      let '(data, st) :=
        if includes 0 data
        then (removeAll 0 data, parseError InvalidCodepointInSelect None st)
        else (data, st) in
      let '(data, st) :=
        if includes 0x0C data
        then (removeAll 0x0C data, parseError InvalidCodepointInSelect None st)
        else (data, st) in
      if truthy data then
        st ← reconstructActiveFormattingElements st;
        st ← appendText data st;
        done st
      else done st
  | Comment data => st ← appendComment data None st; done st
  | Tag t =>
      let name := tagName t in
      match kind t with
      | Start =>
          if nameIn ["html"%string] name then reprocess IN_BODY token false st
          else if nameIn ["option"%string] name then
            let '(_, st) := popOpenElementIf (lit "option") st in
            st ← reconstructActiveFormattingElements st;
            '(_, st) ← insertElement t true HTML st;
            done st
          else if nameIn ["optgroup"%string] name then
            let '(_, st) := popOpenElementIf (lit "option") st in
            let '(_, st) := popOpenElementIf (lit "optgroup") st in
            st ← reconstructActiveFormattingElements st;
            '(_, st) ← insertElement t true HTML st;
            done st
          else if nameIn ["select"%string] name then
            done (closeSelect (parseError UnexpectedStartTagImpliesEndTag
                                          (Some name) st))
          else if nameIn ["input"; "textarea"]%string name then
            let st := closeSelect (parseError UnexpectedStartTagImpliesEndTag
                                              (Some name) st) in
            reprocess (mode st) token false st
          else if nameIn ["keygen"%string] name then
            st ← reconstructActiveFormattingElements st;
            '(_, st) ← insertElement t false HTML st;
            done st
          else if nameIn SELECT_END_TAG_TABLE_ELEMENTS name then
            let st := closeSelect (parseError UnexpectedStartTagImpliesEndTag
                                              (Some name) st) in
            reprocess (mode st) token false st
          else if nameIn ["script"; "template"]%string name
          then modeInHead token st
          else if nameIn ["svg"; "math"]%string name then
            st ← reconstructActiveFormattingElements st;
            '(_, st) ← insertElement t (negb (selfClosing t)) (Some name) st;
            done st
          else if FORMATTING_ELEMENTS K name then
            st ← reconstructActiveFormattingElements st;
            '(node, st) ← insertElement t true HTML st;
            done (appendActiveFormattingEntry name (tagAttrs t) node st)
          else if nameIn ["hr"%string] name then
            let '(_, st) := popOpenElementIf (lit "option") st in
            let '(_, st) := popOpenElementIf (lit "optgroup") st in
            st ← reconstructActiveFormattingElements st;
            '(_, st) ← insertElement t false HTML st;
            done st
          else if nameIn ["menuitem"%string] name then
            st ← reconstructActiveFormattingElements st;
            '(_, st) ← insertElement t true HTML st;
            done st
          else if nameIn SELECT_ALLOWED_ELEMENTS name then
            st ← reconstructActiveFormattingElements st;
            '(_, st) ← insertElement t (negb (selfClosing t)) HTML st;
            done st
          else if nameIn ["br"; "img"]%string name then
            st ← reconstructActiveFormattingElements st;
            '(_, st) ← insertElement t false HTML st;
            done st
          else if nameIn ["plaintext"%string] name then
            st ← reconstructActiveFormattingElements st;
            '(_, st) ← insertElement t true HTML st;
            done st
          else done st
      | End_ =>
          if nameIn ["optgroup"%string] name then
            let '(_, st) := popOpenElementIf (lit "option") st in
            let '(popped, st) := popOpenElementIf (lit "optgroup") st in
            done (if popped then st else unexpectedEndTag name st)
          else if nameIn ["option"%string] name then
            let '(popped, st) := popOpenElementIf (lit "option") st in
            done (if popped then st else unexpectedEndTag name st)
          else if nameIn ["select"%string] name then done (closeSelect st)
          else if nameIn ["a"%string] name || FORMATTING_ELEMENTS K name then
            let selectNode := findLastOnStack st (lit "select") in
            let below :=
              match findActiveFormattingIndex st name with
              | Some fmtIndex =>
                  match activeFormatting st !! fmtIndex, selectNode with
                  | Some (Entry f), Some sel =>
                      nodeInList (fmtNode f) (openElements st)
                      && (indexOfZ (fmtNode f) (openElements st)
                          <? indexOfZ sel (openElements st))
                  | _, _ => false
                  end
              | None => false
              end in
            if below then done (unexpectedEndTag name st)
            else unsupported "runAdoptionAgencyAlgorithm"
          else if nameIn SELECT_ALLOWED_ELEMENTS name then
            let selectIdx := firstSelectIndex st (openElements st) O in
            let targetIdx := lastNamedIndex st name (openElements st) O None in
            match targetIdx with
            | Some ti =>
                if match selectIdx with
                   | None => true
                   | Some si => (si <? ti)%nat
                   end
                then done (popUntilInclusive name st)
                else done (unexpectedEndTag name st)
            | None => done (unexpectedEndTag name st)
            end
          else if nameIn SELECT_END_TAG_TABLE_ELEMENTS name then
            let st := closeSelect (unexpectedEndTag name st) in
            reprocess (mode st) token false st
          else done (unexpectedEndTag name st)
      end
  | EOF => modeInBody token st
  | DoctypeToken _ => done st
  end.

(** [templateModes.pop(); templateModes.push(m); state.mode = m]. *)
Definition switchTemplateMode (m : InsertionMode) (token : Token)
  (st : TreeBuilderState) : result (ModeResult * TreeBuilderState) :=
  let st := set_templateModes (removelast (templateModes st) ++ [m]) st in
  reprocess m token false (set_mode m st).

(** [IN_TEMPLATE] insertion mode. *)
Definition modeInTemplate (token : Token) (st : TreeBuilderState)
  : result (ModeResult * TreeBuilderState) :=
  match token with
  | Character _ => modeInBody token st
  | Comment _ => modeInBody token st
  | Tag t =>
      let name := tagName t in
      match kind t with
      | Start =>
          if nameIn ["caption"; "colgroup"; "tbody"; "tfoot"; "thead"]%string
                    name
          then switchTemplateMode IN_TABLE token st
          else if nameIn ["col"%string] name
          then switchTemplateMode IN_COLUMN_GROUP token st
          else if nameIn ["tr"%string] name
          then switchTemplateMode IN_TABLE_BODY token st
          else if nameIn ["td"; "th"]%string name
          then switchTemplateMode IN_ROW token st
          else if negb (nameIn SELECT_HEAD_TAGS name)
          then switchTemplateMode IN_BODY token st
          else modeInHead token st
      | End_ =>
          if nameIn ["template"%string] name then modeInHead token st
          else if nameIn SELECT_HEAD_TAGS name then modeInHead token st
          else done st
      end
  | EOF => eofInTemplate token st
  | DoctypeToken _ => done st
  end.

(** [MODE_HANDLERS[state.mode]]: the table and frameset modes are not
    embedded. *)
Definition modeHandler (m : InsertionMode) (token : Token)
  (st : TreeBuilderState) : result (ModeResult * TreeBuilderState) :=
  match m with
  | INITIAL => modeInitial token st
  | BEFORE_HTML => modeBeforeHtml token st
  | BEFORE_HEAD => modeBeforeHead token st
  | IN_HEAD => modeInHead token st
  | IN_HEAD_NOSCRIPT => modeInHeadNoscript token st
  | AFTER_HEAD => modeAfterHead token st
  | TEXT => modeText token st
  | IN_BODY => modeInBody token st
  | AFTER_BODY => modeAfterBody token st
  | AFTER_AFTER_BODY => modeAfterAfterBody token st
  | IN_SELECT => modeInSelect token st
  | IN_TEMPLATE => modeInTemplate token st
  | _ => unsupported "insertion mode"
  end.

Definition shouldUseForeignContent (st : TreeBuilderState) (token : Token)
  : result bool :=
  current ← assertDefined (currentNode st);
  let isStart := match token with
                 | Tag t => tagKind_eqb (kind t) Start
                 | _ => false
                 end in
  let isCharacter := match token with Character _ => true | _ => false end in
  let startNameLower := match token with
                        | Tag t => toLowerCase (tagName t)
                        | _ => []
                        end in
  if nsIs (namespaceOf st current) "html" then Ok false
  else if match token with EOF => true | _ => false end then Ok false
  else if isMathMLTextIntegrationPoint st current && isCharacter
  then Ok false
  else if isMathMLTextIntegrationPoint st current && isStart
          && negb (str_eqb startNameLower (lit "mglyph"))
          && negb (str_eqb startNameLower (lit "malignmark"))
  then Ok false
  else if nsIs (namespaceOf st current) "math"
          && nameIs st current "annotation-xml"
          && isStart && str_eqb startNameLower (lit "svg")
  then Ok false
  else if isHTMLIntegrationPoint st current && (isCharacter || isStart)
  then Ok false
  else Ok true.

Definition foreignBreakoutFont (tag : TagToken) : bool :=
  existsb (fun e =>
             let lowerName := toLowerCase (fst e) in
             str_eqb lowerName (lit "color") || str_eqb lowerName (lit "face")
             || str_eqb lowerName (lit "size"))
          (tagAttrs tag).

(** The stack, from its top, after the loop of
    [popUntilHTMLOrIntegrationPoint]. *)
Fixpoint popForeign (st : TreeBuilderState) (stack : list NodeId)
  : list NodeId :=
  match stack with
  | [] => []
  | node :: stack' =>
      if nsIsHTMLOrNull (namespaceOf st node) then stack
      else if isHTMLIntegrationPoint st node then stack
      else if match fragmentContextElement st with
              | Some ctx => (node =? ctx)%nat
              | None => false
              end
      then stack
      else popForeign st stack'
  end.

Definition popUntilHTMLOrIntegrationPoint (st : TreeBuilderState)
  : TreeBuilderState :=
  set_openElements (rev (popForeign st (rev (openElements st)))) st.

(** The loop of [processForeignContent] over the stack from its top, for
    an end tag. *)
Fixpoint foreignEndTagScan (nameLower : jsstring) (token : TagToken)
  (m : InsertionMode) (first : bool) (stack : list NodeId)
  (st : TreeBuilderState) : result (ModeResult * TreeBuilderState) :=
  match stack with
  | [] => done st
  | node :: stack' =>
      let isHtml := nsIsHTMLOrNull (namespaceOf st node) in
      let nameEq := str_eqb (toLowerCase (nameOf st node)) nameLower in
      if nameEq then
        if match fragmentContextElement st with
           | Some ctx => (node =? ctx)%nat
           | None => false
           end
        then done (parseError UnexpectedEndTagInFragmentContext None st)
        else if isHtml then reprocess m (Tag token) true st
        else done (set_openElements (rev stack') st)
      else
        let st := if first
                  then parseError UnexpectedEndTagInForeignContent
                                  (Some (tagName token)) st
                  else st in
        if isHtml then reprocess m (Tag token) true st
        else foreignEndTagScan nameLower token m false stack' st
  end.

(** Handles token processing while inside foreign-content namespaces
    (SVG/MathML). *)
Definition processForeignContent (token : Token) (st : TreeBuilderState)
  : result (ModeResult * TreeBuilderState) :=
  current ← assertDefined (currentNode st);
  match token with
  | Character raw =>
      let st := List.fold_left
                  (fun st ch =>
                     if ch =? 0
                     then parseError InvalidCodepointInForeignContent None st
                     else st) raw st in
      let data := List.map (fun ch => if ch =? 0 then 0xFFFD else ch) raw in
      let hasNonNullNonWs :=
        existsb (fun ch => negb (ch =? 0)
                           && negb ((ch =? 0x09) || (ch =? 0x0A)
                                    || (ch =? 0x0C) || (ch =? 0x0D)
                                    || (ch =? 0x20))) raw in
      let st := if hasNonNullNonWs then set_framesetOk false st else st in
      st ← appendText data st;
      done st
  | Comment data => st ← appendComment data None st; done st
  | Tag t =>
      let nameLower := toLowerCase (tagName t) in
      let m := mode st in
      match kind t with
      | Start =>
          if FOREIGN_BREAKOUT_ELEMENTS K nameLower
             || (str_eqb nameLower (lit "font") && foreignBreakoutFont t)
          then
            let st := parseError UnexpectedHtmlElementInForeignContent None st
            in
            let st := popUntilHTMLOrIntegrationPoint st in
            let st := resetInsertionMode st in
            reprocess m token true st
          else
            let namespace := namespaceOf st current in
            let adjustedName :=
              if nsIs namespace "svg" then adjustSVGTagName (tagName t)
              else tagName t in
            let attrs := prepareForeignAttributes namespace (tagAttrs t) in
            let newTag := createTagToken Start adjustedName attrs
                                         (selfClosing t) in
            '(_, st) ← insertElement newTag (negb (selfClosing t)) namespace
                                     st;
            done st
      | End_ =>
          if str_eqb nameLower (lit "br") || str_eqb nameLower (lit "p") then
            let st := parseError UnexpectedHtmlElementInForeignContent None st
            in
            let st := popUntilHTMLOrIntegrationPoint st in
            let st := resetInsertionMode st in
            reprocess m token true st
          else
            foreignEndTagScan nameLower t m true (rev (openElements st)) st
      end
  | _ => done st
  end.

Definition isTableMode (m : InsertionMode) : bool :=
  match m with
  | IN_TABLE | IN_TABLE_BODY | IN_ROW | IN_CELL | IN_CAPTION
  | IN_COLUMN_GROUP => true
  | _ => false
  end.

Definition isInBody (m : InsertionMode) : bool :=
  match m with IN_BODY => true | _ => false end.

(** One turn of the loop of [processToken]: the handler that the current
    node and the token select. *)
Definition dispatch (currentToken : Token) (forceHtmlMode : bool)
  (st : TreeBuilderState) : result (ModeResult * TreeBuilderState) :=
  let isHtmlNamespace :=
    match currentNode st with
    | None => true
    | Some node => nsIsHTMLOrNull (namespaceOf st node)
    end in
  if forceHtmlMode || isHtmlNamespace then modeHandler (mode st) currentToken st
  else
    useForeign ← shouldUseForeignContent st currentToken;
    if useForeign : bool then processForeignContent currentToken st
    else
      current ← assertDefined (currentNode st);
      match currentToken with
      | Character data =>
          if isMathMLTextIntegrationPoint st current then
            let '(data, st) :=
              if includes 0 data
              then (removeAll 0 data, invalidCodepoint st) else (data, st) in
            let '(data, st) :=
              if includes 0x0C data
              then (removeAll 0x0C data, invalidCodepoint st)
              else (data, st) in
            if truthy data then
              st ← (if negb (isAllWhitespace data) then
                      st ← reconstructActiveFormattingElements st;
                      Ok (set_framesetOk false st)
                    else Ok st);
              st ← appendText data st;
              done st
            else done st
          else modeHandler (mode st) currentToken st
      | _ =>
          let isIntegrationPoint :=
            isMathMLTextIntegrationPoint st current
            || isHTMLIntegrationPoint st current in
          let isStart := match currentToken with
                         | Tag t => tagKind_eqb (kind t) Start
                         | _ => false
                         end in
          if isIntegrationPoint && isStart && negb (isInBody (mode st))
             && isTableMode (mode st)
             && negb (hasInTableScope st (lit "table"))
          then
            let savedMode := mode st in
            let st := set_mode IN_BODY st in
            '(r, st) ← modeHandler (mode st) currentToken st;
            Ok (r, if isInBody (mode st) then set_mode savedMode st else st)
          else modeHandler (mode st) currentToken st
      end.

(** The loop of [processToken]; [fuel] bounds the number of reprocessing
    turns. *)
Fixpoint processLoop (fuel : nat) (currentToken : Token)
  (forceHtmlMode : bool) (st : TreeBuilderState)
  : result (option TokenSinkResult * TreeBuilderState) :=
  match fuel with
  | O => OutOfFuel
  | S fuel' =>
      '(r, st) ← dispatch currentToken forceHtmlMode st;
      match r with
      | Done =>
          let out := match tokenizerStateOverride st with
                     | Some o => o
                     | None => Continue
                     end in
          Ok (Some out, set_tokenizerStateOverride None st)
      | Reprocess m tokenOverride forceHtml =>
          processLoop fuel' tokenOverride forceHtml (set_mode m st)
      end
  end.

(** Central token-processing loop for tree construction. *)
Definition processToken (fuel : nat) (token : Token) (st : TreeBuilderState)
  : result (option TokenSinkResult * TreeBuilderState) :=
  match token with
  | DoctypeToken doctype =>
      match currentNode st with
      | Some current =>
          if negb (nsIsHTMLOrNull (namespaceOf st current))
          then Ok (Some Continue, parseError UnexpectedDoctype None st)
          else Ok (Some Continue, handleDoctype doctype st)
      | None => Ok (Some Continue, handleDoctype doctype st)
      end
  | _ => processLoop fuel token false st
  end.

(** Feeds character data through the same token-processing pipeline. *)
Definition processCharacters (fuel : nat) (data : jsstring)
  (st : TreeBuilderState)
  : result (option TokenSinkResult * TreeBuilderState) :=
  processToken fuel (Character data) st.

(** Exposes treebuilder state as a tokenizer sink. *)
Definition getTokenizerSink (fuel : nat) : TokenizerSink TreeBuilderState :=
  mkSink TreeBuilderState
    (fun token st => processToken fuel token st)
    (fun data st => '(_, st) ← processCharacters fuel data st; Ok st)
    (fun st => Some (List.map (namespaceOf st) (openElements st))).

(** The initial state over an empty store, before the fragment setup of
    [createTreeBuilder]. *)
Definition initialState (fragmentContext : option FragmentContext)
  (iframeSrcdoc collectErrors : bool) : TreeBuilderState :=
  let '(document, s) :=
    newNode (match fragmentContext with
             | Some _ => lit "#document-fragment"
             | None => lit "#document"
             end) NoData HTML [] [] in
  mkState s fragmentContext iframeSrcdoc collectErrors [] None document
          INITIAL None None [] None None true NoQuirks false [] false [] []
          None.

Definition createElement (name : jsstring) (namespace : option jsstring)
  (attrs : AttrMap) (st : TreeBuilderState) : NodeId * TreeBuilderState :=
  createNode name NoData
             (match namespace with Some ns => Some ns | None => HTML end)
             attrs st.

(** Creates and initializes treebuilder state for document or fragment
    parsing. *)
Definition createTreeBuilder (fragmentContext : option FragmentContext)
  (iframeSrcdoc collectErrors : bool) : TreeBuilderState :=
  let st := initialState fragmentContext iframeSrcdoc collectErrors in
  match fragmentContext with
  | None => st
  | Some ctx =>
      let '(root, st) := createElement (lit "html") None [] st in
      let st := set_nodes (appendChild (document st) root (nodes st)) st in
      let st := pushOpen root st in
      let namespace := ctxNamespace ctx in
      let contextName := ctxTagName ctx in
      let name := toLowerCase contextName in
      let foreign := match namespace with
                     | Some ns => truthy ns && negb (str_eqb ns (lit "html"))
                     | None => false
                     end in
      let st :=
        if foreign then
          let adjustedName := if nsIs namespace "svg"
                              then adjustSVGTagName contextName
                              else contextName in
          let '(contextElement, st) :=
            createElement adjustedName namespace [] st in
          let st := set_nodes (appendChild root contextElement (nodes st)) st
          in
          set_fragmentContextElement (Some contextElement)
                                     (pushOpen contextElement st)
        else st in
      let html := nsIsHTMLOrNull namespace in
      let m :=
        if str_eqb name (lit "html") then BEFORE_HEAD
        else if html && str_in name FRAGMENT_TABLE_SECTION_TAGS
        then IN_TABLE_BODY
        else if html && str_eqb name (lit "tr") then IN_ROW
        else if html && str_in name FRAGMENT_CELL_TAGS then IN_CELL
        else if html && str_eqb name (lit "caption") then IN_CAPTION
        else if html && str_eqb name (lit "colgroup") then IN_COLUMN_GROUP
        else if html && str_eqb name (lit "table") then IN_TABLE
        else IN_BODY in
      set_framesetOk false (set_mode m st)
  end.

(** [findElements(node, name, result)], the nodes in the order they are
    pushed; the recursion follows the tree, so [fuel] bounds its height. *)
Fixpoint findElements (fuel : nat) (s : Store) (node : NodeId)
  (name : jsstring) : result (list NodeId) :=
  match fuel with
  | O => OutOfFuel
  | S fuel' =>
      match s !! node with
      | None => Raise "no such node"
      | Some n =>
          let self := if str_eqb (Dom.name n) name then [node] else [] in
          below ← foldl (fun acc child =>
                           found ← acc;
                           more ← findElements fuel' s child name;
                           mret (found ++ more))
                        (mret []) (childNodes n);
          inTemplate ← match templateContent n with
                       | Some t => findElements fuel' s t name
                       | None => mret []
                       end;
          mret (self ++ below ++ inTemplate)
      end
  end.

(** [findElement(node, name)]: the first node with the name, in the same
    order. *)
Fixpoint findElement (fuel : nat) (s : Store) (node : NodeId)
  (name : jsstring) : result (option NodeId) :=
  match fuel with
  | O => OutOfFuel
  | S fuel' =>
      match s !! node with
      | None => Raise "no such node"
      | Some n =>
          if str_eqb (Dom.name n) name then mret (Some node)
          else
            below ← foldl (fun acc child =>
                             found ← acc;
                             match found with
                             | Some _ => mret found
                             | None => findElement fuel' s child name
                             end)
                          (mret None) (childNodes n);
            match below with
            | Some _ => mret below
            | None =>
                match templateContent n with
                | Some t => findElement fuel' s t name
                | None => mret None
                end
            end
      end
  end.

Definition cloneChildren (fuel : nat) (source target : NodeId) (s : Store)
  : result Store :=
  foldl (fun acc child =>
           s ← acc;
           '(c, s) ← cloneNode fuel true child s;
           mret (appendChild target c s))
        (mret s) (childrenOf s source).

(** The option whose content is cloned: the first that has the attribute
    [selected], or else the first; none when there is no option. *)
Definition selectedOptionOf (s : Store) (options : list NodeId)
  : option NodeId :=
  match options with
  | [] => None
  | first :: _ =>
      match List.find
              (fun opt =>
                 match s !! opt with
                 | Some n => attrsHas (lit "selected") (Dom.attrs n)
                 | None => false
                 end) options with
      | Some opt => Some opt
      | None => Some first
      end
  end.

(** The body of the loop of [populateSelectedContent], for one [select]. *)
Definition populateSelect (fuel : nat) (select : NodeId) (s : Store)
  : result Store :=
  selectedContent ← findElement fuel s select (lit "selectedcontent");
  match selectedContent with
  | None => mret s
  | Some selectedContent =>
      options ← findElements fuel s select (lit "option");
      match selectedOptionOf s options with
      | None => mret s
      | Some selectedOption =>
          cloneChildren fuel selectedOption selectedContent s
      end
  end.

(** Populates [<selectedcontent>] from the selected/first [<option>] in
    each [<select>]. *)
Definition populateSelectedContent (fuel : nat) (root : NodeId) (s : Store)
  : result Store :=
  selects ← findElements fuel s root (lit "select");
  foldl (fun acc select => s ← acc; populateSelect fuel select s)
        (mret s) selects.

(** [for (const child of from.childNodes.slice()) { from.removeChild(child);
    to.appendChild(child); }]. *)
Definition moveChildren (from to : NodeId) (s : Store) : result Store :=
  foldl (fun acc child =>
           s ← acc;
           s ← removeChild from child s;
           mret (appendChild to child s))
        (mret s) (childrenOf s from).

(** Finalizes the tree and applies post-parse adjustments: the store with
    the finished tree under [document]. *)
Definition finishTreeBuilder (fuel : nat) (st : TreeBuilderState)
  : result Store :=
  let document := TreeBuilder.document st in
  s ← match fragmentContext st with
      | None => mret (nodes st)
      | Some _ =>
          let s := nodes st in
          root ← assertDefined (head (childrenOf s document));
          s ← match fragmentContextElement st with
              | Some contextElem =>
                  if match match s !! contextElem with
                           | Some n => parentNode n
                           | None => None
                           end with
                     | Some p => (p =? root)%nat
                     | None => false
                     end
                  then
                    s ← moveChildren contextElem root s;
                    removeChild root contextElem s
                  else mret s
              | None => mret s
              end;
          s ← moveChildren root document s;
          removeChild document root s
      end;
  populateSelectedContent fuel document s.

End Builder.

End TreeBuilder.

(** ** Constants for the examples *)

(** Modelled from the spec: constants.ts is not among the sources. The
    theorems below hold for every table of constants that satisfies the
    hypotheses they state; this table instantiates them. Its sets are
    those of the tree-construction rules that spec.md refers to (it lists
    the foster-parenting targets as table, tbody, tfoot, thead and tr),
    and so is its table of SVG tag names; the attribute adjustment
    tables and the doctype lists, which no example reads, are empty. *)
Module ExampleConstants.

Import TreeBuilder.

Definition oneOf (names : list string) (name : jsstring) : bool :=
  str_in name (List.map lit names).

Definition defaultScope : list string :=
  ["applet"; "caption"; "html"; "table"; "td"; "th"; "marquee"; "object";
   "template"]%string.

Definition svgTagNames : list (string * string) :=
  [ ("altglyph", "altGlyph"); ("altglyphdef", "altGlyphDef");
    ("altglyphitem", "altGlyphItem"); ("animatecolor", "animateColor");
    ("animatemotion", "animateMotion");
    ("animatetransform", "animateTransform"); ("clippath", "clipPath");
    ("feblend", "feBlend"); ("fecolormatrix", "feColorMatrix");
    ("fecomponenttransfer", "feComponentTransfer");
    ("fecomposite", "feComposite");
    ("feconvolvematrix", "feConvolveMatrix");
    ("fediffuselighting", "feDiffuseLighting");
    ("fedisplacementmap", "feDisplacementMap");
    ("fedistantlight", "feDistantLight"); ("fedropshadow", "feDropShadow");
    ("feflood", "feFlood"); ("fefunca", "feFuncA"); ("fefuncb", "feFuncB");
    ("fefuncg", "feFuncG"); ("fefuncr", "feFuncR");
    ("fegaussianblur", "feGaussianBlur"); ("feimage", "feImage");
    ("femerge", "feMerge"); ("femergenode", "feMergeNode");
    ("femorphology", "feMorphology"); ("feoffset", "feOffset");
    ("fepointlight", "fePointLight");
    ("fespecularlighting", "feSpecularLighting");
    ("fespotlight", "feSpotLight"); ("fetile", "feTile");
    ("feturbulence", "feTurbulence"); ("foreignobject", "foreignObject");
    ("glyphref", "glyphRef"); ("lineargradient", "linearGradient");
    ("radialgradient", "radialGradient"); ("textpath", "textPath") ]%string.

Definition exampleConstants : Constants :=
  {| TABLE_FOSTER_TARGETS :=
       oneOf ["table"; "tbody"; "tfoot"; "thead"; "tr"]%string;
     TABLE_ALLOWED_CHILDREN :=
       oneOf ["caption"; "colgroup"; "tbody"; "tfoot"; "thead"; "tr"; "td";
              "th"; "script"; "template"; "style"]%string;
     IMPLIED_END_TAGS :=
       oneOf ["dd"; "dt"; "li"; "optgroup"; "option"; "p"; "rb"; "rp"; "rt";
              "rtc"]%string;
     SPECIAL_ELEMENTS :=
       oneOf ["address"; "applet"; "area"; "article"; "aside"; "base";
              "basefont"; "bgsound"; "blockquote"; "body"; "br"; "button";
              "caption"; "center"; "col"; "colgroup"; "dd"; "details"; "dir";
              "div"; "dl"; "dt"; "embed"; "fieldset"; "figcaption"; "figure";
              "footer"; "form"; "frame"; "frameset"; "h1"; "h2"; "h3"; "h4";
              "h5"; "h6"; "head"; "header"; "hgroup"; "hr"; "html"; "iframe";
              "img"; "input"; "keygen"; "li"; "link"; "listing"; "main";
              "marquee"; "menu"; "meta"; "nav"; "noembed"; "noframes";
              "noscript"; "object"; "ol"; "p"; "param"; "plaintext"; "pre";
              "script"; "search"; "section"; "select"; "source"; "style";
              "summary"; "table"; "tbody"; "td"; "template"; "textarea";
              "tfoot"; "th"; "thead"; "title"; "tr"; "track"; "ul"; "wbr";
              "xmp"]%string;
     FORMATTING_ELEMENTS :=
       oneOf ["a"; "b"; "big"; "code"; "em"; "font"; "i"; "nobr"; "s";
              "small"; "strike"; "strong"; "tt"; "u"]%string;
     DEFAULT_SCOPE_TERMINATORS := oneOf defaultScope;
     BUTTON_SCOPE_TERMINATORS := oneOf ("button"%string :: defaultScope);
     TABLE_SCOPE_TERMINATORS := oneOf ["html"; "table"; "template"]%string;
     FOREIGN_BREAKOUT_ELEMENTS :=
       oneOf ["b"; "big"; "blockquote"; "body"; "br"; "center"; "code"; "dd";
              "div"; "dl"; "dt"; "em"; "embed"; "h1"; "h2"; "h3"; "h4"; "h5";
              "h6"; "head"; "hr"; "i"; "img"; "li"; "listing"; "menu"; "meta";
              "nobr"; "ol"; "p"; "pre"; "ruby"; "s"; "small"; "span";
              "strong"; "strike"; "sub"; "sup"; "table"; "tt"; "u"; "ul";
              "var"]%string;
     HTML_INTEGRATION_POINT :=
       fun ns name =>
         str_eqb ns (lit "svg")
         && oneOf ["foreignObject"; "desc"; "title"]%string name;
     MATHML_TEXT_INTEGRATION_POINT :=
       fun ns name =>
         str_eqb ns (lit "math")
         && oneOf ["mi"; "mo"; "mn"; "ms"; "mtext"]%string name;
     SVG_TAG_NAME_ADJUSTMENTS :=
       fun name =>
         option_map (fun e => lit (snd e))
           (List.find (fun e => str_eqb name (lit (fst e))) svgTagNames);
     MATHML_ATTRIBUTE_ADJUSTMENTS := fun _ => None;
     SVG_ATTRIBUTE_ADJUSTMENTS := fun _ => None;
     FOREIGN_ATTRIBUTE_ADJUSTMENTS := fun _ => None;
     QUIRKY_PUBLIC_MATCHES := [];
     QUIRKY_SYSTEM_MATCHES := [];
     QUIRKY_PUBLIC_PREFIXES := [];
     LIMITED_QUIRKY_PUBLIC_PREFIXES := [];
     HTML4_PUBLIC_PREFIXES := [];
     HEADING_ELEMENTS := oneOf ["h1"; "h2"; "h3"; "h4"; "h5"; "h6"]%string;
     LIST_ITEM_SCOPE_TERMINATORS :=
       oneOf ("ol"%string :: "ul"%string :: defaultScope);
     DEFINITION_SCOPE_TERMINATORS := oneOf ("dl"%string :: defaultScope) |}.

(** The table [K] with the entries that parsing [a</p>b] in the context
    of an SVG [p] reads written out: [implied] is the membership of [p]
    in [IMPLIED_END_TAGS], the other entries are absent. *)
Definition withFragmentRunEntries (K : Constants) (implied : bool)
  : Constants :=
  let p := lit "p" in
  {| TABLE_FOSTER_TARGETS :=
       fun n => if str_eqb n p then false
                else if str_eqb n (lit "html") then false
                else TABLE_FOSTER_TARGETS K n;
     TABLE_ALLOWED_CHILDREN := TABLE_ALLOWED_CHILDREN K;
     IMPLIED_END_TAGS :=
       fun n => if str_eqb n p then implied else IMPLIED_END_TAGS K n;
     SPECIAL_ELEMENTS := SPECIAL_ELEMENTS K;
     FORMATTING_ELEMENTS :=
       fun n => if str_eqb n p then false else FORMATTING_ELEMENTS K n;
     DEFAULT_SCOPE_TERMINATORS := DEFAULT_SCOPE_TERMINATORS K;
     BUTTON_SCOPE_TERMINATORS := BUTTON_SCOPE_TERMINATORS K;
     TABLE_SCOPE_TERMINATORS := TABLE_SCOPE_TERMINATORS K;
     FOREIGN_BREAKOUT_ELEMENTS := FOREIGN_BREAKOUT_ELEMENTS K;
     HTML_INTEGRATION_POINT :=
       fun ns n => if str_eqb ns (lit "svg") && str_eqb n p then false
                   else HTML_INTEGRATION_POINT K ns n;
     MATHML_TEXT_INTEGRATION_POINT := MATHML_TEXT_INTEGRATION_POINT K;
     SVG_TAG_NAME_ADJUSTMENTS :=
       fun n => if str_eqb n p then None else SVG_TAG_NAME_ADJUSTMENTS K n;
     MATHML_ATTRIBUTE_ADJUSTMENTS := MATHML_ATTRIBUTE_ADJUSTMENTS K;
     SVG_ATTRIBUTE_ADJUSTMENTS := SVG_ATTRIBUTE_ADJUSTMENTS K;
     FOREIGN_ATTRIBUTE_ADJUSTMENTS := FOREIGN_ATTRIBUTE_ADJUSTMENTS K;
     QUIRKY_PUBLIC_MATCHES := QUIRKY_PUBLIC_MATCHES K;
     QUIRKY_SYSTEM_MATCHES := QUIRKY_SYSTEM_MATCHES K;
     QUIRKY_PUBLIC_PREFIXES := QUIRKY_PUBLIC_PREFIXES K;
     LIMITED_QUIRKY_PUBLIC_PREFIXES := LIMITED_QUIRKY_PUBLIC_PREFIXES K;
     HTML4_PUBLIC_PREFIXES := HTML4_PUBLIC_PREFIXES K;
     HEADING_ELEMENTS := HEADING_ELEMENTS K;
     LIST_ITEM_SCOPE_TERMINATORS := LIST_ITEM_SCOPE_TERMINATORS K;
     DEFINITION_SCOPE_TERMINATORS := DEFINITION_SCOPE_TERMINATORS K |}.

(** The tree builder over these constants as the sink of a tokenizer. *)
Definition exampleSink : Tokens.TokenizerSink TreeBuilderState :=
  getTokenizerSink exampleConstants 10.

(** Modelled from the spec: entities-data.ts is not among the sources.
    A few of the named character references, for the examples. *)
Definition exampleEntities (name : jsstring) : option jsstring :=
  if str_eqb name (lit "amp") then Some (lit "&")
  else if str_eqb name (lit "lt") then Some (lit "<")
  else if str_eqb name (lit "gt") then Some (lit ">")
  else None.

End ExampleConstants.

(** ** The parser (parser.ts) *)

Module Parser.

Import Dom Tokens.

Record ParseDocumentOptions : Type :=
  mkOptions
    { fragmentContext : option TreeBuilder.FragmentContext;
      iframeSrcdoc : bool;
      collectErrors : bool;
      tokenizerOpts : option Tokenizer.TokenizerOpts }.

(** The options [{}]: every field at its default. *)
Definition noOptions : ParseDocumentOptions :=
  mkOptions None false false None.

(** An element of the [errors] array, which holds the tokenizer's errors
    followed by the tree builder's. *)
Inductive AnyError : Type :=
| TokenizerError (e : Tokenizer.TokenizerError)
| TreeError (e : TreeBuilder.ParseError).

(** The result; [root] is a node of [store], the store of the tree
    builder after [finishTreeBuilder]. *)
Record ParseDocumentResult : Type :=
  mkResult
    { root : NodeId;
      store : Store;
      errors : list AnyError;
      tokenizer : Tokenizer.Tokenizer;
      treeBuilder : TreeBuilder.TreeBuilderState }.

Section Parse.

Variable K : TreeBuilder.Constants.
Variable NAMED_ENTITIES : jsstring -> option jsstring.

(** Parses an HTML document or fragment into the internal node tree.
    [fuel] bounds the steps of the tokenizer, the reprocessing turns of a
    token and the height of the tree. *)
Definition parseDocument (fuel : nat) (html : jsstring)
  (options : ParseDocumentOptions) : result ParseDocumentResult :=
  let opts := match tokenizerOpts options with
              | Some o => o
              | None => Tokenizer.defaultOpts
              end in
  let shouldCollect := collectErrors options in
  let treeBuilder :=
    TreeBuilder.createTreeBuilder K (fragmentContext options)
                                  (iframeSrcdoc options) shouldCollect in
  let opts :=
    match fragmentContext options with
    | Some ctx =>
        if match TreeBuilder.ctxNamespace ctx with
           | Some ns => negb (truthy ns)
           | None => true
           end
        then
          let tagName := toLowerCase (TreeBuilder.ctxTagName ctx) in
          if str_in tagName (List.map lit ["textarea"; "title"; "style"]%string)
          then Tokenizer.mkOpts (Some Tokenizer.RawText) (Some tagName)
                                (Tokenizer.discardBom opts)
                                (Tokenizer.xmlCoercion opts)
          else if str_in tagName (List.map lit ["plaintext"; "script"]%string)
          then Tokenizer.mkOpts (Some Tokenizer.PlainText) None
                                (Tokenizer.discardBom opts)
                                (Tokenizer.xmlCoercion opts)
          else opts
        else opts
    | None => opts
    end in
  let sink := TreeBuilder.getTokenizerSink K fuel in
  let tokenizer := Tokenizer.createTokenizer opts in
  '(tokenizer, treeBuilder) ←
    Tokenizer.run NAMED_ENTITIES sink fuel html tokenizer treeBuilder;
  s ← TreeBuilder.finishTreeBuilder fuel treeBuilder;
  let errors :=
    List.map TokenizerError (Tokenizer.errors tokenizer)
    ++ List.map TreeError (TreeBuilder.errors treeBuilder) in
  Ok (mkResult (TreeBuilder.document treeBuilder) s errors tokenizer
               treeBuilder).

End Parse.

End Parser.

(** ** Stores for the examples *)

Module ExampleStores.

Import Dom.

(** Three detached elements [a], [b] and [c], created in this order. *)
Definition threeNodes : Store :=
  let '(_, s) := newNode (lit "a") NoData HTML [] [] in
  let '(_, s) := newNode (lit "b") NoData HTML [] s in
  let '(_, s) := newNode (lit "c") NoData HTML [] s in
  s.

(** [c] appended to [b]. *)
Definition attachedStore : Store := appendChild 1 2 threeNodes.

(** A [div] with the children [a], a text node and [b]. *)
Definition siblingStore : Store :=
  let '(_, s) := newNode (lit "div") NoData HTML [] [] in
  let '(_, s) := newNode (lit "a") NoData HTML [] s in
  let '(_, s) := newNode (lit "#text") (StringData (lit " x ")) HTML [] s in
  let '(_, s) := newNode (lit "b") NoData HTML [] s in
  appendChild 0 3 (appendChild 0 2 (appendChild 0 1 s)).

(** A [select] with a [selectedcontent] element and an [option] that
    holds the text [x]. *)
Definition selectStore : Store :=
  let '(_, s) := newNode (lit "select") NoData HTML [] [] in
  let '(_, s) := newNode (lit "selectedcontent") NoData HTML [] s in
  let '(_, s) := newNode (lit "option") NoData HTML [] s in
  let '(_, s) := newNode (lit "#text") (StringData (lit "x")) HTML [] s in
  appendChild 2 3 (appendChild 0 2 (appendChild 0 1 s)).

End ExampleStores.

(** * Verification *)

(** ** Facts about JavaScript strings *)

Module JSFacts.

Lemma str_eqb_eq (a b : jsstring) : str_eqb a b = true <-> a = b.
Proof.
  revert b; induction a as [|x a IH]; intros [|y b]; simpl; split;
    try congruence; auto.
  - intros H. apply andb_true_iff in H as [H1 H2].
    apply Z.eqb_eq in H1. apply IH in H2. congruence.
  - intros H. injection H as -> ->. rewrite Z.eqb_refl. simpl. now apply IH.
Qed.

Lemma str_eqb_refl (a : jsstring) : str_eqb a a = true.
Proof. now apply str_eqb_eq. Qed.

Lemma str_eqb_neq (a b : jsstring) : str_eqb a b = false <-> a <> b.
Proof.
  split.
  - intros H E. apply str_eqb_eq in E. congruence.
  - intros H. destruct (str_eqb a b) eqn:E; [|reflexivity].
    apply str_eqb_eq in E. contradiction.
Qed.

Lemma scanWhile_ge (p : Z -> bool) (s : jsstring) (j : nat) :
  (j <= scanWhile p s j)%nat.
Proof. unfold scanWhile. lia. Qed.

Lemma indexOfFrom_ge (c : Z) (s : jsstring) (i e : nat) :
  indexOfFrom c s i = Some e -> (i <= e)%nat.
Proof.
  revert i e. induction s as [|x s IH]; intros i e H; [discriminate|].
  destruct i as [|i]; [lia|].
  cbn [indexOfFrom] in H.
  destruct (indexOfFrom c s i) as [e'|] eqn:E; [|discriminate].
  injection H as <-. apply IH in E. lia.
Qed.

Lemma indexOfFrom_lt (c : Z) (s : jsstring) (i e : nat) :
  indexOfFrom c s i = Some e -> (e < List.length s)%nat.
Proof.
  revert i e. induction s as [|x s IH]; intros i e H; [discriminate|].
  cbn [indexOfFrom] in H. cbn [List.length].
  destruct i as [|i].
  - destruct (x =? c); [injection H as <-; lia|].
    destruct (indexOfFrom c s O) as [e'|] eqn:E; [|discriminate].
    injection H as <-. apply IH in E. lia.
  - destruct (indexOfFrom c s i) as [e'|] eqn:E; [|discriminate].
    injection H as <-. apply IH in E. lia.
Qed.

Lemma spanLen_forallb (p : Z -> bool) (s : jsstring) :
  forallb p (firstn (spanLen p s) s) = true.
Proof.
  induction s as [|x s IH]; [reflexivity|].
  cbn [spanLen]. destruct (p x) eqn:E; [|reflexivity].
  cbn [firstn forallb]. now rewrite E, IH.
Qed.

(** The units that [scanWhile] passes over satisfy its test. *)
Lemma slice_scanWhile (p : Z -> bool) (s : jsstring) (j : nat) :
  forallb p (slice s j (scanWhile p s j)) = true.
Proof.
  unfold slice, scanWhile.
  replace (j + spanLen p (skipn j s) - j)%nat with (spanLen p (skipn j s))
    by lia.
  apply spanLen_forallb.
Qed.

Lemma bind_Ok {A B : Type} (m : result A) (f : A -> result B) (b : B) :
  m ≫= f = Ok b -> exists a, m = Ok a /\ f a = Ok b.
Proof. destruct m; cbn; try discriminate. eauto. Qed.

End JSFacts.

Import JSFacts.

(** ** Character references *)

Module EntitiesFacts.

Import Entities.

Lemma digit_radix10 (c : Z) :
  isAsciiDigit c = true -> exists d, radixDigit 10 c = Some d /\ 0 <= d < 10.
Proof.
  unfold isAsciiDigit, radixDigit, digitValue. intros H.
  rewrite H. apply andb_true_iff in H as [H1 H2].
  apply Z.leb_le in H1, H2.
  exists (c - 0x30). split; [|lia].
  destruct (Z.ltb_spec (c - 0x30) 10); [reflexivity|lia].
Qed.

Lemma hexdigit_cases (c : Z) :
  isHexDigitChar c = true ->
  (0x30 <= c <= 0x39) \/ (0x61 <= c <= 0x66) \/ (0x41 <= c <= 0x46).
Proof.
  unfold isHexDigitChar, includes. cbn [lit existsb List.map list_ascii_of_string].
  cbn. intros H.
  repeat (apply orb_true_iff in H as [H|H];
          [apply Z.eqb_eq in H; lia|]).
  discriminate.
Qed.

Lemma digit_radix16 (c : Z) :
  isHexDigitChar c = true -> exists d, radixDigit 16 c = Some d /\ 0 <= d < 16.
Proof.
  intros H. apply hexdigit_cases in H.
  unfold radixDigit, digitValue.
  destruct H as [H|[H|H]].
  - destruct (Z.leb_spec 0x30 c), (Z.leb_spec c 0x39); try lia. simpl.
    exists (c - 0x30). destruct (Z.ltb_spec (c - 0x30) 16); [split; [reflexivity|lia]|lia].
  - destruct (Z.leb_spec 0x30 c), (Z.leb_spec c 0x39); try lia; simpl;
    destruct (Z.leb_spec 0x61 c), (Z.leb_spec c 0x7A); try lia; simpl;
    exists (c - 0x61 + 10);
    (destruct (Z.ltb_spec (c - 0x61 + 10) 16); [split; [reflexivity|lia]|lia]).
  - destruct (Z.leb_spec 0x30 c), (Z.leb_spec c 0x39); try lia; simpl;
    destruct (Z.leb_spec 0x61 c), (Z.leb_spec c 0x7A); try lia; simpl;
    destruct (Z.leb_spec 0x41 c), (Z.leb_spec c 0x5A); try lia; simpl;
    exists (c - 0x41 + 10);
    (destruct (Z.ltb_spec (c - 0x41 + 10) 16); [split; [reflexivity|lia]|lia]).
Qed.

(** A run of radix digits parses to a non-negative number, whatever was
    accumulated before it. *)
Lemma parseDigits_all (base : Z) (p : Z -> bool) (s : jsstring) :
  0 < base ->
  (forall c, p c = true -> exists d, radixDigit base c = Some d /\ 0 <= d < base) ->
  forallb p s = true ->
  forall acc seen, 0 <= acc -> (seen = true \/ s <> []) ->
  exists v, parseDigits base acc seen s = Some v /\ 0 <= v.
Proof.
  intros Hb Hp. induction s as [|c s IH]; intros Hall acc seen Hacc Hne.
  - destruct Hne as [->|Hne]; [|congruence]. simpl. eauto.
  - simpl in Hall. apply andb_true_iff in Hall as [Hc Hs].
    destruct (Hp c Hc) as (d & Hd & Hr). simpl. rewrite Hd.
    apply IH; [assumption|nia|now left].
Qed.

Lemma body_parses (text : jsstring) (isHex : bool) :
  referenceBody isHex text = true ->
  exists cp, parseInt text (if isHex then 16 else 10) = Some cp /\ 0 <= cp.
Proof.
  unfold referenceBody. intros H. apply andb_true_iff in H as [Hne Hall].
  destruct text as [|c text]; [discriminate|].
  assert (Hc : (if isHex then isHexDigitChar else isAsciiDigit) c = true
               /\ forallb (if isHex then isHexDigitChar else isAsciiDigit)
                    text = true).
  { cbn [forallb] in Hall. now apply andb_true_iff in Hall. }
  destruct Hc as [Hc Htl].
  assert (Hrange : 0x30 <= c <= 0x7A).
  { destruct isHex.
    - apply hexdigit_cases in Hc. lia.
    - unfold isAsciiDigit in Hc. apply andb_true_iff in Hc as [H1 H2].
      apply Z.leb_le in H1, H2. lia. }
  assert (Hws : isStrWhiteSpace c = false).
  { unfold isStrWhiteSpace.
    repeat match goal with
           | |- context [?a =? ?b] => destruct (Z.eqb_spec a b); [lia|]
           | |- context [?a <=? ?b] => destruct (Z.leb_spec a b); [|]
           end; try lia; reflexivity. }
  unfold parseInt. cbn [dropWhile]. rewrite Hws.
  assert (Hsign :
    match c :: text with
    | 45 :: r => (-1, r) | 43 :: r => (1, r) | _ => (1, c :: text)
    end = (1, c :: text)).
  { destruct c as [|p|p]; try reflexivity.
    do 8 (try (destruct p as [p|p|]; try reflexivity)); lia. }
  rewrite Hsign.
  assert (Hstrip :
    (if (if isHex then 16 else 10) =? 16 then stripHexPrefix (c :: text)
     else c :: text) = c :: text).
  { destruct isHex; [|reflexivity]. cbn [Z.eqb Pos.eqb].
    unfold stripHexPrefix.
    destruct (Z.eq_dec c 0x30) as [->|Hn].
    - destruct text as [|x r]; [reflexivity|].
      cbn [forallb] in Htl. apply andb_true_iff in Htl as [Hx _].
      apply hexdigit_cases in Hx.
      destruct (Z.eqb_spec x 0x78); [lia|].
      destruct (Z.eqb_spec x 0x58); [lia|]. reflexivity.
    - destruct c as [|p|p]; try reflexivity.
      do 8 (try (destruct p as [p|p|]; try reflexivity)); congruence. }
  rewrite Hstrip.
  destruct (parseDigits_all (if isHex then 16 else 10)
              (if isHex then isHexDigitChar else isAsciiDigit) (c :: text))
    with (acc := 0) (seen := false) as (v & Hv & Hv0).
  - destruct isHex; lia.
  - destruct isHex; [apply digit_radix16|apply digit_radix10].
  - exact Hall.
  - lia.
  - right. discriminate.
  - exists v. rewrite Hv. simpl. split; [f_equal; lia|lia].
Qed.

Lemma mapGet_none_above (cp : Z) :
  0x9F < cp -> mapGet cp NUMERIC_REPLACEMENTS = None.
Proof.
  intros H. unfold NUMERIC_REPLACEMENTS. cbn [mapGet].
  repeat match goal with
         | |- context [?a =? cp] => destruct (Z.eqb_spec a cp); [lia|]
         end.
  reflexivity.
Qed.

Lemma mapGet_none_below (cp : Z) :
  0 < cp < 0x80 -> mapGet cp NUMERIC_REPLACEMENTS = None.
Proof.
  intros H. unfold NUMERIC_REPLACEMENTS. cbn [mapGet].
  repeat match goal with
         | |- context [?a =? cp] => destruct (Z.eqb_spec a cp); [lia|]
         end.
  reflexivity.
Qed.

(** On the range 0x80..0x9F the outcome is the windows-1252 character:
    from the replacement table, or the code point itself on the five
    bytes the table leaves out. *)
Lemma decode_c1_range (cp : Z) :
  0x80 <= cp <= 0x9F ->
  match mapGet cp NUMERIC_REPLACEMENTS with
  | Some r => r
  | None => [cp]
  end = [windows1252 cp].
Proof.
  intros H.
  assert (Hn : exists n, (n < 32)%nat /\ cp = 0x80 + Z.of_nat n).
  { exists (Z.to_nat (cp - 0x80)). lia. }
  destruct Hn as (n & Hn & ->).
  do 32 (destruct n as [|n]; [reflexivity|]). lia.
Qed.

(** C5. For the body of a numeric character reference (a non-empty run of
    digits of the base), [decodeNumericEntity] returns the windows-1252
    character for a code point in 0x80..0x9F, U+FFFD for the code point 0,
    for a surrogate and for a value above 0x10FFFF, and the code point
    itself in every other case. *)
Theorem decodeNumericEntity_ranges (text : jsstring) (isHex : bool) :
  referenceBody isHex text = true ->
  exists cp,
    parseInt text (if isHex then 16 else 10) = Some cp /\ 0 <= cp /\
    (0x80 <= cp <= 0x9F ->
       decodeNumericEntity text isHex = Some [windows1252 cp]) /\
    (cp = 0 \/ 0xD800 <= cp <= 0xDFFF \/ 0x10FFFF < cp ->
       decodeNumericEntity text isHex = Some [0xFFFD]) /\
    (0 < cp -> ~ (0x80 <= cp <= 0x9F) -> ~ (0xD800 <= cp <= 0xDFFF) ->
     cp <= 0x10FFFF ->
       decodeNumericEntity text isHex = Some (codePointString cp)).
Proof.
  intros Hbody. destruct (body_parses text isHex Hbody) as (cp & Hparse & H0).
  exists cp. split; [exact Hparse|]. split; [exact H0|].
  unfold decodeNumericEntity. rewrite Hparse.
  split; [|split].
  - intros Hr. pose proof (decode_c1_range cp Hr) as Hc1.
    destruct (mapGet cp NUMERIC_REPLACEMENTS) as [r|].
    + now rewrite Hc1.
    + destruct (Z.ltb_spec 0x10ffff cp); [lia|].
      destruct (Z.leb_spec 0xd800 cp); [lia|]. cbn [andb].
      unfold fromCodePoint.
      destruct (Z.ltb_spec cp 0); [lia|].
      destruct (Z.ltb_spec 0x10FFFF cp); [lia|]. cbn [orb].
      destruct (Z.ltb_spec cp 0x10000); [|lia].
      now rewrite Hc1.
  - intros [->|[Hs|Hbig]].
    + reflexivity.
    + rewrite mapGet_none_above by lia.
      destruct (Z.ltb_spec 0x10ffff cp); [reflexivity|].
      destruct (Z.leb_spec 0xd800 cp); [|lia].
      destruct (Z.leb_spec cp 0xdfff); [reflexivity|lia].
    + rewrite mapGet_none_above by lia.
      destruct (Z.ltb_spec 0x10ffff cp); [reflexivity|lia].
  - intros Hpos Hc1 Hsur Hmax.
    assert (Hget : mapGet cp NUMERIC_REPLACEMENTS = None).
    { destruct (Z.lt_ge_cases cp 0x80);
        [apply mapGet_none_below|apply mapGet_none_above]; lia. }
    rewrite Hget.
    destruct (Z.ltb_spec 0x10ffff cp); [lia|].
    assert (Hs : (0xd800 <=? cp) && (cp <=? 0xdfff) = false).
    { destruct (Z.leb_spec 0xd800 cp), (Z.leb_spec cp 0xdfff);
        try reflexivity; lia. }
    rewrite Hs. unfold fromCodePoint, codePointString.
    destruct (Z.ltb_spec cp 0); [lia|].
    destruct (Z.ltb_spec 0x10FFFF cp); [lia|]. cbn [orb].
    destruct (Z.ltb_spec cp 0x10000); reflexivity.
Qed.

(** The reference [&#x96;] (an en dash in windows-1252). *)
Lemma decodeNumericEntity_ranges_witness :
  referenceBody true (lit "96") = true /\
  exists cp,
    parseInt (lit "96") 16 = Some cp /\ 0 <= cp /\
    (0x80 <= cp <= 0x9F ->
       decodeNumericEntity (lit "96") true = Some [windows1252 cp]) /\
    (cp = 0 \/ 0xD800 <= cp <= 0xDFFF \/ 0x10FFFF < cp ->
       decodeNumericEntity (lit "96") true = Some [0xFFFD]) /\
    (0 < cp -> ~ (0x80 <= cp <= 0x9F) -> ~ (0xD800 <= cp <= 0xDFFF) ->
     cp <= 0x10FFFF ->
       decodeNumericEntity (lit "96") true = Some (codePointString cp)).
Proof.
  split; [reflexivity|].
  apply (decodeNumericEntity_ranges (lit "96") true). reflexivity.
Defined.

Lemma indexOfFrom_absent (c : Z) (s : jsstring) :
  includes c s = false -> indexOfFrom c s O = None.
Proof.
  unfold includes. induction s as [|x s IH]; [reflexivity|].
  cbn [existsb indexOfFrom]. intros H.
  apply orb_false_iff in H as [Hx Hs].
  rewrite Z.eqb_sym, Hx. rewrite IH by exact Hs. reflexivity.
Qed.

(** C10. On a string without an ampersand [decodeEntitiesInText] returns
    its input, for both values of the in-attribute flag and whatever the
    table of named entities holds. *)
Theorem decodeEntitiesInText_no_amp
  (NAMED_ENTITIES : jsstring -> option jsstring)
  (text : jsstring) (inAttribute : bool) :
  includes 0x26 text = false ->
  decodeEntitiesInText NAMED_ENTITIES text inAttribute = Ok text.
Proof.
  intros Hno. unfold decodeEntitiesInText.
  destruct text as [|c text].
  - reflexivity.
  - cbn [List.length decodeLoop Nat.leb].
    rewrite (indexOfFrom_absent _ _ Hno).
    cbn. now rewrite app_nil_r.
Qed.

(** The text [a=b] with a table that knows [amp] only. *)
Lemma decodeEntitiesInText_no_amp_witness :
  includes 0x26 (lit "a=b") = false /\
  decodeEntitiesInText
    (fun n => if str_eqb n (lit "amp") then Some (lit "&") else None)
    (lit "a=b") true = Ok (lit "a=b").
Proof.
  split; [reflexivity|].
  apply decodeEntitiesInText_no_amp. reflexivity.
Defined.

End EntitiesFacts.

(** ** Termination of entity decoding *)

Module DecodeTotal.

Import Entities EntitiesFacts.

Lemma decodeNumericEntity_body (text : jsstring) (isHex : bool) :
  referenceBody isHex text = true ->
  exists r, decodeNumericEntity text isHex = Some r.
Proof.
  intros Hbody. destruct (body_parses text isHex Hbody) as (cp & Hparse & H0).
  unfold decodeNumericEntity. rewrite Hparse.
  destruct (mapGet cp NUMERIC_REPLACEMENTS) as [r|]; [eauto|].
  destruct (0x10ffff <? cp) eqn:Hbig; [eauto|].
  destruct ((0xd800 <=? cp) && (cp <=? 0xdfff)); [eauto|].
  unfold fromCodePoint. apply Z.ltb_ge in Hbig.
  destruct (Z.ltb_spec cp 0); [lia|].
  destruct (Z.ltb_spec 0x10FFFF cp); [lia|]. cbn [orb].
  destruct (cp <? 0x10000); eauto.
Qed.

Section Total.

Variable NAMED_ENTITIES : jsstring -> option jsstring.

Lemma bestPrefix_pos (entityName : jsstring) (k : nat) (v : jsstring)
  (n : nat) :
  bestPrefix NAMED_ENTITIES entityName k = Some (v, n) -> (0 < n)%nat.
Proof.
  induction k as [|k IH]; [discriminate|].
  cbn [bestPrefix].
  destruct (str_in _ LEGACY_ENTITIES && entitiesHas NAMED_ENTITIES _).
  - intros H. injection H as _ <-. lia.
  - exact IH.
Qed.

(** One turn of the decoding loop returns and moves forward. *)
Lemma decodeAt_total (text : jsstring) (inAttribute : bool) (i : nat) :
  exists chunk i',
    decodeAt NAMED_ENTITIES text inAttribute i = Ok (chunk, i')
    /\ (i < i')%nat.
Proof.
  unfold decodeAt.
  destruct (charIs text (S i) 0x23).
  - set (isHex := charIs text (S (S i)) 0x78 || charIs text (S (S i)) 0x58).
    set (d := if isHex then S (S (S i)) else S (S i)).
    set (p := if isHex then isHexDigitChar else isAsciiDigit).
    assert (Hj : (if isHex then scanWhile isHexDigitChar text d
                  else scanWhile isAsciiDigit text d) = scanWhile p text d)
      by (unfold p; now destruct isHex).
    rewrite Hj.
    pose proof (scanWhile_ge p text d) as Hge.
    assert (Hd : (S (S i) <= d)%nat) by (unfold d; destruct isHex; lia).
    destruct (truthy (slice text d (scanWhile p text d))) eqn:Ht.
    + destruct (decodeNumericEntity_body (slice text d (scanWhile p text d))
                                         isHex) as (r & ->).
      { unfold referenceBody. rewrite Ht. cbn [andb].
        pose proof (slice_scanWhile p text d) as Hall.
        unfold p in *. destruct isHex; exact Hall. }
      do 2 eexists. split; [reflexivity|].
      destruct (charIs text (scanWhile p text d) 0x3B); lia.
    + do 2 eexists. split; [reflexivity|].
      destruct (charIs text (scanWhile p text d) 0x3B); lia.
  - set (p := fun c => isAsciiAlpha c || isAsciiDigit c).
    pose proof (scanWhile_ge p text (S i)) as Hge.
    set (j := scanWhile p text (S i)) in *.
    set (entityName := slice text (S i) j).
    destruct (negb (truthy entityName)) eqn:Hname.
    { do 2 eexists. split; [reflexivity|lia]. }
    assert (Hj : (S i < j)%nat).
    { destruct (Nat.eq_dec j (S i)) as [E|E]; [|lia].
      unfold entityName, slice in Hname. rewrite E, Nat.sub_diag in Hname.
      discriminate. }
    destruct (charIs text j 0x3B && entitiesHas NAMED_ENTITIES entityName).
    { do 2 eexists. split; [reflexivity|lia]. }
    destruct (bestPrefix NAMED_ENTITIES entityName (List.length entityName))
      as [[v n]|] eqn:Hbest.
    + apply bestPrefix_pos in Hbest as Hn.
      unfold bestMatchFound.
      destruct (charIs text j 0x3B && negb inAttribute), (truthy v),
        (str_in entityName LEGACY_ENTITIES
         && entitiesHas NAMED_ENTITIES entityName), inAttribute;
        repeat match goal with
               | |- context [match charAt text j with _ => _ end] =>
                   destruct (charAt text j)
               | |- context [if ?b then _ else _] => destruct b
               end;
        do 2 eexists; (split; [reflexivity|lia]).
    + unfold bestMatchFound.
      destruct (charIs text j 0x3B && negb inAttribute),
        (str_in entityName LEGACY_ENTITIES
         && entitiesHas NAMED_ENTITIES entityName);
        repeat match goal with
               | |- context [match charAt text j with _ => _ end] =>
                   destruct (charAt text j)
               | |- context [if ?b then _ else _] => destruct b
               end;
        do 2 eexists; (split; [reflexivity|lia]).
Qed.

Lemma decodeLoop_total (text : jsstring) (inAttribute : bool) :
  forall fuel i acc,
    (List.length text - i <= fuel)%nat ->
    exists parts, decodeLoop NAMED_ENTITIES fuel text inAttribute i acc
                  = Ok parts.
Proof.
  induction fuel as [|fuel IH]; intros i acc Hfuel.
  - exists acc. cbn [decodeLoop].
    destruct (Nat.leb_spec (List.length text) i); [reflexivity|lia].
  - cbn [decodeLoop].
    destruct (Nat.leb_spec (List.length text) i); [eauto|].
    destruct (indexOfFrom 0x26 text i) as [nextAmp|] eqn:Hamp; [|eauto].
    apply indexOfFrom_ge in Hamp as Hge.
    destruct (decodeAt_total text inAttribute nextAmp)
      as (chunk & i' & -> & Hlt).
    cbn. apply IH. lia.
Qed.

(** [decodeEntitiesInText] returns on every input. *)
Lemma decodeEntitiesInText_total (text : jsstring) (inAttribute : bool) :
  exists r, decodeEntitiesInText NAMED_ENTITIES text inAttribute = Ok r.
Proof.
  unfold decodeEntitiesInText.
  destruct (decodeLoop_total text inAttribute (List.length text) O [])
    as (parts & ->); [lia|].
  eexists. reflexivity.
Qed.

End Total.

End DecodeTotal.

(** ** Encoding resolution *)

Module EncodingFacts.

Import Encoding.

Lemma skipn_lookup_cons (s : jsstring) (j : nat) (c : Z) :
  s !! j = Some c -> exists r, skipn j s = c :: r.
Proof.
  revert j. induction s as [|x s IH]; intros [|j] H; try discriminate.
  - injection H as ->. now exists s.
  - apply (IH j). exact H.
Qed.

Lemma scanWhile_step (p : Z -> bool) (s : jsstring) (j : nat) (c : Z) :
  s !! j = Some c -> p c = true -> (S j <= scanWhile p s j)%nat.
Proof.
  intros H Hp. unfold scanWhile.
  destruct (skipn_lookup_cons s j c H) as (r & ->).
  cbn [spanLen]. rewrite Hp. lia.
Qed.

Lemma searchSubarray_ge (pattern data : bytes) (i e : nat) :
  searchSubarray pattern data i = Some e -> (i <= e)%nat.
Proof.
  revert i e. induction data as [|x data IH]; intros i e H.
  - cbn [searchSubarray] in H.
    destruct (prefixEq pattern []); [injection H as <-; lia|discriminate].
  - cbn [searchSubarray] in H.
    destruct (prefixEq pattern (x :: data)).
    + injection H as <-. lia.
    + apply IH in H. lia.
Qed.

Lemma indexOfSubarray_ge (data pattern : bytes) (start e : nat) :
  indexOfSubarray data pattern start = Some e -> (start <= e)%nat.
Proof.
  unfold indexOfSubarray.
  destruct (List.length data <? start)%nat; [discriminate|].
  apply searchSubarray_ge.
Qed.

Lemma skipTag_mono (rest : bytes) :
  forall k nc q, (k <= fst (skipTag rest k nc q))%nat.
Proof.
  induction rest as [|ch rest IH]; intros k nc q; cbn [skipTag fst]; [lia|].
  destruct ((Z.of_nat k <? maxTotalScan) && (Z.of_nat nc <? maxNonComment));
    [|cbn; lia].
  destruct q as [q|].
  - destruct (ch =? q);
      (etransitivity; [|apply IH]); lia.
  - destruct ((ch =? 0x22) || (ch =? 0x27)).
    + etransitivity; [|apply IH]; lia.
    + destruct (ch =? 0x3e); [cbn; lia|].
      etransitivity; [|apply IH]; lia.
Qed.

Lemma skipTag_progress (ch : Z) (rest : bytes) (k nc : nat) :
  (Z.of_nat k <? maxTotalScan) && (Z.of_nat nc <? maxNonComment) = true ->
  (k < fst (skipTag (ch :: rest) k nc None))%nat.
Proof.
  intros Hc. cbn [skipTag]. rewrite Hc.
  destruct ((ch =? 0x22) || (ch =? 0x27)).
  - pose proof (skipTag_mono rest (S k) (S nc) (Some ch)). lia.
  - destruct (ch =? 0x3e); [cbn; lia|].
    pose proof (skipTag_mono rest (S k) (S nc) None). lia.
Qed.

Definition attrsFrom (k : nat) (o : attrsOutcome) : Prop :=
  match o with
  | AttrsDone k' _ _ => (k <= k')%nat
  | AttrsUnclosedQuote => True
  end.

(** The attribute loop ends within the fuel it is given, at or after the
    index it started from. *)
Lemma parseAttrs_total (data : bytes) :
  forall fuel k a,
    (List.length data - k < fuel)%nat ->
    exists o, parseAttrs fuel data k a = Ok o /\ attrsFrom k o.
Proof.
  induction fuel as [|fuel IH]; intros k a Hf; [lia|].
  cbn [parseAttrs].
  destruct ((k <? List.length data)%nat && (Z.of_nat k <? maxTotalScan))
    eqn:Hcond; [|eexists; split; [reflexivity|cbn; lia]].
  apply andb_true_iff in Hcond as [Hk _]. apply Nat.ltb_lt in Hk.
  destruct (byteIs data k 0x3e) eqn:Hgt;
    [eexists; split; [reflexivity|cbn; lia]|].
  destruct (byteIs data k 0x3c) eqn:Hlt;
    [eexists; split; [reflexivity|cbn; lia]|].
  destruct (data !! k) as [ch|] eqn:Hch.
  2:{ apply lookup_ge_None in Hch. lia. }
  assert (Hweak : forall k' a',
    (k < k')%nat ->
    exists o, parseAttrs fuel data k' a' = Ok o /\ attrsFrom k o).
  { intros k' a' Hlt'. destruct (IH k' a') as (o & Ho & Hfrom); [lia|].
    exists o. split; [exact Ho|]. destruct o; cbn in *; lia. }
  destruct (ASCII_WHITESPACE ch || (ch =? 0x2f)) eqn:Hws.
  { apply Hweak. lia. }
  set (k1 := scanWhile (fun c => negb (attrNameStop c)) data k).
  set (k2 := skipAsciiWhitespace data k1).
  assert (H1 : (k <= k1)%nat) by apply scanWhile_ge.
  assert (H2 : (k1 <= k2)%nat) by apply scanWhile_ge.
  destruct (byteIs data k2 0x3d) eqn:Heq.
  - set (k3 := skipAsciiWhitespace data (S k2)).
    assert (H3 : (S k2 <= k3)%nat) by apply scanWhile_ge.
    destruct (List.length data <=? k3)%nat;
      [eexists; split; [reflexivity|cbn; lia]|].
    destruct (byteIs data k3 0x22 || byteIs data k3 0x27).
    + destruct (data !! k3) as [quote|];
        [|eexists; split; [reflexivity|cbn; lia]].
      destruct (indexOfByte data quote (S k3)) as [endQuote|] eqn:Hq;
        [|eexists; split; [reflexivity|exact I]].
      apply indexOfFrom_ge in Hq. apply Hweak. lia.
    + apply Hweak.
      pose proof (scanWhile_ge (fun c => negb (unquotedValueStop c)) data k3).
      lia.
  - apply Hweak.
    assert (Hstop : attrNameStop ch = false).
    { unfold attrNameStop.
      unfold byteIs in Hgt, Hlt, Heq. rewrite Hch in Hgt, Hlt.
      apply orb_false_iff in Hws as [Hw Hsl].
      rewrite Hw, Hgt, Hlt, Hsl. cbn [orb].
      destruct (ch =? 0x3d) eqn:E; [|reflexivity].
      (* an equals sign at [k] stops both scans at [k] *)
      exfalso.
      assert (Ek1 : k1 = k).
      { unfold k1, scanWhile.
        destruct (skipn_lookup_cons data k ch Hch) as (r & ->).
        cbn [spanLen]. unfold attrNameStop. rewrite E, Hw. cbn. lia. }
      assert (Ek2 : k2 = k).
      { unfold k2, skipAsciiWhitespace, scanWhile. rewrite Ek1.
        destruct (skipn_lookup_cons data k ch Hch) as (r & ->).
        cbn [spanLen]. rewrite Hw. lia. }
      rewrite Ek2, Hch in Heq. congruence. }
    assert (S k <= k1)%nat.
    { apply (scanWhile_step _ data k ch Hch). now rewrite Hstop. }
    lia.
Qed.

Definition stepFrom (i : nat) (o : stepOutcome) : Prop :=
  match o with
  | Return _ => True
  | Continue i' _ => (i < i')%nat
  end.

(** One turn of the prescan never runs out of fuel and moves forward. *)
Lemma prescanStep_total (data : bytes) (i nc : nat) :
  (i <? List.length data)%nat && (Z.of_nat i <? maxTotalScan)
  && (Z.of_nat nc <? maxNonComment) = true ->
  exists o, prescanStep data i nc = Ok o /\ stepFrom i o.
Proof.
  intros Hcond. apply andb_true_iff in Hcond as [Hcond Hnc].
  apply andb_true_iff in Hcond as [Hi Hmax]. apply Nat.ltb_lt in Hi.
  unfold prescanStep.
  destruct (negb (byteIs data i 0x3c));
    [eexists; split; [reflexivity|cbn; lia]|].
  destruct ((i + 3 <? List.length data)%nat && byteIs data (i + 1) 0x21
            && byteIs data (i + 2) 0x2d && byteIs data (i + 3) 0x2d).
  { destruct (indexOfSubarray data BYTES_DASH_DASH_GT (i + 4)) as [e|] eqn:E;
      [|eexists; split; [reflexivity|exact I]].
    apply indexOfSubarray_ge in E.
    eexists; split; [reflexivity|cbn; lia]. }
  assert (Hskip : exists o,
    (let '(k, nonComment) := skipTag (skipn i data) i nc None in
     Ok (Continue k nonComment)) = Ok o /\ stepFrom i o).
  { destruct (data !! i) as [ch|] eqn:Hch.
    2:{ apply lookup_ge_None in Hch. lia. }
    destruct (skipn_lookup_cons data i ch Hch) as (r & ->).
    pose proof (skipTag_progress ch r i nc) as Hp.
    rewrite Hmax, Hnc in Hp. specialize (Hp eq_refl).
    destruct (skipTag (ch :: r) i nc None) as [k nc'].
    eexists; split; [reflexivity|exact Hp]. }
  destruct (byteIs data (S i) 0x2f); [exact Hskip|].
  destruct ((List.length data <=? S i)%nat
            || negb match data !! S i with
                    | Some b => isAsciiAlphaByte b
                    | None => false
                    end);
    [eexists; split; [reflexivity|cbn; lia]|].
  destruct (negb (bytesEqualLower data (S i)
                    (scanWhile isAsciiAlphaByte data (S i)) BYTES_META));
    [exact Hskip|].
  pose proof (scanWhile_ge isAsciiAlphaByte data (S i)) as Hj.
  destruct (parseAttrs_total data (S (List.length data))
              (scanWhile isAsciiAlphaByte data (S i))
              {| charset := None; httpEquiv := None; content := None |})
    as (o & Ho & Hfrom); [lia|].
  rewrite Ho. cbn [mbind result_bind].
  destruct o as [k [|] a|]; try (eexists; split; [reflexivity|cbn; lia]).
  cbn in Hfrom.
  repeat match goal with
         | |- context [match ?x with _ => _ end] => destruct x
         end;
    eexists; (split; [reflexivity|cbn; try lia; exact I]).
Qed.

Lemma prescanLoop_total (data : bytes) :
  forall fuel i nc,
    (List.length data - i <= fuel)%nat ->
    exists r, prescanLoop fuel data i nc = Ok r.
Proof.
  induction fuel as [|fuel IH]; intros i nc Hf; cbn [prescanLoop].
  - destruct (Nat.ltb_spec i (List.length data)); [lia|].
    cbn. eauto.
  - destruct ((i <? List.length data)%nat && (Z.of_nat i <? maxTotalScan)
              && (Z.of_nat nc <? maxNonComment)) eqn:Hcond; [|eauto].
    destruct (prescanStep_total data i nc Hcond) as (o & Ho & Hstep).
    rewrite Ho. cbn [mbind result_bind].
    destruct o as [r|i' nc']; [eauto|].
    cbn in Hstep. apply IH. lia.
Qed.

(** The prescan always terminates with a result. *)
Lemma preScanForMetaCharset_total (data : bytes) :
  exists r, preScanForMetaCharset data = Ok r.
Proof. apply prescanLoop_total. lia. Qed.

Lemma sniffBOM_marks (data : bytes) :
  sniffBOM data =
  if startsWithBytes [0xef; 0xbb; 0xbf] data then (Some (lit "utf-8"), 3%nat)
  else if startsWithBytes [0xff; 0xfe] data then (Some (lit "utf-16le"), 2%nat)
  else if startsWithBytes [0xfe; 0xff] data then (Some (lit "utf-16be"), 2%nat)
  else (None, 0%nat).
Proof.
  unfold sniffBOM, startsWithBytes, byteIs.
  destruct data as [|a [|b [|c r]]]; cbn;
    repeat match goal with
           | |- context [?x =? ?y] => destruct (x =? y); cbn
           end; reflexivity.
Qed.

Lemma marks_exclusive (data : bytes) :
  (startsWithBytes [0xFF; 0xFE] data = true ->
   startsWithBytes [0xEF; 0xBB; 0xBF] data = false)
  /\
  (startsWithBytes [0xFE; 0xFF] data = true ->
   startsWithBytes [0xEF; 0xBB; 0xBF] data = false
   /\ startsWithBytes [0xFF; 0xFE] data = false).
Proof.
  unfold startsWithBytes.
  destruct data as [|a [|b r]]; cbn [prefixEq];
    try (split; intros; discriminate).
  - rewrite !andb_false_r. split; intros; discriminate.
  - destruct (Z.eqb_spec a 255), (Z.eqb_spec a 239), (Z.eqb_spec a 254);
      try lia; cbn [andb]; split; intros; try discriminate; auto.
Qed.

(** C6. [sniffHTMLEncoding] resolves the encoding in this order: a
    transport label that normalizes to a known encoding wins and skips no
    byte; otherwise a byte-order mark decides (EF BB BF: utf-8, 3 bytes;
    FF FE: utf-16le, 2 bytes; FE FF: utf-16be, 2 bytes); otherwise the
    result of the meta prescan, which always terminates, is used; and
    otherwise the encoding is windows-1252 with no byte skipped. *)
Theorem sniffHTMLEncoding_priority
  (data : bytes) (transportEncoding : option label) :
  (forall transport,
      normalizeEncodingLabel transportEncoding = Some transport ->
      sniffHTMLEncoding data transportEncoding
      = Ok {| encoding := transport; bomLength := 0 |})
  /\
  (normalizeEncodingLabel transportEncoding = None ->
   (startsWithBytes [0xEF; 0xBB; 0xBF] data = true ->
    sniffHTMLEncoding data transportEncoding
    = Ok {| encoding := lit "utf-8"; bomLength := 3 |})
   /\
   (startsWithBytes [0xFF; 0xFE] data = true ->
    sniffHTMLEncoding data transportEncoding
    = Ok {| encoding := lit "utf-16le"; bomLength := 2 |})
   /\
   (startsWithBytes [0xFE; 0xFF] data = true ->
    sniffHTMLEncoding data transportEncoding
    = Ok {| encoding := lit "utf-16be"; bomLength := 2 |})
   /\
   (startsWithBytes [0xEF; 0xBB; 0xBF] data = false ->
    startsWithBytes [0xFF; 0xFE] data = false ->
    startsWithBytes [0xFE; 0xFF] data = false ->
    exists metaEnc,
      preScanForMetaCharset data = Ok metaEnc /\
      sniffHTMLEncoding data transportEncoding
      = Ok {| encoding := match metaEnc with
                          | Some enc => enc
                          | None => lit "windows-1252"
                          end;
              bomLength := 0 |})).
Proof.
  split.
  - intros transport H. unfold sniffHTMLEncoding. now rewrite H.
  - intros Hnone. unfold sniffHTMLEncoding. rewrite Hnone, sniffBOM_marks.
    repeat split.
    + intros H. now rewrite H.
    + intros H. destruct (marks_exclusive data) as [Hx _].
      now rewrite (Hx H), H.
    + intros H. destruct (marks_exclusive data) as [_ Hx].
      destruct (Hx H) as [E3 E2]. now rewrite E3, E2, H.
    + intros H3 H2 H2'. rewrite H3, H2, H2'.
      destruct (preScanForMetaCharset_total data) as (metaEnc & Hm).
      exists metaEnc. split; [exact Hm|]. rewrite Hm.
      destruct metaEnc; reflexivity.
Qed.

(** A UTF-8 byte-order mark in front of [<p>], with no transport label. *)
Lemma sniffHTMLEncoding_priority_witness :
  normalizeEncodingLabel None = None /\
  startsWithBytes [0xEF; 0xBB; 0xBF] [0xEF; 0xBB; 0xBF; 0x3C; 0x70; 0x3E]
  = true /\
  sniffHTMLEncoding [0xEF; 0xBB; 0xBF; 0x3C; 0x70; 0x3E] None
  = Ok {| encoding := lit "utf-8"; bomLength := 3 |}.
Proof.
  split; [reflexivity|]. split; [reflexivity|].
  apply (proj2 (sniffHTMLEncoding_priority
                  [0xEF; 0xBB; 0xBF; 0x3C; 0x70; 0x3E] None));
    reflexivity.
Defined.

End EncodingFacts.

(** ** The node tree *)

Module DomFacts.

Import Dom.

Lemma elem_take {A : Type} (i : nat) (l : list A) (m : A) :
  m ∈ take i l -> m ∈ l.
Proof.
  intros H. rewrite <- (take_drop i l). apply elem_of_app. now left.
Qed.

Lemma elem_drop {A : Type} (i : nat) (l : list A) (m : A) :
  m ∈ drop i l -> m ∈ l.
Proof.
  intros H. rewrite <- (take_drop i l). apply elem_of_app. now right.
Qed.

Lemma indexOfNode_lookup (node : NodeId) (l : list NodeId) (i : nat) :
  indexOfNode node l = Some i -> l !! i = Some node.
Proof.
  revert i. induction l as [|x l IH]; intros i; [discriminate|].
  cbn [indexOfNode]. destruct (Nat.eqb_spec x node) as [->|Hne].
  - intros H. now injection H as <-.
  - destruct (indexOfNode node l) as [j|]; [|discriminate].
    intros H. injection H as <-. now apply IH.
Qed.

Lemma indexOfNode_elem (node : NodeId) (l : list NodeId) :
  node ∈ l -> exists i, indexOfNode node l = Some i.
Proof.
  induction l as [|x l IH]; intros H; [inversion H|].
  cbn [indexOfNode]. destruct (Nat.eqb_spec x node) as [->|Hne]; [eauto|].
  apply elem_of_cons in H as [->|H]; [congruence|].
  destruct (IH H) as (i & ->). cbn. eauto.
Qed.

(** A node that was just created is in no child list. *)
Lemma parentsAgree_bound (s : Store) (n m : NodeId) (nd : Node) :
  parentsAgree s -> s !! n = Some nd -> m ∈ childNodes nd ->
  (m < List.length s)%nat.
Proof.
  intros Hp Hn Hm. destruct (Hp n nd m Hn Hm) as (md & Hmd & _).
  now apply lookup_lt_Some in Hmd.
Qed.

Lemma detached_fresh (s : Store) (m : NodeId) :
  parentsAgree s -> (List.length s <= m)%nat -> detached s m.
Proof.
  intros Hp Hm n nd Hn Hin.
  pose proof (parentsAgree_bound s n m nd Hp Hn Hin). lia.
Qed.

(** Adding records without children keeps the tree well linked. *)
Lemma wellLinked_app (s tail : Store) :
  wellLinked s -> Forall (fun nd => childNodes nd = []) tail ->
  wellLinked (s ++ tail).
Proof.
  intros [Hp Ho] Hc. split.
  - intros n nd m Hn Hm. apply lookup_app_Some in Hn as [Hn|[_ Hn]].
    + destruct (Hp n nd m Hn Hm) as (md & Hmd & Hpar).
      exists md. split; [|exact Hpar]. now apply lookup_app_l_Some.
    + apply list_elem_of_lookup_2 in Hn.
      rewrite Forall_forall in Hc. rewrite (Hc nd) in Hm.
      * inversion Hm.
      * assumption.
  - intros n nd Hn. apply lookup_app_Some in Hn as [Hn|[_ Hn]].
    + now apply (Ho n).
    + apply list_elem_of_lookup_2 in Hn.
      rewrite Forall_forall in Hc. rewrite (Hc nd).
      * apply NoDup_nil_2.
      * assumption.
Qed.

Lemma newNode_spec (name : jsstring) (data : NodeData)
  (namespace : option jsstring) (attrs : AttrMap) (s : Store) :
  exists tail,
    newNode name data namespace attrs s = (List.length s, s ++ tail)
    /\ Forall (fun nd => childNodes nd = [] /\ parentNode nd = None) tail
    /\ (exists nd, tail !! O = Some nd /\ Dom.name nd = name
                   /\ Dom.data nd = data /\ Dom.namespace nd = namespace
                   /\ Dom.attrs nd = attrs)
    /\ (0 < List.length tail)%nat.
Proof.
  unfold newNode.
  destruct (str_eqb name (lit "template") && _); eexists;
    (split; [reflexivity|]); (split; [repeat constructor|]);
    (split; [eexists; split; [reflexivity|]; repeat split|]); cbn; lia.
Qed.

Lemma wellLinked_newNode (name : jsstring) (data : NodeData)
  (namespace : option jsstring) (attrs : AttrMap) (s s' : Store)
  (id : NodeId) :
  newNode name data namespace attrs s = (id, s') ->
  wellLinked s ->
  wellLinked s' /\ detached s' id /\ is_Some (s' !! id)
  /\ id = List.length s.
Proof.
  intros H Hw.
  destruct (newNode_spec name data namespace attrs s)
    as (tail & Hn & Hall & (nd & Hnd & _) & Hlen).
  rewrite Hn in H. injection H as <- <-.
  assert (Hw' : wellLinked (s ++ tail)).
  { apply wellLinked_app; [exact Hw|].
    eapply Forall_impl; [exact Hall|]. now intros x [? _]. }
  split; [exact Hw'|]. split; [|split; [|reflexivity]].
  - intros n nd' Hn' Hin.
    apply lookup_app_Some in Hn' as [Hn'|[_ Hn']].
    + destruct Hw as [Hp _].
      pose proof (parentsAgree_bound s n _ nd' Hp Hn' Hin). lia.
    + apply list_elem_of_lookup_2 in Hn'.
      rewrite Forall_forall in Hall.
      destruct (Hall nd') as [Hc _]; [assumption|].
      rewrite Hc in Hin. inversion Hin.
  - apply lookup_lt_is_Some. rewrite length_app. lia.
Qed.

(** Changing fields other than the links keeps the tree well linked. *)
Lemma wellLinked_alter (f : Node -> Node) (i : NodeId) (s : Store) :
  (forall nd, childNodes (f nd) = childNodes nd
              /\ parentNode (f nd) = parentNode nd) ->
  wellLinked s -> wellLinked (alter f i s).
Proof.
  intros Hf [Hp Ho]. split.
  - intros n nd m Hn Hm.
    assert (Hold : exists nd0, s !! n = Some nd0
                               /\ childNodes nd = childNodes nd0).
    { rewrite list_lookup_alter in Hn. destruct (decide (i = n)) as [->|Hne].
      - destruct (s !! n) as [nd0|]; [|discriminate].
        injection Hn as <-. exists nd0. split; [reflexivity|]. apply Hf.
      - eauto. }
    destruct Hold as (nd0 & Hn0 & Hc). rewrite Hc in Hm.
    destruct (Hp n nd0 m Hn0 Hm) as (md & Hmd & Hpar).
    rewrite list_lookup_alter. destruct (decide (i = m)) as [->|Hne].
    + rewrite Hmd. eexists. split; [reflexivity|].
      now rewrite (proj2 (Hf md)).
    + eauto.
  - intros n nd Hn.
    rewrite list_lookup_alter in Hn. destruct (decide (i = n)) as [->|Hne].
    + destruct (s !! n) as [nd0|] eqn:Hn0; [|discriminate].
      injection Hn as <-. rewrite (proj1 (Hf nd0)). now apply (Ho n).
    + now apply (Ho n).
Qed.

Lemma detached_alter (f : Node -> Node) (i : NodeId) (s : Store)
  (m : NodeId) :
  (forall nd, childNodes (f nd) = childNodes nd) ->
  detached s m -> detached (alter f i s) m.
Proof.
  intros Hf Hd n nd Hn.
  rewrite list_lookup_alter in Hn. destruct (decide (i = n)) as [->|Hne].
  - destruct (s !! n) as [nd0|] eqn:Hn0; [|discriminate].
    injection Hn as <-. rewrite Hf. now apply (Hd n).
  - now apply (Hd n).
Qed.

(** The link operations, as changes of the child list of [this] and of
    the parent of [node]. *)
Lemma relink_lookup (g : list NodeId -> list NodeId) (p : option NodeId)
  (this node : NodeId) (s : Store) (n : NodeId) (nd : Node) :
  alter (setParentNode p) node
        (alter (fun x => setChildNodes (g (childNodes x)) x) this s) !! n
  = Some nd ->
  exists nd0,
    s !! n = Some nd0
    /\ childNodes nd = (if decide (n = this) then g (childNodes nd0)
                        else childNodes nd0)
    /\ parentNode nd = (if decide (n = node) then p else parentNode nd0).
Proof.
  rewrite !list_lookup_alter.
  destruct (decide (node = n)) as [->|Hn], (decide (this = n)) as [->|Ht].
  - destruct (s !! n) as [nd0|]; [|discriminate]. cbn.
    intros H. injection H as <-. exists nd0.
    rewrite !decide_True by reflexivity. now repeat split.
  - destruct (s !! n) as [nd0|]; [|discriminate]. cbn.
    intros H. injection H as <-. exists nd0.
    rewrite decide_False by congruence.
    rewrite decide_True by reflexivity. now repeat split.
  - destruct (s !! n) as [nd0|]; [|discriminate]. cbn.
    intros H. injection H as <-. exists nd0.
    rewrite decide_True by reflexivity.
    rewrite decide_False by congruence. now repeat split.
  - intros H. exists nd.
    rewrite !decide_False by congruence. now repeat split.
Qed.

Lemma relink_lookup_inv (g : list NodeId -> list NodeId) (p : option NodeId)
  (this node : NodeId) (s : Store) (n : NodeId) (nd0 : Node) :
  s !! n = Some nd0 ->
  exists nd,
    alter (setParentNode p) node
          (alter (fun x => setChildNodes (g (childNodes x)) x) this s) !! n
    = Some nd
    /\ parentNode nd = (if decide (n = node) then p else parentNode nd0).
Proof.
  intros H. rewrite !list_lookup_alter.
  destruct (decide (node = n)) as [->|Hn], (decide (this = n)) as [->|Ht];
    rewrite ?H; cbn; eexists; (split; [reflexivity|]);
    rewrite ?decide_True by reflexivity;
    rewrite ?decide_False by congruence; reflexivity.
Qed.

(** Putting a detached node into the child list of [this] and pointing
    its parent to [this] keeps the tree well linked. *)
Lemma wellLinked_link (g : list NodeId -> list NodeId)
  (this node : NodeId) (s : Store) :
  (forall l m, m ∈ g l -> m = node \/ m ∈ l) ->
  (forall l, NoDup l -> node ∉ l -> NoDup (g l)) ->
  is_Some (s !! node) ->
  detached s node ->
  wellLinked s ->
  wellLinked
    (alter (setParentNode (Some this)) node
           (alter (fun x => setChildNodes (g (childNodes x)) x) this s)).
Proof.
  intros Hg Hnd [nodeRec Hnode] Hdet [Hp Ho]. split.
  - intros n nd m Hn Hm.
    apply relink_lookup in Hn as (nd0 & Hn0 & Hc & _).
    assert (Hcase : (m = node /\ n = this) \/ m ∈ childNodes nd0).
    { rewrite Hc in Hm. destruct (decide (n = this)) as [->|Hne].
      - apply Hg in Hm as [->|Hm]; [now left|now right].
      - now right. }
    destruct Hcase as [[-> ->]|Hm0].
    + destruct (relink_lookup_inv g (Some this) this node s node nodeRec
                                  Hnode) as (nd' & Hnd' & Hpar).
      exists nd'. split; [exact Hnd'|].
      now rewrite Hpar, decide_True by reflexivity.
    + destruct (Hp n nd0 m Hn0 Hm0) as (md & Hmd & Hpar).
      assert (Hne : m <> node).
      { intros ->. exact (Hdet n nd0 Hn0 Hm0). }
      destruct (relink_lookup_inv g (Some this) this node s m md Hmd)
        as (md' & Hmd' & Hpar').
      exists md'. split; [exact Hmd'|].
      now rewrite Hpar', decide_False by exact Hne.
  - intros n nd Hn.
    apply relink_lookup in Hn as (nd0 & Hn0 & Hc & _). rewrite Hc.
    destruct (decide (n = this)) as [->|Hne].
    + apply Hnd; [now apply (Ho this)|]. exact (Hdet this nd0 Hn0).
    + now apply (Ho n).
Qed.

Lemma appendChild_wellLinked (this node : NodeId) (s : Store) :
  is_Some (s !! node) -> detached s node -> wellLinked s ->
  wellLinked (appendChild this node s).
Proof.
  intros Hnode Hdet Hw. unfold appendChild.
  apply (wellLinked_link (fun l => l ++ [node])); try assumption.
  - intros l m Hm. apply elem_of_app in Hm as [Hm|Hm]; [now right|].
    apply list_elem_of_singleton in Hm. now left.
  - intros l Hl Hn. apply NoDup_app. split; [exact Hl|]. split.
    + intros x Hx Hx'. apply list_elem_of_singleton in Hx' as ->. tauto.
    + apply NoDup_singleton.
Qed.

Lemma insertBefore_wellLinked (this node : NodeId)
  (referenceNode : option NodeId) (s s' : Store) :
  is_Some (s !! node) -> detached s node -> wellLinked s ->
  insertBefore this node referenceNode s = Ok s' ->
  wellLinked s'.
Proof.
  intros Hnode Hdet Hw. unfold insertBefore.
  destruct referenceNode as [ref|].
  - destruct (indexOfNode ref (childrenOf s this)) as [i|]; [|discriminate].
    intros H. injection H as <-.
    apply (wellLinked_link (fun l => take i l ++ node :: drop i l));
      try assumption.
    + intros l m Hm. apply elem_of_app in Hm as [Hm|Hm].
      * right. eapply elem_take; eauto.
      * apply elem_of_cons in Hm as [->|Hm]; [now left|].
        right. eapply elem_drop; eauto.
    + intros l Hl Hn.
      rewrite <- (take_drop i l) in Hl, Hn.
      apply NoDup_app in Hl as (Ht & Hx & Hd).
      apply NoDup_app. split; [exact Ht|]. split.
      * intros x Hx1 Hx2. apply elem_of_cons in Hx2 as [->|Hx2].
        -- apply Hn. apply elem_of_app. now left.
        -- now apply (Hx x).
      * apply NoDup_cons. split; [|exact Hd].
        intros Hin. apply Hn. apply elem_of_app. now right.
  - intros H. injection H as <-. now apply appendChild_wellLinked.
Qed.

(** Removing a child keeps the tree well linked and detaches the child. *)
Lemma removeChild_wellLinked (this node : NodeId) (s s' : Store) :
  wellLinked s -> removeChild this node s = Ok s' ->
  wellLinked s' /\ detached s' node /\ is_Some (s' !! node)
  /\ List.length s' = List.length s.
Proof.
  intros [Hp Ho]. unfold removeChild.
  destruct (indexOfNode node (childrenOf s this)) as [i|] eqn:Hi;
    [|discriminate].
  intros H. injection H as <-.
  apply indexOfNode_lookup in Hi. unfold childrenOf in Hi.
  destruct (s !! this) as [thisRec|] eqn:Hthis; [|discriminate].
  assert (Hin : node ∈ childNodes thisRec)
    by (eapply list_elem_of_lookup_2; eauto).
  assert (Hdel : forall m, m ∈ delete i (childNodes thisRec) ->
                           m ∈ childNodes thisRec /\ m <> node).
  { intros m Hm. pose proof (Ho this thisRec Hthis) as Hnd.
    rewrite <- (take_drop_middle _ _ _ Hi) in Hnd.
    rewrite <- (take_drop_middle _ _ _ Hi) at 1.
    rewrite delete_take_drop in Hm.
    apply NoDup_app in Hnd as (_ & Hx & Hd).
    apply NoDup_cons in Hd as [Hd _].
    apply elem_of_app in Hm as [Hm|Hm].
    - split; [apply elem_of_app; now left|].
      intros ->. apply (Hx node Hm). apply list_elem_of_here.
    - split; [apply elem_of_app; right; now apply list_elem_of_further|].
      now intros ->. }
  assert (Hother : forall n nd0, s !! n = Some nd0 -> n <> this ->
                                 node ∉ childNodes nd0).
  { intros n nd0 Hn Hne Hin'.
    destruct (Hp this thisRec node Hthis Hin) as (md & Hmd & Hpar).
    destruct (Hp n nd0 node Hn Hin') as (md' & Hmd' & Hpar').
    congruence. }
  split; [split|split; [|split]].
  - intros n nd m Hn Hm.
    apply relink_lookup in Hn as (nd0 & Hn0 & Hc & _).
    assert (Hm0 : m ∈ childNodes nd0 /\ m <> node).
    { rewrite Hc in Hm. destruct (decide (n = this)) as [->|Hne].
      - rewrite Hthis in Hn0. injection Hn0 as <-. now apply Hdel.
      - split; [exact Hm|]. intros ->. exact (Hother n nd0 Hn0 Hne Hm). }
    destruct Hm0 as [Hm0 Hne].
    destruct (Hp n nd0 m Hn0 Hm0) as (md & Hmd & Hpar).
    destruct (relink_lookup_inv (delete i) None this node s m md Hmd)
      as (md' & Hmd' & Hpar').
    exists md'. split; [exact Hmd'|].
    now rewrite Hpar', decide_False by exact Hne.
  - intros n nd Hn.
    apply relink_lookup in Hn as (nd0 & Hn0 & Hc & _). rewrite Hc.
    destruct (decide (n = this)) as [->|Hne].
    + eapply sublist_NoDup; [|apply sublist_delete]. now apply (Ho this).
    + now apply (Ho n).
  - intros n nd Hn Hm.
    apply relink_lookup in Hn as (nd0 & Hn0 & Hc & _). rewrite Hc in Hm.
    destruct (decide (n = this)) as [->|Hne].
    + rewrite Hthis in Hn0. injection Hn0 as <-.
      now apply Hdel in Hm as [_ Hm].
    + exact (Hother n nd0 Hn0 Hne Hm).
  - destruct (Hp this thisRec node Hthis Hin) as (nd & Hnd & _).
    destruct (relink_lookup_inv (delete i) None this node s node nd Hnd)
      as (nd' & -> & _). eauto.
  - now rewrite !length_alter.
Qed.

Lemma replaceChild_wellLinked (this newNode oldNode : NodeId)
  (s s' : Store) :
  is_Some (s !! newNode) -> detached s newNode -> wellLinked s ->
  replaceChild this newNode oldNode s = Ok s' ->
  wellLinked s' /\ detached s' oldNode.
Proof.
  intros [newRec Hnew] Hdet [Hp Ho]. unfold replaceChild.
  destruct (indexOfNode oldNode (childrenOf s this)) as [i|] eqn:Hi;
    [|discriminate].
  intros H. injection H as <-.
  apply indexOfNode_lookup in Hi. unfold childrenOf in Hi.
  destruct (s !! this) as [thisRec|] eqn:Hthis; [|discriminate].
  assert (Hin : oldNode ∈ childNodes thisRec)
    by (eapply list_elem_of_lookup_2; eauto).
  assert (Hne : newNode <> oldNode).
  { intros ->. exact (Hdet this thisRec Hthis Hin). }
  assert (Hins : forall m, m ∈ <[i:=newNode]> (childNodes thisRec) ->
                           m = newNode
                           \/ (m ∈ childNodes thisRec /\ m <> oldNode)).
  { intros m Hm. pose proof (Ho this thisRec Hthis) as Hnd.
    rewrite insert_take_drop in Hm by (now apply lookup_lt_Some in Hi).
    rewrite <- (take_drop_middle _ _ _ Hi) in Hnd.
    rewrite <- (take_drop_middle _ _ _ Hi) at 1.
    apply NoDup_app in Hnd as (_ & Hx & Hd).
    apply NoDup_cons in Hd as [Hd _].
    apply elem_of_app in Hm as [Hm|Hm].
    - right. split; [apply elem_of_app; now left|].
      intros ->. apply (Hx oldNode Hm). apply list_elem_of_here.
    - apply elem_of_cons in Hm as [->|Hm]; [now left|]. right.
      split; [apply elem_of_app; right; now apply list_elem_of_further|].
      now intros ->. }
  assert (Hother : forall n nd0, s !! n = Some nd0 -> n <> this ->
                                 oldNode ∉ childNodes nd0).
  { intros n nd0 Hn Hne' Hin'.
    destruct (Hp this thisRec oldNode Hthis Hin) as (md & Hmd & Hpar).
    destruct (Hp n nd0 oldNode Hn Hin') as (md' & Hmd' & Hpar').
    congruence. }
  set (s1 := alter (setParentNode None) oldNode
               (alter (fun x =>
                         setChildNodes (<[i:=newNode]> (childNodes x)) x)
                      this s)).
  assert (Hs1 : forall n nd, s1 !! n = Some nd ->
            exists nd0, s !! n = Some nd0
              /\ childNodes nd
                 = (if decide (n = this)
                    then <[i:=newNode]> (childNodes nd0)
                    else childNodes nd0)
              /\ parentNode nd
                 = (if decide (n = oldNode) then None else parentNode nd0)).
  { intros n nd. apply relink_lookup. }
  assert (Hfinal : forall n nd,
            alter (setParentNode (Some this)) newNode s1 !! n = Some nd ->
            exists nd0, s !! n = Some nd0
              /\ childNodes nd
                 = (if decide (n = this)
                    then <[i:=newNode]> (childNodes nd0)
                    else childNodes nd0)
              /\ parentNode nd
                 = (if decide (n = newNode) then Some this
                    else if decide (n = oldNode) then None
                         else parentNode nd0)).
  { intros n nd Hn. rewrite list_lookup_alter in Hn.
    destruct (decide (newNode = n)) as [->|Hn'].
    - destruct (s1 !! n) as [nd1|] eqn:H1; [|discriminate].
      injection Hn as <-. destruct (Hs1 n nd1 H1) as (nd0 & H0 & Hc & _).
      exists nd0. split; [exact H0|]. split; [exact Hc|].
      destruct (decide (n = n)); [reflexivity|congruence].
    - destruct (Hs1 n nd Hn) as (nd0 & H0 & Hc & Hpar).
      exists nd0. split; [exact H0|]. split; [exact Hc|].
      destruct (decide (n = newNode)); [congruence|exact Hpar]. }
  assert (Hexists : forall n nd0, s !! n = Some nd0 ->
            exists nd,
              alter (setParentNode (Some this)) newNode s1 !! n = Some nd).
  { intros n nd0 Hn.
    assert (Hx : is_Some (alter (setParentNode (Some this)) newNode s1 !! n)).
    { apply lookup_lt_is_Some. unfold s1. rewrite !length_alter.
      now apply lookup_lt_Some in Hn. }
    exact Hx. }
  split; [split|].
  - intros n nd m Hn Hm.
    apply Hfinal in Hn as (nd0 & Hn0 & Hc & _).
    assert (Hcase : (m = newNode /\ n = this)
                    \/ (m ∈ childNodes nd0 /\ m <> oldNode
                        /\ m <> newNode)).
    { rewrite Hc in Hm. destruct (decide (n = this)) as [->|Hne'].
      - rewrite Hthis in Hn0. injection Hn0 as <-.
        apply Hins in Hm as [->|[Hm Hmo]]; [now left|]. right.
        split; [exact Hm|]. split; [exact Hmo|].
        intros ->. exact (Hdet this thisRec Hthis Hm).
      - right. split; [exact Hm|]. split.
        + intros ->. exact (Hother n nd0 Hn0 Hne' Hm).
        + intros ->. exact (Hdet n nd0 Hn0 Hm). }
    destruct Hcase as [[-> ->]|(Hm0 & Hmo & Hmn)].
    + destruct (Hexists newNode newRec Hnew) as (nd' & Hnd').
      exists nd'. split; [exact Hnd'|].
      apply Hfinal in Hnd' as (nd0' & _ & _ & Hpar).
      now rewrite Hpar, decide_True by reflexivity.
    + destruct (Hp n nd0 m Hn0 Hm0) as (md & Hmd & Hpar).
      destruct (Hexists m md Hmd) as (md' & Hmd').
      exists md'. split; [exact Hmd'|].
      apply Hfinal in Hmd' as (md0 & Hmd0 & _ & Hpar').
      rewrite Hpar', !decide_False by assumption. congruence.
  - intros n nd Hn.
    apply Hfinal in Hn as (nd0 & Hn0 & Hc & _). rewrite Hc.
    destruct (decide (n = this)) as [->|Hne'].
    + rewrite Hthis in Hn0. injection Hn0 as <-.
      pose proof (Ho this thisRec Hthis) as Hnd.
      rewrite insert_take_drop by (now apply lookup_lt_Some in Hi).
      rewrite <- (take_drop_middle _ _ _ Hi) in Hnd.
      apply NoDup_app in Hnd as (Ht & Hx & Hd).
      apply NoDup_cons in Hd as [Hd1 Hd2].
      apply NoDup_app. split; [exact Ht|]. split.
      * intros x Hx1 Hx2. apply elem_of_cons in Hx2 as [->|Hx2].
        -- apply (Hdet this thisRec Hthis).
           eapply elem_take; eauto.
        -- apply (Hx x Hx1). now apply list_elem_of_further.
      * apply NoDup_cons. split; [|exact Hd2].
        intros Hin'. apply (Hdet this thisRec Hthis).
        eapply elem_drop; eauto.
    + now apply (Ho n).
  - intros n nd Hn Hm.
    apply Hfinal in Hn as (nd0 & Hn0 & Hc & _). rewrite Hc in Hm.
    destruct (decide (n = this)) as [->|Hne'].
    + rewrite Hthis in Hn0. injection Hn0 as <-.
      apply Hins in Hm as [Hm|[_ Hm]]; congruence.
    + exact (Hother n nd0 Hn0 Hne' Hm).
Qed.

(** [s'] extends [s]: the nodes of [s] are as they were, and the child
    lists of the new nodes hold new nodes only. *)
Definition ext (s s' : Store) : Prop :=
  (List.length s <= List.length s')%nat
  /\ (forall i, (i < List.length s)%nat -> s' !! i = s !! i)
  /\ (forall i nd m,
         s' !! i = Some nd -> (List.length s <= i)%nat ->
         m ∈ childNodes nd -> (List.length s <= m)%nat).

Lemma ext_refl (s : Store) : ext s s.
Proof.
  split; [lia|]. split; [reflexivity|].
  intros i nd m Hi Hle. apply lookup_lt_Some in Hi. lia.
Qed.

Lemma ext_trans (s1 s2 s3 : Store) : ext s1 s2 -> ext s2 s3 -> ext s1 s3.
Proof.
  intros (Hl1 & Ho1 & Hn1) (Hl2 & Ho2 & Hn2).
  split; [lia|]. split.
  - intros i Hi. rewrite Ho2 by lia. now apply Ho1.
  - intros i nd m Hi Hle Hm.
    destruct (Nat.lt_ge_cases i (List.length s2)) as [Hlt|Hge].
    + rewrite Ho2 in Hi by exact Hlt. eapply Hn1; eauto.
    + pose proof (Hn2 i nd m Hi Hge Hm). lia.
Qed.

Lemma ext_app (s tail : Store) :
  Forall (fun nd => childNodes nd = []) tail -> ext s (s ++ tail).
Proof.
  intros Hc. split; [rewrite length_app; lia|]. split.
  - intros i Hi. now apply lookup_app_l.
  - intros i nd m Hi Hle Hm.
    rewrite lookup_app_r in Hi by exact Hle.
    apply list_elem_of_lookup_2 in Hi. rewrite Forall_forall in Hc.
    rewrite (Hc nd Hi) in Hm. inversion Hm.
Qed.

(** Changing a new node in a way that keeps its children new keeps the
    extension. *)
Lemma ext_alter (f : Node -> Node) (i : NodeId) (s s' : Store) :
  (List.length s <= i)%nat ->
  (forall nd m, m ∈ childNodes (f nd) ->
                m ∈ childNodes nd \/ (List.length s <= m)%nat) ->
  ext s s' -> ext s (alter f i s').
Proof.
  intros Hi Hf (Hl & Ho & Hn).
  split; [now rewrite length_alter|]. split.
  - intros j Hj. rewrite list_lookup_alter_ne by lia. now apply Ho.
  - intros j nd m Hj Hle Hm. rewrite list_lookup_alter in Hj.
    destruct (decide (i = j)) as [->|Hne].
    + destruct (s' !! j) as [nd0|] eqn:Hj0; [|discriminate].
      injection Hj as <-. apply Hf in Hm as [Hm|Hm]; [|exact Hm].
      eapply Hn; eauto.
    + eapply Hn; eauto.
Qed.

Lemma ext_appendChild (this node : NodeId) (s s' : Store) :
  (List.length s <= this)%nat -> (List.length s <= node)%nat ->
  ext s s' -> ext s (appendChild this node s').
Proof.
  intros Ht Hn He. unfold appendChild.
  apply ext_alter; [exact Hn|now left|].
  apply ext_alter; [exact Ht| |exact He].
  intros nd m Hm. cbn in Hm. apply elem_of_app in Hm as [Hm|Hm]; [now left|].
  apply list_elem_of_singleton in Hm as ->. now right.
Qed.

Lemma detached_ext (s s' : Store) (m : NodeId) :
  detached s m -> (m < List.length s)%nat -> ext s s' -> detached s' m.
Proof.
  intros Hd Hm (Hl & Ho & Hn) i nd Hi Hin.
  destruct (Nat.lt_ge_cases i (List.length s)) as [Hlt|Hge].
  - rewrite Ho in Hi by exact Hlt. exact (Hd i nd Hi Hin).
  - pose proof (Hn i nd m Hi Hge Hin). lia.
Qed.

Lemma detached_appendChild (this node m : NodeId) (s : Store) :
  detached s m -> m <> node -> detached (appendChild this node s) m.
Proof.
  intros Hd Hne n nd Hn Hin. unfold appendChild in Hn.
  apply (relink_lookup (fun l => l ++ [node])) in Hn
    as (nd0 & Hn0 & Hc & _).
  rewrite Hc in Hin.
  destruct (decide (n = this)) as [->|Hne'].
  - apply elem_of_app in Hin as [Hin|Hin]; [exact (Hd this nd0 Hn0 Hin)|].
    apply list_elem_of_singleton in Hin. congruence.
  - exact (Hd n nd0 Hn0 Hin).
Qed.

Lemma foldl_Ok {A B : Type} (f : B -> A -> result B) (l : list A)
  (P : B -> Prop) :
  (forall b a b', a ∈ l -> P b -> f b a = Ok b' -> P b') ->
  forall b0 b',
    P b0 ->
    foldl (fun acc a => b ← acc; f b a) (Ok b0) l = Ok b' ->
    P b'.
Proof.
  induction l as [|a l IH]; intros Hstep b0 b' H0 H.
  - cbn in H. now injection H as <-.
  - cbn [foldl] in H. cbn [mbind result_bind] in H.
    destruct (f b0 a) as [b1| | |] eqn:Hf.
    + apply (IH (fun b a b' Ha => Hstep b a b' (list_elem_of_further _ _ _ Ha))
                b1 b'); [|exact H].
      eapply Hstep; [apply list_elem_of_here|exact H0|exact Hf].
    + exfalso. clear -H. induction l as [|x l IHl]; [discriminate|].
      cbn in H. auto.
    + exfalso. clear -H. induction l as [|x l IHl]; [discriminate|].
      cbn in H. auto.
    + exfalso. clear -H. induction l as [|x l IHl]; [discriminate|].
      cbn in H. auto.
Qed.

(** [cloneNode] adds the copy to the store and leaves the tree well
    linked; the copy is not linked to a parent. *)
Lemma cloneNode_wellLinked (fuel : nat) :
  forall deep this s c s',
    cloneNode fuel deep this s = Ok (c, s') -> wellLinked s ->
    c = List.length s /\ ext s s' /\ wellLinked s' /\ detached s' c
    /\ (c < List.length s')%nat.
Proof.
  induction fuel as [|fuel IH]; intros deep this s c s' H Hw;
    [discriminate|].
  cbn [cloneNode] in H.
  destruct (s !! this) as [n|] eqn:Hthis; [|discriminate].
  destruct (newNode (name n) (data n) (namespace n) (attrs n) s)
    as [clone s1] eqn:Hnew.
  destruct (newNode_spec (name n) (data n) (namespace n) (attrs n) s)
    as (tail & Hn & Hall & _ & Htail).
  destruct (wellLinked_newNode _ _ _ _ _ _ _ Hnew Hw)
    as (Hw1 & Hd1 & Hs1 & ->).
  rewrite Hn in Hnew. injection Hnew as <-.
  assert (He1 : ext s (s ++ tail)).
  { apply ext_app. eapply Forall_impl; [exact Hall|]. now intros x [? _]. }
  assert (Hlt1 : (List.length s < List.length (s ++ tail))%nat)
    by (rewrite length_app; lia).
  apply bind_Ok in H as (s2 & Htmpl & H).
  assert (Inv2 : ext s s2 /\ wellLinked s2 /\ detached s2 (List.length s)
                 /\ (List.length s < List.length s2)%nat).
  { destruct (templateContent n) as [t|].
    - apply bind_Ok in Htmpl as ([tc s'0] & Hc & Htmpl).
      cbn in Htmpl. injection Htmpl as <-.
      destruct (IH _ _ _ _ _ Hc Hw1) as (-> & He & Hw' & _ & Hlt).
      split; [|split; [|split]].
      + apply ext_alter; [lia|now left|]. eapply ext_trans; eauto.
      + apply wellLinked_alter; [now intros nd|exact Hw'].
      + apply detached_alter; [now intros nd|].
        eapply detached_ext; eauto.
      + rewrite length_alter. destruct He as (Hl & _). lia.
    - cbn in Htmpl. injection Htmpl as <-.
      split; [exact He1|]. split; [exact Hw1|]. split; [exact Hd1|exact Hlt1]. }
  apply bind_Ok in H as (s3 & Hkids & H). cbn in H. injection H as <- <-.
  split; [reflexivity|].
  destruct deep.
  - apply (foldl_Ok
             (fun s0 child =>
                '(c0, s4) ← cloneNode fuel true child s0;
                mret (appendChild (List.length s) c0 s4))
             (childNodes n)
             (fun s0 => ext s s0 /\ wellLinked s0
                        /\ detached s0 (List.length s)
                        /\ (List.length s < List.length s0)%nat)
             ) with (b0 := s2) (b' := s3) in Hkids; [tauto| |exact Inv2].
    intros b a b' _ (He & Hwb & Hdb & Hltb) Hstep.
    apply bind_Ok in Hstep as ([c0 s4] & Hc & Hstep).
    cbn in Hstep. injection Hstep as <-.
    destruct (IH _ _ _ _ _ Hc Hwb) as (-> & He4 & Hw4 & Hd4 & Hlt4).
    assert (Hle : (List.length s <= List.length b)%nat)
      by (destruct He as (? & _); lia).
    split; [|split; [|split]].
    + apply ext_appendChild; [lia|lia|]. eapply ext_trans; eauto.
    + apply appendChild_wellLinked; [|exact Hd4|exact Hw4].
      now apply lookup_lt_is_Some.
    + apply detached_appendChild; [|lia].
      eapply detached_ext; eauto.
    + unfold appendChild. rewrite !length_alter. lia.
  - cbn in Hkids. injection Hkids as <-. tauto.
Qed.

End DomFacts.

(** ** The tokenizer *)

Module TokenizerFacts.

Import Dom Tokens Tokenizer DecodeTotal.

Lemma attrsHas_false (k : jsstring) (m : AttrMap) :
  attrsHas k m = false -> k ∉ List.map fst m.
Proof.
  unfold attrsHas. induction m as [|[k' v] m IH]; cbn [existsb List.map fst].
  - intros _ H. inversion H.
  - intros H. apply orb_false_iff in H as [Hk Hm].
    intros Hin. apply elem_of_cons in Hin as [->|Hin].
    + now rewrite str_eqb_refl in Hk.
    + now apply IH.
Qed.

Lemma attrsHas_true (k : jsstring) (m : AttrMap) :
  attrsHas k m = true -> k ∈ List.map fst m.
Proof.
  unfold attrsHas. induction m as [|[k' v] m IH]; cbn [existsb List.map fst].
  - discriminate.
  - intros H. apply orb_true_iff in H as [Hk|Hm].
    + apply str_eqb_eq in Hk as ->. apply list_elem_of_here.
    + apply list_elem_of_further. now apply IH.
Qed.

(** Setting a key that the map lacks appends the entry. *)
Lemma attrsSet_fresh (k : jsstring) (v : option jsstring) (m : AttrMap) :
  attrsHas k m = false -> attrsSet k v m = m ++ [(k, v)].
Proof.
  unfold attrsHas. induction m as [|[k' v'] m IH]; cbn [existsb attrsSet fst].
  - reflexivity.
  - intros H. apply orb_false_iff in H as [Hk Hm]. rewrite Hk.
    cbn [app]. now rewrite IH.
Qed.

Lemma uniqueNames_snoc (k : jsstring) (v : option jsstring) (m : AttrMap) :
  uniqueNames m -> attrsHas k m = false -> uniqueNames (m ++ [(k, v)]).
Proof.
  unfold uniqueNames. intros Hm Hk. rewrite List.map_app. cbn [List.map fst].
  apply NoDup_app. split; [exact Hm|]. split.
  - intros x Hx Hx'. apply list_elem_of_singleton in Hx' as ->.
    now apply (attrsHas_false k m).
  - apply NoDup_singleton.
Qed.

Section WithSink.

Variable NAMED_ENTITIES : jsstring -> option jsstring.
Context {Sk : Type} (sink : TokenizerSink Sk).

(** What [finishAttribute] does to the tag under construction. *)
Lemma finishAttribute_spec (k : Tokenizer) :
  uniqueNames (currentTagAttrs k) ->
  exists k',
    finishAttribute NAMED_ENTITIES k = Ok k'
    /\ uniqueNames (currentTagAttrs k')
    /\ (currentAttrName k = [] -> k' = k)
    /\ (currentAttrName k <> [] ->
        currentAttrName k' = [] /\ currentAttrValue k' = []
        /\ currentAttrValueHasAmp k' = false
        /\ (attrsHas (currentAttrName k) (currentTagAttrs k) = true ->
            currentTagAttrs k' = currentTagAttrs k
            /\ errors k'
               = errors k ++ [mkError DuplicateAttribute (pos k - 1)])
        /\ (attrsHas (currentAttrName k) (currentTagAttrs k) = false ->
            errors k' = errors k
            /\ exists value,
                 currentTagAttrs k'
                 = currentTagAttrs k ++ [(currentAttrName k, Some value)]
                 /\ (if currentAttrValueHasAmp k
                     then Entities.decodeEntitiesInText
                            NAMED_ENTITIES (currentAttrValue k) true
                          = Ok value
                     else value = currentAttrValue k))).
Proof.
  intros Hu. unfold finishAttribute.
  destruct (currentAttrName k) as [|c name] eqn:Hname.
  - exists k. repeat split; try assumption; congruence.
  - cbn [currentTagAttrs set_currentAttrName].
    destruct (attrsHas (c :: name) (currentTagAttrs k)) eqn:Hhas.
    + eexists. split; [reflexivity|]. cbn.
      split; [exact Hu|]. split; [discriminate|]. intros _.
      repeat split; try discriminate.
    + cbn [currentAttrValueHasAmp set_currentAttrValue currentAttrValue
           set_currentAttrName].
      destruct (currentAttrValueHasAmp k) eqn:Hamp.
      * destruct (decodeEntitiesInText_total NAMED_ENTITIES
                    (currentAttrValue k) true) as (value & Hv).
        rewrite Hv. eexists. split; [reflexivity|]. cbn.
        rewrite (attrsSet_fresh _ _ _ Hhas).
        split; [now apply uniqueNames_snoc|]. split; [discriminate|].
        intros _. repeat split; try discriminate.
        exists value. now split.
      * eexists. split; [reflexivity|]. cbn.
        rewrite (attrsSet_fresh _ _ _ Hhas).
        split; [now apply uniqueNames_snoc|]. split; [discriminate|].
        intros _. repeat split; try discriminate.
        exists (currentAttrValue k). now split.
Qed.

Lemma getChar_attrs (k k' : Tokenizer) (c : option Z) :
  getChar k = (c, k') -> currentTagAttrs k' = currentTagAttrs k.
Proof.
  unfold getChar. destruct (reconsume k).
  - intros H. now injection H as _ <-.
  - destruct (getCharFrom _ _ _) as [[c' p] lf]. intros H.
    now injection H as _ <-.
Qed.

Lemma appendText_attrs (s : jsstring) (k : Tokenizer) :
  currentTagAttrs (appendText s k) = currentTagAttrs k.
Proof. now destruct s. Qed.

(** A property of the sink that tokens with distinct attribute names and
    character data maintain. *)
Variable I : Sk -> Prop.
Hypothesis I_token :
  forall tok ss r ss',
    tokenUnique tok -> I ss -> processToken sink tok ss = Ok (r, ss') ->
    I ss'.
Hypothesis I_characters :
  forall data ss ss',
    I ss -> processCharacters sink data ss = Ok ss' -> I ss'.

(** The invariant of the tokenizer loop. *)
Definition J (k : Tokenizer) (ss : Sk) : Prop :=
  uniqueNames (currentTagAttrs k) /\ I ss.

Lemma flushText_inv (k k' : Tokenizer) (ss ss' : Sk) :
  J k ss -> flushText NAMED_ENTITIES sink k ss = Ok (k', ss') -> J k' ss'.
Proof.
  intros [Hu HI]. unfold flushText.
  destruct (textBuffer k); [intros H; injection H as <- <-; now split|].
  intros H. apply bind_Ok in H as (data & _ & H).
  apply bind_Ok in H as (ss1 & H1 & H). injection H as <- <-.
  split; [exact Hu|]. eapply I_characters; eauto.
Qed.

Lemma emitEOF_inv (k k' : Tokenizer) (ss ss' : Sk) (d : bool) :
  J k ss -> emitEOF sink k ss = Ok (d, k', ss') -> J k' ss'.
Proof.
  intros [Hu HI]. unfold emitEOF, emitToken. intros H.
  apply bind_Ok in H as (ss1 & H1 & H). injection H as _ <- <-.
  apply bind_Ok in H1 as ([r ss2] & H1 & H2). injection H2 as <-.
  split; [exact Hu|]. eapply (I_token EOF); eauto. exact Logic.I.
Qed.

Lemma flushAndEOF_inv (k k' : Tokenizer) (ss ss' : Sk) (d : bool) :
  J k ss -> flushAndEOF NAMED_ENTITIES sink k ss = Ok (d, k', ss') ->
  J k' ss'.
Proof.
  intros HJ. unfold flushAndEOF. intros H.
  apply bind_Ok in H as ([k1 ss1] & H1 & H).
  eapply emitEOF_inv; [|exact H]. eapply flushText_inv; eauto.
Qed.

(** [emitCurrentTag] hands the sink a token that holds the attribute map
    as it is, and clears the map. *)
Lemma emitCurrentTag_inv (k k' : Tokenizer) (ss ss' : Sk) (d : bool) :
  J k ss -> emitCurrentTag sink k ss = Ok (d, k', ss') -> J k' ss'.
Proof.
  intros [Hu HI]. unfold emitCurrentTag. intros H.
  match type of H with
  | (let '(_, _) := ?x in _) = _ => destruct x as [sw k1] eqn:Hx
  end.
  assert (Htok : tagToken k1
                 = createTagToken (currentTagKind k) (currentTagName k)
                                  (currentTagAttrs k)
                                  (currentTagSelfClosing k)).
  { cbn in Hx. destruct (currentTagKind k); cbn in Hx.
    - repeat match type of Hx with
             | (if ?b then _ else _) = _ => destruct b
             end; now injection Hx as _ <-.
    - now injection Hx as _ <-. }
  apply bind_Ok in H as ([r ss1] & H1 & H).
  assert (HI' : I ss1).
  { eapply (I_token (Tag (tagToken k1))); eauto. rewrite Htok. exact Hu. }
  destruct r as [[]|]; injection H as _ <- <-; split; try exact HI';
    apply NoDup_nil_2.
Qed.

Lemma emitTagThenData_inv (k k' : Tokenizer) (ss ss' : Sk) (d : bool) :
  J k ss -> emitTagThenData sink k ss = Ok (d, k', ss') -> J k' ss'.
Proof.
  intros HJ. unfold emitTagThenData. intros H.
  apply bind_Ok in H as ([[sw k1] ss1] & H1 & H).
  apply (emitCurrentTag_inv _ _ _ _ _ HJ) in H1 as [Hu HI].
  injection H as _ <- <-. split; [|exact HI]. now destruct sw.
Qed.

Lemma finishAttribute_inv (k k' : Tokenizer) (ss : Sk) :
  J k ss -> finishAttribute NAMED_ENTITIES k = Ok k' -> J k' ss.
Proof.
  intros [Hu HI] H.
  destruct (finishAttribute_spec k Hu) as (k'' & Hk & Hu' & _).
  rewrite Hk in H. injection H as <-. now split.
Qed.

(** The case analysis of a state handler, and the invariant along each
    of its paths. *)
Ltac handler H :=
  repeat match type of H with
         | (let '(_, _) := getChar ?k in _) = _ =>
             let Hg := fresh "Hg" in
             destruct (getChar k) as [? ?] eqn:Hg;
             apply getChar_attrs in Hg
         | match ?c with _ => _ end = _ => destruct c
         | (if ?b then _ else _) = _ => destruct b
         end.

Ltac solveJ HJ :=
  let Hu := fresh "Hu" in
  let HI := fresh "HI" in
  destruct HJ as [Hu HI]; split; [|exact HI];
  cbn; rewrite ?appendText_attrs; cbn;
  repeat match goal with
         | |- context [match ?x with _ => _ end] => destruct x; cbn
         end;
  try apply NoDup_nil_2; congruence.

Ltac finish HJ H :=
  lazymatch type of H with
  | Ok _ = Ok _ => injection H as _ <- <-; solveJ HJ
  | flushAndEOF _ _ _ _ = Ok _ =>
      eapply flushAndEOF_inv; [|exact H]; solveJ HJ
  | emitEOF _ _ _ = Ok _ => eapply emitEOF_inv; [|exact H]; solveJ HJ
  | emitTagThenData _ _ _ = Ok _ =>
      eapply emitTagThenData_inv; [|exact H]; solveJ HJ
  | _ => discriminate H
  end.

Ltac path HJ H :=
  lazymatch type of H with
  | finishAttribute _ ?k0 ≫= _ = Ok _ =>
      let Hf := fresh "Hf" in
      let HJ1 := fresh "HJ" in
      apply bind_Ok in H as (? & Hf & H);
      eapply finishAttribute_inv in Hf as HJ1; [|solveJ HJ];
      finish HJ1 H
  | flushText _ _ ?k0 _ ≫= _ = Ok _ =>
      let Hf := fresh "Hf" in
      let HJ1 := fresh "HJ" in
      apply bind_Ok in H as ([? ?] & Hf & H);
      eapply flushText_inv in Hf as HJ1; [|solveJ HJ];
      finish HJ1 H
  | _ => finish HJ H
  end.

Lemma step_inv (k k' : Tokenizer) (ss ss' : Sk) (d : bool) :
  J k ss -> step NAMED_ENTITIES sink k ss = Ok (d, k', ss') -> J k' ss'.
Proof.
  intros HJ H. unfold step in H.
  destruct (state k); try discriminate H;
    unfold stateData, statePlaintext, stateTagOpen, stateEndTagOpen,
      stateTagName, stateBeforeAttributeName, stateAttributeName,
      stateAfterAttributeName, stateBeforeAttributeValue,
      stateAttributeValueDouble, stateAttributeValueSingle,
      stateAttributeValueQuoted, stateAttributeValueUnquoted,
      stateAfterAttributeValueQuoted, stateSelfClosingStartTag in H;
    handler H; path HJ H.
Qed.

Lemma runLoop_inv (fuel : nat) :
  forall k ss k' ss',
    J k ss -> runLoop NAMED_ENTITIES sink fuel k ss = Ok (k', ss') ->
    J k' ss'.
Proof.
  induction fuel as [|fuel IH]; intros k ss k' ss' HJ H; [discriminate|].
  cbn [runLoop] in H. apply bind_Ok in H as ([[d k1] ss1] & Hs & H).
  apply (step_inv _ _ _ _ _ HJ) in Hs.
  destruct d; [injection H as <- <-; exact Hs|]. eapply IH; eauto.
Qed.

(** The sink of a tokenizer run receives only tokens with distinct
    attribute names: a property of the sink that such tokens and character
    data maintain holds when the run returns. *)
Lemma run_inv (fuel : nat) (html : jsstring) (k k' : Tokenizer)
  (ss ss' : Sk) :
  I ss -> run NAMED_ENTITIES sink fuel html k ss = Ok (k', ss') -> I ss'.
Proof.
  intros HI H. unfold run in H.
  apply (runLoop_inv fuel _ _ _ _) in H; [apply H|].
  split; [apply NoDup_nil_2|exact HI].
Qed.

End WithSink.



(** The start tags that switch to RAWTEXT are those of
    [RAW_TEXT_SWITCH_TAGS] that are not RCDATA elements. *)
Lemma raw_text_only :
  List.filter (fun n => negb (str_in n RCDATA_ELEMENTS)) RAW_TEXT_SWITCH_TAGS
  = List.map lit ["script"; "style"; "xmp"; "iframe"; "noembed";
                  "noframes"]%string
  /\ RCDATA_ELEMENTS = List.map lit ["title"; "textarea"]%string.
Proof. split; reflexivity. Qed.

(** C4, as the specification states it, fails: the tokenizer switches to
    PLAINTEXT on a [plaintext] start tag although the current element is
    in the SVG namespace. After thirty steps on
    [<svg><foreignObject><plaintext>], with the tree builder as the sink,
    the tag [plaintext] is complete and the current node is the SVG
    element [foreignObject]; [emitCurrentTag] then leaves the tokenizer in
    the PLAINTEXT state, because the tree builder answers [Plaintext]. *)
Lemma emitCurrentTag_plaintext_in_svg :
  exists k ss k' ss',
    runSteps ExampleConstants.exampleEntities ExampleConstants.exampleSink 30
      (initialize (lit "<svg><foreignObject><plaintext>")
                  (createTokenizer defaultOpts))
      (TreeBuilder.createTreeBuilder ExampleConstants.exampleConstants
                                     None false false)
    = Ok (k, ss)
    /\ currentTagKind k = Start
    /\ currentTagName k = lit "plaintext"
    /\ Tokens.openElements ExampleConstants.exampleSink ss
       = Some [Some (lit "html"); Some (lit "html"); Some (lit "svg");
               Some (lit "svg")]
    /\ currentNodeIsHTML ExampleConstants.exampleSink ss = false
    /\ state k = TagName
    /\ emitCurrentTag ExampleConstants.exampleSink k ss = Ok (true, k', ss')
    /\ state k' = PlainText.
Proof.
  do 4 eexists.
  split; [vm_compute; reflexivity|].
  repeat split; vm_compute; reflexivity.
Qed.

(** C4 (amended). [emitCurrentTag] on a start tag, when the sink accepts
    the token. If the sink answers [Plaintext], the tokenizer is left in
    the PLAINTEXT state, whatever the tag and the current element are.
    Otherwise, when the sink has no current open element or that element
    is in the HTML namespace, an RCDATA element ([title], [textarea])
    switches to RCDATA and another tag of [RAW_TEXT_SWITCH_TAGS]
    ([script], [style], [xmp], [iframe], [noembed], [noframes]) to
    RAWTEXT, both recording the tag name in [rawTextTagName], and
    [plaintext] switches to PLAINTEXT; for every other name, and when the
    current element is in another namespace, the state and
    [rawTextTagName] stay as they are and [emitCurrentTag] returns
    [false]. *)
Theorem emitCurrentTag_switch :
  forall (Sk : Type) (sink : TokenizerSink Sk) (k : Tokenizer) (ss ss' : Sk)
         (r : option TokenSinkResult),
    currentTagKind k = Start ->
    processToken sink
      (Tag (createTagToken Start (currentTagName k) (currentTagAttrs k)
                           (currentTagSelfClosing k))) ss = Ok (r, ss') ->
    exists switched k',
      emitCurrentTag sink k ss = Ok (switched, k', ss')
      /\ let name := currentTagName k in
         let html := currentNodeIsHTML sink ss in
         (r = Some Plaintext -> state k' = PlainText /\ switched = true)
         /\ (r <> Some Plaintext ->
             (html = true -> str_in name RCDATA_ELEMENTS = true ->
              state k' = RCDATA /\ rawTextTagName k' = Some name
              /\ switched = true)
             /\ (html = true -> str_in name RCDATA_ELEMENTS = false ->
                 str_in name RAW_TEXT_SWITCH_TAGS = true ->
                 state k' = RawText /\ rawTextTagName k' = Some name
                 /\ switched = true)
             /\ (html = true -> str_eqb name (lit "plaintext") = true ->
                 state k' = PlainText
                 /\ rawTextTagName k' = rawTextTagName k
                 /\ switched = true)
             /\ (html = false
                 \/ (str_in name RAW_TEXT_SWITCH_TAGS = false
                     /\ str_eqb name (lit "plaintext") = false) ->
                 state k' = state k
                 /\ rawTextTagName k' = rawTextTagName k
                 /\ switched = false)).
Proof.
  intros Sk sink k ss ss' r Hkind Hsink.
  unfold emitCurrentTag.
  cbn [currentTagKind set_tagToken currentTagName currentTagAttrs
       currentTagSelfClosing].
  rewrite Hkind.
  assert (Hrcdata : str_in (currentTagName k) RCDATA_ELEMENTS = true ->
                    str_in (currentTagName k) RAW_TEXT_SWITCH_TAGS = true).
  { unfold str_in, RCDATA_ELEMENTS, RAW_TEXT_SWITCH_TAGS.
    cbn [existsb List.map]. intros H.
    repeat (apply orb_true_iff in H as [H|H]); try discriminate;
      rewrite H; cbn; now rewrite ?orb_true_r. }
  assert (Hplain : str_eqb (currentTagName k) (lit "plaintext") = true ->
                   str_in (currentTagName k) RAW_TEXT_SWITCH_TAGS = false).
  { intros H. apply str_eqb_eq in H. rewrite H. reflexivity. }
  destruct (str_in (currentTagName k) RAW_TEXT_SWITCH_TAGS) eqn:Hraw;
    destruct (str_eqb (currentTagName k) (lit "plaintext")) eqn:Hpl;
    destruct (currentNodeIsHTML sink ss) eqn:Hhtml;
    destruct (str_in (currentTagName k) RCDATA_ELEMENTS) eqn:Hrc;
    try (specialize (Hplain eq_refl); discriminate);
    try (specialize (Hrcdata eq_refl); discriminate);
    cbn [orb andb tagToken set_rawTextTagName set_state
         set_lastStartTagName set_tagToken];
    rewrite Hsink; cbn [mbind result_bind];
    destruct r as [[]|]; do 2 eexists; (split; [reflexivity|]); cbn;
    repeat split; intros; try congruence; try tauto;
    repeat match goal with
           | H : _ \/ _ |- _ => destruct H
           | H : _ /\ _ |- _ => destruct H
           end; congruence.
Qed.

(** The start tag [<title>] with the stream sink, which has no open
    elements and answers [Continue]. *)
Lemma emitCurrentTag_switch_witness :
  let k := set_currentTagName (lit "title") (createTokenizer defaultOpts) in
  exists k',
    emitCurrentTag Stream.streamSink k (Stream.mkStreamSink [])
    = Ok (true, k', Stream.mkStreamSink [Stream.EvStart (lit "title") []])
    /\ state k' = RCDATA /\ rawTextTagName k' = Some (lit "title").
Proof.
  intros k.
  destruct (emitCurrentTag_switch _ Stream.streamSink k
              (Stream.mkStreamSink [])
              (Stream.mkStreamSink [Stream.EvStart (lit "title") []])
              (Some Continue) eq_refl eq_refl)
    as (switched & k' & Hk & _ & Hno).
  destruct (Hno ltac:(discriminate)) as (Hrc & _).
  destruct (Hrc eq_refl eq_refl) as (Hs & Hn & ->).
  exists k'. split; [exact Hk|]. split; [exact Hs|exact Hn].
Defined.

End TokenizerFacts.

(** ** The stream adapter *)

Module StreamFacts.

Import Dom Tokens Tokenizer Stream.

(** C9. The stream generator can yield two consecutive text events: on the
    input [a<] it yields [("text", "a")] and then [("text", "<")]. The
    data state flushes the text [a] when it reads [<], and the tag-open
    state flushes [<] at the end of the input; the two flushes happen in
    two calls of [step], and the generator coalesces text events only
    within the events of one call. Three turns of its loop suffice. *)
Theorem stream_yields_consecutive_text :
  forall (NAMED_ENTITIES : jsstring -> option jsstring) (fuel : nat),
    stream NAMED_ENTITIES (3 + fuel) (lit "a<") defaultOpts
    = Ok [EvText (lit "a"); EvText (lit "<")]
    /\ adjacentText [EvText (lit "a"); EvText (lit "<")] = true.
Proof.
  intros NAMED_ENTITIES fuel. split; vm_compute; reflexivity.
Qed.

End StreamFacts.

(** ** Tree construction *)

Module TreeBuilderFacts.

Import Dom Tokens TreeBuilder DomFacts.

Create HintDb linked discriminated.

Section Builder.

Variable K : Constants.

(** *** Routines that leave the node tree alone *)

Lemma linked_nodes (st st' : TreeBuilderState) :
  nodes st' = nodes st -> linked st -> linked st'.
Proof. unfold linked. now intros ->. Qed.

Ltac same_nodes :=
  intros;
  match goal with
  | H : linked ?st |- _ => apply (linked_nodes st); [|exact H]
  end;
  repeat match goal with
         | |- context [match ?x with _ => _ end] => destruct x
         | |- context [if ?b then _ else _] => destruct b
         end; reflexivity.

Lemma linked_set_errors v st : linked st -> linked (set_errors v st).
Proof. same_nodes. Qed.
Lemma linked_set_fragmentContextElement v st :
  linked st -> linked (set_fragmentContextElement v st).
Proof. same_nodes. Qed.
Lemma linked_set_mode v st : linked st -> linked (set_mode v st).
Proof. same_nodes. Qed.
Lemma linked_set_originalMode v st :
  linked st -> linked (set_originalMode v st).
Proof. same_nodes. Qed.
Lemma linked_set_openElements v st :
  linked st -> linked (set_openElements v st).
Proof. same_nodes. Qed.
Lemma linked_set_headElement v st :
  linked st -> linked (set_headElement v st).
Proof. same_nodes. Qed.
Lemma linked_set_framesetOk v st : linked st -> linked (set_framesetOk v st).
Proof. same_nodes. Qed.
Lemma linked_set_quirksMode v st : linked st -> linked (set_quirksMode v st).
Proof. same_nodes. Qed.
Lemma linked_set_ignoreLF v st : linked st -> linked (set_ignoreLF v st).
Proof. same_nodes. Qed.
Lemma linked_set_activeFormatting v st :
  linked st -> linked (set_activeFormatting v st).
Proof. same_nodes. Qed.
Lemma linked_set_insertFromTable v st :
  linked st -> linked (set_insertFromTable v st).
Proof. same_nodes. Qed.
Lemma linked_set_templateModes v st :
  linked st -> linked (set_templateModes v st).
Proof. same_nodes. Qed.
Lemma linked_set_tokenizerStateOverride v st :
  linked st -> linked (set_tokenizerStateOverride v st).
Proof. same_nodes. Qed.
Lemma linked_set_formElement v st :
  linked st -> linked (set_formElement v st).
Proof. same_nodes. Qed.

Hint Resolve linked_set_errors linked_set_fragmentContextElement
  linked_set_mode linked_set_originalMode linked_set_openElements
  linked_set_headElement linked_set_framesetOk linked_set_quirksMode
  linked_set_ignoreLF linked_set_activeFormatting linked_set_insertFromTable
  linked_set_templateModes linked_set_tokenizerStateOverride
  linked_set_formElement : linked.

Lemma linked_parseError c t st : linked st -> linked (parseError c t st).
Proof. unfold parseError. same_nodes. Qed.
Lemma linked_setQuirksMode m st : linked st -> linked (setQuirksMode m st).
Proof. same_nodes. Qed.
Lemma linked_popCurrent st : linked st -> linked (popCurrent st).
Proof. same_nodes. Qed.
Lemma linked_pushOpen n st : linked st -> linked (pushOpen n st).
Proof. same_nodes. Qed.
Lemma linked_popUntilInclusive n st :
  linked st -> linked (popUntilInclusive n st).
Proof. same_nodes. Qed.
Lemma linked_popUntilAnyInclusive p st :
  linked st -> linked (popUntilAnyInclusive p st).
Proof. same_nodes. Qed.
Lemma linked_generateImpliedEndTags e st :
  linked st -> linked (generateImpliedEndTags K e st).
Proof. same_nodes. Qed.
Lemma linked_unexpectedEndTag n st :
  linked st -> linked (unexpectedEndTag n st).
Proof. apply linked_parseError. Qed.
Lemma linked_unexpectedStartTag n st :
  linked st -> linked (unexpectedStartTag n st).
Proof. apply linked_parseError. Qed.
Lemma linked_unexpectedStartTagIgnored n st :
  linked st -> linked (unexpectedStartTagIgnored n st).
Proof. apply linked_parseError. Qed.
Lemma linked_invalidCodepoint st : linked st -> linked (invalidCodepoint st).
Proof. apply linked_parseError. Qed.
Lemma linked_endTagTooEarly n st :
  linked st -> linked (endTagTooEarly n st).
Proof. apply linked_parseError. Qed.

Hint Resolve linked_parseError linked_setQuirksMode linked_popCurrent
  linked_pushOpen linked_popUntilInclusive linked_popUntilAnyInclusive
  linked_generateImpliedEndTags linked_unexpectedEndTag
  linked_unexpectedStartTag linked_unexpectedStartTagIgnored
  linked_invalidCodepoint linked_endTagTooEarly : linked.

Lemma linked_closePElement st :
  linked st -> linked (snd (closePElement K st)).
Proof.
  intros H. unfold closePElement.
  destruct (hasElementInButtonScope K st (lit "p")); [|exact H].
  cbn [snd]. apply linked_popUntilInclusive.
  destruct (currentNode _) as [node|]; [destruct (negb _)|];
    auto with linked.
Qed.

Lemma linked_anyOtherEndTagScan name stack :
  forall above st,
    linked st -> linked (anyOtherEndTagScan K name above stack st).
Proof.
  induction stack as [|node stack IH]; intros above st H; [exact H|].
  cbn [anyOtherEndTagScan].
  destruct (str_eqb _ name).
  - destruct (negb _); auto with linked.
  - destruct (isSpecialElement K st node); auto with linked.
Qed.

Lemma linked_anyOtherEndTag name st :
  linked st -> linked (anyOtherEndTag K name st).
Proof. apply linked_anyOtherEndTagScan. Qed.

Lemma linked_clearActiveFormattingUpToMarker st :
  linked st -> linked (clearActiveFormattingUpToMarker st).
Proof. same_nodes. Qed.
Lemma linked_pushFormattingMarker st :
  linked st -> linked (pushFormattingMarker st).
Proof. same_nodes. Qed.
Lemma linked_resetInsertionMode st :
  linked st -> linked (resetInsertionMode st).
Proof. same_nodes. Qed.
Lemma linked_closeElementByName n st :
  linked st -> linked (closeElementByName n st).
Proof. unfold closeElementByName. same_nodes. Qed.
Lemma linked_popOpenElementIf n st :
  linked st -> linked (snd (popOpenElementIf n st)).
Proof. unfold popOpenElementIf. same_nodes. Qed.
Lemma linked_removeFromOpenElements n st :
  linked st -> linked (snd (removeFromOpenElements n st)).
Proof. unfold removeFromOpenElements. same_nodes. Qed.
Lemma linked_closeSelect st : linked st -> linked (closeSelect st).
Proof. same_nodes. Qed.
Lemma linked_appendActiveFormattingEntry n a node st :
  linked st -> linked (appendActiveFormattingEntry n a node st).
Proof. same_nodes. Qed.
Lemma linked_popUntilHTMLOrIntegrationPoint st :
  linked st -> linked (popUntilHTMLOrIntegrationPoint K st).
Proof. same_nodes. Qed.

Hint Resolve linked_closePElement linked_anyOtherEndTag
  linked_clearActiveFormattingUpToMarker linked_pushFormattingMarker
  linked_resetInsertionMode linked_closeElementByName
  linked_popOpenElementIf linked_removeFromOpenElements linked_closeSelect
  linked_appendActiveFormattingEntry linked_popUntilHTMLOrIntegrationPoint
  : linked.

(** *** Routines that change the node tree *)

Lemma createNode_linked name data namespace attrs st id st' :
  createNode name data namespace attrs st = (id, st') ->
  linked st ->
  linked st' /\ detached (nodes st') id /\ is_Some (nodes st' !! id).
Proof.
  unfold createNode, linked.
  destruct (newNode name data namespace attrs (nodes st)) as [i s] eqn:Hn.
  intros H Hw. injection H as <- <-.
  destruct (wellLinked_newNode _ _ _ _ _ _ _ Hn Hw) as (? & ? & ? & _).
  cbn [nodes set_nodes]. split; [assumption|]. split; assumption.
Qed.

(** A node that was just created, appended to a parent. *)
Lemma appended_linked name data namespace attrs st id st' parent st1 :
  createNode name data namespace attrs st = (id, st') ->
  linked st ->
  linked (set_nodes (appendChild parent id (nodes st')) st1).
Proof.
  intros H Hl. destruct (createNode_linked _ _ _ _ _ _ _ H Hl)
    as (Hl' & Hd & Hs).
  unfold linked. cbn [nodes set_nodes]. now apply appendChild_wellLinked.
Qed.

Lemma insertNodeAt_linked parent index node st st' :
  insertNodeAt parent index node st = Ok st' ->
  linked st -> detached (nodes st) node -> is_Some (nodes st !! node) ->
  linked st'.
Proof.
  unfold insertNodeAt. intros H Hl Hd Hs.
  apply bind_Ok in H as (s & Hi & H). injection H as <-.
  unfold linked. cbn [nodes set_nodes].
  eapply insertBefore_wellLinked; eauto.
Qed.

Lemma createNode_detached name data namespace attrs st id st' :
  createNode name data namespace attrs st = (id, st') ->
  linked st -> detached (nodes st') id.
Proof. intros H Hl. now apply (createNode_linked _ _ _ _ _ _ _ H Hl). Qed.

Lemma createNode_exists name data namespace attrs st id st' :
  createNode name data namespace attrs st = (id, st') ->
  linked st -> is_Some (nodes st' !! id).
Proof. intros H Hl. now apply (createNode_linked _ _ _ _ _ _ _ H Hl). Qed.

Lemma createNode_linked' name data namespace attrs st id st' :
  createNode name data namespace attrs st = (id, st') ->
  linked st -> linked st'.
Proof. intros H Hl. now apply (createNode_linked _ _ _ _ _ _ _ H Hl). Qed.

Lemma closePElement_linked st b st' :
  closePElement K st = (b, st') -> linked st -> linked st'.
Proof.
  intros H Hl. replace st' with (snd (closePElement K st)) by now rewrite H.
  now apply linked_closePElement.
Qed.

Lemma popOpenElementIf_linked n st b st' :
  popOpenElementIf n st = (b, st') -> linked st -> linked st'.
Proof.
  intros H Hl. replace st' with (snd (popOpenElementIf n st))
    by now rewrite H.
  now apply linked_popOpenElementIf.
Qed.

Lemma removeFromOpenElements_linked n st b st' :
  removeFromOpenElements n st = (b, st') -> linked st -> linked st'.
Proof.
  intros H Hl. replace st' with (snd (removeFromOpenElements n st))
    by now rewrite H.
  now apply linked_removeFromOpenElements.
Qed.

(** Changing the payload or the attributes of a node. *)
Lemma linked_alter (f : Node -> Node) id st st1 :
  (forall nd, childNodes (f nd) = childNodes nd
              /\ parentNode (f nd) = parentNode nd) ->
  linked st -> linked (set_nodes (alter f id (nodes st)) st1).
Proof.
  intros Hf Hl. unfold linked. cbn [nodes set_nodes].
  now apply wellLinked_alter.
Qed.

Lemma linked_appendData text id st st1 :
  linked st ->
  linked (set_nodes (alter (appendData text) id (nodes st)) st1).
Proof.
  apply linked_alter. intros nd. unfold appendData.
  now destruct (data nd).
Qed.

Lemma linked_addMissingAttributes node attrs st :
  linked st -> linked (addMissingAttributes node attrs st).
Proof. apply linked_alter. now intros nd. Qed.

Hint Resolve createNode_detached createNode_exists createNode_linked'
  appended_linked closePElement_linked popOpenElementIf_linked
  removeFromOpenElements_linked insertNodeAt_linked linked_appendData
  linked_addMissingAttributes : linked.

Lemma linked_if (c : bool) st1 st2 :
  linked st1 -> linked st2 -> linked (if c then st1 else st2).
Proof. now destruct c. Qed.

Hint Resolve linked_if : linked.

(** The case analysis of a routine along the paths on which it returns. *)
Ltac crack H :=
  repeat
    (cbv beta iota zeta in H;
     lazymatch type of H with
     | Ok _ = Ok _ => inversion H; subst; clear H
     | Raise _ = Ok _ => discriminate H
     | OutOfFuel = Ok _ => discriminate H
     | Unmodelled _ = Ok _ => discriminate H
     | unsupported _ = Ok _ => discriminate H
     | done _ = Ok _ => unfold done in H
     | reprocess _ _ _ _ = Ok _ => unfold reprocess in H
     | assertDefined ?x = Ok _ =>
         destruct x eqn:?; cbn [assertDefined] in H
     | ?m ≫= _ = Ok _ =>
         let Hm := fresh "Hm" in
         apply bind_Ok in H as (? & Hm & H); crack Hm
     | (let '(_, _) := (if ?c then _ else _) in _) = _ => destruct c eqn:?
     | (let '(_, _) := ?x in _) = _ => destruct x as [? ?] eqn:?
     | match ?x with _ => _ end = _ => destruct x eqn:?
     | (if ?c then _ else _) = _ => destruct c eqn:?
     end).

Ltac solve_linked :=
  repeat match goal with
         | |- linked (if ?b then _ else _) => destruct b
         | |- linked (match ?x with _ => _ end) => destruct x
         end;
  first
    [ solve [eauto 15 with linked]
    | match goal with
      | |- context [if ?b then _ else _] => destruct b; solve_linked
      | |- context [match ?x with _ => _ end] => destruct x; solve_linked
      end
    | eauto 15 with linked ].

Lemma createRoot_linked attrs st n st' :
  createRoot attrs st = (n, st') -> linked st -> linked st'.
Proof.
  unfold createRoot. intros H Hl.
  destruct (createNode _ _ _ _ st) as [node st1] eqn:Hc.
  injection H as <- <-. solve_linked.
Qed.

Lemma insertElement_linked tag push namespace st n st' :
  insertElement K tag push namespace st = Ok (n, st') ->
  linked st -> linked st'.
Proof.
  unfold insertElement. intros H Hl. crack H; solve_linked.
Qed.

Lemma insertPhantom_linked name st n st' :
  insertPhantom K name st = Ok (n, st') -> linked st -> linked st'.
Proof. apply insertElement_linked. Qed.

Lemma insertBodyIfMissing_linked st st' :
  insertBodyIfMissing st = Ok st' -> linked st -> linked st'.
Proof.
  unfold insertBodyIfMissing. intros H Hl. crack H; solve_linked.
Qed.

Lemma linked_appendCommentToDocument text st :
  linked st -> linked (appendCommentToDocument text st).
Proof.
  unfold appendCommentToDocument. intros Hl.
  destruct (createNode _ _ _ _ st) as [node st1] eqn:Hc. solve_linked.
Qed.

Lemma appendComment_linked text parent st st' :
  appendComment text parent st = Ok st' -> linked st -> linked st'.
Proof.
  unfold appendComment. intros H Hl. crack H; solve_linked.
Qed.

Hint Resolve createRoot_linked insertElement_linked insertPhantom_linked
  insertBodyIfMissing_linked linked_appendCommentToDocument
  appendComment_linked : linked.

Lemma reconstructFrom_linked entries :
  forall index st st',
    reconstructFrom K entries index st = Ok st' -> linked st -> linked st'.
Proof.
  induction entries as [|entry entries IH]; intros index st st' H Hl.
  - cbn in H. now injection H as <-.
  - cbn [reconstructFrom] in H. destruct entry as [|f].
    + eapply IH; eauto.
    + apply bind_Ok in H as ([newNode st1] & Hi & H).
      eapply IH; [exact H|]. solve_linked.
Qed.

Lemma reconstructActiveFormattingElements_linked st st' :
  reconstructActiveFormattingElements K st = Ok st' ->
  linked st -> linked st'.
Proof.
  unfold reconstructActiveFormattingElements. intros H Hl.
  destruct (last (activeFormatting st)) as [[|lastEntry]|];
    try (now injection H as <-).
  destruct (nodeInList _ _); [now injection H as <-|].
  eapply reconstructFrom_linked; eauto.
Qed.

Hint Resolve reconstructActiveFormattingElements_linked : linked.

Lemma appendText_linked text st st' :
  appendText K text st = Ok st' -> linked st -> linked st'.
Proof.
  unfold appendText. intros H Hl. crack H; solve_linked.
Qed.

Hint Resolve appendText_linked : linked.

Lemma linked_handleDoctype doctype st :
  linked st -> linked (handleDoctype K doctype st).
Proof.
  unfold handleDoctype. intros Hl.
  destruct (mode st); auto with linked.
  destruct (doctypeErrorAndQuirks K doctype (iframeSrcdoc st)) as [e q].
  destruct (createNode _ _ _ _ st) as [node st1] eqn:Hc. solve_linked.
Qed.

Hint Resolve linked_handleDoctype : linked.

(** *** The insertion modes *)

Notation "'keeps' h" :=
  (forall st r st', h st = Ok (r, st') -> linked st -> linked st')
  (at level 10, h at level 9, only parsing).

(** The states a routine was called on may themselves be given by cases. *)
Ltac split_states :=
  repeat match goal with
         | H : context [match ?x with _ => _ end] |- _ =>
             lazymatch type of H with
             | _ = Ok _ => destruct x eqn:?
             | _ = (_, _) => destruct x eqn:?
             end
         end.

Ltac handler :=
  let H := fresh "H" in
  let Hl := fresh "Hl" in
  intros ? ? ? H Hl; crack H;
  first [solve [solve_linked] | split_states; solve_linked].

Lemma modeInitial_linked token : keeps (modeInitial token).
Proof. unfold modeInitial. handler. Qed.

Lemma modeBeforeHtml_linked token : keeps (modeBeforeHtml token).
Proof. unfold modeBeforeHtml, createRootThenBeforeHead. handler. Qed.

Lemma modeBeforeHead_linked token : keeps (modeBeforeHead K token).
Proof.
  unfold modeBeforeHead, phantomHeadThenInHead. handler.
Qed.

Lemma modeInHead_linked token : keeps (modeInHead K token).
Proof.
  unfold modeInHead, popThenAfterHead. handler.
Qed.

(** The handlers of body mode. *)
Ltac body h := unfold h; handler.

Lemma handleBodyStartHtml_linked t : keeps (handleBodyStartHtml t).
Proof. body handleBodyStartHtml. Qed.
Lemma handleBodyStartBody_linked t : keeps (handleBodyStartBody t).
Proof. body handleBodyStartBody. Qed.
Lemma handleBodyStartHead_linked t : keeps (handleBodyStartHead t).
Proof. body handleBodyStartHead. Qed.
Lemma handleBodyStartInHead_linked t : keeps (handleBodyStartInHead K t).
Proof. apply modeInHead_linked. Qed.
Lemma handleBodyStartBlockWithP_linked t :
  keeps (handleBodyStartBlockWithP K t).
Proof. body handleBodyStartBlockWithP. Qed.
Lemma handleBodyStartHeading_linked t : keeps (handleBodyStartHeading K t).
Proof. body handleBodyStartHeading. Qed.
Lemma handleBodyStartPreListing_linked t :
  keeps (handleBodyStartPreListing K t).
Proof. body handleBodyStartPreListing. Qed.
Lemma handleBodyStartForm_linked t : keeps (handleBodyStartForm K t).
Proof. body handleBodyStartForm. Qed.
Lemma handleBodyStartButton_linked t : keeps (handleBodyStartButton K t).
Proof. body handleBodyStartButton. Qed.
Lemma handleBodyStartParagraph_linked t :
  keeps (handleBodyStartParagraph K t).
Proof. body handleBodyStartParagraph. Qed.
Lemma handleBodyStartMath_linked t : keeps (handleBodyStartMath K t).
Proof. body handleBodyStartMath. Qed.
Lemma handleBodyStartSvg_linked t : keeps (handleBodyStartSvg K t).
Proof. body handleBodyStartSvg. Qed.
Lemma handleBodyStartLi_linked t : keeps (handleBodyStartLi K t).
Proof. body handleBodyStartLi. Qed.
Lemma handleBodyStartDdDt_linked t : keeps (handleBodyStartDdDt K t).
Proof. body handleBodyStartDdDt. Qed.
Lemma handleBodyStartAppletLike_linked t :
  keeps (handleBodyStartAppletLike K t).
Proof. body handleBodyStartAppletLike. Qed.
Lemma handleBodyStartBr_linked t : keeps (handleBodyStartBr K t).
Proof. body handleBodyStartBr. Qed.
Lemma handleBodyStartHr_linked t : keeps (handleBodyStartHr K t).
Proof. body handleBodyStartHr. Qed.

Lemma handleBodyStartFrameset_linked t : keeps (handleBodyStartFrameset K t).
Proof.
  unfold handleBodyStartFrameset. intros st r st' H Hl.
  destruct (negb (framesetOk st)).
  { crack H; solve_linked. }
  destruct (findBodyIndex st (openElements st) O) as [bodyIndex|].
  2: { crack H; solve_linked. }
  apply bind_Ok in H as (st1 & Hrm & H).
  assert (Hl1 : linked st1).
  { destruct (openElements st !! bodyIndex) as [bodyElem|];
      [|now injection Hrm as <-].
    destruct (match nodes st !! bodyElem with
              | Some n => parentNode n
              | None => None
              end) as [parent|]; [|now injection Hrm as <-].
    apply bind_Ok in Hrm as (s & Hr & Hrm). injection Hrm as <-.
    unfold linked. cbn [nodes set_nodes].
    now apply (removeChild_wellLinked _ _ _ _ Hl Hr). }
  crack H; solve_linked.
Qed.

Lemma handleBodyStartStructureIgnored_linked t :
  keeps (handleBodyStartStructureIgnored t).
Proof. body handleBodyStartStructureIgnored. Qed.
Lemma handleBodyStartColOrFrame_linked t :
  keeps (handleBodyStartColOrFrame K t).
Proof. body handleBodyStartColOrFrame. Qed.
Lemma handleBodyStartImage_linked t : keeps (handleBodyStartImage K t).
Proof. body handleBodyStartImage. Qed.
Lemma handleBodyStartVoidWithFormatting_linked t :
  keeps (handleBodyStartVoidWithFormatting K t).
Proof. body handleBodyStartVoidWithFormatting. Qed.
Lemma handleBodyStartSimpleVoid_linked t :
  keeps (handleBodyStartSimpleVoid K t).
Proof. body handleBodyStartSimpleVoid. Qed.
Lemma handleBodyStartInput_linked t : keeps (handleBodyStartInput K t).
Proof. body handleBodyStartInput. Qed.
Lemma handleBodyStartTable_linked t : keeps (handleBodyStartTable K t).
Proof. body handleBodyStartTable. Qed.
Lemma handleBodyStartPlaintextXmp_linked t :
  keeps (handleBodyStartPlaintextXmp K t).
Proof. body handleBodyStartPlaintextXmp. Qed.
Lemma handleBodyStartTextarea_linked t :
  keeps (handleBodyStartTextarea K t).
Proof. body handleBodyStartTextarea. Qed.
Lemma handleBodyStartSelect_linked t : keeps (handleBodyStartSelect K t).
Proof. body handleBodyStartSelect. Qed.
Lemma handleBodyStartOption_linked t : keeps (handleBodyStartOption K t).
Proof. body handleBodyStartOption. Qed.
Lemma handleBodyStartOptgroup_linked t :
  keeps (handleBodyStartOptgroup K t).
Proof. body handleBodyStartOptgroup. Qed.
Lemma handleBodyStartRpRt_linked t : keeps (handleBodyStartRpRt K t).
Proof. body handleBodyStartRpRt. Qed.
Lemma handleBodyStartRbRtc_linked t : keeps (handleBodyStartRbRtc K t).
Proof. body handleBodyStartRbRtc. Qed.
Lemma handleBodyStartTableParseError_linked t :
  keeps (handleBodyStartTableParseError t).
Proof. body handleBodyStartTableParseError. Qed.
Lemma handleBodyStartDefault_linked t : keeps (handleBodyStartDefault K t).
Proof. body handleBodyStartDefault. Qed.
Lemma handleBodyStartA_linked t : keeps (handleBodyStartA t).
Proof. body handleBodyStartA. Qed.
Lemma handleBodyStartFormatting_linked t :
  keeps (handleBodyStartFormatting t).
Proof. body handleBodyStartFormatting. Qed.

Lemma handleBodyEndBody_linked t : keeps (handleBodyEndBody K t).
Proof. body handleBodyEndBody. Qed.
Lemma handleBodyEndHtml_linked t : keeps (handleBodyEndHtml K t).
Proof. body handleBodyEndHtml. Qed.
Lemma handleBodyEndP_linked t : keeps (handleBodyEndP K t).
Proof. body handleBodyEndP. Qed.
Lemma handleBodyEndLi_linked t : keeps (handleBodyEndLi K t).
Proof. body handleBodyEndLi. Qed.
Lemma handleBodyEndDdDt_linked t : keeps (handleBodyEndDdDt K t).
Proof. body handleBodyEndDdDt. Qed.
Lemma handleBodyEndForm_linked t : keeps (handleBodyEndForm t).
Proof. body handleBodyEndForm. Qed.
Lemma handleBodyEndAppletLike_linked t :
  keeps (handleBodyEndAppletLike K t).
Proof. body handleBodyEndAppletLike. Qed.
Lemma handleBodyEndHeading_linked t : keeps (handleBodyEndHeading K t).
Proof. body handleBodyEndHeading. Qed.
Lemma handleBodyEndBlock_linked t : keeps (handleBodyEndBlock K t).
Proof. body handleBodyEndBlock. Qed.
Lemma handleBodyEndTemplate_linked t : keeps (handleBodyEndTemplate K t).
Proof. body handleBodyEndTemplate. Qed.

(** Every handler of a table of handlers keeps the tree well linked. *)
Lemma handlerFor_linked handlers name h :
  Forall (fun e => forall t, keeps (snd e t)) handlers ->
  handlerFor handlers name = Some h -> forall t, keeps (h t).
Proof.
  unfold handlerFor. intros Hall H.
  destruct (List.find (fun e : list string * BodyHandler =>
                         nameIn (fst e) name) handlers)
    as [e|] eqn:Hf; [|discriminate].
  injection H as <-. apply find_some in Hf as [Hin _].
  rewrite Forall_forall in Hall. apply Hall.
  now apply list_elem_of_In.
Qed.

Lemma BODY_START_HANDLERS_linked :
  Forall (fun e => forall t, keeps (snd e t)) (BODY_START_HANDLERS K).
Proof.
  unfold BODY_START_HANDLERS.
  repeat (apply Forall_cons; split;
          [cbn [snd];
           first [ exact handleBodyStartA_linked
                 | exact handleBodyStartBlockWithP_linked
                 | exact handleBodyStartAppletLike_linked
                 | exact handleBodyStartVoidWithFormatting_linked
                 | exact handleBodyStartFormatting_linked
                 | exact handleBodyStartInHead_linked
                 | exact handleBodyStartBody_linked
                 | exact handleBodyStartBr_linked
                 | exact handleBodyStartButton_linked
                 | exact handleBodyStartTableParseError_linked
                 | exact handleBodyStartColOrFrame_linked
                 | exact handleBodyStartStructureIgnored_linked
                 | exact handleBodyStartDdDt_linked
                 | exact handleBodyStartForm_linked
                 | exact handleBodyStartFrameset_linked
                 | exact handleBodyStartHeading_linked
                 | exact handleBodyStartHead_linked
                 | exact handleBodyStartHr_linked
                 | exact handleBodyStartHtml_linked
                 | exact handleBodyStartImage_linked
                 | exact handleBodyStartInput_linked
                 | exact handleBodyStartLi_linked
                 | exact handleBodyStartPreListing_linked
                 | exact handleBodyStartMath_linked
                 | exact handleBodyStartOptgroup_linked
                 | exact handleBodyStartOption_linked
                 | exact handleBodyStartParagraph_linked
                 | exact handleBodyStartSimpleVoid_linked
                 | exact handleBodyStartPlaintextXmp_linked
                 | exact handleBodyStartRbRtc_linked
                 | exact handleBodyStartRpRt_linked
                 | exact handleBodyStartSelect_linked
                 | exact handleBodyStartSvg_linked
                 | exact handleBodyStartTable_linked
                 | exact handleBodyStartTextarea_linked ]|]).
  apply Forall_nil_2.
Qed.

Lemma BODY_END_HANDLERS_linked :
  Forall (fun e => forall t, keeps (snd e t)) (BODY_END_HANDLERS K).
Proof.
  unfold BODY_END_HANDLERS.
  repeat (apply Forall_cons; split;
          [cbn [snd];
           first [ exact handleBodyEndBlock_linked
                 | exact handleBodyEndAppletLike_linked
                 | exact handleBodyEndBody_linked
                 | exact handleBodyEndDdDt_linked
                 | exact handleBodyEndForm_linked
                 | exact handleBodyEndHeading_linked
                 | exact handleBodyEndHtml_linked
                 | exact handleBodyEndLi_linked
                 | exact handleBodyEndP_linked
                 | exact handleBodyEndTemplate_linked ]|]).
  apply Forall_nil_2.
Qed.

Lemma handleTagInBody_linked t : keeps (handleTagInBody K t).
Proof.
  unfold handleTagInBody. intros st r st' H Hl.
  destruct (kind t).
  - destruct (handlerFor (BODY_START_HANDLERS K) (tagName t)) as [h|] eqn:Hh.
    + eapply (handlerFor_linked _ _ _ BODY_START_HANDLERS_linked Hh); eauto.
    + eapply handleBodyStartDefault_linked; eauto.
  - cbv zeta in H. destruct (str_eqb (tagName t) (lit "br")).
    { eapply handleBodyStartBr_linked; [exact H|]. auto with linked. }
    destruct (FORMATTING_ELEMENTS K (tagName t)); [discriminate H|].
    destruct (handlerFor (BODY_END_HANDLERS K) (tagName t)) as [h|] eqn:Hh.
    + eapply (handlerFor_linked _ _ _ BODY_END_HANDLERS_linked Hh); eauto.
    + crack H; solve_linked.
Qed.

Lemma handleCharactersInBody_linked d : keeps (handleCharactersInBody K d).
Proof. body handleCharactersInBody. Qed.
Lemma handleCommentInBody_linked d : keeps (handleCommentInBody d).
Proof. body handleCommentInBody. Qed.
Lemma eofInTemplate_linked t : keeps (eofInTemplate t).
Proof. body eofInTemplate. Qed.
Lemma handleEofInBody_linked t : keeps (handleEofInBody t).
Proof.
  unfold handleEofInBody. intros st r st' H Hl.
  destruct (templateModes st); [crack H; solve_linked|].
  eapply eofInTemplate_linked; eauto.
Qed.

Lemma modeInBody_linked token : keeps (modeInBody K token).
Proof.
  unfold modeInBody. intros st r st' H Hl. destruct token.
  - eapply handleTagInBody_linked; eauto.
  - eapply handleCharactersInBody_linked; eauto.
  - eapply handleCommentInBody_linked; eauto.
  - crack H; solve_linked.
  - eapply handleEofInBody_linked; eauto.
Qed.

Hint Resolve modeInitial_linked modeBeforeHtml_linked modeBeforeHead_linked
  modeInHead_linked modeInBody_linked : linked.

Lemma modeInHeadNoscript_linked token : keeps (modeInHeadNoscript K token).
Proof. unfold modeInHeadNoscript. handler. Qed.

Lemma modeAfterHead_linked token : keeps (modeAfterHead K token).
Proof. unfold modeAfterHead, bodyThenInBody. handler. Qed.

Lemma modeText_linked token : keeps (modeText K token).
Proof. unfold modeText. handler. Qed.

Lemma modeAfterBody_linked token : keeps (modeAfterBody K token).
Proof. unfold modeAfterBody, errorThenInBody. handler. Qed.

Lemma modeAfterAfterBody_linked token : keeps (modeAfterAfterBody K token).
Proof. unfold modeAfterAfterBody, errorThenInBody. handler. Qed.

Hint Resolve modeInHeadNoscript_linked modeAfterHead_linked modeText_linked
  modeAfterBody_linked modeAfterAfterBody_linked eofInTemplate_linked
  : linked.

Lemma modeInSelect_linked token : keeps (modeInSelect K token).
Proof. unfold modeInSelect. handler. Qed.

Lemma modeInTemplate_linked token : keeps (modeInTemplate K token).
Proof. unfold modeInTemplate, switchTemplateMode. handler. Qed.

Lemma modeHandler_linked m token : keeps (modeHandler K m token).
Proof.
  intros st r st' H Hl.
  destruct m; cbn [modeHandler] in H; try discriminate H;
    eauto using modeInSelect_linked, modeInTemplate_linked with linked.
Qed.

Lemma foreignEndTagScan_linked nameLower token m stack :
  forall first, keeps (foreignEndTagScan nameLower token m first stack).
Proof.
  induction stack as [|node stack IH]; intros first st r st' H Hl.
  - cbn [foreignEndTagScan] in H. crack H. assumption.
  - cbn [foreignEndTagScan] in H. cbv zeta in H.
    destruct (str_eqb _ nameLower).
    + crack H; solve_linked.
    + destruct (nsIsHTMLOrNull _).
      * crack H. solve_linked.
      * eapply IH; [exact H|]. solve_linked.
Qed.

Lemma linked_fold_parseError (raw : jsstring) c :
  forall st,
    linked st ->
    linked (List.fold_left
              (fun st ch => if ch =? 0 then parseError c None st else st)
              raw st).
Proof.
  induction raw as [|ch raw IH]; intros st Hl; [exact Hl|].
  cbn [List.fold_left]. apply IH. solve_linked.
Qed.

Hint Resolve linked_fold_parseError foreignEndTagScan_linked
  modeHandler_linked : linked.

Lemma processForeignContent_linked token :
  keeps (processForeignContent K token).
Proof. unfold processForeignContent. handler. Qed.

Lemma dispatch_linked token force : keeps (dispatch K token force).
Proof.
  unfold dispatch. intros st r st' H Hl.
  destruct (force || _).
  { eapply modeHandler_linked; eauto. }
  apply bind_Ok in H as (useForeign & _ & H).
  destruct useForeign.
  { eapply processForeignContent_linked; eauto. }
  crack H; solve_linked.
Qed.

Lemma processLoop_linked fuel :
  forall token force st r st',
    processLoop K fuel token force st = Ok (r, st') ->
    linked st -> linked st'.
Proof.
  induction fuel as [|fuel IH]; intros token force st r st' H Hl;
    [discriminate H|].
  cbn [processLoop] in H.
  apply bind_Ok in H as ([res st1] & Hd & H).
  pose proof (dispatch_linked _ _ _ _ _ Hd Hl) as Hl1.
  destruct res as [|m tokenOverride forceHtml].
  - injection H as _ <-. solve_linked.
  - eapply IH; [exact H|]. solve_linked.
Qed.

Lemma processToken_linked fuel token st r st' :
  processToken K fuel token st = Ok (r, st') -> linked st -> linked st'.
Proof.
  unfold processToken. intros H Hl.
  destruct token; try (eapply processLoop_linked; eauto; fail).
  crack H; solve_linked.
Qed.

Lemma processCharacters_linked fuel data st r st' :
  processCharacters K fuel data st = Ok (r, st') -> linked st -> linked st'.
Proof. apply processToken_linked. Qed.

(** The state the parser starts from. *)
Lemma initialState_linked fragmentContext iframeSrcdoc collectErrors :
  linked (initialState fragmentContext iframeSrcdoc collectErrors).
Proof.
  unfold initialState, linked.
  destruct (newNode _ NoData HTML [] []) as [document s] eqn:Hn.
  cbn [nodes].
  apply (wellLinked_newNode _ _ _ _ _ _ _ Hn).
  split; [intros n nd m H _|intros n nd H]; now rewrite lookup_nil in H.
Qed.

Lemma createTreeBuilder_linked fragmentContext iframeSrcdoc collectErrors :
  linked (createTreeBuilder K fragmentContext iframeSrcdoc collectErrors).
Proof.
  unfold createTreeBuilder, createElement. cbv zeta.
  pose proof (initialState_linked fragmentContext iframeSrcdoc collectErrors)
    as Hl.
  destruct fragmentContext as [ctx|]; [|exact Hl].
  destruct (createNode _ _ _ _ _) as [root st1] eqn:Hc.
  assert (Hl1 : linked (pushOpen root
                 (set_nodes (appendChild (document st1) root (nodes st1))
                            st1))) by solve_linked.
  apply linked_set_framesetOk, linked_set_mode.
  destruct (match ctxNamespace ctx with
            | Some ns => truthy ns && negb (str_eqb ns (lit "html"))
            | None => false
            end); [|exact Hl1].
  match goal with
  | |- context [createNode ?n ?d ?ns ?a ?st0] =>
      destruct (createNode n d ns a st0) as [contextElement st2] eqn:Hc2
  end.
  solve_linked.
Qed.

End Builder.

(** *** The end of the parse *)

Lemma moveChildren_wellLinked from to s s' :
  moveChildren from to s = Ok s' -> wellLinked s -> wellLinked s'.
Proof.
  unfold moveChildren. intros H Hw.
  apply (foldl_Ok
           (fun s child => s ← removeChild from child s;
                           mret (appendChild to child s))
           (childrenOf s from) wellLinked) with (b0 := s); [|exact Hw|exact H].
  intros b a b' _ Hb Hf. apply bind_Ok in Hf as (s1 & Hr & Hf).
  injection Hf as <-.
  destruct (removeChild_wellLinked _ _ _ _ Hb Hr) as (Hw1 & Hd & Hs & _).
  now apply appendChild_wellLinked.
Qed.

Lemma cloneChildren_wellLinked fuel source target s s' :
  cloneChildren fuel source target s = Ok s' ->
  wellLinked s -> wellLinked s'.
Proof.
  unfold cloneChildren. intros H Hw.
  apply (foldl_Ok
           (fun s child => '(c, s) ← cloneNode fuel true child s;
                           mret (appendChild target c s))
           (childrenOf s source) wellLinked) with (b0 := s);
    [|exact Hw|exact H].
  intros b a b' _ Hb Hf. apply bind_Ok in Hf as ([c s1] & Hc & Hf).
  injection Hf as <-.
  destruct (cloneNode_wellLinked _ _ _ _ _ _ Hc Hb)
    as (_ & _ & Hw1 & Hd & Hlt).
  apply appendChild_wellLinked; [|assumption..].
  now apply lookup_lt_is_Some.
Qed.

Lemma populateSelect_wellLinked fuel select s s' :
  populateSelect fuel select s = Ok s' -> wellLinked s -> wellLinked s'.
Proof.
  unfold populateSelect. intros H Hw.
  apply bind_Ok in H as ([target|] & _ & H); [|now injection H as <-].
  apply bind_Ok in H as (options & _ & H).
  destruct (selectedOptionOf s options); [|now injection H as <-].
  eapply cloneChildren_wellLinked; eauto.
Qed.

Lemma populateSelectedContent_wellLinked fuel root s s' :
  populateSelectedContent fuel root s = Ok s' ->
  wellLinked s -> wellLinked s'.
Proof.
  unfold populateSelectedContent. intros H Hw.
  apply bind_Ok in H as (selects & _ & H).
  apply (foldl_Ok (fun s select => populateSelect fuel select s)
           selects wellLinked) with (b0 := s); [|exact Hw|exact H].
  intros b a b' _ Hb Hf. eapply populateSelect_wellLinked; eauto.
Qed.

Lemma finishTreeBuilder_wellLinked fuel st s :
  finishTreeBuilder fuel st = Ok s -> linked st -> wellLinked s.
Proof.
  unfold finishTreeBuilder. intros H Hl. cbv zeta in H.
  apply bind_Ok in H as (s1 & H1 & H).
  eapply populateSelectedContent_wellLinked; [exact H|].
  destruct (fragmentContext st); [|now injection H1 as <-].
  apply bind_Ok in H1 as (root & _ & H1).
  apply bind_Ok in H1 as (s2 & H2 & H1).
  apply bind_Ok in H1 as (s3 & H3 & H1).
  assert (Hw2 : wellLinked s2).
  { destruct (fragmentContextElement st) as [contextElem|];
      [|now injection H2 as <-].
    destruct (match match nodes st !! contextElem with
                    | Some n => parentNode n
                    | None => None
                    end with
              | Some p => (p =? root)%nat
              | None => false
              end); [|now injection H2 as <-].
    apply bind_Ok in H2 as (s4 & H4 & H2).
    apply (removeChild_wellLinked _ _ _ _
             (moveChildren_wellLinked _ _ _ _ H4 Hl) H2). }
  apply (removeChild_wellLinked _ _ _ _
           (moveChildren_wellLinked _ _ _ _ H3 Hw2) H1).
Qed.

End TreeBuilderFacts.

(** ** The parser *)

Module ParserFacts.

Import Dom Tokens TreeBuilder Parser ExampleConstants DomFacts
  TreeBuilderFacts.

(** C8, as the specification states it, fails: the document parsed from
    the empty string has a child. *)
Lemma parseDocument_empty_has_child :
  exists r,
    parseDocument exampleConstants exampleEntities 7 [] noOptions = Ok r
    /\ childrenOf (store r) (root r) = [1%nat].
Proof.
  eexists. split; vm_compute; reflexivity.
Qed.

(** C8 (amended). Parsing the empty string as a document, with any table
    of constants and enough fuel, returns a [#document] root whose only
    child is an [html] element with two children, an empty [head] and an
    empty [body]; the error list is empty when [collectErrors] is unset
    and holds the single error [ExpectedDoctypeButGotEof] when it is
    set. *)
Theorem parseDocument_empty :
  forall (K : Constants) (NAMED_ENTITIES : jsstring -> option jsstring)
         (fuel : nat) (iframeSrcdoc collectErrors : bool),
  exists r html head body,
    parseDocument K NAMED_ENTITIES (7 + fuel) []
                  (mkOptions None iframeSrcdoc collectErrors None) = Ok r
    /\ describe (store r) (root r) = Some (lit "#document", NoData)
    /\ childrenOf (store r) (root r) = [html]
    /\ describe (store r) html = Some (lit "html", NoData)
    /\ childrenOf (store r) html = [head; body]
    /\ describe (store r) head = Some (lit "head", NoData)
    /\ childrenOf (store r) head = []
    /\ describe (store r) body = Some (lit "body", NoData)
    /\ childrenOf (store r) body = []
    /\ errors r
       = if collectErrors
         then [TreeError (mkParseError ExpectedDoctypeButGotEof None)]
         else [].
Proof.
  intros K NAMED_ENTITIES fuel iframeSrcdoc collectErrors.
  destruct collectErrors;
    eexists; exists 1%nat, 2%nat, 3%nat;
    (split; [vm_compute; reflexivity|]); repeat split.
Qed.

(** Under the hypotheses on the entries that the run reads, the table of
    constants is the one with these entries written out. *)
Lemma withFragmentRunEntries_eq (K : Constants) :
  HTML_INTEGRATION_POINT K (lit "svg") (lit "p") = false ->
  TABLE_FOSTER_TARGETS K (lit "p") = false ->
  TABLE_FOSTER_TARGETS K (lit "html") = false ->
  FORMATTING_ELEMENTS K (lit "p") = false ->
  SVG_TAG_NAME_ADJUSTMENTS K (lit "p") = None ->
  withFragmentRunEntries K (IMPLIED_END_TAGS K (lit "p")) = K.
Proof.
  intros Hip Hfp Hfh Hfmt Hsvg. destruct K.
  unfold withFragmentRunEntries.
  cbn [TABLE_FOSTER_TARGETS TABLE_ALLOWED_CHILDREN IMPLIED_END_TAGS
       SPECIAL_ELEMENTS FORMATTING_ELEMENTS DEFAULT_SCOPE_TERMINATORS
       BUTTON_SCOPE_TERMINATORS TABLE_SCOPE_TERMINATORS
       FOREIGN_BREAKOUT_ELEMENTS HTML_INTEGRATION_POINT
       MATHML_TEXT_INTEGRATION_POINT SVG_TAG_NAME_ADJUSTMENTS
       MATHML_ATTRIBUTE_ADJUSTMENTS SVG_ATTRIBUTE_ADJUSTMENTS
       FOREIGN_ATTRIBUTE_ADJUSTMENTS QUIRKY_PUBLIC_MATCHES
       QUIRKY_SYSTEM_MATCHES QUIRKY_PUBLIC_PREFIXES
       LIMITED_QUIRKY_PUBLIC_PREFIXES HTML4_PUBLIC_PREFIXES HEADING_ELEMENTS
       LIST_ITEM_SCOPE_TERMINATORS DEFINITION_SCOPE_TERMINATORS] in *.
  f_equal.
  - extensionality n.
    destruct (str_eqb n (lit "p")) eqn:E.
    { apply str_eqb_eq in E. now subst. }
    destruct (str_eqb n (lit "html")) eqn:E'; [|reflexivity].
    apply str_eqb_eq in E'. now subst.
  - extensionality n.
    destruct (str_eqb n (lit "p")) eqn:E; [|reflexivity].
    apply str_eqb_eq in E. now subst.
  - extensionality n.
    destruct (str_eqb n (lit "p")) eqn:E; [|reflexivity].
    apply str_eqb_eq in E. now subst.
  - extensionality ns. extensionality n.
    destruct (str_eqb ns (lit "svg")) eqn:E; [|reflexivity].
    destruct (str_eqb n (lit "p")) eqn:E'; [|reflexivity]. cbn [andb].
    apply str_eqb_eq in E, E'. now subst.
  - extensionality n.
    destruct (str_eqb n (lit "p")) eqn:E; [|reflexivity].
    apply str_eqb_eq in E. now subst.
Qed.

(** C2. A returned tree can hold two consecutive [#text] children. With
    the fragment context [{ tagName: "p", namespace: "svg" }], parsing
    [a</p>b] returns a fragment whose children are the text nodes [b] and
    [a], in this order: [a] is appended to the context element; [</p>]
    breaks out of foreign content and [closePElement] pops the context
    element, which it finds by its name alone; [b] is then appended to
    the [html] root; and [finishTreeBuilder] moves the children of the
    context element behind those of the root without joining text nodes.
    The hypotheses are the entries of constants.ts that the run reads. *)
Theorem parseDocument_adjacent_text :
  forall (K : Constants) (NAMED_ENTITIES : jsstring -> option jsstring)
         (fuel : nat) (collectErrors : bool),
    HTML_INTEGRATION_POINT K (lit "svg") (lit "p") = false ->
    TABLE_FOSTER_TARGETS K (lit "p") = false ->
    TABLE_FOSTER_TARGETS K (lit "html") = false ->
    FORMATTING_ELEMENTS K (lit "p") = false ->
    SVG_TAG_NAME_ADJUSTMENTS K (lit "p") = None ->
    exists r,
      parseDocument K NAMED_ENTITIES (9 + fuel) (lit "a</p>b")
        (mkOptions (Some (mkFragmentContext (lit "p") (Some (lit "svg"))))
                   false collectErrors None) = Ok r
      /\ List.map (describe (store r)) (childrenOf (store r) (root r))
         = [Some (lit "#text", StringData (lit "b"));
            Some (lit "#text", StringData (lit "a"))]
      /\ adjacentTextNodes (store r) (childrenOf (store r) (root r)) = true.
Proof.
  intros K NAMED_ENTITIES fuel collectErrors Hip Hfp Hfh Hfmt Hsvg.
  rewrite <- (withFragmentRunEntries_eq K Hip Hfp Hfh Hfmt Hsvg).
  destruct (IMPLIED_END_TAGS K (lit "p")), collectErrors;
    eexists; (split; [vm_compute; reflexivity|]);
    split; vm_compute; reflexivity.
Qed.

(** The run with the constants of the examples. *)
Lemma parseDocument_adjacent_text_witness :
  exists r,
    parseDocument exampleConstants exampleEntities 9 (lit "a</p>b")
      (mkOptions (Some (mkFragmentContext (lit "p") (Some (lit "svg"))))
                 false false None) = Ok r
    /\ List.map (describe (store r)) (childrenOf (store r) (root r))
       = [Some (lit "#text", StringData (lit "b"));
          Some (lit "#text", StringData (lit "a"))]
    /\ adjacentTextNodes (store r) (childrenOf (store r) (root r)) = true.
Proof.
  apply (parseDocument_adjacent_text exampleConstants exampleEntities 0
                                     false); reflexivity.
Defined.

(** The tree that a parse returns is well linked. *)
Lemma parseDocument_wellLinked (K : Constants)
  (NAMED_ENTITIES : jsstring -> option jsstring) (fuel : nat)
  (html : jsstring) (options : ParseDocumentOptions)
  (r : ParseDocumentResult) :
  parseDocument K NAMED_ENTITIES fuel html options = Ok r ->
  wellLinked (store r).
Proof.
  unfold parseDocument. cbv zeta. intros H.
  apply bind_Ok in H as ([k st] & Hrun & H).
  apply bind_Ok in H as (s & Hfin & H). injection H as <-.
  cbn [store].
  apply (finishTreeBuilder_wellLinked _ _ _ Hfin).
  refine (TokenizerFacts.run_inv NAMED_ENTITIES (getTokenizerSink K fuel)
            linked _ _ fuel html _ _ _ _ _ Hrun).
  - intros tok ss res ss' _ Hl Ht. cbn in Ht.
    exact (processToken_linked K _ _ _ _ _ Ht Hl).
  - intros data ss ss' Hl Hc. cbn in Hc.
    apply bind_Ok in Hc as ([res st1] & Hc & Hr). injection Hr as <-.
    exact (processCharacters_linked K _ _ _ _ _ Hc Hl).
  - apply createTreeBuilder_linked.
Qed.




End ParserFacts.

(** ** Deep copies of nodes *)

Module CloneFacts.

Import Dom DomFacts.

(** *** Trees read off a store *)

Lemma subtree_inv (f : nat) (s : Store) (id : NodeId) (t : Tree) :
  subtree (S f) s id = Some t ->
  exists n cts tmpl,
    s !! id = Some n
    /\ Forall2 (fun c ct => subtree f s c = Some ct) (childNodes n) cts
    /\ match templateContent n with
       | Some tid => exists tt, subtree f s tid = Some tt /\ tmpl = Some tt
       | None => tmpl = None
       end
    /\ t = TreeNode id (name n) (data n) (namespace n) (attrs n) cts tmpl.
Proof.
  cbn [subtree]. intros H.
  destruct (s !! id) as [n|] eqn:Hn; [|discriminate H]. cbn in H.
  destruct (mapM (subtree f s) (childNodes n)) as [cts|] eqn:Hc;
    [|discriminate H]. cbn in H.
  apply mapM_Some_1 in Hc.
  destruct (templateContent n) as [tid|] eqn:Ht.
  - destruct (subtree f s tid) as [tt|] eqn:Htt; [|discriminate H].
    cbn in H. injection H as <-.
    exists n, cts, (Some tt). rewrite Ht. eauto 10.
  - cbn in H. injection H as <-.
    exists n, cts, None. rewrite Ht. eauto 10.
Qed.

Lemma subtree_intro (f : nat) (s : Store) (id : NodeId) (n : Node)
  (cts : list Tree) (tmpl : option Tree) :
  s !! id = Some n ->
  Forall2 (fun c ct => subtree f s c = Some ct) (childNodes n) cts ->
  match templateContent n with
  | Some tid => exists tt, subtree f s tid = Some tt /\ tmpl = Some tt
  | None => tmpl = None
  end ->
  subtree (S f) s id
  = Some (TreeNode id (name n) (data n) (namespace n) (attrs n) cts tmpl).
Proof.
  intros Hn Hc Ht. cbn [subtree]. rewrite Hn. cbn.
  rewrite (mapM_Some_2 _ _ _ Hc). cbn.
  destruct (templateContent n) as [tid|].
  - destruct Ht as (tt & -> & ->). reflexivity.
  - subst tmpl. reflexivity.
Qed.

Lemma rootOf_subtree (f : nat) (s : Store) (id : NodeId) (t : Tree) :
  subtree f s id = Some t -> rootOf t = id.
Proof.
  destruct f as [|f]; [discriminate|]. intros H.
  apply subtree_inv in H as (n & cts & tmpl & _ & _ & _ & ->). reflexivity.
Qed.

Lemma elem_idsOf_child (cts : list Tree) (ct : Tree) (i : NodeId) :
  ct ∈ cts -> i ∈ idsOf ct -> i ∈ List.concat (List.map idsOf cts).
Proof.
  induction 1 as [ct cts|ct ct' cts _ IH]; intros Hi; cbn;
    apply elem_of_app; [now left|right; now apply IH].
Qed.

Lemma elem_idsOf_concat (cts : list Tree) (i : NodeId) :
  i ∈ List.concat (List.map idsOf cts) ->
  exists ct, ct ∈ cts /\ i ∈ idsOf ct.
Proof.
  induction cts as [|ct cts IH]; cbn; intros H; [inversion H|].
  apply elem_of_app in H as [H|H].
  - exists ct. split; [apply list_elem_of_here|exact H].
  - destruct (IH H) as (ct' & Hin & Hi). exists ct'.
    split; [now apply list_elem_of_further|exact Hi].
Qed.

Lemma Forall2_impl_in {A B : Type} (P Q : A -> B -> Prop) (l : list A)
  (k : list B) :
  Forall2 P l k -> (forall x y, y ∈ k -> P x y -> Q x y) -> Forall2 Q l k.
Proof.
  induction 1 as [|x y l k Hxy _ IH]; intros Himp; constructor.
  - apply Himp; [apply list_elem_of_here|exact Hxy].
  - apply IH. intros x' y' Hy. apply Himp. now apply list_elem_of_further.
Qed.

Lemma Forall2_elem_r {A B : Type} (P : A -> B -> Prop) (l : list A)
  (k : list B) (y : B) :
  Forall2 P l k -> y ∈ k -> exists x, x ∈ l /\ P x y.
Proof.
  induction 1 as [|x y0 l k Hxy _ IH]; intros Hy; [inversion Hy|].
  apply elem_of_cons in Hy as [->|Hy].
  - exists x. split; [apply list_elem_of_here|exact Hxy].
  - destruct (IH Hy) as (x' & Hx' & HP). exists x'.
    split; [now apply list_elem_of_further|exact HP].
Qed.

(** Two records that differ in the parent link only. *)
Definition sameContent (n n' : Node) : Prop :=
  name n = name n' /\ data n = data n' /\ namespace n = namespace n'
  /\ attrs n = attrs n' /\ childNodes n = childNodes n'
  /\ templateContent n = templateContent n'.

Lemma sameContent_refl (n : Node) : sameContent n n.
Proof. repeat split. Qed.

(** The tree under a node depends on the nodes of the tree only, and not
    on their parent links. *)
Lemma subtree_agree (f : nat) :
  forall (s s' : Store) (id : NodeId) (t : Tree),
    subtree f s id = Some t ->
    (forall i n, i ∈ idsOf t -> s !! i = Some n ->
                 exists n', s' !! i = Some n' /\ sameContent n n') ->
    subtree f s' id = Some t.
Proof.
  induction f as [|f IH]; intros s s' id t H Hag; [discriminate H|].
  apply subtree_inv in H as (n & cts & tmpl & Hn & Hc & Ht & ->).
  destruct (Hag id n (list_elem_of_here _ _) Hn)
    as (n' & Hn' & Hname & Hdata & Hns & Hattrs & Hch & Htc).
  rewrite Hname, Hdata, Hns, Hattrs.
  apply subtree_intro; [exact Hn'| |].
  - rewrite <- Hch. apply (Forall2_impl_in _ _ _ _ Hc).
    intros c ct Hct Hsub. apply (IH s s' c ct Hsub).
    intros i m Hi. apply Hag. cbn [idsOf]. apply list_elem_of_further.
    apply elem_of_app. left. now apply (elem_idsOf_child cts ct).
  - rewrite <- Htc. destruct (templateContent n) as [tid|]; [|exact Ht].
    destruct Ht as (tt & Htt & ->). exists tt. split; [|reflexivity].
    apply (IH s s' tid tt Htt).
    intros i m Hi. apply Hag. cbn [idsOf]. apply list_elem_of_further.
    apply elem_of_app. now right.
Qed.

(** The nodes of a tree are nodes of the store. *)
Lemma subtree_ids_lt (f : nat) :
  forall (s : Store) (id : NodeId) (t : Tree),
    subtree f s id = Some t ->
    forall i, i ∈ idsOf t -> (i < List.length s)%nat.
Proof.
  induction f as [|f IH]; intros s id t H i Hi; [discriminate H|].
  apply subtree_inv in H as (n & cts & tmpl & Hn & Hc & Ht & ->).
  cbn [idsOf] in Hi. apply elem_of_cons in Hi as [->|Hi].
  { now apply lookup_lt_Some in Hn. }
  apply elem_of_app in Hi as [Hi|Hi].
  - apply elem_idsOf_concat in Hi as (ct & Hct & Hi).
    destruct (Forall2_elem_r _ _ _ _ Hc Hct) as (c & _ & Hsub).
    exact (IH s c ct Hsub i Hi).
  - destruct (templateContent n) as [tid|].
    + destruct Ht as (tt & Htt & ->). exact (IH s tid tt Htt i Hi).
    + subst tmpl. inversion Hi.
Qed.

(** A store that keeps the nodes of [s] as they are gives the same
    trees. *)
Lemma subtree_frame (f : nat) (s s' : Store) (id : NodeId) (t : Tree) :
  subtree f s id = Some t ->
  (forall i, i ∈ idsOf t -> (i < List.length s)%nat -> s' !! i = s !! i) ->
  subtree f s' id = Some t.
Proof.
  intros H Hfr. apply (subtree_agree f s s' id t H).
  intros i n Hi Hn. exists n. split; [|apply sameContent_refl].
  rewrite Hfr; [exact Hn|exact Hi|]. now apply lookup_lt_Some in Hn.
Qed.

(** *** Deep copies *)

Lemma appendChild_lookup_other (this node i : NodeId) (s : Store) :
  i <> this -> i <> node -> appendChild this node s !! i = s !! i.
Proof.
  intros Ht Hn. unfold appendChild.
  rewrite !list_lookup_alter_ne by congruence. reflexivity.
Qed.

Lemma appendChild_lookup_this (this node : NodeId) (s : Store) (n : Node) :
  this <> node -> s !! this = Some n ->
  appendChild this node s !! this
  = Some (setChildNodes (childNodes n ++ [node]) n).
Proof.
  intros Hne Hn. unfold appendChild.
  rewrite list_lookup_alter_ne by congruence.
  rewrite list_lookup_alter_eq, Hn. reflexivity.
Qed.

Lemma appendChild_lookup_node (this node : NodeId) (s : Store) (n : Node) :
  this <> node -> s !! node = Some n ->
  exists n', appendChild this node s !! node = Some n' /\ sameContent n n'.
Proof.
  intros Hne Hn. unfold appendChild.
  rewrite list_lookup_alter_eq, list_lookup_alter_ne by congruence.
  rewrite Hn. eexists. split; [reflexivity|]. repeat split.
Qed.

Lemma length_appendChild (this node : NodeId) (s : Store) :
  List.length (appendChild this node s) = List.length s.
Proof. unfold appendChild. now rewrite !length_alter. Qed.

(** What a deep copy of the node at the root of [t] returns: the new
    store keeps the old nodes, and the tree under the copy has the shape
    of [t] and new nodes only. *)
Definition copies (f : nat) : Prop :=
  forall (this : NodeId) (s : Store) (t : Tree),
    subtree f s this = Some t -> templatesComplete t = true ->
    exists s' t',
      cloneNode f true this s = Ok (List.length s, s')
      /\ (List.length s <= List.length s')%nat
      /\ (forall i, (i < List.length s)%nat -> s' !! i = s !! i)
      /\ subtree f s' (List.length s) = Some t'
      /\ shapeOf t' = shapeOf t
      /\ Forall (fun i => (List.length s <= i)%nat) (idsOf t').

(** The loop that copies the children one by one under [target]. *)
Lemma copy_children (f : nat) (target : NodeId) (IH : copies f) :
  forall (cs : list NodeId) (cts : list Tree) (cur : Store) (cn : Node),
    Forall2 (fun c ct => subtree f cur c = Some ct) cs cts ->
    forallb templatesComplete cts = true ->
    target ∉ List.concat (List.map idsOf cts) ->
    cur !! target = Some cn ->
    exists cur' nts,
      foldl (fun acc child =>
               s ← acc;
               '(c, s) ← cloneNode f true child s;
               mret (appendChild target c s))
            (Ok cur) cs = Ok cur'
      /\ (List.length cur <= List.length cur')%nat
      /\ (forall i, (i < List.length cur)%nat -> i <> target ->
                    cur' !! i = cur !! i)
      /\ cur' !! target
         = Some (setChildNodes (childNodes cn ++ List.map rootOf nts) cn)
      /\ Forall2 (fun c' t' => subtree f cur' c' = Some t')
                 (List.map rootOf nts) nts
      /\ List.map shapeOf nts = List.map shapeOf cts
      /\ Forall (fun i => (List.length cur <= i)%nat)
                (List.concat (List.map idsOf nts)).
Proof.
  induction cs as [|c cs IHcs]; intros cts cur cn Hsrc Htc Hnot Htarget.
  - inversion Hsrc; subst. exists cur, []. cbn.
    split; [reflexivity|]. split; [lia|]. split; [reflexivity|].
    split.
    { rewrite Htarget, app_nil_r. now destruct cn. }
    split; [constructor|]. split; [reflexivity|constructor].
  - inversion Hsrc as [|c0 ct l cts' Hc Hrest]; subst.
    cbn [forallb] in Htc. apply andb_true_iff in Htc as [Htc1 Htc2].
    cbn [List.map List.concat] in Hnot.
    assert (Hlt : (target < List.length cur)%nat)
      by now apply lookup_lt_Some in Htarget.
    destruct (IH c cur ct Hc Htc1)
      as (cur1 & t1 & Hclone & Hlen1 & Hfr1 & Hsub1 & Hshape1 & Hids1).
    pose proof (rootOf_subtree _ _ _ _ Hsub1) as Hroot1.
    assert (Hne : target <> List.length cur) by lia.
    set (cur2 := appendChild target (List.length cur) cur1).
    assert (Hfr2 : forall i, (i < List.length cur)%nat -> i <> target ->
                             cur2 !! i = cur !! i).
    { intros i Hi Hit. unfold cur2.
      rewrite appendChild_lookup_other by lia. now apply Hfr1. }
    assert (Htarget2 : cur2 !! target
                       = Some (setChildNodes
                                 (childNodes cn ++ [List.length cur]) cn)).
    { unfold cur2. apply appendChild_lookup_this; [exact Hne|].
      rewrite Hfr1 by exact Hlt. exact Htarget. }
    assert (Hsub2 : subtree f cur2 (List.length cur) = Some t1).
    { apply (subtree_agree f cur1 cur2 _ _ Hsub1).
      intros i n Hi Hn. rewrite Forall_forall in Hids1.
      pose proof (Hids1 i Hi) as Hge.
      destruct (decide (i = List.length cur)) as [->|Hic].
      - unfold cur2. now apply appendChild_lookup_node.
      - exists n. split; [|apply sameContent_refl]. unfold cur2.
        rewrite appendChild_lookup_other by lia. exact Hn. }
    assert (Hsrc2 : Forall2 (fun c ct => subtree f cur2 c = Some ct) cs cts').
    { apply (Forall2_impl_in _ _ _ _ Hrest). intros c' ct' Hct' Hsub.
      apply (subtree_frame f cur cur2 c' ct' Hsub).
      intros i Hi Hil. apply Hfr2; [exact Hil|]. intros ->.
      apply Hnot. apply elem_of_app. right.
      now apply (elem_idsOf_child cts' ct'). }
    assert (Hnot2 : target ∉ List.concat (List.map idsOf cts')).
    { intros Hin. apply Hnot. apply elem_of_app. now right. }
    destruct (IHcs cts' cur2 _ Hsrc2 Htc2 Hnot2 Htarget2)
      as (cur' & nts & Hfold & Hlen' & Hfr' & Htarget' & Hsubs' & Hshapes'
          & Hids').
    assert (Hlen2 : List.length cur2 = List.length cur1)
      by apply length_appendChild.
    exists cur', (t1 :: nts).
    split.
    { cbn [foldl]. cbn [mbind result_bind]. rewrite Hclone. cbn.
      exact Hfold. }
    split; [lia|]. split.
    { intros i Hi Hit. rewrite Hfr' by lia. now apply Hfr2. }
    split.
    { rewrite Htarget'. cbn [List.map]. rewrite Hroot1. f_equal.
      unfold setChildNodes. cbn. now rewrite <- app_assoc. }
    split.
    { cbn [List.map]. constructor; [|exact Hsubs']. rewrite Hroot1.
      apply (subtree_frame f cur2 cur' _ _ Hsub2).
      intros i Hi Hil. apply Hfr'; [exact Hil|].
      rewrite Forall_forall in Hids1. pose proof (Hids1 i Hi). lia. }
    split.
    { cbn [List.map]. now rewrite Hshape1, Hshapes'. }
    cbn [List.map List.concat]. apply Forall_app. split; [exact Hids1|].
    eapply Forall_impl; [exact Hids'|]. cbn. intros i Hi. lia.
Qed.

Lemma templatesComplete_inv id name data namespace attrs cts tmpl :
  templatesComplete (TreeNode id name data namespace attrs cts tmpl) = true ->
  (isTemplateElement name namespace = true -> tmpl <> None)
  /\ forallb templatesComplete cts = true
  /\ (forall tt, tmpl = Some tt -> templatesComplete tt = true).
Proof.
  cbn [templatesComplete]. intros H.
  apply andb_true_iff in H as [H H3]. apply andb_true_iff in H as [H1 H2].
  split; [|split; [exact H2|]].
  - intros Hq. rewrite Hq in H1. cbn in H1. now destruct tmpl.
  - intros tt ->. exact H3.
Qed.

Lemma copies_all (f : nat) : copies f.
Proof.
  induction f as [|f IH]; intros this s t H Htc; [discriminate H|].
  apply subtree_inv in H as (n & cts & tmpl & Hn & Hc & Ht & ->).
  apply templatesComplete_inv in Htc as (Hq & Hcts & Htmpl).
  set (clone := List.length s).
  (* the record of the copy, and the store after the template content *)
  assert (Hstage :
    exists s2 cn tmpl',
      (let '(clone, s1) := newNode (name n) (data n) (namespace n)
                                   (attrs n) s in
       match templateContent n with
       | Some t0 =>
           '(tc, s0) ← cloneNode f true t0 s1;
           mret (alter (setTemplateContent (Some tc)) clone s0)
       | None => mret s1
       end ≫= fun s0 =>
         foldl (fun acc child =>
                  s ← acc;
                  '(c, s) ← cloneNode f true child s;
                  mret (appendChild clone c s))
               (mret s0) (childNodes n) ≫= fun s3 => mret (clone, s3))
      = (foldl (fun acc child =>
                  s ← acc;
                  '(c, s) ← cloneNode f true child s;
                  mret (appendChild clone c s))
               (Ok s2) (childNodes n) ≫= fun s3 => Ok (clone, s3))
      /\ (List.length s < List.length s2)%nat
      /\ (forall i, (i < List.length s)%nat -> s2 !! i = s !! i)
      /\ s2 !! clone = Some cn
      /\ name cn = name n /\ data cn = data n /\ namespace cn = namespace n
      /\ attrs cn = attrs n /\ childNodes cn = []
      /\ match templateContent cn with
         | Some tid => exists tt, subtree f s2 tid = Some tt
                                  /\ tmpl' = Some tt
                                  /\ Forall (fun i => (clone < i)%nat)
                                            (idsOf tt)
         | None => tmpl' = None
         end
      /\ option_map shapeOf tmpl' = option_map shapeOf tmpl).
  { unfold newNode. fold clone.
    destruct (templateContent n) as [tid|] eqn:Htid.
    - destruct Ht as (tt & Htt & ->).
      set (s1 := if str_eqb (name n) (lit "template")
                    && match namespace n with
                       | Some ns => str_eqb ns (lit "html")
                       | None => false
                       end
                 then s ++ [mkNode (name n) (data n) (namespace n) (attrs n)
                                   [] None (Some (S clone));
                            mkNode (lit "#document-fragment") NoData HTML []
                                   [] None None]
                 else s ++ [mkNode (name n) (data n) (namespace n) (attrs n)
                                   [] None None]).
      assert (Hs1 : exists tail tc0,
                 s1 = s ++ mkNode (name n) (data n) (namespace n) (attrs n)
                                  [] None tc0 :: tail).
      { unfold s1. destruct (_ && _); eauto. }
      destruct Hs1 as (tail & tc0 & Hs1).
      assert (Hfr1 : forall i, (i < List.length s)%nat -> s1 !! i = s !! i).
      { intros i Hi. rewrite Hs1. now apply lookup_app_l. }
      assert (Hlen1 : (List.length s < List.length s1)%nat).
      { rewrite Hs1, length_app. cbn. lia. }
      assert (Htt1 : subtree f s1 tid = Some tt).
      { apply (subtree_frame f s s1 tid tt Htt). intros i _. apply Hfr1. }
      destruct (IH tid s1 tt Htt1 (Htmpl tt eq_refl))
        as (sa & tt' & Hclone & Hlena & Hfra & Hsuba & Hshapea & Hidsa).
      exists (alter (setTemplateContent (Some (List.length s1))) clone sa),
        (mkNode (name n) (data n) (namespace n) (attrs n) [] None
                (Some (List.length s1))),
        (Some tt').
      split.
      { replace (if str_eqb (name n) (lit "template")
                    && match namespace n with
                       | Some ns => str_eqb ns (lit "html")
                       | None => false
                       end
                 then (clone, s ++ [mkNode (name n) (data n) (namespace n)
                                      (attrs n) [] None (Some (S clone));
                                    mkNode (lit "#document-fragment") NoData
                                      HTML [] [] None None])
                 else (clone, s ++ [mkNode (name n) (data n) (namespace n)
                                      (attrs n) [] None None]))
          with (clone, s1) by (unfold s1; now destruct (_ && _)).
        cbn [mbind result_bind]. rewrite Hclone. reflexivity. }
      split; [rewrite length_alter; lia|].
      split.
      { intros i Hi. rewrite list_lookup_alter_ne by (unfold clone; lia).
        rewrite Hfra by lia. now apply Hfr1. }
      split.
      { rewrite list_lookup_alter_eq, Hfra by exact Hlen1.
        rewrite Hs1. unfold clone.
        rewrite lookup_app_r by lia. rewrite Nat.sub_diag. reflexivity. }
      cbn [name data namespace attrs childNodes templateContent].
      repeat (split; [reflexivity|]).
      split; [|cbn; now rewrite Hshapea].
      exists tt'. split; [|split; [reflexivity|]].
      + apply (subtree_agree f sa _ _ _ Hsuba).
        intros i m Hi Hm. exists m. split; [|apply sameContent_refl].
        rewrite Forall_forall in Hidsa. pose proof (Hidsa i Hi).
        rewrite list_lookup_alter_ne by (unfold clone; lia). exact Hm.
      + eapply Forall_impl; [exact Hidsa|]. cbn. unfold clone.
        intros i Hi. lia.
    - subst tmpl.
      assert (Hno : isTemplateElement (name n) (namespace n) = false).
      { destruct (isTemplateElement (name n) (namespace n)) eqn:Hq';
          [|reflexivity]. now destruct (Hq eq_refl). }
      unfold isTemplateElement in Hno. rewrite Hno.
      exists (s ++ [mkNode (name n) (data n) (namespace n) (attrs n) []
                           None None]),
        (mkNode (name n) (data n) (namespace n) (attrs n) [] None None),
        None.
      split; [reflexivity|].
      split; [rewrite length_app; cbn; lia|].
      split; [intros i Hi; now apply lookup_app_l|].
      split.
      { unfold clone. rewrite lookup_app_r by lia.
        now rewrite Nat.sub_diag. }
      cbn [name data namespace attrs childNodes templateContent].
      repeat (split; [reflexivity|]). split; reflexivity. }
  destruct Hstage as (s2 & cn & tmpl' & Hrun & Hlen2 & Hfr2 & Hcn & Hname
                      & Hdata & Hns & Hattrs & Hch & Htmpl' & Hshapet).
  assert (Hsrc : Forall2 (fun c ct => subtree f s2 c = Some ct)
                         (childNodes n) cts).
  { apply (Forall2_impl _ _ _ _ Hc). intros c ct Hsub.
    apply (subtree_frame f s s2 c ct Hsub). intros i _. apply Hfr2. }
  assert (Hnot : clone ∉ List.concat (List.map idsOf cts)).
  { intros Hin. apply elem_idsOf_concat in Hin as (ct & Hct & Hi).
    destruct (Forall2_elem_r _ _ _ _ Hc Hct) as (c & _ & Hsub).
    pose proof (subtree_ids_lt f s c ct Hsub clone Hi). unfold clone in *.
    lia. }
  destruct (copy_children f clone IH _ _ _ _ Hsrc Hcts Hnot Hcn)
    as (cur' & nts & Hfold & Hlen' & Hfr' & Htarget' & Hsubs' & Hshapes'
        & Hids').
  exists cur',
    (TreeNode clone (name n) (data n) (namespace n) (attrs n) nts tmpl').
  split.
  { cbn [cloneNode]. rewrite Hn. cbv zeta. rewrite Hrun, Hfold.
    reflexivity. }
  split; [lia|]. split.
  { intros i Hi. rewrite Hfr' by (unfold clone; lia). now apply Hfr2. }
  split.
  { rewrite <- Hname, <- Hdata, <- Hns, <- Hattrs.
    change (name cn) with
      (name (setChildNodes (childNodes cn ++ List.map rootOf nts) cn)).
    change (data cn) with
      (data (setChildNodes (childNodes cn ++ List.map rootOf nts) cn)).
    change (namespace cn) with
      (namespace (setChildNodes (childNodes cn ++ List.map rootOf nts) cn)).
    change (attrs cn) with
      (attrs (setChildNodes (childNodes cn ++ List.map rootOf nts) cn)).
    apply subtree_intro; [exact Htarget'| |].
    - cbn [setChildNodes childNodes]. rewrite Hch. exact Hsubs'.
    - cbn [setChildNodes templateContent].
      destruct (templateContent cn) as [tid|]; [|exact Htmpl'].
      destruct Htmpl' as (tt & Htt & -> & Hgt).
      exists tt. split; [|reflexivity].
      apply (subtree_frame f s2 cur' _ _ Htt).
      intros i Hi Hil. apply Hfr'; [exact Hil|].
      rewrite Forall_forall in Hgt. pose proof (Hgt i Hi). lia. }
  split.
  { cbn [shapeOf]. rewrite Hshapes'. f_equal.
    destruct tmpl', tmpl; cbn in Hshapet; congruence. }
  cbn [idsOf]. constructor; [unfold clone; lia|].
  apply Forall_app. split.
  - eapply Forall_impl; [exact Hids'|]. cbn. intros i Hi. lia.
  - destruct (templateContent cn) as [tid|].
    + destruct Htmpl' as (tt & _ & -> & Hgt).
      eapply Forall_impl; [exact Hgt|]. cbn. unfold clone. intros i Hi. lia.
    + subst tmpl'. constructor.
Qed.

(** X1. A deep [cloneNode] of a node whose tree [t] can be read within
    the fuel returns a new node, the next of the store; it leaves every
    node of the store as it was; and the tree under the copy has the
    shape of [t] (names, payloads, namespaces, attributes, children in
    order and template contents) and consists of new nodes only. *)
Theorem cloneNode_deep_copy (fuel : nat) (this : NodeId) (s : Store)
  (t : Tree) :
  subtree fuel s this = Some t ->
  templatesComplete t = true ->
  exists s' t',
    cloneNode fuel true this s = Ok (List.length s, s')
    /\ (forall i, (i < List.length s)%nat -> s' !! i = s !! i)
    /\ subtree fuel s' (List.length s) = Some t'
    /\ shapeOf t' = shapeOf t
    /\ Forall (fun i => (List.length s <= i)%nat) (idsOf t').
Proof.
  intros H Htc.
  destruct (copies_all fuel this s t H Htc)
    as (s' & t' & Hc & _ & Hfr & Hsub & Hshape & Hids).
  exists s', t'. auto.
Qed.

(** The copy of [b], which has the child [c]. *)
Lemma cloneNode_deep_copy_witness :
  exists t s' t',
    subtree 3 ExampleStores.attachedStore 1 = Some t
    /\ cloneNode 3 true 1 ExampleStores.attachedStore = Ok (3%nat, s')
    /\ subtree 3 s' 3 = Some t'
    /\ shapeOf t' = shapeOf t.
Proof.
  destruct (subtree 3 ExampleStores.attachedStore 1) as [t|] eqn:Ht;
    [|vm_compute in Ht; discriminate Ht].
  destruct (cloneNode_deep_copy 3 1 ExampleStores.attachedStore t Ht)
    as (s' & t' & Hc & _ & Hsub & Hshape & _).
  { vm_compute in Ht. injection Ht as <-. vm_compute. reflexivity. }
  exists t, s', t'. auto.
Defined.

End CloneFacts.

(** ** The operations of Node *)

Module NodeFacts.

Import Dom DomFacts.

Lemma indexOfNode_app_fresh (node : NodeId) (l : list NodeId) :
  node ∉ l -> indexOfNode node (l ++ [node]) = Some (List.length l).
Proof.
  induction l as [|x l IH]; intros Hn; cbn.
  - now rewrite Nat.eqb_refl.
  - destruct (x =? node)%nat eqn:Hq.
    + apply Nat.eqb_eq in Hq. subst. exfalso. apply Hn. apply list_elem_of_here.
    + rewrite IH; [reflexivity|]. intros Hin. apply Hn.
      now apply list_elem_of_further.
Qed.

Lemma delete_app_last {A : Type} (l : list A) (x : A) :
  delete (List.length l) (l ++ [x]) = l.
Proof.
  induction l as [|y l IH]; [reflexivity|]. cbn. f_equal. exact IH.
Qed.

Lemma indexOfNode_None (node : NodeId) (l : list NodeId) :
  indexOfNode node l = None <-> node ∉ l.
Proof.
  induction l as [|x l IH]; cbn.
  - split; [intros _ H; inversion H|reflexivity].
  - destruct (x =? node)%nat eqn:Hq.
    + apply Nat.eqb_eq in Hq. subst. split; [discriminate|].
      intros H. exfalso. apply H. apply list_elem_of_here.
    + apply Nat.eqb_neq in Hq. destruct (indexOfNode node l) as [i|]; cbn.
      * split; [discriminate|]. intros H. exfalso.
        destruct IH as [_ IH].
        destruct (decide (node ∈ l)) as [Hin|Hnin].
        -- apply H. now apply list_elem_of_further.
        -- now specialize (IH Hnin).
      * split; [|reflexivity]. intros _ Hin.
        apply elem_of_cons in Hin as [->|Hin]; [congruence|].
        destruct IH as [IH _]. now apply IH.
Qed.

(** The index that [indexOf] returns is the first at which the node
    occurs. *)
Lemma indexOfNode_first (node : NodeId) (l : list NodeId) (i : nat) :
  indexOfNode node l = Some i ->
  l !! i = Some node /\ forall j, (j < i)%nat -> l !! j <> Some node.
Proof.
  revert i. induction l as [|x l IH]; intros i H; [discriminate|].
  cbn in H. destruct (x =? node)%nat eqn:Hq.
  - apply Nat.eqb_eq in Hq. injection H as <-. subst.
    split; [reflexivity|]. intros j Hj. lia.
  - apply Nat.eqb_neq in Hq.
    destruct (indexOfNode node l) as [i'|]; [|discriminate].
    injection H as <-. destruct (IH i' eq_refl) as [Hi Hbefore].
    split; [exact Hi|]. intros [|j] Hj; cbn.
    + congruence.
    + apply Hbefore. lia.
Qed.

(** X3. Removing a node that was just appended restores the store: for a
    node that was detached (no parent, and not in the child list of
    [this]), [removeChild] after [appendChild] returns the store as it
    was before both. *)
Theorem removeChild_appendChild (this node : NodeId) (s : Store)
  (tn : Node) :
  s !! this = Some tn ->
  node ∉ childNodes tn ->
  (forall nn, s !! node = Some nn -> parentNode nn = None) ->
  removeChild this node (appendChild this node s) = Ok s.
Proof.
  intros Ht Hfresh Hpar. unfold removeChild.
  assert (Hch : childrenOf (appendChild this node s) this
                = childNodes tn ++ [node]).
  { unfold childrenOf, appendChild. rewrite list_lookup_alter.
    destruct (decide (node = this)) as [->|Hne].
    - rewrite list_lookup_alter_eq, Ht. reflexivity.
    - rewrite list_lookup_alter_eq, Ht. reflexivity. }
  rewrite Hch, (indexOfNode_app_fresh _ _ Hfresh). f_equal.
  apply list_eq. intros i. unfold appendChild.
  rewrite !list_lookup_alter.
  repeat case_decide; subst; try congruence.
  - rewrite Ht. cbn. f_equal. pose proof (Hpar tn Ht) as Hp.
    destruct tn; cbn in *; subst. unfold setParentNode, setChildNodes. cbn.
    now rewrite delete_app_last.
  - destruct (s !! i) as [x|] eqn:Hx; [|reflexivity].
    cbn. f_equal. pose proof (Hpar x eq_refl) as Hp.
    destruct x; cbn in *. now subst.
  - rewrite Ht. cbn. f_equal.
    destruct tn; cbn in *. unfold setChildNodes. cbn.
    now rewrite delete_app_last.
Qed.

(** [c] appended to [a] and removed again, in the store where [c] is
    detached. *)
Lemma removeChild_appendChild_witness :
  removeChild 0 2 (appendChild 0 2 ExampleStores.threeNodes)
  = Ok ExampleStores.threeNodes.
Proof.
  destruct (ExampleStores.threeNodes !! 0%nat) as [tn|] eqn:Ht;
    [|vm_compute in Ht; discriminate Ht].
  apply (removeChild_appendChild 0 2 ExampleStores.threeNodes tn Ht).
  - vm_compute in Ht. injection Ht as <-. cbn. apply not_elem_of_nil.
  - intros nn Hn. vm_compute in Hn. injection Hn as <-. reflexivity.
Defined.

(** X4. [removeChild] throws exactly when the node is not in the child
    list of [this]; otherwise it removes the first occurrence of the node
    from that list, leaves the other child lists as they are, and clears
    the parent of the node. *)
Theorem removeChild_spec (this node : NodeId) (s : Store) :
  (node ∉ childrenOf s this ->
   removeChild this node s = Raise "Node is not a child of this node")
  /\ (node ∈ childrenOf s this ->
      exists s' i,
        removeChild this node s = Ok s'
        /\ childrenOf s this !! i = Some node
        /\ (forall j, (j < i)%nat -> childrenOf s this !! j <> Some node)
        /\ childrenOf s' this = delete i (childrenOf s this)
        /\ (forall n, n <> this -> childrenOf s' n = childrenOf s n)
        /\ (forall nn, s' !! node = Some nn -> parentNode nn = None)).
Proof.
  unfold removeChild. split.
  - intros Hn. apply indexOfNode_None in Hn. now rewrite Hn.
  - intros Hin.
    destruct (indexOfNode node (childrenOf s this)) as [i|] eqn:Hi.
    2: { apply indexOfNode_None in Hi. contradiction. }
    destruct (indexOfNode_first _ _ _ Hi) as [Hat Hbefore].
    eexists _, i. split; [reflexivity|]. split; [exact Hat|].
    split; [exact Hbefore|]. split; [|split].
    + unfold childrenOf. rewrite list_lookup_alter.
      destruct (decide (node = this)) as [->|Hne].
      * rewrite list_lookup_alter_eq.
        destruct (s !! this) as [tn|]; reflexivity.
      * rewrite list_lookup_alter_eq.
        destruct (s !! this) as [tn|]; reflexivity.
    + intros n Hne. unfold childrenOf. rewrite list_lookup_alter.
      destruct (decide (node = n)) as [->|Hnn].
      * rewrite list_lookup_alter_ne by congruence.
        destruct (s !! n) as [x|]; reflexivity.
      * rewrite list_lookup_alter_ne by congruence. reflexivity.
    + intros nn Hnn. rewrite list_lookup_alter_eq in Hnn.
      destruct (alter _ this s !! node) as [x|]; [|discriminate Hnn].
      cbn in Hnn. injection Hnn as <-. reflexivity.
Qed.

(** X5. [insertBefore] with a reference node throws exactly when the
    reference is not in the child list of [this]; otherwise the node
    stands in that list at the place where the reference was first found,
    directly before it, the rest of the list is as it was, and [this] is
    the parent of the node. *)
Theorem insertBefore_spec (this node ref : NodeId) (s : Store) :
  (ref ∉ childrenOf s this ->
   insertBefore this node (Some ref) s
   = Raise "Reference node is not a child of this node")
  /\ (ref ∈ childrenOf s this ->
      exists s' i,
        insertBefore this node (Some ref) s = Ok s'
        /\ childrenOf s this !! i = Some ref
        /\ (forall j, (j < i)%nat -> childrenOf s this !! j <> Some ref)
        /\ childrenOf s' this
           = take i (childrenOf s this) ++ node :: drop i (childrenOf s this)
        /\ childrenOf s' this !! i = Some node
        /\ childrenOf s' this !! S i = Some ref
        /\ (forall nn, s' !! node = Some nn -> parentNode nn = Some this)).
Proof.
  unfold insertBefore. split.
  - intros Hn. apply indexOfNode_None in Hn. now rewrite Hn.
  - intros Hin.
    destruct (indexOfNode ref (childrenOf s this)) as [i|] eqn:Hi.
    2: { apply indexOfNode_None in Hi. contradiction. }
    destruct (indexOfNode_first _ _ _ Hi) as [Hat Hbefore].
    assert (Hlen : (i < List.length (childrenOf s this))%nat)
      by now apply lookup_lt_Some in Hat.
    assert (Hch : childrenOf
                    (alter (setParentNode (Some this)) node
                       (alter (fun n =>
                                 setChildNodes
                                   (take i (childNodes n)
                                    ++ node :: drop i (childNodes n)) n)
                              this s)) this
                  = take i (childrenOf s this)
                    ++ node :: drop i (childrenOf s this)).
    { unfold childrenOf in *. rewrite list_lookup_alter.
      destruct (decide (node = this)) as [->|Hne];
        rewrite list_lookup_alter_eq;
        (destruct (s !! this) as [tn|]; [reflexivity|cbn in Hlen; lia]). }
    eexists _, i. split; [reflexivity|]. split; [exact Hat|].
    split; [exact Hbefore|]. split; [exact Hch|].
    rewrite Hch. split; [|split].
    + rewrite lookup_app_r by (rewrite length_take; lia).
      rewrite length_take. replace (i - i `min` _)%nat with O by lia.
      reflexivity.
    + rewrite lookup_app_r by (rewrite length_take; lia).
      rewrite length_take.
      replace (S i - i `min` _)%nat with 1%nat by lia.
      change (drop i (childrenOf s this) !! 0%nat = Some ref).
      rewrite lookup_drop, Nat.add_0_r. exact Hat.
    + intros nn Hnn. rewrite list_lookup_alter_eq in Hnn.
      destruct (alter _ this s !! node) as [x|]; [|discriminate Hnn].
      cbn in Hnn. injection Hnn as <-. reflexivity.
Qed.

(** Setting a parent changes no child list; setting the child list of a
    node changes that list only. *)
Lemma childrenOf_setParentNode (p : option NodeId) (i : NodeId) (s : Store)
  (j : NodeId) :
  childrenOf (alter (setParentNode p) i s) j = childrenOf s j.
Proof.
  unfold childrenOf. rewrite list_lookup_alter.
  destruct (decide (i = j)) as [->|]; destruct (s !! j); reflexivity.
Qed.

Lemma childrenOf_setChildNodes (g : list NodeId -> list NodeId)
  (i : NodeId) (s : Store) (j : NodeId) :
  childrenOf (alter (fun n => setChildNodes (g (childNodes n)) n) i s) j
  = if decide (i = j)
    then match s !! j with Some n => g (childNodes n) | None => [] end
    else childrenOf s j.
Proof.
  unfold childrenOf. rewrite list_lookup_alter.
  destruct (decide (i = j)) as [->|]; destruct (s !! j); reflexivity.
Qed.

(** X26. [replaceChild] throws exactly when the old node is not in the
    child list of [this]; otherwise the new node takes the place where
    the old node was first found, the list keeps its length and its other
    entries, the other child lists are as they were, [this] is the parent
    of the new node, and the old node, when it is another node than the
    new one, has no parent. *)
Theorem replaceChild_spec (this newNode oldNode : NodeId) (s : Store) :
  (oldNode ∉ childrenOf s this ->
   replaceChild this newNode oldNode s
   = Raise "Old node is not a child of this node")
  /\ (oldNode ∈ childrenOf s this ->
      exists s' i,
        replaceChild this newNode oldNode s = Ok s'
        /\ childrenOf s this !! i = Some oldNode
        /\ (forall j, (j < i)%nat -> childrenOf s this !! j <> Some oldNode)
        /\ childrenOf s' this = <[i:=newNode]> (childrenOf s this)
        /\ (forall n, n <> this -> childrenOf s' n = childrenOf s n)
        /\ (forall nn, s' !! newNode = Some nn -> parentNode nn = Some this)
        /\ (oldNode <> newNode ->
            forall nn, s' !! oldNode = Some nn -> parentNode nn = None)).
Proof.
  unfold replaceChild. split.
  - intros Hn. apply indexOfNode_None in Hn. now rewrite Hn.
  - intros Hin.
    destruct (indexOfNode oldNode (childrenOf s this)) as [i|] eqn:Hi.
    2: { apply indexOfNode_None in Hi. contradiction. }
    destruct (indexOfNode_first _ _ _ Hi) as [Hat Hbefore].
    eexists _, i. split; [reflexivity|]. split; [exact Hat|].
    split; [exact Hbefore|]. split; [|split; [|split]].
    + rewrite !childrenOf_setParentNode, childrenOf_setChildNodes.
      rewrite decide_True by reflexivity. unfold childrenOf.
      destruct (s !! this) as [tn|]; reflexivity.
    + intros n Hne.
      rewrite !childrenOf_setParentNode, childrenOf_setChildNodes.
      now rewrite decide_False by congruence.
    + intros nn Hnn. rewrite list_lookup_alter_eq in Hnn.
      destruct (alter _ oldNode _ !! newNode) as [x|]; [|discriminate Hnn].
      cbn in Hnn. injection Hnn as <-. reflexivity.
    + intros Hne nn Hnn.
      rewrite list_lookup_alter_ne in Hnn by congruence.
      rewrite list_lookup_alter_eq in Hnn.
      destruct (alter _ this s !! oldNode) as [x|]; [|discriminate Hnn].
      cbn in Hnn. injection Hnn as <-. reflexivity.
Qed.

End NodeFacts.

(** ** The getters of Node *)

Module NodeGetterFacts.

Import Dom DomFacts CloneFacts.

Lemma previousSiblingScan_spec (s : Store) (this : NodeId)
  (before after : list NodeId) :
  this ∉ before ->
  forall prev,
    previousSiblingScan s this (before ++ this :: after) prev
    = match last (List.filter (isElement s) before) with
      | Some x => Some x
      | None => prev
      end.
Proof.
  induction before as [|c before IH]; intros Hnot prev; cbn.
  - now rewrite Nat.eqb_refl.
  - destruct (c =? this)%nat eqn:Hq.
    { apply Nat.eqb_eq in Hq. subst. exfalso. apply Hnot.
      apply list_elem_of_here. }
    rewrite IH by (intros Hin; apply Hnot; now apply list_elem_of_further).
    destruct (isElement s c); [|reflexivity].
    destruct (List.filter (isElement s) before) as [|x l] eqn:Hf;
      [reflexivity|].
    change (last (c :: x :: l)) with (last (x :: l)).
    destruct (last (x :: l)) eqn:Hl; [reflexivity|].
    now apply last_None in Hl.
Qed.

Lemma previousSiblingScan_absent (s : Store) (this : NodeId)
  (l : list NodeId) :
  this ∉ l -> forall prev, previousSiblingScan s this l prev = None.
Proof.
  induction l as [|c l IH]; intros Hnot prev; [reflexivity|]. cbn.
  destruct (c =? this)%nat eqn:Hq.
  { apply Nat.eqb_eq in Hq. subst. exfalso. apply Hnot.
    apply list_elem_of_here. }
  apply IH. intros Hin. apply Hnot. now apply list_elem_of_further.
Qed.

(** X7. The getter [previousSibling] returns the last element node that
    stands before the node in the child list of its parent: nodes that
    are not elements (text, comments, doctypes) are passed over. It
    returns nothing for a node without a parent and for a node that the
    child list of its parent does not hold. *)
Theorem previousSibling_spec (s : Store) (this : NodeId) (n : Node) :
  s !! this = Some n ->
  (parentNode n = None -> previousSibling s this = None)
  /\ (forall parent,
         parentNode n = Some parent ->
         this ∉ childrenOf s parent ->
         previousSibling s this = None)
  /\ (forall parent before after,
         parentNode n = Some parent ->
         childrenOf s parent = before ++ this :: after ->
         this ∉ before ->
         previousSibling s this
         = last (List.filter (isElement s) before)).
Proof.
  intros Hn. unfold previousSibling. rewrite Hn.
  split; [now intros ->|]. split.
  - intros parent -> Hnot. now apply previousSiblingScan_absent.
  - intros parent before after -> -> Hnot.
    rewrite previousSiblingScan_spec by exact Hnot.
    now destruct (last _).
Qed.

(** The element [b] of the example store: the text node before it is
    passed over. *)
Lemma previousSibling_spec_witness :
  previousSibling ExampleStores.siblingStore 3 = Some 1%nat.
Proof.
  destruct (ExampleStores.siblingStore !! 3%nat) as [n|] eqn:Hn;
    [|vm_compute in Hn; discriminate Hn].
  destruct (previousSibling_spec ExampleStores.siblingStore 3 n Hn)
    as (_ & _ & H).
  rewrite (H 0%nat [1%nat; 2%nat] []).
  - vm_compute. reflexivity.
  - vm_compute in Hn. injection Hn as <-. reflexivity.
  - vm_compute. reflexivity.
  - intros Hin. apply elem_of_cons in Hin as [Hin|Hin]; [discriminate|].
    apply list_elem_of_singleton in Hin. discriminate.
Defined.

(** *** The text of a tree *)

Lemma textParts_children (f : nat) (strip : bool) (s s' : Store)
  (IH : forall id t id' t',
      subtree f s id = Some t -> subtree f s' id' = Some t' ->
      shapeOf t = shapeOf t' ->
      exists parts, textParts f strip s id = Ok parts
                    /\ textParts f strip s' id' = Ok parts) :
  forall cs cts cs' cts',
    Forall2 (fun c ct => subtree f s c = Some ct) cs cts ->
    Forall2 (fun c ct => subtree f s' c = Some ct) cs' cts' ->
    List.map shapeOf cts = List.map shapeOf cts' ->
    forall acc,
    exists parts,
      foldl (fun acc child =>
               parts ← acc;
               more ← textParts f strip s child;
               mret (parts ++ more)) (Ok acc) cs = Ok parts
      /\ foldl (fun acc child =>
                  parts ← acc;
                  more ← textParts f strip s' child;
                  mret (parts ++ more)) (Ok acc) cs' = Ok parts.
Proof.
  induction cs as [|c cs IHcs]; intros cts cs' cts' H H' Hshape acc.
  - inversion H; subst. destruct cts' as [|ct' cts']; [|discriminate Hshape].
    inversion H'; subst. exists acc. split; reflexivity.
  - inversion H as [|c0 ct l cts0 Hc Hrest]; subst.
    destruct cts' as [|ct' cts']; [discriminate Hshape|].
    inversion H' as [|c0' ct0' cs0' l' Hc' Hrest']; subst.
    cbn [List.map] in Hshape. injection Hshape as Hs1 Hs2.
    destruct (IH _ _ _ _ Hc Hc' Hs1) as (more & Hm & Hm').
    destruct (IHcs _ _ _ Hrest Hrest' Hs2 (acc ++ more))
      as (parts & Hp & Hp').
    exists parts. cbn [foldl]. cbn [mbind result_bind].
    rewrite Hm, Hm'. split; [exact Hp|exact Hp'].
Qed.

(** The parts that [toText] collects depend on the shape of the tree
    only. *)
Lemma textParts_shape (f : nat) (strip : bool) (s s' : Store) :
  forall id t id' t',
    subtree f s id = Some t -> subtree f s' id' = Some t' ->
    shapeOf t = shapeOf t' ->
    exists parts, textParts f strip s id = Ok parts
                  /\ textParts f strip s' id' = Ok parts.
Proof.
  induction f as [|f IH]; intros id t id' t' H H' Hshape; [discriminate H|].
  apply subtree_inv in H as (n & cts & tmpl & Hn & Hc & Ht & ->).
  apply subtree_inv in H' as (n' & cts' & tmpl' & Hn' & Hc' & Ht' & ->).
  cbn [shapeOf] in Hshape.
  injection Hshape as Hname Hdata _ _ Hcts Htmpl.
  cbn [textParts]. rewrite Hn, Hn'. unfold dataString.
  rewrite <- Hname, <- Hdata.
  destruct (str_eqb (name n) (lit "#text")); [eauto|].
  destruct (textParts_children f strip s s' IH _ _ _ _ Hc Hc' Hcts [])
    as (below & Hb & Hb').
  change (mret []) with (Ok (@nil jsstring)).
  rewrite Hb, Hb'. cbn [mbind result_bind].
  destruct (templateContent n) as [tid|], (templateContent n') as [tid'|].
  - destruct Ht as (tt & Htt & ->), Ht' as (tt' & Htt' & ->).
    injection Htmpl as Htmpl.
    destruct (IH _ _ _ _ Htt Htt' Htmpl) as (parts & Hp & Hp').
    rewrite Hp, Hp'. eauto.
  - destruct Ht as (tt & Htt & ->). subst tmpl'. discriminate Htmpl.
  - destruct Ht' as (tt' & Htt' & ->). subst tmpl. discriminate Htmpl.
  - eauto.
Qed.

(** X8. The text of a deep copy is the text of the original: for a node
    whose tree can be read within the fuel, [toText] returns on the node
    and on its deep [cloneNode], with the same string, for every
    separator and both values of [strip]. *)
Theorem toText_cloneNode (fuel : nat) (separator : jsstring) (strip : bool)
  (this : NodeId) (s : Store) (t : Tree) :
  subtree fuel s this = Some t ->
  templatesComplete t = true ->
  exists s' txt,
    cloneNode fuel true this s = Ok (List.length s, s')
    /\ toText fuel separator strip s this = Ok txt
    /\ toText fuel separator strip s' (List.length s) = Ok txt.
Proof.
  intros H Htc.
  destruct (copies_all fuel this s t H Htc)
    as (s' & t' & Hc & _ & _ & Hsub & Hshape & _).
  destruct (textParts_shape fuel strip s s' _ _ _ _ H Hsub (eq_sym Hshape))
    as (parts & Hp & Hp').
  exists s', (joinWith separator parts). split; [exact Hc|].
  unfold toText. rewrite Hp, Hp'. split; reflexivity.
Qed.

(** The [div] of the example store and its copy: the text of both is
    [x]. *)
Lemma toText_cloneNode_witness :
  exists s',
    cloneNode 3 true 0 ExampleStores.siblingStore = Ok (4%nat, s')
    /\ toText 3 (lit " ") true ExampleStores.siblingStore 0 = Ok (lit "x")
    /\ toText 3 (lit " ") true s' 4 = Ok (lit "x").
Proof.
  destruct (subtree 3 ExampleStores.siblingStore 0) as [t|] eqn:Ht;
    [|vm_compute in Ht; discriminate Ht].
  destruct (toText_cloneNode 3 (lit " ") true 0 ExampleStores.siblingStore
              t Ht)
    as (s' & txt & Hc & Htxt & Htxt').
  { vm_compute in Ht. injection Ht as <-. vm_compute. reflexivity. }
  exists s'. split; [exact Hc|].
  assert (Hx : txt = lit "x").
  { vm_compute in Htxt. injection Htxt as <-. reflexivity. }
  subst txt. split; [exact Htxt|exact Htxt'].
Defined.

End NodeGetterFacts.

(** ** The content of selectedcontent elements *)

Module SelectedContentFacts.

Import Dom DomFacts CloneFacts TreeBuilder.

(** An exception, once raised, ends a loop. *)
Lemma foldl_not_Ok {A B : Type} (f : result B -> A -> result B) (l : list A)
  (r : result B) :
  (forall a, f r a = r) -> foldl f r l = r.
Proof.
  intros Hf. induction l as [|a l IH]; [reflexivity|].
  cbn [foldl]. now rewrite Hf.
Qed.

Lemma foldl_bind_Ok {A B : Type} (f : B -> A -> result B) (l : list A) :
  forall (r : result B) (b' : B),
    foldl (fun acc a => b ← acc; f b a) r l = Ok b' ->
    exists b0, r = Ok b0.
Proof.
  induction l as [|a l IH]; intros r b' H.
  - cbn in H. eauto.
  - cbn [foldl] in H. apply IH in H as (b1 & H).
    destruct r as [b0| | |]; try discriminate H. eauto.
Qed.

(** X6. [findElement] returns the first of the nodes that [findElements]
    lists for the same node and name, and nothing when the list is
    empty. *)
Theorem findElement_head (fuel : nat) (s : Store) (name : jsstring) :
  forall (node : NodeId) (l : list NodeId),
    findElements fuel s node name = Ok l ->
    findElement fuel s node name = Ok (head l).
Proof.
  induction fuel as [|fuel IH]; intros node l H; [discriminate H|].
  cbn [findElements findElement] in *.
  destruct (s !! node) as [n|]; [|discriminate H].
  apply bind_Ok in H as (below & Hbelow & H).
  apply bind_Ok in H as (inTemplate & Htmpl & H).
  injection H as <-.
  destruct (str_eqb (Dom.name n) name); [reflexivity|].
  cbn [app].
  assert (Hfold : forall cs acc out,
             foldl (fun acc child =>
                      found ← acc;
                      more ← findElements fuel s child name;
                      mret (found ++ more)) (Ok acc) cs = Ok out ->
             foldl (fun acc child =>
                      found ← acc;
                      match found with
                      | Some _ => mret found
                      | None => findElement fuel s child name
                      end) (Ok (head acc)) cs = Ok (head out)).
  { induction cs as [|c cs IHcs]; intros acc out Hf.
    - cbn in Hf. injection Hf as <-. reflexivity.
    - cbn [foldl] in Hf |- *. cbn [mbind result_bind] in Hf |- *.
      destruct (findElements fuel s c name) as [more| | |] eqn:Hmore;
        try (apply foldl_bind_Ok in Hf as (? & Hf); discriminate Hf).
      cbn in Hf. apply IHcs in Hf.
      destruct acc as [|x acc]; cbn [head app] in *.
      + rewrite (IH c more Hmore). exact Hf.
      + exact Hf. }
  specialize (Hfold (childNodes n) [] below Hbelow). cbn [head] in Hfold.
  change (mret None) with (Ok (@None NodeId)).
  rewrite Hfold. cbn [mbind result_bind].
  destruct below as [|x below]; cbn [head app]; [|reflexivity].
  destruct (templateContent n) as [t|].
  - now apply IH.
  - injection Htmpl as <-. reflexivity.
Qed.

(** The nodes that [findElements] lists are nodes of the store and have
    the name. *)
Lemma findElements_named (fuel : nat) (s : Store) (name : jsstring) :
  forall (node : NodeId) (l : list NodeId),
    findElements fuel s node name = Ok l ->
    Forall (fun x => exists n, s !! x = Some n
                               /\ str_eqb (Dom.name n) name = true) l.
Proof.
  induction fuel as [|fuel IH]; intros node l H; [discriminate H|].
  cbn [findElements] in H.
  destruct (s !! node) as [n|] eqn:Hn; [|discriminate H].
  apply bind_Ok in H as (below & Hbelow & H).
  apply bind_Ok in H as (inTemplate & Htmpl & H).
  injection H as <-.
  apply Forall_app. split.
  { destruct (str_eqb (Dom.name n) name) eqn:Hq; constructor; eauto. }
  apply Forall_app. split.
  - apply (foldl_Ok (fun found child =>
                       more ← findElements fuel s child name;
                       mret (found ++ more))
             (childNodes n)
             (Forall (fun x => exists n, s !! x = Some n
                               /\ str_eqb (Dom.name n) name = true)))
      with (b0 := []); [|constructor|exact Hbelow].
    intros b a b' _ Hb Hf. apply bind_Ok in Hf as (more & Hmore & Hf).
    injection Hf as <-. apply Forall_app. split; [exact Hb|].
    exact (IH a more Hmore).
  - destruct (templateContent n) as [t|].
    + exact (IH t inTemplate Htmpl).
    + injection Htmpl as <-. constructor.
Qed.

(** The node that [findElement] returns is a node of the store and has
    the name. *)
Lemma findElement_named (fuel : nat) (s : Store) (name : jsstring) :
  forall (node x : NodeId),
    findElement fuel s node name = Ok (Some x) ->
    exists n, s !! x = Some n /\ str_eqb (Dom.name n) name = true.
Proof.
  induction fuel as [|fuel IH]; intros node x H; [discriminate H|].
  cbn [findElement] in H.
  destruct (s !! node) as [n|] eqn:Hn; [|discriminate H].
  destruct (str_eqb (Dom.name n) name) eqn:Hq.
  { injection H as <-. eauto. }
  apply bind_Ok in H as (below & Hbelow & H).
  assert (Hb : forall y, below = Some y ->
                         exists n, s !! y = Some n
                                   /\ str_eqb (Dom.name n) name = true).
  { apply (foldl_Ok (fun found child =>
                       match found with
                       | Some _ => mret found
                       | None => findElement fuel s child name
                       end)
             (childNodes n)
             (fun found => forall y, found = Some y ->
                                     exists n, s !! y = Some n
                                       /\ str_eqb (Dom.name n) name = true))
      with (b0 := None); [|discriminate|exact Hbelow].
    intros b a b' _ Hb Hf. destruct b as [y|].
    - injection Hf as <-. exact Hb.
    - intros y ->. exact (IH a y Hf). }
  destruct below as [y|].
  - injection H as <-. now apply Hb.
  - destruct (templateContent n) as [t|]; [|discriminate H].
    exact (IH t x H).
Qed.

Lemma selectedOptionOf_elem (s : Store) (options : list NodeId)
  (opt : NodeId) :
  selectedOptionOf s options = Some opt -> opt ∈ options.
Proof.
  unfold selectedOptionOf. destruct options as [|first rest]; [discriminate|].
  destruct (List.find _ (first :: rest)) as [o|] eqn:Hf; intros H;
    injection H as <-.
  - apply find_some in Hf as [Hin _]. now apply list_elem_of_In.
  - apply list_elem_of_here.
Qed.

Lemma str_eqb_trans_false (a b c : jsstring) :
  str_eqb a b = true -> str_eqb a c = true -> str_eqb b c = true.
Proof.
  intros Hab Hac. apply str_eqb_eq in Hab, Hac. subst. apply str_eqb_refl.
Qed.



(** The options of the [select] of the example store. *)
Lemma findElement_head_witness :
  findElement 5 ExampleStores.selectStore 0 (lit "option") = Ok (Some 2%nat).
Proof.
  apply (findElement_head 5 ExampleStores.selectStore (lit "option") 0
           [2%nat]).
  vm_compute. reflexivity.
Defined.

End SelectedContentFacts.

(** ** The end of a fragment parse *)

Module FinishFacts.

Import Dom DomFacts TreeBuilder.

(** The child list and the parent of every node after a change of the
    child list of [this] and of the parent of [node]. *)
Lemma relink_childrenOf (g : list NodeId -> list NodeId) (p : option NodeId)
  (this node : NodeId) (s : Store) (j : NodeId) :
  childrenOf
    (alter (setParentNode p) node
           (alter (fun x => setChildNodes (g (childNodes x)) x) this s)) j
  = if decide (j = this)
    then match s !! j with Some n => g (childNodes n) | None => [] end
    else childrenOf s j.
Proof.
  unfold childrenOf. rewrite !list_lookup_alter.
  destruct (decide (node = j)) as [->|Hn], (decide (this = j)) as [->|Ht];
    rewrite ?decide_True by reflexivity;
    rewrite ?decide_False by congruence;
    destruct (s !! j); reflexivity.
Qed.

Lemma relink_parentNode (g : list NodeId -> list NodeId) (p : option NodeId)
  (this node : NodeId) (s : Store) (j : NodeId) :
  alter (setParentNode p) node
        (alter (fun x => setChildNodes (g (childNodes x)) x) this s) !! j
    ≫= parentNode
  = if decide (j = node) then s !! j ≫= (fun _ => p)
    else s !! j ≫= parentNode.
Proof.
  rewrite !list_lookup_alter.
  destruct (decide (node = j)) as [->|Hn], (decide (this = j)) as [->|Ht];
    rewrite ?decide_True by reflexivity;
    rewrite ?decide_False by congruence;
    destruct (s !! j); reflexivity.
Qed.

(** One round of the loop that moves the children of [from] to [to]. *)
Definition moveChild (from to : NodeId) (acc : result Store)
  (child : NodeId) : result Store :=
  s ← acc;
  s ← removeChild from child s;
  mret (appendChild to child s).

Lemma moveChildren_loop (from to : NodeId) (cs : list NodeId) :
  from <> to ->
  forall s : Store,
    is_Some (s !! to) ->
    childrenOf s from = cs ->
    exists s',
      foldl (moveChild from to) (Ok s) cs = Ok s'
      /\ List.length s' = List.length s
      /\ childrenOf s' from = []
      /\ childrenOf s' to = childrenOf s to ++ cs
      /\ (forall j, j <> from -> j <> to -> childrenOf s' j = childrenOf s j)
      /\ (forall c, c ∈ cs ->
                    s' !! c ≫= parentNode = s !! c ≫= (fun _ => Some to))
      /\ (forall j, j ∉ cs -> s' !! j ≫= parentNode = s !! j ≫= parentNode).
Proof.
  intros Hne. induction cs as [|c cs IH]; intros s Hto Hcs.
  - exists s. cbn [foldl]. rewrite app_nil_r.
    repeat split; try reflexivity; try assumption.
    intros c Hc. inversion Hc.
  - cbn [foldl]. unfold moveChild at 2. cbn [mbind result_bind].
    unfold removeChild. rewrite Hcs. cbn [indexOfNode].
    rewrite Nat.eqb_refl. cbv zeta. cbn [mbind result_bind mret result_ret].
    unfold appendChild.
    set (s1 := alter (setParentNode None) c
                 (alter (fun n => setChildNodes (delete 0%nat (childNodes n)) n)
                        from s)).
    set (s2 := alter (setParentNode (Some to)) c
                 (alter (fun n => setChildNodes (childNodes n ++ [c]) n)
                        to s1)).
    assert (Hfrom : exists nf, s !! from = Some nf /\ childNodes nf = c :: cs).
    { unfold childrenOf in Hcs. destruct (s !! from) as [nf|]; [|discriminate].
      eauto. }
    destruct Hfrom as (nf & Hnf & Hnfc). destruct Hto as [nt Hnt].
    assert (Hch1 : forall j,
               childrenOf s1 j
               = if decide (j = from) then cs else childrenOf s j).
    { intros j. unfold s1.
      rewrite (relink_childrenOf (delete 0%nat) None from c s j).
      destruct (decide (j = from)) as [->|]; [|reflexivity].
      now rewrite Hnf, Hnfc. }
    assert (Hlen1 : List.length s1 = List.length s).
    { unfold s1. now rewrite !length_alter. }
    assert (Hto1 : is_Some (s1 !! to)).
    { apply lookup_lt_is_Some. rewrite Hlen1.
      apply lookup_lt_is_Some. eauto. }
    assert (Hch2 : forall j,
               childrenOf s2 j
               = if decide (j = to) then childrenOf s to ++ [c]
                 else if decide (j = from) then cs else childrenOf s j).
    { intros j. unfold s2.
      rewrite (relink_childrenOf (fun l => l ++ [c]) (Some to) to c s1 j).
      destruct (decide (j = to)) as [->|]; [|apply Hch1].
      destruct Hto1 as [nt1 Hnt1]. rewrite Hnt1.
      pose proof (Hch1 to) as H1. unfold childrenOf at 1 in H1.
      rewrite Hnt1 in H1. rewrite H1.
      now rewrite decide_False by congruence. }
    assert (Hpar2 : forall j,
               s2 !! j ≫= parentNode
               = if decide (j = c) then s !! j ≫= (fun _ => Some to)
                 else s !! j ≫= parentNode).
    { intros j. unfold s2.
      rewrite (relink_parentNode (fun l => l ++ [c]) (Some to) to c s1 j).
      destruct (decide (j = c)) as [->|Hj].
      - assert (Hiff : is_Some (s1 !! c) <-> is_Some (s !! c)).
        { rewrite !lookup_lt_is_Some. now rewrite Hlen1. }
        destruct (s1 !! c), (s !! c); cbn; try reflexivity.
        + destruct Hiff as [Hiff _]. destruct Hiff as [? Hx]; [eauto|].
          discriminate.
        + destruct Hiff as [_ Hiff]. destruct Hiff as [? Hx]; [eauto|].
          discriminate.
      - unfold s1.
        rewrite (relink_parentNode (delete 0%nat) None from c s j).
        now rewrite decide_False by exact Hj. }
    assert (Hlen2 : List.length s2 = List.length s).
    { unfold s2. now rewrite !length_alter. }
    destruct (IH s2) as (s' & Hrun & Hlen & Hf & Ht & Hother & Hmoved & Hkept).
    { apply lookup_lt_is_Some. rewrite Hlen2.
      apply lookup_lt_is_Some. eauto. }
    { rewrite Hch2. rewrite decide_False by exact Hne.
      now rewrite decide_True by reflexivity. }
    exists s'. split; [exact Hrun|]. split; [congruence|].
    split; [exact Hf|]. split.
    { rewrite Ht, Hch2, decide_True by reflexivity.
      now rewrite <- app_assoc. }
    split.
    { intros j Hjf Hjt. rewrite (Hother j Hjf Hjt), Hch2.
      now rewrite !decide_False by assumption. }
    split.
    { intros c' Hc'.
      destruct (decide (c' ∈ cs)) as [Hin|Hnin].
      - rewrite (Hmoved c' Hin).
        assert (Hiff : is_Some (s2 !! c') <-> is_Some (s !! c')).
        { rewrite !lookup_lt_is_Some. now rewrite Hlen2. }
        destruct (s2 !! c'), (s !! c'); cbn; try reflexivity.
        + destruct Hiff as [Hiff _]. destruct Hiff as [? Hx]; [eauto|].
          discriminate.
        + destruct Hiff as [_ Hiff]. destruct Hiff as [? Hx]; [eauto|].
          discriminate.
      - apply elem_of_cons in Hc' as [->|Hc']; [|contradiction].
        rewrite (Hkept c Hnin), Hpar2.
        now rewrite decide_True by reflexivity. }
    intros j Hj. rewrite Hkept.
    + rewrite Hpar2. rewrite decide_False; [reflexivity|].
      intros ->. apply Hj. apply list_elem_of_here.
    + intros Hin. apply Hj. now apply list_elem_of_further.
Qed.

(** X25. Moving the children of one node to another, as
    [finishTreeBuilder] does for the context element and for the root of
    a fragment, never raises: each child is found at the head of the list
    it is removed from. Afterwards the source has no child, the target
    has its own children followed by the moved ones in their order, each
    moved node has the target as its parent, and the child lists and
    parents of the other nodes are as before. *)
Theorem moveChildren_moves (from to : NodeId) (s : Store) :
  from <> to ->
  is_Some (s !! to) ->
  exists s',
    moveChildren from to s = Ok s'
    /\ List.length s' = List.length s
    /\ childrenOf s' from = []
    /\ childrenOf s' to = childrenOf s to ++ childrenOf s from
    /\ (forall j, j <> from -> j <> to -> childrenOf s' j = childrenOf s j)
    /\ (forall c, c ∈ childrenOf s from ->
                  s' !! c ≫= parentNode = s !! c ≫= (fun _ => Some to))
    /\ (forall j, j ∉ childrenOf s from ->
                  s' !! j ≫= parentNode = s !! j ≫= parentNode).
Proof.
  intros Hne Hto.
  exact (moveChildren_loop from to (childrenOf s from) Hne s Hto eq_refl).
Qed.

(** The text of the option moves to the selectedcontent element. *)
Lemma moveChildren_moves_witness :
  exists s',
    moveChildren 2%nat 1%nat ExampleStores.selectStore = Ok s'
    /\ List.length s' = List.length ExampleStores.selectStore
    /\ childrenOf s' 2%nat = []
    /\ childrenOf s' 1%nat
       = childrenOf ExampleStores.selectStore 1%nat
           ++ childrenOf ExampleStores.selectStore 2%nat
    /\ (forall j, j <> 2%nat -> j <> 1%nat ->
                  childrenOf s' j = childrenOf ExampleStores.selectStore j)
    /\ (forall c, c ∈ childrenOf ExampleStores.selectStore 2%nat ->
                  s' !! c ≫= parentNode
                  = ExampleStores.selectStore !! c ≫= (fun _ => Some 1%nat))
    /\ (forall j, j ∉ childrenOf ExampleStores.selectStore 2%nat ->
                  s' !! j ≫= parentNode
                  = ExampleStores.selectStore !! j ≫= parentNode).
Proof.
  apply moveChildren_moves; [discriminate|].
  vm_compute. eauto.
Defined.

End FinishFacts.

(** ** Encoding labels and the prescan *)

Module EncodingExtra.

Import Encoding EncodingFacts.

Lemma prefixEq_take (pattern data : bytes) :
  prefixEq pattern data = true <-> take (List.length pattern) data = pattern.
Proof.
  revert data. induction pattern as [|p pattern IH]; intros data; cbn.
  - split; [reflexivity|reflexivity].
  - destruct data as [|d data]; cbn; [split; discriminate|].
    rewrite andb_true_iff, Z.eqb_eq, IH. split.
    + intros [-> ->]. reflexivity.
    + intros H. injection H as -> H. split; [reflexivity|exact H].
Qed.

Lemma searchSubarray_spec (pattern : bytes) :
  forall (data : bytes) (i : nat),
    match searchSubarray pattern data i with
    | Some r =>
        (i <= r)%nat /\ (r - i + List.length pattern <= List.length data)%nat
        /\ take (List.length pattern) (drop (r - i) data) = pattern
        /\ forall j, (j < r - i)%nat ->
                     take (List.length pattern) (drop j data) <> pattern
    | None =>
        forall j, (j + List.length pattern <= List.length data)%nat ->
                  take (List.length pattern) (drop j data) <> pattern
    end.
Proof.
  induction data as [|d data IH]; intros i.
  - cbn [searchSubarray]. destruct (prefixEq pattern []) eqn:Hp.
    + apply prefixEq_take in Hp. rewrite Nat.sub_diag. cbn [drop].
      split; [lia|]. split.
      { rewrite <- Hp at 1. rewrite length_take. cbn. lia. }
      split; [exact Hp|]. intros j Hj. lia.
    + intros j Hj Heq. rewrite drop_nil in Heq.
      apply prefixEq_take in Heq. congruence.
  - cbn [searchSubarray]. destruct (prefixEq pattern (d :: data)) eqn:Hp.
    + apply prefixEq_take in Hp. rewrite Nat.sub_diag. cbn [drop].
      split; [lia|]. split.
      { rewrite <- Hp at 1. rewrite length_take. lia. }
      split; [exact Hp|]. intros j Hj. lia.
    + specialize (IH (S i)).
      destruct (searchSubarray pattern data (S i)) as [r|].
      * destruct IH as (Hle & Hlen & Hat & Hbefore).
        replace (r - i)%nat with (S (r - S i)) by lia. cbn [drop].
        split; [lia|]. split; [cbn [List.length]; lia|].
        split; [exact Hat|]. intros [|j] Hj.
        -- cbn [drop]. intros Heq. apply prefixEq_take in Heq. congruence.
        -- cbn [drop]. apply Hbefore. lia.
      * intros [|j] Hj.
        -- cbn [drop]. intros Heq. apply prefixEq_take in Heq. congruence.
        -- cbn [drop]. apply IH. cbn [List.length] in Hj. lia.
Qed.

(** X9. [indexOfSubarray] returns the first index from [start] on at
    which the pattern occurs in the data, and [-1] when the pattern
    occurs at no index from [start] on. *)
Theorem indexOfSubarray_first (data pattern : bytes) (start : nat) :
  match indexOfSubarray data pattern start with
  | Some i =>
      (start <= i)%nat /\ (i + List.length pattern <= List.length data)%nat
      /\ take (List.length pattern) (drop i data) = pattern
      /\ forall j, (start <= j < i)%nat ->
                   take (List.length pattern) (drop j data) <> pattern
  | None =>
      forall j, (start <= j)%nat ->
                (j + List.length pattern <= List.length data)%nat ->
                take (List.length pattern) (drop j data) <> pattern
  end.
Proof.
  unfold indexOfSubarray.
  destruct (Nat.ltb_spec (List.length data) start) as [Hlt|Hle].
  { intros j Hj Hlen. lia. }
  pose proof (searchSubarray_spec pattern (skipn start data) start) as H.
  destruct (searchSubarray pattern (skipn start data) start) as [r|].
  - destruct H as (Hge & Hlen & Hat & Hbefore).
    rewrite length_skipn in Hlen.
    change (skipn start data) with (drop start data) in *.
    rewrite drop_drop in Hat.
    replace (start + (r - start))%nat with r in Hat by lia.
    split; [exact Hge|]. split; [lia|]. split; [exact Hat|].
    intros j Hj. specialize (Hbefore (j - start)%nat).
    rewrite drop_drop in Hbefore.
    replace (start + (j - start))%nat with j in Hbefore by lia.
    apply Hbefore. lia.
  - intros j Hj Hlen. specialize (H (j - start)%nat).
    change (skipn start data) with (drop start data) in *.
    rewrite drop_drop, length_drop in H.
    replace (start + (j - start))%nat with j in H by lia.
    apply H. lia.
Qed.

(** *** Encoding labels *)

Lemma switchLabel_cases (s enc : jsstring) :
  switchLabel s labelCases = Some enc ->
  enc ∈ SUPPORTED_DECODE_HTML_ENCODINGS.
Proof.
  unfold labelCases. cbn [switchLabel].
  repeat match goal with
         | |- context [if ?b then _ else _] => destruct b
         end;
    intros H; try discriminate H; injection H as <-;
    apply list_elem_of_In; vm_compute; tauto.
Qed.

Lemma switchLabel_supported (l : option label) (enc : jsstring) :
  normalizeEncodingLabel l = Some enc ->
  enc ∈ SUPPORTED_DECODE_HTML_ENCODINGS.
Proof.
  unfold normalizeEncodingLabel. intros H.
  destruct l as [[[|c s]|b]|]; try discriminate H;
    exact (switchLabel_cases _ _ H).
Qed.

(** X10. The encoding that [normalizeEncodingLabel] returns is one of the
    seven of [SUPPORTED_DECODE_HTML_ENCODINGS], and it is a label that
    normalizes to itself: normalizing twice is normalizing once. *)
Theorem normalizeEncodingLabel_idempotent (l : option label)
  (enc : jsstring) :
  normalizeEncodingLabel l = Some enc ->
  enc ∈ SUPPORTED_DECODE_HTML_ENCODINGS
  /\ normalizeEncodingLabel (Some (LabelString enc)) = Some enc.
Proof.
  intros H.
  pose proof (switchLabel_supported _ _ H) as Hin.
  split; [exact Hin|].
  unfold SUPPORTED_DECODE_HTML_ENCODINGS in Hin. cbn [List.map] in Hin.
  repeat (apply elem_of_cons in Hin as [->|Hin];
          [vm_compute; reflexivity|]).
  inversion Hin.
Qed.

(** The label [Latin1], with spaces around it. *)
Lemma normalizeEncodingLabel_idempotent_witness :
  lit "windows-1252" ∈ SUPPORTED_DECODE_HTML_ENCODINGS
  /\ normalizeEncodingLabel (Some (LabelString (lit "windows-1252")))
     = Some (lit "windows-1252").
Proof.
  apply (normalizeEncodingLabel_idempotent
           (Some (LabelString (lit " Latin1 ")))).
  vm_compute. reflexivity.
Defined.

Lemma normalizeMetaDeclaredEncoding_subset (l : label) :
  (forall enc,
      normalizeMetaDeclaredEncoding l = Some enc ->
      enc ∈ List.map lit ["utf-8"; "windows-1252"; "iso-8859-2";
                          "euc-jp"]%string)
  /\ (forall enc,
         normalizeEncodingLabel (Some l) = Some enc ->
         enc ∈ List.map lit ["utf-16"; "utf-16le"; "utf-16be"]%string ->
         normalizeMetaDeclaredEncoding l = Some (lit "utf-8")).
Proof.
  unfold normalizeMetaDeclaredEncoding. split.
  - intros enc H.
    destruct (normalizeEncodingLabel (Some l)) as [e|] eqn:He;
      [|discriminate H].
    apply switchLabel_supported in He.
    unfold SUPPORTED_DECODE_HTML_ENCODINGS in He. cbn [List.map] in He.
    repeat (apply elem_of_cons in He as [->|He];
            [vm_compute in H; injection H as <-;
             apply list_elem_of_In; vm_compute; tauto|]).
    inversion He.
  - intros enc -> Hin. cbn [List.map] in Hin.
    repeat (apply elem_of_cons in Hin as [->|Hin];
            [vm_compute; reflexivity|]).
    inversion Hin.
Qed.

(** X11. An encoding declared by a [meta] element is never read as
    UTF-16: [normalizeMetaDeclaredEncoding] returns utf-8, windows-1252,
    iso-8859-2 or euc-jp, and it returns utf-8 for every label that
    [normalizeEncodingLabel] reads as utf-16, utf-16le or utf-16be. *)
Theorem normalizeMetaDeclaredEncoding_no_utf16 (l : label) :
  (forall enc,
      normalizeMetaDeclaredEncoding l = Some enc ->
      enc ∈ List.map lit ["utf-8"; "windows-1252"; "iso-8859-2";
                          "euc-jp"]%string)
  /\ (forall enc,
         normalizeEncodingLabel (Some l) = Some enc ->
         enc ∈ List.map lit ["utf-16"; "utf-16le"; "utf-16be"]%string ->
         normalizeMetaDeclaredEncoding l = Some (lit "utf-8")).
Proof. exact (normalizeMetaDeclaredEncoding_subset l). Qed.

(** *** The prescan *)

Lemma prescanStep_returns (data : bytes) (i nc : nat) (enc : jsstring) :
  prescanStep data i nc = Ok (Return (Some enc)) ->
  exists l, normalizeMetaDeclaredEncoding l = Some enc.
Proof.
  unfold prescanStep. cbv zeta.
  repeat match goal with
         | |- (if ?b then _ else _) = _ -> _ => destruct b
         | |- match ?x with Some _ => _ | None => _ end = _ -> _ =>
             destruct x
         | |- (let '(_, _) := ?x in _) = _ -> _ => destruct x
         end; try discriminate.
  intros H. apply bind_Ok in H as (o & _ & H).
  destruct o as [k [|] a|]; try discriminate H.
  match type of H with
  | match ?x with _ => _ end = _ => destruct x as [e|] eqn:Hc
  end.
  { injection H as <-.
    destruct (charset a) as [[|c cs]|]; try discriminate Hc. eauto. }
  match type of H with
  | match ?x with _ => _ end = _ => destruct x as [e|] eqn:Hh
  end; [|discriminate H].
  injection H as <-.
  destruct (httpEquiv a), (content a); try discriminate Hh.
  destruct (bytesEqualIgnoreAsciiCase _ _); [|discriminate Hh].
  destruct (extractCharsetFromContent _); [|discriminate Hh]. eauto.
Qed.

Lemma prescanLoop_returns (data : bytes) (enc : jsstring) :
  forall fuel i nc,
    prescanLoop fuel data i nc = Ok (Some enc) ->
    exists l, normalizeMetaDeclaredEncoding l = Some enc.
Proof.
  induction fuel as [|fuel IH]; intros i nc H; cbn [prescanLoop] in H.
  - destruct (_ && _); discriminate H.
  - destruct (_ && _); [|discriminate H].
    apply bind_Ok in H as (o & Ho & H). destruct o as [r|i' nc'].
    + injection H as ->. exact (prescanStep_returns _ _ _ _ Ho).
    + exact (IH _ _ H).
Qed.

(** X12. [sniffHTMLEncoding] always returns, and the encoding it
    returns is one of the seven of [SUPPORTED_DECODE_HTML_ENCODINGS], so
    the fallback of [decodeHTML] for other encodings is never taken; the
    length it returns for the byte-order mark is at most the length of
    the data, so the payload that [decodeHTML] cuts off lies within the
    data. *)
Theorem sniffHTMLEncoding_supported (data : bytes)
  (transportEncoding : option label) :
  exists r,
    sniffHTMLEncoding data transportEncoding = Ok r
    /\ encoding r ∈ SUPPORTED_DECODE_HTML_ENCODINGS
    /\ (bomLength r <= List.length data)%nat.
Proof.
  unfold sniffHTMLEncoding.
  destruct (normalizeEncodingLabel transportEncoding) as [t|] eqn:Ht.
  { eexists. split; [reflexivity|]. cbn [encoding bomLength].
    split; [|lia]. exact (switchLabel_supported _ _ Ht). }
  unfold sniffBOM.
  destruct ((3 <=? List.length data)%nat && byteIs data 0 239
            && byteIs data 1 187 && byteIs data 2 191) eqn:H3.
  { eexists. split; [reflexivity|]. cbn [encoding bomLength].
    split; [apply list_elem_of_In; vm_compute; tauto|].
    apply andb_true_iff in H3 as [H3 _]. apply andb_true_iff in H3 as [H3 _].
    apply andb_true_iff in H3 as [H3 _]. now apply Nat.leb_le in H3. }
  destruct ((2 <=? List.length data)%nat && byteIs data 0 255
            && byteIs data 1 254) eqn:H2.
  { eexists. split; [reflexivity|]. cbn [encoding bomLength].
    split; [apply list_elem_of_In; vm_compute; tauto|].
    apply andb_true_iff in H2 as [H2 _]. apply andb_true_iff in H2 as [H2 _].
    now apply Nat.leb_le in H2. }
  destruct ((2 <=? List.length data)%nat && byteIs data 0 254
            && byteIs data 1 255) eqn:H2'.
  { eexists. split; [reflexivity|]. cbn [encoding bomLength].
    split; [apply list_elem_of_In; vm_compute; tauto|].
    apply andb_true_iff in H2' as [H2' _].
    apply andb_true_iff in H2' as [H2' _]. now apply Nat.leb_le in H2'. }
  destruct (preScanForMetaCharset_total data) as (r & Hr).
  rewrite Hr. cbn [mbind result_bind]. destruct r as [enc|].
  - eexists. split; [reflexivity|]. cbn [encoding bomLength].
    split; [|lia].
    destruct (prescanLoop_returns _ _ _ _ _ Hr) as (l & Hl).
    pose proof (proj1 (normalizeMetaDeclaredEncoding_subset l) enc Hl) as Hin.
    cbn [List.map] in Hin.
    repeat (apply elem_of_cons in Hin as [->|Hin];
            [apply list_elem_of_In; vm_compute; tauto|]).
    inversion Hin.
  - eexists. split; [reflexivity|]. cbn [encoding bomLength].
    split; [apply list_elem_of_In; vm_compute; tauto|lia].
Qed.

Lemma prescanLoop_no_tag (data : bytes) :
  Forall (fun b => b <> 0x3c) data ->
  forall fuel i nc,
    (List.length data - i <= fuel)%nat ->
    prescanLoop fuel data i nc = Ok None.
Proof.
  intros Hall. induction fuel as [|fuel IH]; intros i nc Hf;
    cbn [prescanLoop].
  - destruct (Nat.ltb_spec i (List.length data)); [lia|]. reflexivity.
  - destruct (_ && _) eqn:Hcond; [|reflexivity].
    unfold prescanStep. cbv zeta.
    assert (Hb : byteIs data i 0x3c = false).
    { unfold byteIs. destruct (data !! i) as [x|] eqn:Hx; [|reflexivity].
      apply Z.eqb_neq. rewrite Forall_forall in Hall. apply Hall.
      now apply list_elem_of_lookup_2 in Hx. }
    rewrite Hb. cbn [negb mbind result_bind]. apply IH. lia.
Qed.

(** X13. The prescan finds no encoding in data without a [<]: for such
    data [preScanForMetaCharset] returns [undefined], whatever the other
    bytes say. *)
Theorem preScanForMetaCharset_no_tag (data : bytes) :
  Forall (fun b => b <> 0x3c) data ->
  preScanForMetaCharset data = Ok None.
Proof.
  intros Hall. apply prescanLoop_no_tag; [exact Hall|lia].
Qed.

(** The bytes of [charset=utf-8], outside any tag. *)
Lemma preScanForMetaCharset_no_tag_witness :
  preScanForMetaCharset (lit "charset=utf-8") = Ok None.
Proof.
  apply preScanForMetaCharset_no_tag.
  apply Forall_forall. intros b Hb Heq. subst b.
  apply list_elem_of_In in Hb. vm_compute in Hb.
  repeat (destruct Hb as [Hb|Hb]; [discriminate Hb|]). exact Hb.
Defined.

End EncodingExtra.

(** ** Character references in text *)

Module EntitiesExtra.

Import Entities EntitiesFacts DecodeTotal.

(** *** Reading a string from an offset *)

Lemma skipn_shift {A : Type} (pre t : list A) (j : nat) :
  skipn (List.length pre + j) (pre ++ t) = skipn j t.
Proof. induction pre as [|x pre IH]; [reflexivity|exact IH]. Qed.

Lemma charAt_shift (pre t : jsstring) (j : nat) :
  charAt (pre ++ t) (List.length pre + j) = charAt t j.
Proof.
  unfold charAt. rewrite lookup_app_r by lia. f_equal. lia.
Qed.

Lemma charIs_shift (pre t : jsstring) (j : nat) (c : Z) :
  charIs (pre ++ t) (List.length pre + j) c = charIs t j c.
Proof. unfold charIs. now rewrite charAt_shift. Qed.

Lemma scanWhile_shift (p : Z -> bool) (pre t : jsstring) (j : nat) :
  scanWhile p (pre ++ t) (List.length pre + j)
  = (List.length pre + scanWhile p t j)%nat.
Proof. unfold scanWhile. rewrite skipn_shift. lia. Qed.

Lemma slice_shift (pre t : jsstring) (a b : nat) :
  slice (pre ++ t) (List.length pre + a) (List.length pre + b) = slice t a b.
Proof.
  unfold slice. rewrite skipn_shift. f_equal. lia.
Qed.

Lemma indexOfFrom_shift (c : Z) (pre t : jsstring) (i : nat) :
  indexOfFrom c (pre ++ t) (List.length pre + i)
  = option_map (Nat.add (List.length pre)) (indexOfFrom c t i).
Proof.
  induction pre as [|x pre IH]; cbn [List.length Nat.add app].
  - now destruct (indexOfFrom c t i).
  - cbn [indexOfFrom]. rewrite IH. now destruct (indexOfFrom c t i).
Qed.

Lemma slice_app_pre (a b : jsstring) (k : nat) :
  slice (a ++ b) 0 (List.length a + k) = a ++ slice b 0 k.
Proof.
  unfold slice. cbn [skipn]. rewrite !Nat.sub_0_r.
  now apply take_app_add'.
Qed.

Section Shift.

Variable NAMED_ENTITIES : jsstring -> option jsstring.

(** The result of a routine that returns an index, moved by [n]. *)
Definition moved (n : nat) (r : result (jsstring * nat))
  : result (jsstring * nat) :=
  match r with
  | Ok (chunk, i') => Ok (chunk, (n + i')%nat)
  | Raise msg => Raise msg
  | OutOfFuel => OutOfFuel
  | Unmodelled what => Unmodelled what
  end.

Lemma decodeAt_shift (pre text : jsstring) (inAttribute : bool) (i : nat) :
  decodeAt NAMED_ENTITIES (pre ++ text) inAttribute (List.length pre + i)
  = moved (List.length pre) (decodeAt NAMED_ENTITIES text inAttribute i).
Proof.
  unfold decodeAt. cbv zeta.
  rewrite <- !Nat.add_succ_r, !charIs_shift.
  destruct (charIs text (S i) 35).
  - destruct (charIs text (S (S i)) 120 || charIs text (S (S i)) 88);
      rewrite <- ?Nat.add_succ_r, ?scanWhile_shift, ?charIs_shift;
      destruct (charIs text _ 59);
      rewrite <- ?Nat.add_succ_r, ?slice_shift;
      destruct (truthy _);
      try destruct (decodeNumericEntity _ _); reflexivity.
  - rewrite ?scanWhile_shift, ?charIs_shift, ?charAt_shift,
      <- ?Nat.add_succ_r, ?slice_shift.
    rewrite <- ?Nat.add_assoc.
    repeat match goal with
           | |- context [if ?b then _ else _] => destruct b; cbn [moved]
           | |- context [match ?x with _ => _ end] => destruct x; cbn [moved]
           end; rewrite <- ?Nat.add_succ_r, ?slice_shift;
      try reflexivity; do 2 f_equal; lia.
Qed.

Lemma decodeLoop_shift (pre text : jsstring) (inAttribute : bool) :
  forall fuel i acc,
    decodeLoop NAMED_ENTITIES fuel (pre ++ text) inAttribute
               (List.length pre + i) acc
    = decodeLoop NAMED_ENTITIES fuel text inAttribute i acc.
Proof.
  induction fuel as [|fuel IH]; intros i acc; cbn [decodeLoop];
    rewrite length_app;
    destruct (Nat.leb_spec (List.length pre + List.length text)
                           (List.length pre + i)),
             (Nat.leb_spec (List.length text) i); try lia; try reflexivity.
  rewrite indexOfFrom_shift.
  destruct (indexOfFrom 38 text i) as [nextAmp|]; cbn [option_map].
  - rewrite decodeAt_shift, slice_shift.
    replace (List.length pre + i <? List.length pre + nextAmp)%nat
      with (i <? nextAmp)%nat
      by (destruct (Nat.ltb_spec i nextAmp),
                   (Nat.ltb_spec (List.length pre + i)
                                 (List.length pre + nextAmp));
          try reflexivity; lia).
    destruct (decodeAt NAMED_ENTITIES text inAttribute nextAmp)
      as [[chunk i']| | |]; cbn [moved mbind result_bind];
      try reflexivity.
    apply IH.
  - unfold sliceFrom. now rewrite skipn_shift.
Qed.

(** The parts already collected stay in front. *)
Lemma decodeLoop_acc (text : jsstring) (inAttribute : bool) :
  forall fuel i acc,
    decodeLoop NAMED_ENTITIES fuel text inAttribute i acc
    = (parts ← decodeLoop NAMED_ENTITIES fuel text inAttribute i [];
       Ok (acc ++ parts)).
Proof.
  induction fuel as [|fuel IH]; intros i acc; cbn [decodeLoop].
  - destruct (_ <=? _)%nat; cbn [mbind result_bind];
      [now rewrite app_nil_r|reflexivity].
  - destruct (_ <=? _)%nat; cbn [mbind result_bind];
      [now rewrite app_nil_r|].
    destruct (indexOfFrom 38 text i) as [nextAmp|];
      cbn [mbind result_bind app]; [|reflexivity].
    destruct (decodeAt NAMED_ENTITIES text inAttribute nextAmp)
      as [[chunk i']| | |]; cbn [mbind result_bind]; try reflexivity.
    rewrite IH. rewrite (IH i' (_ ++ [chunk])).
    destruct (decodeLoop NAMED_ENTITIES fuel text inAttribute i' [])
      as [parts| | |]; cbn [mbind result_bind]; try reflexivity.
    destruct (i <? nextAmp)%nat; cbn; now rewrite <- ?app_assoc.
Qed.

(** Every bound of at least the number of units left gives the same
    result. *)
Lemma decodeLoop_fuel (text : jsstring) (inAttribute : bool) :
  forall fuel1 fuel2 i acc,
    (List.length text - i <= fuel1)%nat ->
    (List.length text - i <= fuel2)%nat ->
    decodeLoop NAMED_ENTITIES fuel1 text inAttribute i acc
    = decodeLoop NAMED_ENTITIES fuel2 text inAttribute i acc.
Proof.
  induction fuel1 as [|fuel1 IH]; intros fuel2 i acc H1 H2.
  - destruct fuel2; cbn [decodeLoop];
      destruct (Nat.leb_spec (List.length text) i); try reflexivity; lia.
  - destruct fuel2 as [|fuel2]; cbn [decodeLoop];
      destruct (Nat.leb_spec (List.length text) i); try reflexivity;
      try lia.
    destruct (indexOfFrom 38 text i) as [nextAmp|] eqn:Hamp; [|reflexivity].
    apply indexOfFrom_ge in Hamp.
    destruct (decodeAt_total NAMED_ENTITIES text inAttribute nextAmp)
      as (chunk & i' & -> & Hlt).
    cbn [mbind result_bind]. apply IH; lia.
Qed.

Lemma indexOfFrom_here (c : Z) (rest : jsstring) :
  indexOfFrom c (c :: rest) 0 = Some O.
Proof. cbn. now rewrite Z.eqb_refl. Qed.

(** A reference at the start of the text: the decoded text is the chunk
    that [decodeAt] gives for it, followed by the decoded rest. *)
Lemma decode_reference (rest0 : jsstring) (inAttribute : bool)
  (chunk : jsstring) (i' : nat) (r' : jsstring) :
  decodeAt NAMED_ENTITIES (38 :: rest0) inAttribute 0 = Ok (chunk, i') ->
  decodeEntitiesInText NAMED_ENTITIES (drop i' (38 :: rest0)) inAttribute
  = Ok r' ->
  decodeEntitiesInText NAMED_ENTITIES (38 :: rest0) inAttribute
  = Ok (chunk ++ r').
Proof.
  intros Hat Hrest. unfold decodeEntitiesInText in *.
  set (text := 38 :: rest0) in *.
  apply bind_Ok in Hrest as (parts' & Hparts' & Hrest).
  injection Hrest as <-.
  destruct (decodeAt_total NAMED_ENTITIES text inAttribute 0)
    as (chunk0 & i0 & Hat0 & Hpos).
  rewrite Hat in Hat0. injection Hat0 as <- <-.
  change (List.length text) with (S (List.length rest0)).
  cbn [decodeLoop].
  replace (List.length text <=? 0)%nat with false by reflexivity.
  replace (indexOfFrom 38 text 0) with (Some O)
    by (symmetry; apply indexOfFrom_here).
  rewrite Nat.ltb_irrefl, Hat.
  cbn [mbind result_bind app].
  rewrite decodeLoop_acc.
  assert (Hloop : decodeLoop NAMED_ENTITIES (List.length rest0) text
                             inAttribute i' [] = Ok parts').
  { destruct (Nat.le_gt_cases i' (List.length text)) as [Hle|Hgt].
    - pose proof (decodeLoop_shift (take i' text) (drop i' text)
                    inAttribute (List.length rest0) 0 []) as E.
      rewrite take_drop, length_take, Nat.add_0_r in E.
      replace (i' `min` List.length text)%nat with i' in E by lia.
      assert (Hlen : List.length text = S (List.length rest0))
        by reflexivity.
      rewrite E, <- Hparts'. apply decodeLoop_fuel.
      + rewrite length_drop. lia.
      + lia.
    - rewrite drop_ge in Hparts' by lia. cbn in Hparts'.
      injection Hparts' as <-.
      destruct (List.length rest0); cbn [decodeLoop];
        destruct (Nat.leb_spec (List.length text) i'); try reflexivity;
        lia. }
  rewrite Hloop. cbn [mbind result_bind]. unfold join. cbn.
  reflexivity.
Qed.

(** Text without an ampersand is copied in front of the decoded rest. *)
Lemma decode_copied (pre rest : jsstring) (inAttribute : bool)
  (r : jsstring) :
  includes 0x26 pre = false ->
  decodeEntitiesInText NAMED_ENTITIES rest inAttribute = Ok r ->
  decodeEntitiesInText NAMED_ENTITIES (pre ++ rest) inAttribute
  = Ok (pre ++ r).
Proof.
  intros Hno Hrest. destruct pre as [|p pre]; [exact Hrest|].
  unfold decodeEntitiesInText in *.
  apply bind_Ok in Hrest as (parts & Hparts & Hrest).
  injection Hrest as <-.
  set (pre0 := p :: pre) in *.
  assert (Hidx : indexOfFrom 38 (pre0 ++ rest) 0
                 = option_map (Nat.add (List.length pre0))
                              (indexOfFrom 38 rest 0)).
  { clear -Hno. unfold includes in Hno.
    induction pre0 as [|x pre0 IH]; cbn [app List.length Nat.add].
    - now destruct (indexOfFrom 38 rest 0).
    - cbn [existsb] in Hno. apply orb_false_iff in Hno as [Hx Hno].
      cbn [indexOfFrom]. rewrite Z.eqb_sym, Hx. rewrite (IH Hno).
      now destruct (indexOfFrom 38 rest 0). }
  rewrite length_app. change (List.length pre0) with (S (List.length pre)).
  cbn [Nat.add decodeLoop].
  replace (List.length (pre0 ++ rest) <=? 0)%nat with false by reflexivity.
  rewrite Hidx.
  destruct rest as [|c rest].
  { cbn in Hparts. injection Hparts as <-. cbn [indexOfFrom option_map].
    cbn [mbind result_bind]. unfold sliceFrom, join. cbn.
    now rewrite !app_nil_r. }
  set (text := c :: rest) in *.
  change (List.length text) with (S (List.length rest)) in Hparts.
  cbn [decodeLoop] in Hparts.
  replace (List.length text <=? 0)%nat with false in Hparts by reflexivity.
  destruct (indexOfFrom 38 text 0) as [nextAmp|] eqn:Hamp;
    cbn [option_map].
  - change (S (List.length pre)) with (List.length pre0).
    replace (0 <? List.length pre0 + nextAmp)%nat with true
      by (symmetry; apply Nat.ltb_lt; cbn; lia).
    replace (List.length pre0 + nextAmp)%nat
      with (List.length pre0 + nextAmp)%nat by reflexivity.
    rewrite decodeAt_shift.
    destruct (decodeAt_total NAMED_ENTITIES text inAttribute nextAmp)
      as (chunk & i' & Hat & Hlt).
    rewrite Hat in Hparts |- *. cbn [moved mbind result_bind] in Hparts |- *.
    rewrite decodeLoop_shift.
    rewrite decodeLoop_acc in Hparts. rewrite decodeLoop_acc.
    apply indexOfFrom_ge in Hamp as Hge.
    assert (Hlen : List.length text = S (List.length rest)) by reflexivity.
    rewrite (decodeLoop_fuel text inAttribute
               (List.length pre + List.length text) (List.length rest))
      by lia.
    destruct (decodeLoop NAMED_ENTITIES (List.length rest) text inAttribute
                         i' []) as [tail| | |];
      cbn [mbind result_bind] in Hparts |- *; try discriminate Hparts.
    injection Hparts as <-. f_equal. unfold join.
    rewrite slice_app_pre.
    destruct (0 <? nextAmp)%nat eqn:Hz; cbn [app List.concat].
    + now rewrite <- !app_assoc.
    + apply Nat.ltb_ge in Hz. replace nextAmp with O by lia.
      unfold slice. cbn [Nat.sub firstn]. now rewrite app_nil_r.
  - injection Hparts as <-. cbn [mbind result_bind].
    unfold sliceFrom, join. cbn. now rewrite !app_nil_r.
Qed.

End Shift.

(** *** References in a text *)

Lemma spanLen_app (p : Z -> bool) (a b : jsstring) :
  forallb p a = true ->
  match b with [] => True | c :: _ => p c = false end ->
  spanLen p (a ++ b) = List.length a.
Proof.
  intros Ha Hb. induction a as [|x a IH]; cbn [app spanLen List.length].
  - destruct b as [|c b]; [reflexivity|]. cbn [spanLen]. now rewrite Hb.
  - cbn [forallb] in Ha. apply andb_true_iff in Ha as [Hx Ha].
    rewrite Hx. f_equal. now apply IH.
Qed.

Lemma firstn_app_exact {A : Type} (a b : list A) :
  firstn (List.length a) (a ++ b) = a.
Proof. induction a as [|x a IH]; [reflexivity|]. cbn. now rewrite IH. Qed.

Lemma skipn_app_exact {A : Type} (a b : list A) :
  skipn (List.length a) (a ++ b) = b.
Proof. induction a as [|x a IH]; [reflexivity|exact IH]. Qed.

Lemma lookup_app_exact {A : Type} (a b : list A) (x : A) :
  (a ++ x :: b) !! List.length a = Some x.
Proof. induction a as [|y a IH]; [reflexivity|exact IH]. Qed.

Section References.

Variable NAMED_ENTITIES : jsstring -> option jsstring.

(** The marker of a hexadecimal reference. *)
Definition marker (isHex : bool) : jsstring :=
  if isHex then lit "x" else [].

Lemma digit_not_marker (isHex : bool) (d : Z) :
  (if isHex then isHexDigitChar else isAsciiDigit) d = true ->
  d <> 0x78 /\ d <> 0x58 /\ d <> 0x3B.
Proof.
  destruct isHex; unfold isHexDigitChar, isAsciiDigit, includes; intros H.
  - repeat split; intros ->; vm_compute in H; discriminate H.
  - apply andb_true_iff in H as [H1 H2].
    apply Z.leb_le in H1, H2. lia.
Qed.

Lemma decodeAt_numeric (isHex : bool) (digits post : jsstring)
  (inAttribute : bool) (r : jsstring) :
  referenceBody isHex digits = true ->
  decodeNumericEntity digits isHex = Some r ->
  decodeAt NAMED_ENTITIES
    (lit "&#" ++ marker isHex ++ digits ++ lit ";" ++ post) inAttribute 0
  = Ok (r, (3 + List.length (marker isHex) + List.length digits)%nat).
Proof.
  intros Hbody Hr. unfold referenceBody in Hbody.
  apply andb_true_iff in Hbody as [Hne Hall].
  destruct digits as [|d ds]; [discriminate Hne|].
  pose proof Hall as Hd. cbn [forallb] in Hd.
  apply andb_true_iff in Hd as [Hd _].
  apply digit_not_marker in Hd as (Hx & HX & Hsemi).
  assert (Hspan : spanLen (if isHex then isHexDigitChar else isAsciiDigit)
                          ((d :: ds) ++ lit ";" ++ post)
                  = List.length (d :: ds)).
  { apply spanLen_app; [exact Hall|].
    destruct isHex; vm_compute; reflexivity. }
  unfold decodeAt. cbv zeta.
  change (charIs (lit "&#" ++ marker isHex ++ (d :: ds) ++ lit ";" ++ post)
                 1 35) with true.
  cbv iota.
  destruct isHex; cbn [marker].
  - change (charIs (lit "&#" ++ lit "x" ++ (d :: ds) ++ lit ";" ++ post)
                   2 120) with true.
    cbn [orb]. cbv iota.
    unfold scanWhile.
    change (skipn 3 (lit "&#" ++ lit "x" ++ (d :: ds) ++ lit ";" ++ post))
      with ((d :: ds) ++ lit ";" ++ post).
    rewrite Hspan.
    assert (Hsc : charIs (lit "&#" ++ lit "x" ++ (d :: ds) ++ lit ";" ++ post)
                         (3 + List.length (d :: ds)) 59 = true).
    { unfold charIs, charAt.
      change (lit "&#" ++ lit "x" ++ (d :: ds) ++ lit ";" ++ post)
        with (38 :: 35 :: 120 :: ((d :: ds) ++ 59 :: post)).
      change ((38 :: 35 :: 120 :: ((d :: ds) ++ 59 :: post))
                !! (3 + List.length (d :: ds))%nat)
        with (((d :: ds) ++ 59 :: post) !! List.length (d :: ds)).
      now rewrite lookup_app_exact. }
    rewrite Hsc.
    assert (Hsl : slice (lit "&#" ++ lit "x" ++ (d :: ds) ++ lit ";" ++ post)
                        3 (3 + List.length (d :: ds)) = d :: ds).
    { unfold slice.
      replace (3 + List.length (d :: ds) - 3)%nat
        with (List.length (d :: ds)) by lia.
      change (skipn 3 (lit "&#" ++ lit "x" ++ (d :: ds) ++ lit ";" ++ post))
        with ((d :: ds) ++ lit ";" ++ post).
      apply firstn_app_exact. }
    rewrite Hsl. cbn [truthy]. rewrite Hr. reflexivity.
  - assert (Hnx : charIs (lit "&#" ++ [] ++ (d :: ds) ++ lit ";" ++ post)
                         2 120
                  || charIs (lit "&#" ++ [] ++ (d :: ds) ++ lit ";" ++ post)
                            2 88 = false).
    { unfold charIs, charAt.
      change ((lit "&#" ++ [] ++ (d :: ds) ++ lit ";" ++ post) !! 2%nat)
        with (Some d).
      apply orb_false_iff. split; now apply Z.eqb_neq. }
    rewrite Hnx. cbv iota.
    unfold scanWhile.
    change (skipn 2 (lit "&#" ++ [] ++ (d :: ds) ++ lit ";" ++ post))
      with ((d :: ds) ++ lit ";" ++ post).
    rewrite Hspan.
    assert (Hsc : charIs (lit "&#" ++ [] ++ (d :: ds) ++ lit ";" ++ post)
                         (2 + List.length (d :: ds)) 59 = true).
    { unfold charIs, charAt.
      change (lit "&#" ++ [] ++ (d :: ds) ++ lit ";" ++ post)
        with (38 :: 35 :: ((d :: ds) ++ 59 :: post)).
      change ((38 :: 35 :: ((d :: ds) ++ 59 :: post))
                !! (2 + List.length (d :: ds))%nat)
        with (((d :: ds) ++ 59 :: post) !! List.length (d :: ds)).
      now rewrite lookup_app_exact. }
    rewrite Hsc.
    assert (Hsl : slice (lit "&#" ++ [] ++ (d :: ds) ++ lit ";" ++ post)
                        2 (2 + List.length (d :: ds)) = d :: ds).
    { unfold slice.
      replace (2 + List.length (d :: ds) - 2)%nat
        with (List.length (d :: ds)) by lia.
      change (skipn 2 (lit "&#" ++ [] ++ (d :: ds) ++ lit ";" ++ post))
        with ((d :: ds) ++ lit ";" ++ post).
      apply firstn_app_exact. }
    rewrite Hsl. cbn [truthy]. rewrite Hr. reflexivity.
Qed.

Lemma nameChar_not_hash (c : Z) :
  isAsciiAlphanumeric c = true -> c <> 0x23 /\ c <> 0x3B /\ c <> 0x3D.
Proof.
  intros H. repeat split; intros ->; vm_compute in H; discriminate H.
Qed.

Lemma decodeAt_name_scan (name post : jsstring) :
  forallb isAsciiAlphanumeric name = true ->
  match post with [] => True | c :: _ => isAsciiAlphanumeric c = false end ->
  (match name ++ post with [] => True | c :: _ => c <> 0x23 end) ->
  charIs (lit "&" ++ name ++ post) 1 35 = false
  /\ scanWhile (fun c => isAsciiAlpha c || isAsciiDigit c)
               (lit "&" ++ name ++ post) 1 = S (List.length name)
  /\ slice (lit "&" ++ name ++ post) 1 (S (List.length name)) = name
  /\ charAt (lit "&" ++ name ++ post) (S (List.length name)) = head post.
Proof.
  intros Hall Hpost Hhash. split; [|split; [|split]].
  - unfold charIs, charAt.
    change ((lit "&" ++ name ++ post) !! 1%nat) with ((name ++ post) !! 0%nat).
    destruct (name ++ post) as [|c l]; [reflexivity|]. cbn.
    now apply Z.eqb_neq.
  - unfold scanWhile.
    change (skipn 1 (lit "&" ++ name ++ post)) with (name ++ post).
    rewrite (spanLen_app (fun c => isAsciiAlpha c || isAsciiDigit c)
               name post Hall Hpost). reflexivity.
  - unfold slice. replace (S (List.length name) - 1)%nat
      with (List.length name) by lia.
    change (skipn 1 (lit "&" ++ name ++ post)) with (name ++ post).
    apply firstn_app_exact.
  - unfold charAt.
    change ((lit "&" ++ name ++ post) !! S (List.length name))
      with ((name ++ post) !! List.length name).
    destruct post as [|c post]; cbn [head].
    + rewrite app_nil_r. apply lookup_ge_None. lia.
    + apply lookup_app_exact.
Qed.

Lemma decodeAt_named (name post : jsstring) (inAttribute : bool)
  (v : jsstring) :
  truthy name = true -> forallb isAsciiAlphanumeric name = true ->
  NAMED_ENTITIES name = Some v ->
  decodeAt NAMED_ENTITIES (lit "&" ++ name ++ lit ";" ++ post) inAttribute 0
  = Ok (v, (2 + List.length name)%nat).
Proof.
  intros Hne Hall Hv.
  destruct (decodeAt_name_scan name (lit ";" ++ post) Hall)
    as (Hhash & Hscan & Hslice & Hnext).
  { reflexivity. }
  { destruct name as [|c name]; [discriminate Hne|]. cbn [app].
    cbn [forallb] in Hall. apply andb_true_iff in Hall as [Hc _].
    now apply nameChar_not_hash in Hc. }
  unfold decodeAt. cbv zeta. rewrite Hhash, Hscan, Hslice.
  unfold charIs. rewrite Hnext.
  change (head (lit ";" ++ post)) with (Some 59). cbv iota beta.
  change (59 =? 59) with true. rewrite Hne. cbn [negb andb].
  unfold entitiesHas, entitiesGet. rewrite Hv. reflexivity.
Qed.

Lemma decodeAt_bare (post : jsstring) (inAttribute : bool) :
  match post with
  | [] => True
  | c :: _ => isAsciiAlphanumeric c = false /\ c <> 0x23
  end ->
  decodeAt NAMED_ENTITIES (lit "&" ++ post) inAttribute 0 = Ok (lit "&", 1%nat).
Proof.
  intros Hpost.
  destruct (decodeAt_name_scan [] post eq_refl)
    as (Hhash & Hscan & Hslice & _).
  { destruct post; [exact I|apply Hpost]. }
  { cbn [app]. destruct post; [exact I|apply Hpost]. }
  unfold decodeAt. cbv zeta. cbn [app] in *.
  rewrite Hhash, Hscan, Hslice. reflexivity.
Qed.

Lemma decodeAt_equals (name post : jsstring) :
  forallb isAsciiAlphanumeric name = true ->
  decodeAt NAMED_ENTITIES (lit "&" ++ name ++ lit "=" ++ post) true 0
  = Ok (lit "&", 1%nat).
Proof.
  intros Hall.
  destruct (decodeAt_name_scan name (lit "=" ++ post) Hall)
    as (Hhash & Hscan & Hslice & Hnext).
  { reflexivity. }
  { destruct name as [|c name]; cbn [app]; [discriminate|].
    cbn [forallb] in Hall. apply andb_true_iff in Hall as [Hc _].
    now apply nameChar_not_hash in Hc. }
  unfold decodeAt. cbv zeta. rewrite Hhash, Hscan, Hslice.
  unfold charIs. rewrite Hnext.
  change (head (lit "=" ++ post)) with (Some 61). cbv iota beta.
  change (61 =? 59) with false.
  change (isAsciiAlphanumeric 61 || (61 =? 61)) with true.
  cbn [andb negb].
  destruct (truthy name); cbn [negb]; [|reflexivity].
  destruct (str_in name LEGACY_ENTITIES && entitiesHas NAMED_ENTITIES name);
    [reflexivity|].
  destruct (bestMatchFound _) as [[m k]|]; reflexivity.
Qed.

Lemma drop_reference (isHex : bool) (digits post : jsstring) :
  drop (3 + List.length (marker isHex) + List.length digits)
       (lit "&#" ++ marker isHex ++ digits ++ lit ";" ++ post)
  = post.
Proof.
  assert (E : lit "&#" ++ marker isHex ++ digits ++ lit ";" ++ post
              = (lit "&#" ++ marker isHex ++ digits ++ lit ";") ++ post)
    by now rewrite <- !app_assoc.
  rewrite E.
  replace (3 + List.length (marker isHex) + List.length digits)%nat
    with (List.length (lit "&#" ++ marker isHex ++ digits ++ lit ";"))
    by (rewrite !length_app; destruct isHex; cbn; lia).
  apply skipn_app_exact.
Qed.

(** X14. A numeric character reference is replaced by the string that
    [decodeNumericEntity] gives for its digits: in a text that consists
    of a part without ampersand, the reference (decimal, or hexadecimal
    after [x]) with its semicolon, and a rest, [decodeEntitiesInText]
    returns the first part, that string, and the decoded rest. *)
Theorem decodeEntitiesInText_numeric (isHex : bool)
  (pre digits post : jsstring) (inAttribute : bool) :
  includes 0x26 pre = false ->
  referenceBody isHex digits = true ->
  exists r r',
    decodeNumericEntity digits isHex = Some r
    /\ decodeEntitiesInText NAMED_ENTITIES post inAttribute = Ok r'
    /\ decodeEntitiesInText NAMED_ENTITIES
         (pre ++ lit "&#" ++ marker isHex ++ digits ++ lit ";" ++ post)
         inAttribute
       = Ok (pre ++ r ++ r').
Proof.
  intros Hpre Hbody.
  destruct (decodeNumericEntity_body digits isHex Hbody) as (r & Hr).
  destruct (decodeEntitiesInText_total NAMED_ENTITIES post inAttribute)
    as (r' & Hr').
  exists r, r'. split; [exact Hr|]. split; [exact Hr'|].
  apply decode_copied; [exact Hpre|].
  pose proof (decode_reference NAMED_ENTITIES
                (lit "#" ++ marker isHex ++ digits ++ lit ";" ++ post)
                inAttribute r
                (3 + List.length (marker isHex) + List.length digits) r')
    as H.
  change (38 :: lit "#" ++ marker isHex ++ digits ++ lit ";" ++ post)
    with (lit "&#" ++ marker isHex ++ digits ++ lit ";" ++ post) in H.
  rewrite drop_reference in H. apply H; [|exact Hr'].
  exact (decodeAt_numeric isHex digits post inAttribute r Hbody Hr).
Qed.

Lemma name_no_amp (name : jsstring) :
  forallb isAsciiAlphanumeric name = true -> includes 0x26 name = false.
Proof.
  unfold includes. induction name as [|c name IH]; [reflexivity|].
  cbn [forallb existsb]. intros H. apply andb_true_iff in H as [Hc H].
  rewrite (IH H), orb_false_r. apply Z.eqb_neq. intros <-.
  vm_compute in Hc. discriminate Hc.
Qed.

Lemma includes_app (c : Z) (a b : jsstring) :
  includes c (a ++ b) = includes c a || includes c b.
Proof. unfold includes. apply existsb_app. Qed.

(** X15. A named character reference that ends in a semicolon and is in
    the table is replaced by its value, in text and in attribute values
    alike: in a text that consists of a part without ampersand, the
    reference, and a rest, [decodeEntitiesInText] returns the first part,
    the value, and the decoded rest. *)
Theorem decodeEntitiesInText_named (pre name post : jsstring)
  (inAttribute : bool) (v : jsstring) :
  includes 0x26 pre = false ->
  truthy name = true ->
  forallb isAsciiAlphanumeric name = true ->
  NAMED_ENTITIES name = Some v ->
  exists r',
    decodeEntitiesInText NAMED_ENTITIES post inAttribute = Ok r'
    /\ decodeEntitiesInText NAMED_ENTITIES
         (pre ++ lit "&" ++ name ++ lit ";" ++ post) inAttribute
       = Ok (pre ++ v ++ r').
Proof.
  intros Hpre Hne Hall Hv.
  destruct (decodeEntitiesInText_total NAMED_ENTITIES post inAttribute)
    as (r' & Hr').
  exists r'. split; [exact Hr'|].
  apply decode_copied; [exact Hpre|].
  pose proof (decode_reference NAMED_ENTITIES (name ++ lit ";" ++ post)
                inAttribute v (2 + List.length name) r') as H.
  change (38 :: name ++ lit ";" ++ post)
    with (lit "&" ++ name ++ lit ";" ++ post) in H.
  apply H; [exact (decodeAt_named name post inAttribute v Hne Hall Hv)|].
  replace (drop (2 + List.length name) (lit "&" ++ name ++ lit ";" ++ post))
    with post; [exact Hr'|].
  change (drop (2 + List.length name) (lit "&" ++ name ++ lit ";" ++ post))
    with (drop (S (List.length name)) (name ++ 59 :: post)).
  replace (name ++ 59 :: post) with ((name ++ [59]) ++ post)
    by now rewrite <- app_assoc.
  replace (S (List.length name)) with (List.length (name ++ [59]))
    by (rewrite length_app; cbn; lia).
  symmetry. apply skipn_app_exact.
Qed.

(** X16. An ampersand that starts no reference stays: when the text
    after it is empty or starts with a unit that is neither a letter, a
    digit nor [#], [decodeEntitiesInText] returns the ampersand followed
    by the decoded rest. *)
Theorem decodeEntitiesInText_bare (pre post : jsstring)
  (inAttribute : bool) :
  includes 0x26 pre = false ->
  match post with
  | [] => True
  | c :: _ => isAsciiAlphanumeric c = false /\ c <> 0x23
  end ->
  exists r',
    decodeEntitiesInText NAMED_ENTITIES post inAttribute = Ok r'
    /\ decodeEntitiesInText NAMED_ENTITIES (pre ++ lit "&" ++ post)
         inAttribute
       = Ok (pre ++ lit "&" ++ r').
Proof.
  intros Hpre Hpost.
  destruct (decodeEntitiesInText_total NAMED_ENTITIES post inAttribute)
    as (r' & Hr').
  exists r'. split; [exact Hr'|].
  apply decode_copied; [exact Hpre|].
  apply (decode_reference NAMED_ENTITIES post inAttribute (lit "&") 1 r').
  - exact (decodeAt_bare post inAttribute Hpost).
  - exact Hr'.
Qed.

(** X17. In an attribute value, an ampersand followed by letters and
    digits and then [=] is never decoded, whatever the table holds for
    the name: a query string such as [?a=1&copy=2] keeps its [&copy]. *)
Theorem decodeEntitiesInText_attribute_equals (pre name post : jsstring) :
  includes 0x26 pre = false ->
  forallb isAsciiAlphanumeric name = true ->
  exists r',
    decodeEntitiesInText NAMED_ENTITIES post true = Ok r'
    /\ decodeEntitiesInText NAMED_ENTITIES
         (pre ++ lit "&" ++ name ++ lit "=" ++ post) true
       = Ok (pre ++ lit "&" ++ name ++ lit "=" ++ r').
Proof.
  intros Hpre Hall.
  destruct (decodeEntitiesInText_total NAMED_ENTITIES post true)
    as (r' & Hr').
  exists r'. split; [exact Hr'|].
  apply decode_copied; [exact Hpre|].
  pose proof (decode_reference NAMED_ENTITIES (name ++ lit "=" ++ post)
                true (lit "&") 1 (name ++ lit "=" ++ r')) as H.
  change (38 :: name ++ lit "=" ++ post)
    with (lit "&" ++ name ++ lit "=" ++ post) in H.
  apply H; [exact (decodeAt_equals name post Hall)|].
  change (drop 1 (lit "&" ++ name ++ lit "=" ++ post))
    with (name ++ lit "=" ++ post).
  rewrite !app_assoc. apply decode_copied; [|exact Hr'].
  rewrite includes_app, (name_no_amp name Hall). reflexivity.
Qed.

(** X18. [decodeEntitiesInText] returns on every text, in text and in
    attribute values, for every table of named references: its loop ends
    within as many turns as the text has units, and
    [String.fromCodePoint] is never called on a number it rejects. *)
Theorem decodeEntitiesInText_returns (text : jsstring)
  (inAttribute : bool) :
  exists r, decodeEntitiesInText NAMED_ENTITIES text inAttribute = Ok r.
Proof. apply decodeEntitiesInText_total. Qed.

End References.

(** The text [a&#x41;&amp;b]. *)
Lemma decodeEntitiesInText_numeric_witness :
  decodeEntitiesInText ExampleConstants.exampleEntities
    (lit "a&#x41;&amp;b") false
  = Ok (lit "aA&b").
Proof.
  destruct (decodeEntitiesInText_numeric ExampleConstants.exampleEntities
              true (lit "a") (lit "41") (lit "&amp;b") false)
    as (r & r' & Hr & Hr' & H).
  - vm_compute. reflexivity.
  - vm_compute. reflexivity.
  - vm_compute in Hr. injection Hr as <-.
    vm_compute in Hr'. injection Hr' as <-. exact H.
Defined.

(** The text [1 &lt; 2]. *)
Lemma decodeEntitiesInText_named_witness :
  decodeEntitiesInText ExampleConstants.exampleEntities (lit "1 &lt; 2") false
  = Ok (lit "1 < 2").
Proof.
  destruct (decodeEntitiesInText_named ExampleConstants.exampleEntities
              (lit "1 ") (lit "lt") (lit " 2") false (lit "<"))
    as (r' & Hr' & H).
  - vm_compute. reflexivity.
  - vm_compute. reflexivity.
  - vm_compute. reflexivity.
  - vm_compute. reflexivity.
  - vm_compute in Hr'. injection Hr' as <-. exact H.
Defined.

(** The text [a & b]. *)
Lemma decodeEntitiesInText_bare_witness :
  decodeEntitiesInText ExampleConstants.exampleEntities (lit "a & b") false
  = Ok (lit "a & b").
Proof.
  destruct (decodeEntitiesInText_bare ExampleConstants.exampleEntities
              (lit "a ") (lit " b") false)
    as (r' & Hr' & H).
  - vm_compute. reflexivity.
  - split; [vm_compute; reflexivity|discriminate].
  - vm_compute in Hr'. injection Hr' as <-. exact H.
Defined.

(** The attribute value [?a=1&lt=2]. *)
Lemma decodeEntitiesInText_attribute_equals_witness :
  decodeEntitiesInText ExampleConstants.exampleEntities (lit "?a=1&lt=2") true
  = Ok (lit "?a=1&lt=2").
Proof.
  destruct (decodeEntitiesInText_attribute_equals
              ExampleConstants.exampleEntities
              (lit "?a=1") (lit "lt") (lit "2"))
    as (r' & Hr' & H).
  - vm_compute. reflexivity.
  - vm_compute. reflexivity.
  - vm_compute in Hr'. injection Hr' as <-. exact H.
Defined.

End EntitiesExtra.

(** ** The event stream *)

Module StreamExtra.

Import Dom Tokens Stream.

(** The text that a list of events carries and its other events. *)
Definition textOf (evs : list StreamEvent) : jsstring :=
  List.concat (List.map (fun e => match e with
                                  | EvText d => d
                                  | _ => []
                                  end) evs).

Definition others (evs : list StreamEvent) : list StreamEvent :=
  List.filter (fun e => negb (isText e)) evs.

Lemma yieldEvents_inv (evs : list StreamEvent) :
  forall textBuffer,
    let out := yieldEvents evs textBuffer in
    adjacentText out = false
    /\ others out = others evs
    /\ textOf out
       = match textBuffer with Some t => t | None => [] end ++ textOf evs
    /\ (textBuffer <> None ->
        exists t rest, out = EvText t :: rest).
Proof.
  induction evs as [|e evs IH]; intros textBuffer; cbn zeta.
  - destruct textBuffer as [t|]; cbn [yieldEvents].
    + split; [reflexivity|]. split; [reflexivity|].
      split; [unfold textOf; cbn; reflexivity|]. eauto.
    + split; [reflexivity|]. split; [reflexivity|].
      split; [reflexivity|]. intros H. congruence.
  - assert (Hother : isText e = false ->
             yieldEvents (e :: evs) textBuffer
             = match textBuffer with
               | Some t => [EvText t]
               | None => []
               end ++ e :: yieldEvents evs None).
    { destruct e; try reflexivity. discriminate. }
    destruct (isText e) eqn:He.
    + destruct e as [| | | |data]; try discriminate He. cbn [yieldEvents].
      destruct (IH (Some (match textBuffer with
                          | Some t => t
                          | None => []
                          end ++ data)))
        as (Hadj & Hoth & Htxt & Hhead).
      split; [exact Hadj|]. split; [exact Hoth|]. split.
      * rewrite Htxt. unfold textOf. cbn. now rewrite app_assoc.
      * intros _. apply Hhead. discriminate.
    + rewrite (Hother eq_refl).
      destruct (IH None) as (Hadj & Hoth & Htxt & _).
      assert (Hadj' : adjacentText (e :: yieldEvents evs None) = false).
      { cbn [adjacentText]. destruct (yieldEvents evs None); [reflexivity|].
        rewrite He. exact Hadj. }
      split; [|split; [|split]].
      * destruct textBuffer as [t|]; cbn [app]; [|exact Hadj'].
        change (adjacentText (EvText t :: e :: yieldEvents evs None))
          with ((isText (EvText t) && isText e)
                || adjacentText (e :: yieldEvents evs None)).
        now rewrite He, andb_false_r, Hadj'.
      * unfold others in *. rewrite List.filter_app. cbn [List.filter].
        rewrite He. cbn [negb]. rewrite Hoth.
        now destruct textBuffer.
      * unfold textOf in *. rewrite List.map_app, concat_app.
        cbn [List.map List.concat]. rewrite Htxt.
        destruct e; try discriminate He;
          destruct textBuffer; cbn; now rewrite ?app_nil_r.
      * intros Hb. destruct textBuffer as [t|]; [|congruence].
        cbn [app]. eauto.
Qed.

(** X19. The events that one turn of [stream] yields for the events of
    the sink hold no two text events in a row; the other events are
    those of the sink, in order; and the text is that of the sink,
    concatenated. *)
Theorem yieldEvents_coalesces (evs : list StreamEvent) :
  adjacentText (yieldEvents evs None) = false
  /\ others (yieldEvents evs None) = others evs
  /\ textOf (yieldEvents evs None) = textOf evs.
Proof.
  destruct (yieldEvents_inv evs None) as (Hadj & Hoth & Htxt & _).
  auto.
Qed.

End StreamExtra.

(** ** The tokenizer on plain text *)

Module TokenizerExtra.

Import Dom Tokens Tokenizer.

Lemma getCharFrom_not_CR (rest : jsstring) :
  forall pos lf c pos' lf',
    getCharFrom rest pos lf = (Some c, pos', lf') -> c <> 0x0D.
Proof.
  induction rest as [|x rest IH]; intros pos lf c pos' lf' H;
    cbn [getCharFrom] in H; [discriminate H|].
  destruct (Z.eqb_spec x 0x0D) as [->|Hx].
  - injection H as <- _ _. discriminate.
  - destruct ((x =? 0x0A) && lf).
    + exact (IH _ _ _ _ _ H).
    + injection H as <- _ _. exact Hx.
Qed.

(** X20. [getChar] never delivers a carriage return: when the character
    it reconsumes is not one, the character it returns is none, and
    neither is the one it keeps as the current character, so this holds
    for every later call too. *)
Theorem getChar_never_CR (k : Tokenizer) (c : option Z) (k' : Tokenizer) :
  currentChar k <> Some 0x0D ->
  getChar k = (c, k') ->
  c <> Some 0x0D /\ currentChar k' <> Some 0x0D.
Proof.
  intros Hcur. unfold getChar. destruct (reconsume k).
  - intros H. injection H as <- <-. split; exact Hcur.
  - destruct (getCharFrom (skipn (pos k) (buffer k)) (pos k) (ignoreLF k))
      as [[c0 pos'] lf] eqn:Hg.
    intros H. injection H as <- <-. cbn [currentChar set_currentChar].
    assert (Hc : c0 <> Some 0x0D).
    { destruct c0 as [x|]; [|discriminate]. intros Heq.
      injection Heq as ->. exact (getCharFrom_not_CR _ _ _ _ _ _ Hg eq_refl). }
    split; exact Hc.
Qed.

(** The first character of a carriage return followed by a line feed:
    a line feed. *)
Lemma getChar_never_CR_witness :
  fst (getChar (initialize [0x0D; 0x0A] (createTokenizer defaultOpts)))
  <> Some 0x0D.
Proof.
  destruct (getChar (initialize [0x0D; 0x0A] (createTokenizer defaultOpts)))
    as [c k'] eqn:Hg.
  refine (proj1 (getChar_never_CR _ c k' _ Hg)). discriminate.
Defined.

(** *** Text without markup *)

Section PlainText.

Variable NAMED_ENTITIES : jsstring -> option jsstring.
Context {Sk : Type} (sink : TokenizerSink Sk).

(** What the sink is to receive for a text: the characters, once, unless
    the text is empty, and then the end of the file. *)
Definition textThenEOF (o : TokenizerOpts) (text : jsstring) (ss : Sk)
  : result Sk :=
  ss ← (if truthy text then
          data ← (if includes 0x26 text
                  then Entities.decodeEntitiesInText NAMED_ENTITIES text false
                  else Ok text);
          processCharacters sink
            (if xmlCoercion o then coerceTextForXML data else data) ss
        else Ok ss);
  emitToken sink EOF ss.

Lemma join_singletons (l : jsstring) :
  join (List.map (fun c => [c]) l) = l.
Proof.
  unfold join. induction l as [|c l IH]; [reflexivity|]. cbn.
  now rewrite IH.
Qed.

Lemma runLoop_text (rest : jsstring) :
  includes 0x3C rest = false -> includes 0x0D rest = false ->
  forall (pre : jsstring) (k : Tokenizer) (ss : Sk) (fuel : nat),
    state k = Data -> reconsume k = false -> ignoreLF k = false ->
    skipn (pos k) (buffer k) = rest ->
    textBuffer k = List.map (fun c => [c]) pre ->
    (List.length rest < fuel)%nat ->
    ('(_, ss') ← runLoop NAMED_ENTITIES sink fuel k ss; Ok ss')
    = textThenEOF (opts k) (pre ++ rest) ss.
Proof.
  unfold includes.
  induction rest as [|c rest IH];
    intros Hlt Hcr pre k ss fuel Hstate Hre Hlf Hskip Htb Hfuel;
    (destruct fuel as [|fuel]; [cbn in Hfuel; lia|]);
    cbn [runLoop]; unfold step; rewrite Hstate;
    unfold stateData, getChar; rewrite Hre, Hskip; cbn [getCharFrom].
  - unfold flushAndEOF, flushText.
    cbn [textBuffer set_currentChar set_ignoreLF set_pos].
    rewrite Htb, app_nil_r. unfold textThenEOF.
    destruct pre as [|p pre]; cbn [List.map truthy].
    + cbn [mbind result_bind]. unfold emitEOF.
      destruct (emitToken sink EOF ss); reflexivity.
    + cbn [state set_textBuffer set_currentChar set_ignoreLF set_pos].
      rewrite Hstate.
      change (join ([p] :: List.map (fun c => [c]) pre))
        with (join (List.map (fun c => [c]) (p :: pre))).
      rewrite join_singletons.
      cbn [stateIndex Nat.leb Nat.ltb negb andb opts set_textBuffer
           set_currentChar set_ignoreLF set_pos].
      destruct (includes 38 (p :: pre));
        [destruct (Entities.decodeEntitiesInText NAMED_ENTITIES (p :: pre)
                     false) as [d| | |]|];
        cbn [mbind result_bind]; try reflexivity;
        destruct (processCharacters sink _ ss) as [ss1| | |];
        cbn [mbind result_bind]; try reflexivity;
        unfold emitEOF; destruct (emitToken sink EOF ss1); reflexivity.
  - cbn [existsb] in Hlt, Hcr.
    apply orb_false_iff in Hlt as [Hc1 Hlt].
    apply orb_false_iff in Hcr as [Hc2 Hcr].
    rewrite Z.eqb_sym in Hc1. rewrite Z.eqb_sym in Hc2.
    rewrite Hc2, Hlf, andb_false_r. cbv iota beta. rewrite Hc1.
    cbn [mbind result_bind].
    replace (pre ++ c :: rest) with ((pre ++ [c]) ++ rest)
      by now rewrite <- app_assoc.
    etransitivity; [apply (IH Hlt Hcr (pre ++ [c]))|reflexivity].
    + exact Hstate.
    + exact Hre.
    + reflexivity.
    + cbn [pos buffer appendText set_textBuffer set_currentChar set_ignoreLF
           set_pos].
      change (S (pos k)) with (1 + pos k)%nat.
      rewrite <- skipn_skipn, Hskip. reflexivity.
    + cbn [textBuffer appendText set_textBuffer set_currentChar set_ignoreLF
           set_pos]. rewrite Htb.
      now rewrite List.map_app.
    + cbn [List.length] in Hfuel. lia.
Qed.


End PlainText.


(** *** Coercion for XML *)

(** A unit that XML text must not hold: the form feed and the
    noncharacters of the basic plane. *)
Definition xmlForbidden (u : Z) : bool :=
  (u =? 0x0C) || ((0xFDD0 <=? u) && (u <=? 0xFDEF)) || (u =? 0xFFFE)
  || (u =? 0xFFFF).

Lemma codePoints_pair (hi lo : Z) (s : jsstring) :
  codePoints (hi :: lo :: s)
  = if (0xD800 <=? hi) && (hi <=? 0xDBFF)
       && (0xDC00 <=? lo) && (lo <=? 0xDFFF)
    then ((hi - 0xD800) * 0x400 + (lo - 0xDC00) + 0x10000, [hi; lo])
           :: codePoints s
    else (hi, [hi]) :: codePoints (lo :: s).
Proof. reflexivity. Qed.

Lemma codePoints_units (n : nat) :
  forall s : jsstring,
    (List.length s <= n)%nat ->
    Forall (fun u => 0 <= u < 0x10000) s ->
    Forall (fun '(cp, ch) =>
              (ch = [cp] /\ 0 <= cp < 0x10000)
              \/ (0x10000 <= cp
                  /\ exists hi lo, ch = [hi; lo]
                                   /\ 0xD800 <= hi <= 0xDBFF
                                   /\ 0xDC00 <= lo <= 0xDFFF))
           (codePoints s).
Proof.
  induction n as [|n IH]; intros s Hlen Hall.
  - destruct s; [constructor|cbn in Hlen; lia].
  - destruct s as [|hi [|lo s'']]; [constructor| |rewrite codePoints_pair].
    + constructor; [|constructor]. left. split; [reflexivity|].
      now inversion Hall.
    + inversion Hall as [|? ? Hhi Hall']; subst.
      inversion Hall' as [|? ? Hlo Hall'']; subst.
      destruct ((0xD800 <=? hi) && (hi <=? 0xDBFF)
                && (0xDC00 <=? lo) && (lo <=? 0xDFFF)) eqn:Hpair.
      * constructor; [|apply IH; [cbn in Hlen; lia|exact Hall'']].
        right. apply andb_true_iff in Hpair as [Hpair H4].
        apply andb_true_iff in Hpair as [Hpair H3].
        apply andb_true_iff in Hpair as [H1 H2].
        apply Z.leb_le in H1, H2, H3, H4.
        split; [lia|]. exists hi, lo. repeat split; lia.
      * constructor; [|apply IH; [cbn in Hlen |- *; lia|exact Hall']].
        left. split; [reflexivity|exact Hhi].
Qed.

(** X22. The text that [coerceTextForXML] returns for a string of
    UTF-16 code units holds no form feed and no noncharacter of the
    basic plane (U+FDD0 to U+FDEF, U+FFFE, U+FFFF). *)
Theorem coerceTextForXML_clean (text : jsstring) :
  Forall (fun u => 0 <= u < 0x10000) text ->
  Forall (fun u => xmlForbidden u = false) (coerceTextForXML text).
Proof.
  intros Hall. unfold coerceTextForXML.
  pose proof (codePoints_units (List.length text) text (le_n _) Hall) as Hcp.
  induction Hcp as [|[cp ch] l Hx _ IH]; cbn [List.map List.concat];
    [constructor|].
  apply Forall_app. split; [|exact IH].
  destruct Hx as [[-> Hr]|(Hbig & hi & lo & -> & Hhi & Hlo)].
  - destruct (Z.eqb_spec cp 0x0C); [repeat constructor|].
    destruct ((0xFDD0 <=? cp) && (cp <=? 0xFDEF)) eqn:Hnc;
      [repeat constructor|].
    assert (Hland : Z.land cp 0xFFFF = cp).
    { change 0xFFFF with (Z.ones 16). rewrite Z.land_ones by lia.
      apply Z.mod_small. lia. }
    rewrite Hland.
    destruct (Z.eqb_spec cp 0xFFFE); [repeat constructor|].
    destruct (Z.eqb_spec cp 0xFFFF); [repeat constructor|].
    cbn [orb]. constructor; [|constructor].
    unfold xmlForbidden. rewrite Hnc.
    destruct (Z.eqb_spec cp 0x0C), (Z.eqb_spec cp 0xFFFE),
      (Z.eqb_spec cp 0xFFFF); try contradiction. reflexivity.
  - assert (Hpair : Forall (fun u => xmlForbidden u = false) [hi; lo]).
    { constructor; [|constructor; [|constructor]]; unfold xmlForbidden;
        repeat match goal with
               | |- context [?a =? ?b] => destruct (Z.eqb_spec a b); try lia
               | |- context [?a <=? ?b] => destruct (Z.leb_spec a b); try lia
               end; reflexivity. }
    destruct (cp =? 0x0C); [repeat constructor|].
    destruct ((0xFDD0 <=? cp) && (cp <=? 0xFDEF)); [repeat constructor|].
    destruct ((Z.land cp 0xFFFF =? 0xFFFE) || (Z.land cp 0xFFFF =? 0xFFFF));
      [repeat constructor|exact Hpair].
Qed.

(** A form feed and the noncharacter U+FFFE between two letters. *)
Lemma coerceTextForXML_clean_witness :
  Forall (fun u => xmlForbidden u = false)
         (coerceTextForXML [0x61; 0x0C; 0xFFFE; 0x62]).
Proof.
  apply coerceTextForXML_clean.
  repeat (constructor; [lia|]). constructor.
Defined.

(** Three hyphens in a row. *)
Fixpoint includesTripleDash (s : jsstring) : bool :=
  match s with
  | c :: s' =>
      match s' with
      | d :: e :: _ =>
          ((c =? 0x2D) && (d =? 0x2D) && (e =? 0x2D))
          || includesTripleDash s'
      | _ => false
      end
  | [] => false
  end.

Definition startsWithDash (s : jsstring) : bool :=
  match s with c :: _ => c =? 0x2D | [] => false end.

Lemma includesDashDash_cons (c : Z) (s : jsstring) :
  includesDashDash (c :: s)
  = ((c =? 0x2D) && startsWithDash s) || includesDashDash s.
Proof. destruct s; [now rewrite andb_false_r|reflexivity]. Qed.

Lemma includesTripleDash_cons (c : Z) (s : jsstring) :
  includesTripleDash (c :: s)
  = ((c =? 0x2D) && startsWithDash s && startsWithDash (tl s))
    || includesTripleDash s.
Proof.
  destruct s as [|d [|e s]]; cbn [includesTripleDash startsWithDash tl];
    rewrite ?andb_false_r; reflexivity.
Qed.

Lemma replaceDashDash_pair (c d : Z) (r : jsstring) :
  replaceDashDash (c :: d :: r)
  = if (c =? 0x2D) && (d =? 0x2D) then lit "- -" ++ replaceDashDash r
    else c :: replaceDashDash (d :: r).
Proof. reflexivity. Qed.

Lemma replaceDashDash_spec (n : nat) :
  forall s : jsstring,
    (List.length s <= n)%nat ->
    startsWithDash (replaceDashDash s) = startsWithDash s
    /\ includesDashDash (replaceDashDash s) = includesTripleDash s.
Proof.
  induction n as [|n IH]; intros s Hlen.
  - destruct s; [split; reflexivity|cbn in Hlen; lia].
  - destruct s as [|c [|d r]]; [split; reflexivity..|].
    rewrite replaceDashDash_pair.
    destruct (IH r) as [Hr1 Hr2]; [cbn in Hlen; lia|].
    destruct (IH (d :: r)) as [Hd1 Hd2]; [cbn in Hlen |- *; lia|].
    rewrite !includesTripleDash_cons. cbn [startsWithDash tl].
    destruct (Z.eqb_spec c 0x2D) as [->|Hc];
      destruct (Z.eqb_spec d 0x2D) as [->|Hd]; cbn [andb orb].
    + change (lit "- -" ++ replaceDashDash r)
        with (0x2D :: 0x20 :: 0x2D :: replaceDashDash r).
      split; [reflexivity|].
      rewrite !includesDashDash_cons. cbn [startsWithDash].
      change (45 =? 45) with true. change (32 =? 45) with false.
      cbn [andb orb]. rewrite Hr1, Hr2.
      destruct (startsWithDash r) eqn:Hs; [reflexivity|].
      destruct r as [|e r']; [reflexivity|].
      cbn [startsWithDash] in Hs. rewrite includesTripleDash_cons.
      cbn [startsWithDash]. rewrite Hs. reflexivity.
    + apply Z.eqb_neq in Hd. split; [reflexivity|].
      rewrite includesDashDash_cons, Hd1, Hd2, includesTripleDash_cons.
      cbn [startsWithDash tl]. rewrite Hd. reflexivity.
    + apply Z.eqb_neq in Hc. split; [cbn [startsWithDash]; now rewrite Hc|].
      rewrite includesDashDash_cons, Hd2, includesTripleDash_cons.
      cbn [startsWithDash tl]. rewrite Hc. reflexivity.
    + apply Z.eqb_neq in Hc. apply Z.eqb_neq in Hd.
      split; [cbn [startsWithDash]; now rewrite Hc|].
      rewrite includesDashDash_cons, Hd2, includesTripleDash_cons.
      cbn [startsWithDash tl]. rewrite Hc, Hd. reflexivity.
Qed.

Lemma includesTripleDash_double (s : jsstring) :
  includesTripleDash s = true -> includesDashDash s = true.
Proof.
  induction s as [|c s IH]; [discriminate|].
  rewrite includesTripleDash_cons, includesDashDash_cons.
  intros H. apply orb_true_iff in H as [H|H].
  - apply andb_true_iff in H as [H _]. now rewrite H.
  - rewrite (IH H). apply orb_true_r.
Qed.

(** X23. The comment text that [coerceCommentForXML] returns still holds
    two hyphens in a row exactly when the text it was given holds three
    in a row: [replaceAll] passes over the hyphen that follows a
    replaced pair, so [---] becomes [- --]. *)
Theorem coerceCommentForXML_double_dash (text : jsstring) :
  includesDashDash (coerceCommentForXML text) = includesTripleDash text.
Proof.
  unfold coerceCommentForXML.
  destruct text as [|c text]; [reflexivity|]. cbn [truthy negb].
  destruct (includesDashDash (c :: text)) eqn:Hdd; cbn [negb].
  - exact (proj2 (replaceDashDash_spec _ (c :: text) (le_n _))).
  - rewrite Hdd. symmetry.
    destruct (includesTripleDash (c :: text)) eqn:Ht; [|reflexivity].
    apply includesTripleDash_double in Ht. congruence.
Qed.

End TokenizerExtra.

(** ** Selectors *)

Module SelectorExtra.

Import Selector.


End SelectorExtra.

(** ** The tree builder without error collection *)

Module QuietFacts.

Import Dom Tokens TreeBuilder DomFacts.

(** A tree builder that was told not to collect errors, and holds
    none. *)
Definition quiet (st : TreeBuilderState) : Prop :=
  collectErrors st = false /\ errors st = [].

Create HintDb quiet discriminated.

Section Builder.

Variable K : Constants.

(** *** Routines that report no error *)

Lemma quiet_same (st st' : TreeBuilderState) :
  collectErrors st' = collectErrors st -> errors st' = errors st ->
  quiet st -> quiet st'.
Proof. unfold quiet. now intros -> ->. Qed.

Ltac same_errors :=
  intros;
  match goal with
  | H : quiet ?st |- _ => apply (quiet_same st); [| |exact H]
  end;
  repeat match goal with
         | |- context [match ?x with _ => _ end] => destruct x
         | |- context [if ?b then _ else _] => destruct b
         end; reflexivity.

Lemma quiet_set_nodes v st : quiet st -> quiet (set_nodes v st).
Proof. same_errors. Qed.
Lemma quiet_set_fragmentContextElement v st :
  quiet st -> quiet (set_fragmentContextElement v st).
Proof. same_errors. Qed.
Lemma quiet_set_mode v st : quiet st -> quiet (set_mode v st).
Proof. same_errors. Qed.
Lemma quiet_set_originalMode v st :
  quiet st -> quiet (set_originalMode v st).
Proof. same_errors. Qed.
Lemma quiet_set_openElements v st :
  quiet st -> quiet (set_openElements v st).
Proof. same_errors. Qed.
Lemma quiet_set_headElement v st :
  quiet st -> quiet (set_headElement v st).
Proof. same_errors. Qed.
Lemma quiet_set_framesetOk v st : quiet st -> quiet (set_framesetOk v st).
Proof. same_errors. Qed.
Lemma quiet_set_quirksMode v st : quiet st -> quiet (set_quirksMode v st).
Proof. same_errors. Qed.
Lemma quiet_set_ignoreLF v st : quiet st -> quiet (set_ignoreLF v st).
Proof. same_errors. Qed.
Lemma quiet_set_activeFormatting v st :
  quiet st -> quiet (set_activeFormatting v st).
Proof. same_errors. Qed.
Lemma quiet_set_insertFromTable v st :
  quiet st -> quiet (set_insertFromTable v st).
Proof. same_errors. Qed.
Lemma quiet_set_templateModes v st :
  quiet st -> quiet (set_templateModes v st).
Proof. same_errors. Qed.
Lemma quiet_set_tokenizerStateOverride v st :
  quiet st -> quiet (set_tokenizerStateOverride v st).
Proof. same_errors. Qed.
Lemma quiet_set_formElement v st :
  quiet st -> quiet (set_formElement v st).
Proof. same_errors. Qed.

Hint Resolve quiet_set_nodes quiet_set_fragmentContextElement
  quiet_set_mode quiet_set_originalMode quiet_set_openElements
  quiet_set_headElement quiet_set_framesetOk quiet_set_quirksMode
  quiet_set_ignoreLF quiet_set_activeFormatting quiet_set_insertFromTable
  quiet_set_templateModes quiet_set_tokenizerStateOverride
  quiet_set_formElement : quiet.

Lemma quiet_parseError c t st : quiet st -> quiet (parseError c t st).
Proof. unfold parseError. intros H. now rewrite (proj1 H). Qed.
Lemma quiet_setQuirksMode m st : quiet st -> quiet (setQuirksMode m st).
Proof. same_errors. Qed.
Lemma quiet_popCurrent st : quiet st -> quiet (popCurrent st).
Proof. same_errors. Qed.
Lemma quiet_pushOpen n st : quiet st -> quiet (pushOpen n st).
Proof. same_errors. Qed.
Lemma quiet_popUntilInclusive n st :
  quiet st -> quiet (popUntilInclusive n st).
Proof. same_errors. Qed.
Lemma quiet_popUntilAnyInclusive p st :
  quiet st -> quiet (popUntilAnyInclusive p st).
Proof. same_errors. Qed.
Lemma quiet_generateImpliedEndTags e st :
  quiet st -> quiet (generateImpliedEndTags K e st).
Proof. same_errors. Qed.
Lemma quiet_unexpectedEndTag n st :
  quiet st -> quiet (unexpectedEndTag n st).
Proof. apply quiet_parseError. Qed.
Lemma quiet_unexpectedStartTag n st :
  quiet st -> quiet (unexpectedStartTag n st).
Proof. apply quiet_parseError. Qed.
Lemma quiet_unexpectedStartTagIgnored n st :
  quiet st -> quiet (unexpectedStartTagIgnored n st).
Proof. apply quiet_parseError. Qed.
Lemma quiet_invalidCodepoint st : quiet st -> quiet (invalidCodepoint st).
Proof. apply quiet_parseError. Qed.
Lemma quiet_endTagTooEarly n st :
  quiet st -> quiet (endTagTooEarly n st).
Proof. apply quiet_parseError. Qed.

Hint Resolve quiet_parseError quiet_setQuirksMode quiet_popCurrent
  quiet_pushOpen quiet_popUntilInclusive quiet_popUntilAnyInclusive
  quiet_generateImpliedEndTags quiet_unexpectedEndTag
  quiet_unexpectedStartTag quiet_unexpectedStartTagIgnored
  quiet_invalidCodepoint quiet_endTagTooEarly : quiet.

Lemma quiet_closePElement st :
  quiet st -> quiet (snd (closePElement K st)).
Proof.
  intros H. unfold closePElement.
  destruct (hasElementInButtonScope K st (lit "p")); [|exact H].
  cbn [snd]. apply quiet_popUntilInclusive.
  destruct (currentNode _) as [node|]; [destruct (negb _)|];
    auto with quiet.
Qed.

Lemma quiet_anyOtherEndTagScan name stack :
  forall above st,
    quiet st -> quiet (anyOtherEndTagScan K name above stack st).
Proof.
  induction stack as [|node stack IH]; intros above st H; [exact H|].
  cbn [anyOtherEndTagScan].
  destruct (str_eqb _ name).
  - destruct (negb _); auto with quiet.
  - destruct (isSpecialElement K st node); auto with quiet.
Qed.

Lemma quiet_anyOtherEndTag name st :
  quiet st -> quiet (anyOtherEndTag K name st).
Proof. apply quiet_anyOtherEndTagScan. Qed.

Lemma quiet_clearActiveFormattingUpToMarker st :
  quiet st -> quiet (clearActiveFormattingUpToMarker st).
Proof. same_errors. Qed.
Lemma quiet_pushFormattingMarker st :
  quiet st -> quiet (pushFormattingMarker st).
Proof. same_errors. Qed.
Lemma quiet_resetInsertionMode st :
  quiet st -> quiet (resetInsertionMode st).
Proof. same_errors. Qed.
Lemma quiet_closeElementByName n st :
  quiet st -> quiet (closeElementByName n st).
Proof. unfold closeElementByName. same_errors. Qed.
Lemma quiet_popOpenElementIf n st :
  quiet st -> quiet (snd (popOpenElementIf n st)).
Proof. unfold popOpenElementIf. same_errors. Qed.
Lemma quiet_removeFromOpenElements n st :
  quiet st -> quiet (snd (removeFromOpenElements n st)).
Proof. unfold removeFromOpenElements. same_errors. Qed.
Lemma quiet_closeSelect st : quiet st -> quiet (closeSelect st).
Proof. same_errors. Qed.
Lemma quiet_appendActiveFormattingEntry n a node st :
  quiet st -> quiet (appendActiveFormattingEntry n a node st).
Proof. same_errors. Qed.
Lemma quiet_popUntilHTMLOrIntegrationPoint st :
  quiet st -> quiet (popUntilHTMLOrIntegrationPoint K st).
Proof. same_errors. Qed.

Hint Resolve quiet_closePElement quiet_anyOtherEndTag
  quiet_clearActiveFormattingUpToMarker quiet_pushFormattingMarker
  quiet_resetInsertionMode quiet_closeElementByName
  quiet_popOpenElementIf quiet_removeFromOpenElements quiet_closeSelect
  quiet_appendActiveFormattingEntry quiet_popUntilHTMLOrIntegrationPoint
  : quiet.

(** *** Routines that change the node tree *)

Lemma createNode_quiet name data namespace attrs st id st' :
  createNode name data namespace attrs st = (id, st') ->
  quiet st -> quiet st'.
Proof.
  unfold createNode.
  destruct (newNode name data namespace attrs (nodes st)) as [i s].
  intros H Hq. injection H as <- <-. now apply quiet_set_nodes.
Qed.

Lemma insertNodeAt_quiet parent index node st st' :
  insertNodeAt parent index node st = Ok st' -> quiet st -> quiet st'.
Proof.
  unfold insertNodeAt. intros H Hq.
  apply bind_Ok in H as (s & Hi & H). injection H as <-.
  now apply quiet_set_nodes.
Qed.

Lemma closePElement_quiet st b st' :
  closePElement K st = (b, st') -> quiet st -> quiet st'.
Proof.
  intros H Hl. replace st' with (snd (closePElement K st)) by now rewrite H.
  now apply quiet_closePElement.
Qed.

Lemma popOpenElementIf_quiet n st b st' :
  popOpenElementIf n st = (b, st') -> quiet st -> quiet st'.
Proof.
  intros H Hl. replace st' with (snd (popOpenElementIf n st))
    by now rewrite H.
  now apply quiet_popOpenElementIf.
Qed.

Lemma removeFromOpenElements_quiet n st b st' :
  removeFromOpenElements n st = (b, st') -> quiet st -> quiet st'.
Proof.
  intros H Hl. replace st' with (snd (removeFromOpenElements n st))
    by now rewrite H.
  now apply quiet_removeFromOpenElements.
Qed.

Lemma quiet_addMissingAttributes node attrs st :
  quiet st -> quiet (addMissingAttributes node attrs st).
Proof. apply quiet_set_nodes. Qed.

Hint Resolve createNode_quiet closePElement_quiet popOpenElementIf_quiet
  removeFromOpenElements_quiet insertNodeAt_quiet
  quiet_addMissingAttributes : quiet.

Lemma quiet_if (c : bool) st1 st2 :
  quiet st1 -> quiet st2 -> quiet (if c then st1 else st2).
Proof. now destruct c. Qed.

Hint Resolve quiet_if : quiet.

(** The case analysis of a routine along the paths on which it returns. *)
Ltac crack H :=
  repeat
    (cbv beta iota zeta in H;
     lazymatch type of H with
     | Ok _ = Ok _ => inversion H; subst; clear H
     | Raise _ = Ok _ => discriminate H
     | OutOfFuel = Ok _ => discriminate H
     | Unmodelled _ = Ok _ => discriminate H
     | unsupported _ = Ok _ => discriminate H
     | done _ = Ok _ => unfold done in H
     | reprocess _ _ _ _ = Ok _ => unfold reprocess in H
     | assertDefined ?x = Ok _ =>
         destruct x eqn:?; cbn [assertDefined] in H
     | ?m ≫= _ = Ok _ =>
         let Hm := fresh "Hm" in
         apply bind_Ok in H as (? & Hm & H); crack Hm
     | (let '(_, _) := (if ?c then _ else _) in _) = _ => destruct c eqn:?
     | (let '(_, _) := ?x in _) = _ => destruct x as [? ?] eqn:?
     | match ?x with _ => _ end = _ => destruct x eqn:?
     | (if ?c then _ else _) = _ => destruct c eqn:?
     end).

Ltac solve_quiet :=
  repeat match goal with
         | |- quiet (if ?b then _ else _) => destruct b
         | |- quiet (match ?x with _ => _ end) => destruct x
         end;
  first
    [ solve [eauto 15 with quiet]
    | match goal with
      | |- context [if ?b then _ else _] => destruct b; solve_quiet
      | |- context [match ?x with _ => _ end] => destruct x; solve_quiet
      end
    | eauto 15 with quiet ].

Lemma createRoot_quiet attrs st n st' :
  createRoot attrs st = (n, st') -> quiet st -> quiet st'.
Proof.
  unfold createRoot. intros H Hl.
  destruct (createNode _ _ _ _ st) as [node st1] eqn:Hc.
  injection H as <- <-. solve_quiet.
Qed.

Lemma insertElement_quiet tag push namespace st n st' :
  insertElement K tag push namespace st = Ok (n, st') ->
  quiet st -> quiet st'.
Proof.
  unfold insertElement. intros H Hl. crack H; solve_quiet.
Qed.

Lemma insertPhantom_quiet name st n st' :
  insertPhantom K name st = Ok (n, st') -> quiet st -> quiet st'.
Proof. apply insertElement_quiet. Qed.

Lemma insertBodyIfMissing_quiet st st' :
  insertBodyIfMissing st = Ok st' -> quiet st -> quiet st'.
Proof.
  unfold insertBodyIfMissing. intros H Hl. crack H; solve_quiet.
Qed.

Lemma quiet_appendCommentToDocument text st :
  quiet st -> quiet (appendCommentToDocument text st).
Proof.
  unfold appendCommentToDocument. intros Hl.
  destruct (createNode _ _ _ _ st) as [node st1] eqn:Hc. solve_quiet.
Qed.

Lemma appendComment_quiet text parent st st' :
  appendComment text parent st = Ok st' -> quiet st -> quiet st'.
Proof.
  unfold appendComment. intros H Hl. crack H; solve_quiet.
Qed.

Hint Resolve createRoot_quiet insertElement_quiet insertPhantom_quiet
  insertBodyIfMissing_quiet quiet_appendCommentToDocument
  appendComment_quiet : quiet.

Lemma reconstructFrom_quiet entries :
  forall index st st',
    reconstructFrom K entries index st = Ok st' -> quiet st -> quiet st'.
Proof.
  induction entries as [|entry entries IH]; intros index st st' H Hl.
  - cbn in H. now injection H as <-.
  - cbn [reconstructFrom] in H. destruct entry as [|f].
    + eapply IH; eauto.
    + apply bind_Ok in H as ([newNode st1] & Hi & H).
      eapply IH; [exact H|]. solve_quiet.
Qed.

Lemma reconstructActiveFormattingElements_quiet st st' :
  reconstructActiveFormattingElements K st = Ok st' ->
  quiet st -> quiet st'.
Proof.
  unfold reconstructActiveFormattingElements. intros H Hl.
  destruct (last (activeFormatting st)) as [[|lastEntry]|];
    try (now injection H as <-).
  destruct (nodeInList _ _); [now injection H as <-|].
  eapply reconstructFrom_quiet; eauto.
Qed.

Hint Resolve reconstructActiveFormattingElements_quiet : quiet.

Lemma appendText_quiet text st st' :
  appendText K text st = Ok st' -> quiet st -> quiet st'.
Proof.
  unfold appendText. intros H Hl. crack H; solve_quiet.
Qed.

Hint Resolve appendText_quiet : quiet.

Lemma quiet_handleDoctype doctype st :
  quiet st -> quiet (handleDoctype K doctype st).
Proof.
  unfold handleDoctype. intros Hl.
  destruct (mode st); auto with quiet.
  destruct (doctypeErrorAndQuirks K doctype (iframeSrcdoc st)) as [e q].
  destruct (createNode _ _ _ _ st) as [node st1] eqn:Hc. solve_quiet.
Qed.

Hint Resolve quiet_handleDoctype : quiet.

(** *** The insertion modes *)

Notation "'keeps' h" :=
  (forall st r st', h st = Ok (r, st') -> quiet st -> quiet st')
  (at level 10, h at level 9, only parsing).

(** The states a routine was called on may themselves be given by cases. *)
Ltac split_states :=
  repeat match goal with
         | H : context [match ?x with _ => _ end] |- _ =>
             lazymatch type of H with
             | _ = Ok _ => destruct x eqn:?
             | _ = (_, _) => destruct x eqn:?
             end
         end.

Ltac handler :=
  let H := fresh "H" in
  let Hl := fresh "Hl" in
  intros ? ? ? H Hl; crack H;
  first [solve [solve_quiet] | split_states; solve_quiet].

Lemma modeInitial_quiet token : keeps (modeInitial token).
Proof. unfold modeInitial. handler. Qed.

Lemma modeBeforeHtml_quiet token : keeps (modeBeforeHtml token).
Proof. unfold modeBeforeHtml, createRootThenBeforeHead. handler. Qed.

Lemma modeBeforeHead_quiet token : keeps (modeBeforeHead K token).
Proof.
  unfold modeBeforeHead, phantomHeadThenInHead. handler.
Qed.

Lemma modeInHead_quiet token : keeps (modeInHead K token).
Proof.
  unfold modeInHead, popThenAfterHead. handler.
Qed.

(** The handlers of body mode. *)
Ltac body h := unfold h; handler.

Lemma handleBodyStartHtml_quiet t : keeps (handleBodyStartHtml t).
Proof. body handleBodyStartHtml. Qed.
Lemma handleBodyStartBody_quiet t : keeps (handleBodyStartBody t).
Proof. body handleBodyStartBody. Qed.
Lemma handleBodyStartHead_quiet t : keeps (handleBodyStartHead t).
Proof. body handleBodyStartHead. Qed.
Lemma handleBodyStartInHead_quiet t : keeps (handleBodyStartInHead K t).
Proof. apply modeInHead_quiet. Qed.
Lemma handleBodyStartBlockWithP_quiet t :
  keeps (handleBodyStartBlockWithP K t).
Proof. body handleBodyStartBlockWithP. Qed.
Lemma handleBodyStartHeading_quiet t : keeps (handleBodyStartHeading K t).
Proof. body handleBodyStartHeading. Qed.
Lemma handleBodyStartPreListing_quiet t :
  keeps (handleBodyStartPreListing K t).
Proof. body handleBodyStartPreListing. Qed.
Lemma handleBodyStartForm_quiet t : keeps (handleBodyStartForm K t).
Proof. body handleBodyStartForm. Qed.
Lemma handleBodyStartButton_quiet t : keeps (handleBodyStartButton K t).
Proof. body handleBodyStartButton. Qed.
Lemma handleBodyStartParagraph_quiet t :
  keeps (handleBodyStartParagraph K t).
Proof. body handleBodyStartParagraph. Qed.
Lemma handleBodyStartMath_quiet t : keeps (handleBodyStartMath K t).
Proof. body handleBodyStartMath. Qed.
Lemma handleBodyStartSvg_quiet t : keeps (handleBodyStartSvg K t).
Proof. body handleBodyStartSvg. Qed.
Lemma handleBodyStartLi_quiet t : keeps (handleBodyStartLi K t).
Proof. body handleBodyStartLi. Qed.
Lemma handleBodyStartDdDt_quiet t : keeps (handleBodyStartDdDt K t).
Proof. body handleBodyStartDdDt. Qed.
Lemma handleBodyStartAppletLike_quiet t :
  keeps (handleBodyStartAppletLike K t).
Proof. body handleBodyStartAppletLike. Qed.
Lemma handleBodyStartBr_quiet t : keeps (handleBodyStartBr K t).
Proof. body handleBodyStartBr. Qed.
Lemma handleBodyStartHr_quiet t : keeps (handleBodyStartHr K t).
Proof. body handleBodyStartHr. Qed.

Lemma handleBodyStartFrameset_quiet t : keeps (handleBodyStartFrameset K t).
Proof.
  unfold handleBodyStartFrameset. intros st r st' H Hl.
  destruct (negb (framesetOk st)).
  { crack H; solve_quiet. }
  destruct (findBodyIndex st (openElements st) O) as [bodyIndex|].
  2: { crack H; solve_quiet. }
  apply bind_Ok in H as (st1 & Hrm & H).
  assert (Hl1 : quiet st1).
  { destruct (openElements st !! bodyIndex) as [bodyElem|];
      [|now injection Hrm as <-].
    destruct (match nodes st !! bodyElem with
              | Some n => parentNode n
              | None => None
              end) as [parent|]; [|now injection Hrm as <-].
    apply bind_Ok in Hrm as (s & Hr & Hrm). injection Hrm as <-.
    now apply quiet_set_nodes. }
  crack H; solve_quiet.
Qed.

Lemma handleBodyStartStructureIgnored_quiet t :
  keeps (handleBodyStartStructureIgnored t).
Proof. body handleBodyStartStructureIgnored. Qed.
Lemma handleBodyStartColOrFrame_quiet t :
  keeps (handleBodyStartColOrFrame K t).
Proof. body handleBodyStartColOrFrame. Qed.
Lemma handleBodyStartImage_quiet t : keeps (handleBodyStartImage K t).
Proof. body handleBodyStartImage. Qed.
Lemma handleBodyStartVoidWithFormatting_quiet t :
  keeps (handleBodyStartVoidWithFormatting K t).
Proof. body handleBodyStartVoidWithFormatting. Qed.
Lemma handleBodyStartSimpleVoid_quiet t :
  keeps (handleBodyStartSimpleVoid K t).
Proof. body handleBodyStartSimpleVoid. Qed.
Lemma handleBodyStartInput_quiet t : keeps (handleBodyStartInput K t).
Proof. body handleBodyStartInput. Qed.
Lemma handleBodyStartTable_quiet t : keeps (handleBodyStartTable K t).
Proof. body handleBodyStartTable. Qed.
Lemma handleBodyStartPlaintextXmp_quiet t :
  keeps (handleBodyStartPlaintextXmp K t).
Proof. body handleBodyStartPlaintextXmp. Qed.
Lemma handleBodyStartTextarea_quiet t :
  keeps (handleBodyStartTextarea K t).
Proof. body handleBodyStartTextarea. Qed.
Lemma handleBodyStartSelect_quiet t : keeps (handleBodyStartSelect K t).
Proof. body handleBodyStartSelect. Qed.
Lemma handleBodyStartOption_quiet t : keeps (handleBodyStartOption K t).
Proof. body handleBodyStartOption. Qed.
Lemma handleBodyStartOptgroup_quiet t :
  keeps (handleBodyStartOptgroup K t).
Proof. body handleBodyStartOptgroup. Qed.
Lemma handleBodyStartRpRt_quiet t : keeps (handleBodyStartRpRt K t).
Proof. body handleBodyStartRpRt. Qed.
Lemma handleBodyStartRbRtc_quiet t : keeps (handleBodyStartRbRtc K t).
Proof. body handleBodyStartRbRtc. Qed.
Lemma handleBodyStartTableParseError_quiet t :
  keeps (handleBodyStartTableParseError t).
Proof. body handleBodyStartTableParseError. Qed.
Lemma handleBodyStartDefault_quiet t : keeps (handleBodyStartDefault K t).
Proof. body handleBodyStartDefault. Qed.
Lemma handleBodyStartA_quiet t : keeps (handleBodyStartA t).
Proof. body handleBodyStartA. Qed.
Lemma handleBodyStartFormatting_quiet t :
  keeps (handleBodyStartFormatting t).
Proof. body handleBodyStartFormatting. Qed.

Lemma handleBodyEndBody_quiet t : keeps (handleBodyEndBody K t).
Proof. body handleBodyEndBody. Qed.
Lemma handleBodyEndHtml_quiet t : keeps (handleBodyEndHtml K t).
Proof. body handleBodyEndHtml. Qed.
Lemma handleBodyEndP_quiet t : keeps (handleBodyEndP K t).
Proof. body handleBodyEndP. Qed.
Lemma handleBodyEndLi_quiet t : keeps (handleBodyEndLi K t).
Proof. body handleBodyEndLi. Qed.
Lemma handleBodyEndDdDt_quiet t : keeps (handleBodyEndDdDt K t).
Proof. body handleBodyEndDdDt. Qed.
Lemma handleBodyEndForm_quiet t : keeps (handleBodyEndForm t).
Proof. body handleBodyEndForm. Qed.
Lemma handleBodyEndAppletLike_quiet t :
  keeps (handleBodyEndAppletLike K t).
Proof. body handleBodyEndAppletLike. Qed.
Lemma handleBodyEndHeading_quiet t : keeps (handleBodyEndHeading K t).
Proof. body handleBodyEndHeading. Qed.
Lemma handleBodyEndBlock_quiet t : keeps (handleBodyEndBlock K t).
Proof. body handleBodyEndBlock. Qed.
Lemma handleBodyEndTemplate_quiet t : keeps (handleBodyEndTemplate K t).
Proof. body handleBodyEndTemplate. Qed.

(** Every handler of a table of handlers keeps the tree builder quiet. *)
Lemma handlerFor_quiet handlers name h :
  Forall (fun e => forall t, keeps (snd e t)) handlers ->
  handlerFor handlers name = Some h -> forall t, keeps (h t).
Proof.
  unfold handlerFor. intros Hall H.
  destruct (List.find (fun e : list string * BodyHandler =>
                         nameIn (fst e) name) handlers)
    as [e|] eqn:Hf; [|discriminate].
  injection H as <-. apply find_some in Hf as [Hin _].
  rewrite Forall_forall in Hall. apply Hall.
  now apply list_elem_of_In.
Qed.

Lemma BODY_START_HANDLERS_quiet :
  Forall (fun e => forall t, keeps (snd e t)) (BODY_START_HANDLERS K).
Proof.
  unfold BODY_START_HANDLERS.
  repeat (apply Forall_cons; split;
          [cbn [snd];
           first [ exact handleBodyStartA_quiet
                 | exact handleBodyStartBlockWithP_quiet
                 | exact handleBodyStartAppletLike_quiet
                 | exact handleBodyStartVoidWithFormatting_quiet
                 | exact handleBodyStartFormatting_quiet
                 | exact handleBodyStartInHead_quiet
                 | exact handleBodyStartBody_quiet
                 | exact handleBodyStartBr_quiet
                 | exact handleBodyStartButton_quiet
                 | exact handleBodyStartTableParseError_quiet
                 | exact handleBodyStartColOrFrame_quiet
                 | exact handleBodyStartStructureIgnored_quiet
                 | exact handleBodyStartDdDt_quiet
                 | exact handleBodyStartForm_quiet
                 | exact handleBodyStartFrameset_quiet
                 | exact handleBodyStartHeading_quiet
                 | exact handleBodyStartHead_quiet
                 | exact handleBodyStartHr_quiet
                 | exact handleBodyStartHtml_quiet
                 | exact handleBodyStartImage_quiet
                 | exact handleBodyStartInput_quiet
                 | exact handleBodyStartLi_quiet
                 | exact handleBodyStartPreListing_quiet
                 | exact handleBodyStartMath_quiet
                 | exact handleBodyStartOptgroup_quiet
                 | exact handleBodyStartOption_quiet
                 | exact handleBodyStartParagraph_quiet
                 | exact handleBodyStartSimpleVoid_quiet
                 | exact handleBodyStartPlaintextXmp_quiet
                 | exact handleBodyStartRbRtc_quiet
                 | exact handleBodyStartRpRt_quiet
                 | exact handleBodyStartSelect_quiet
                 | exact handleBodyStartSvg_quiet
                 | exact handleBodyStartTable_quiet
                 | exact handleBodyStartTextarea_quiet ]|]).
  apply Forall_nil_2.
Qed.

Lemma BODY_END_HANDLERS_quiet :
  Forall (fun e => forall t, keeps (snd e t)) (BODY_END_HANDLERS K).
Proof.
  unfold BODY_END_HANDLERS.
  repeat (apply Forall_cons; split;
          [cbn [snd];
           first [ exact handleBodyEndBlock_quiet
                 | exact handleBodyEndAppletLike_quiet
                 | exact handleBodyEndBody_quiet
                 | exact handleBodyEndDdDt_quiet
                 | exact handleBodyEndForm_quiet
                 | exact handleBodyEndHeading_quiet
                 | exact handleBodyEndHtml_quiet
                 | exact handleBodyEndLi_quiet
                 | exact handleBodyEndP_quiet
                 | exact handleBodyEndTemplate_quiet ]|]).
  apply Forall_nil_2.
Qed.

Lemma handleTagInBody_quiet t : keeps (handleTagInBody K t).
Proof.
  unfold handleTagInBody. intros st r st' H Hl.
  destruct (kind t).
  - destruct (handlerFor (BODY_START_HANDLERS K) (tagName t)) as [h|] eqn:Hh.
    + eapply (handlerFor_quiet _ _ _ BODY_START_HANDLERS_quiet Hh); eauto.
    + eapply handleBodyStartDefault_quiet; eauto.
  - cbv zeta in H. destruct (str_eqb (tagName t) (lit "br")).
    { eapply handleBodyStartBr_quiet; [exact H|]. auto with quiet. }
    destruct (FORMATTING_ELEMENTS K (tagName t)); [discriminate H|].
    destruct (handlerFor (BODY_END_HANDLERS K) (tagName t)) as [h|] eqn:Hh.
    + eapply (handlerFor_quiet _ _ _ BODY_END_HANDLERS_quiet Hh); eauto.
    + crack H; solve_quiet.
Qed.

Lemma handleCharactersInBody_quiet d : keeps (handleCharactersInBody K d).
Proof. body handleCharactersInBody. Qed.
Lemma handleCommentInBody_quiet d : keeps (handleCommentInBody d).
Proof. body handleCommentInBody. Qed.
Lemma eofInTemplate_quiet t : keeps (eofInTemplate t).
Proof. body eofInTemplate. Qed.
Lemma handleEofInBody_quiet t : keeps (handleEofInBody t).
Proof.
  unfold handleEofInBody. intros st r st' H Hl.
  destruct (templateModes st); [crack H; solve_quiet|].
  eapply eofInTemplate_quiet; eauto.
Qed.

Lemma modeInBody_quiet token : keeps (modeInBody K token).
Proof.
  unfold modeInBody. intros st r st' H Hl. destruct token.
  - eapply handleTagInBody_quiet; eauto.
  - eapply handleCharactersInBody_quiet; eauto.
  - eapply handleCommentInBody_quiet; eauto.
  - crack H; solve_quiet.
  - eapply handleEofInBody_quiet; eauto.
Qed.

Hint Resolve modeInitial_quiet modeBeforeHtml_quiet modeBeforeHead_quiet
  modeInHead_quiet modeInBody_quiet : quiet.

Lemma modeInHeadNoscript_quiet token : keeps (modeInHeadNoscript K token).
Proof. unfold modeInHeadNoscript. handler. Qed.

Lemma modeAfterHead_quiet token : keeps (modeAfterHead K token).
Proof. unfold modeAfterHead, bodyThenInBody. handler. Qed.

Lemma modeText_quiet token : keeps (modeText K token).
Proof. unfold modeText. handler. Qed.

Lemma modeAfterBody_quiet token : keeps (modeAfterBody K token).
Proof. unfold modeAfterBody, errorThenInBody. handler. Qed.

Lemma modeAfterAfterBody_quiet token : keeps (modeAfterAfterBody K token).
Proof. unfold modeAfterAfterBody, errorThenInBody. handler. Qed.

Hint Resolve modeInHeadNoscript_quiet modeAfterHead_quiet modeText_quiet
  modeAfterBody_quiet modeAfterAfterBody_quiet eofInTemplate_quiet
  : quiet.

Lemma modeInSelect_quiet token : keeps (modeInSelect K token).
Proof. unfold modeInSelect. handler. Qed.

Lemma modeInTemplate_quiet token : keeps (modeInTemplate K token).
Proof. unfold modeInTemplate, switchTemplateMode. handler. Qed.

Lemma modeHandler_quiet m token : keeps (modeHandler K m token).
Proof.
  intros st r st' H Hl.
  destruct m; cbn [modeHandler] in H; try discriminate H;
    eauto using modeInSelect_quiet, modeInTemplate_quiet with quiet.
Qed.

Lemma foreignEndTagScan_quiet nameLower token m stack :
  forall first, keeps (foreignEndTagScan nameLower token m first stack).
Proof.
  induction stack as [|node stack IH]; intros first st r st' H Hl.
  - cbn [foreignEndTagScan] in H. crack H. assumption.
  - cbn [foreignEndTagScan] in H. cbv zeta in H.
    destruct (str_eqb _ nameLower).
    + crack H; solve_quiet.
    + destruct (nsIsHTMLOrNull _).
      * crack H. solve_quiet.
      * eapply IH; [exact H|]. solve_quiet.
Qed.

Lemma quiet_fold_parseError (raw : jsstring) c :
  forall st,
    quiet st ->
    quiet (List.fold_left
              (fun st ch => if ch =? 0 then parseError c None st else st)
              raw st).
Proof.
  induction raw as [|ch raw IH]; intros st Hl; [exact Hl|].
  cbn [List.fold_left]. apply IH. solve_quiet.
Qed.

Hint Resolve quiet_fold_parseError foreignEndTagScan_quiet
  modeHandler_quiet : quiet.

Lemma processForeignContent_quiet token :
  keeps (processForeignContent K token).
Proof. unfold processForeignContent. handler. Qed.

Lemma dispatch_quiet token force : keeps (dispatch K token force).
Proof.
  unfold dispatch. intros st r st' H Hl.
  destruct (force || _).
  { eapply modeHandler_quiet; eauto. }
  apply bind_Ok in H as (useForeign & _ & H).
  destruct useForeign.
  { eapply processForeignContent_quiet; eauto. }
  crack H; solve_quiet.
Qed.

Lemma processLoop_quiet fuel :
  forall token force st r st',
    processLoop K fuel token force st = Ok (r, st') ->
    quiet st -> quiet st'.
Proof.
  induction fuel as [|fuel IH]; intros token force st r st' H Hl;
    [discriminate H|].
  cbn [processLoop] in H.
  apply bind_Ok in H as ([res st1] & Hd & H).
  pose proof (dispatch_quiet _ _ _ _ _ Hd Hl) as Hl1.
  destruct res as [|m tokenOverride forceHtml].
  - injection H as _ <-. solve_quiet.
  - eapply IH; [exact H|]. solve_quiet.
Qed.

Lemma processToken_quiet fuel token st r st' :
  processToken K fuel token st = Ok (r, st') -> quiet st -> quiet st'.
Proof.
  unfold processToken. intros H Hl.
  destruct token; try (eapply processLoop_quiet; eauto; fail).
  crack H; solve_quiet.
Qed.

Lemma processCharacters_quiet fuel data st r st' :
  processCharacters K fuel data st = Ok (r, st') -> quiet st -> quiet st'.
Proof. apply processToken_quiet. Qed.

(** The state the parser starts from. *)
Lemma initialState_quiet fragmentContext iframeSrcdoc :
  quiet (initialState fragmentContext iframeSrcdoc false).
Proof.
  unfold initialState, quiet.
  destruct (newNode _ NoData HTML [] []) as [document s].
  split; reflexivity.
Qed.

Lemma createTreeBuilder_quiet fragmentContext iframeSrcdoc :
  quiet (createTreeBuilder K fragmentContext iframeSrcdoc false).
Proof.
  unfold createTreeBuilder, createElement. cbv zeta.
  pose proof (initialState_quiet fragmentContext iframeSrcdoc) as Hl.
  destruct fragmentContext as [ctx|]; [|exact Hl].
  destruct (createNode _ _ _ _ _) as [root st1] eqn:Hc.
  assert (Hl1 : quiet (pushOpen root
                 (set_nodes (appendChild (document st1) root (nodes st1))
                            st1))) by solve_quiet.
  apply quiet_set_framesetOk, quiet_set_mode.
  destruct (match ctxNamespace ctx with
            | Some ns => truthy ns && negb (str_eqb ns (lit "html"))
            | None => false
            end); [|exact Hl1].
  match goal with
  | |- context [createNode ?n ?d ?ns ?a ?st0] =>
      destruct (createNode n d ns a st0) as [contextElement st2] eqn:Hc2
  end.
  solve_quiet.
Qed.

End Builder.

End QuietFacts.

(** ** The errors of a parse *)

Module ParserExtra.

Import Dom Tokens TreeBuilder Parser ExampleConstants QuietFacts.



End ParserExtra.
